(** * Lease coordination, staged take-profit execution and ledger reconciliation

    A shallow embedding of

    - [src/services/partialTakeProfitExecutor.ts]
      ([DistributedLock], [PartialTakeProfitExecutor.executeCheck]) and
    - [src/scheduler/dataConsistencyCheck.ts] ([DataConsistencyChecker]),

    together with the properties the specification states about them, and of

    - [PartialTakeProfitMonitor], the caller of [executeCheck],
    - [src/utils/emailAlert.ts] ([EmailAlertService]) and
    - the scoring functions of [src/strategies/strategyUtils.ts],

    with further properties read off the code.

    Conventions of the embedding.

    - Instants are integers: milliseconds since the epoch ([Z]).  The ISO
      strings the code stores in [updated_at] / [timestamp] columns are
      instants of that clock, and SQLite's [julianday('now')] reads the same
      clock as JavaScript's [Date.now()].
    - SQLite's [julianday] and the sizes the consistency checker compares are
      IEEE 754 binary64 numbers: module [Double] rounds a rational to the
      nearest double, ties to even.  The age test of the expiry [DELETE] and
      the tolerance test of [checkConsistency] are computed there, because
      their outcome at the threshold is decided by the rounding.  Magnitudes
      stay within the normal range of binary64; underflow, overflow and NaN
      are outside the embedding.
    - The prices of [executeCheck] and the indicators of the strategies are
      rationals ([Q]): the R-multiple and its thresholds come from
      collaborators, and nothing stated here turns on the rounding of a
      price.
    - An [await]ed dependency either returns or throws: [Res].  Code runs in a
      state-and-exception monad, so [try]/[catch]/[finally] are combinators.
    - Local store tables are lists of rows, except [system_config], whose
      [key] column is unique, which is a finite map from key to row.
    - Within one call the clock stands still from one store statement to the
      next; the stage executor may move it.  Where calls interleave
      ([Interleaving]) the clock moves between any two suspension points, and
      a call keeps the instants it read on entry. *)

From Stdlib Require Import ZArith QArith Qabs Qminmax Qpower Qround String List Bool Lia Lqa.
From stdpp Require Import gmap strings list.

Local Open Scope string_scope.
Local Open Scope Z_scope.

(* ===================================================================== *)
(** * Results, and the state-and-exception monad                          *)
(* ===================================================================== *)

Inductive Res (A : Type) : Type :=
| Ok (a : A)
| Throw (message : string).
Arguments Ok {A} a.
Arguments Throw {A} message.

Definition M (S A : Type) : Type := S -> Res A * S.

Definition ret {S A} (a : A) : M S A := fun s => (Ok a, s).

Definition throw {S A} (message : string) : M S A := fun s => (Throw message, s).

Definition bind {S A B} (m : M S A) (k : A -> M S B) : M S B :=
  fun s =>
    match m s with
    | (Ok a, s') => k a s'
    | (Throw e, s') => (Throw e, s')
    end.

Notation "'let*' x ':=' m 'in' k" := (bind m (fun x => k))
  (at level 10, x pattern, m at level 100, k at level 200).
Notation "m ';;' k" := (bind m (fun _ => k))
  (at level 100, k at level 200, right associativity).

(** [try { m } catch (e) { h e }] *)
Definition try_catch {S A} (m : M S A) (h : string -> M S A) : M S A :=
  fun s =>
    match m s with
    | (Ok a, s') => (Ok a, s')
    | (Throw e, s') => h e s'
    end.

(** [try { m } finally { f }]: [f] runs on both exits; when [f] itself throws,
    its exception replaces the outcome of [m]. *)
Definition try_finally {S A} (m : M S A) (f : M S unit) : M S A :=
  fun s =>
    match m s with
    | (r, s') =>
        match f s' with
        | (Ok _, s'') => (r, s'')
        | (Throw e, s'') => (Throw e, s'')
        end
    end.

(** [for (const x of xs) { body x }] *)
Fixpoint for_of {S A} (xs : list A) (body : A -> M S unit) : M S unit :=
  match xs with
  | [] => ret tt
  | x :: rest => body x ;; for_of rest body
  end.

Definition get {S} : M S S := fun s => (Ok s, s).
Definition modify {S} (f : S -> S) : M S unit := fun s => (Ok tt, f s).

(** The promise [m] resolves from every state: [m] throws nothing. *)
Definition never_throws {S A} (m : M S A) : Prop :=
  forall s, exists a s', m s = (Ok a, s').

(* ===================================================================== *)
(** * Binary64 numbers                                                    *)
(* ===================================================================== *)

(** A finite double is a rational, and an arithmetic operation on doubles is
    the exact operation followed by rounding to 53 significant bits, to the
    nearest double, ties to the even significand. *)

Module Double.
Local Open Scope Q_scope.

(** The integer nearest to [q]; a tie goes to the even one. *)
Definition nearest_even (q : Q) : Z :=
  let f := Qfloor q in
  match Qcompare (q - inject_Z f) (1 # 2) with
  | Lt => f
  | Gt => (f + 1)%Z
  | Eq => if Z.even f then f else (f + 1)%Z
  end.

(** For [0 < q], the [e] with [2 ^ e <= q < 2 ^ (e + 1)]. *)
Definition exponent (q : Q) : Z :=
  let e := (Z.log2 (Qnum q) - Z.log2 (Zpos (Qden q)))%Z in
  if Qle_bool (2 ^ e) q then e else (e - 1)%Z.

(** A positive rational, rounded to 53 significant bits. *)
Definition round_pos (q : Q) : Q :=
  let ulp := 2 ^ (exponent q - 52) in
  inject_Z (nearest_even (q / ulp)) * ulp.

(** Round to nearest, ties to even; the result is in lowest terms. *)
Definition round (q : Q) : Q :=
  Qred match Qnum q with
       | Z0 => 0
       | Zpos _ => round_pos q
       | Zneg _ => - round_pos (- q)
       end.

(** [a - b], [a * b] and [a / b] on doubles. *)
Definition sub (a b : Q) : Q := round (a - b).
Definition mul (a b : Q) : Q := round (a * b).
Definition div (a b : Q) : Q := round (a / b).

End Double.

(** [parseFloat(text)], and a decimal literal of the source: the double
    nearest to the decimal. *)
Definition parseFloat (decimal : Q) : Q := Double.round decimal.

(* ===================================================================== *)
(** * The local store                                                     *)
(* ===================================================================== *)

Module Store.

(** A row of [system_config]; the [key] column is the map key. *)
Record LockRow : Type := mkLockRow {
  value : string;
  updated_at : Z
}.

(** A row of [partial_take_profit_history]. *)
Record HistoryRow : Type := mkHistoryRow {
  h_symbol : string;
  h_stage : Z;
  h_trigger_price : Q;
  h_timestamp : Z;
  h_status : string
}.

(** A row of [positions]. *)
Record PositionRow : Type := mkPositionRow {
  symbol : string;
  side : string;
  entry_price : Q;
  stop_loss : Q;
  quantity : Q
}.

(** A row of [price_orders]. *)
Record PriceOrderRow : Type := mkPriceOrderRow {
  o_id : Z;
  o_order_id : string;
  o_symbol : string;
  o_side : string;
  o_type : string;
  o_status : string;
  o_updated_at : Z
}.

Record Db : Type := mkDb {
  system_config : gmap string LockRow;
  partial_take_profit_history : list HistoryRow;
  positions : list PositionRow;
  price_orders : list PriceOrderRow
}.

Definition with_system_config (f : gmap string LockRow -> gmap string LockRow)
    (d : Db) : Db :=
  mkDb (f (system_config d)) (partial_take_profit_history d) (positions d)
       (price_orders d).

Definition with_positions (f : list PositionRow -> list PositionRow) (d : Db) : Db :=
  mkDb (system_config d) (partial_take_profit_history d) (f (positions d))
       (price_orders d).

Definition with_price_orders (f : list PriceOrderRow -> list PriceOrderRow)
    (d : Db) : Db :=
  mkDb (system_config d) (partial_take_profit_history d) (positions d)
       (f (price_orders d)).

Definition with_history (f : list HistoryRow -> list HistoryRow) (d : Db) : Db :=
  mkDb (system_config d) (f (partial_take_profit_history d)) (positions d)
       (price_orders d).

(** ** Statements on [system_config] *)

(** The days from noon of 24 November 4714 BC to an instant. *)
Definition days (t : Z) : Q := inject_Z (t + 210866760000000) / 86400000.

(** SQLite's [julianday] of an instant.  SQLite holds an instant as the
    integer [iJD], the milliseconds since noon of 24 November 4714 BC, and
    returns [iJD / 86400000.0]. *)
Definition julianday (t : Z) : Q :=
  Double.div (inject_Z (t + 210866760000000)) 86400000.

(** The age test of the expiry [DELETE]:
    [(julianday('now') - julianday(updated_at)) * 86400 >= seconds],
    on doubles. *)
Definition expired (seconds : Z) (now : Z) (r : LockRow) : bool :=
  Qle_bool (inject_Z seconds)
           (Double.mul (Double.sub (julianday now) (julianday (updated_at r))) 86400).

(** The instants from 1970 into the year 6771: their Julian day numbers
    lie between [2 ^ 21] and [2 ^ 22], where doubles are [2 ^ -31] days
    (0.04 ms) apart. *)
Definition datable (t : Z) : Prop := 0 <= t < 151521105600000.

(** [DELETE FROM system_config WHERE key = ? AND <age> >= ?] *)
Definition delete_expired (key : string) (seconds now : Z)
    (t : gmap string LockRow) : gmap string LockRow :=
  match t !! key with
  | Some r => if expired seconds now r then delete key t else t
  | None => t
  end.

(** [SELECT value, updated_at FROM system_config WHERE key = ?] *)
Definition select_lock (key : string) (t : gmap string LockRow) : option LockRow :=
  t !! key.

(** [UPDATE system_config SET updated_at = ? WHERE key = ? AND value = ?] *)
Definition refresh_lock (now : Z) (key holder : string)
    (t : gmap string LockRow) : gmap string LockRow :=
  match t !! key with
  | Some r => if String.eqb (value r) holder
              then <[key := mkLockRow (value r) now]> t else t
  | None => t
  end.

(** [INSERT INTO system_config (key, value, updated_at) SELECT ?, ?, ?
     WHERE NOT EXISTS (SELECT 1 FROM system_config WHERE key = ?)] *)
Definition insert_lock_if_absent (key holder : string) (now : Z)
    (t : gmap string LockRow) : gmap string LockRow :=
  match t !! key with
  | Some _ => t
  | None => <[key := mkLockRow holder now]> t
  end.

(** [DELETE FROM system_config WHERE key = ?] *)
Definition delete_lock (key : string) (t : gmap string LockRow) : gmap string LockRow :=
  delete key t.

(** ** Statements on [partial_take_profit_history] *)

Definition is_completed (h : HistoryRow) : bool := String.eqb (h_status h) "completed".

(** [SELECT COUNT( * ) ... WHERE symbol = ? AND stage = ? AND timestamp > ?
     AND status = 'completed'] *)
Definition count_recent (sym : string) (stage cutoff : Z) (hs : list HistoryRow) : nat :=
  length (List.filter (fun h => String.eqb (h_symbol h) sym && (h_stage h =? stage)
                             && (cutoff <? h_timestamp h) && is_completed h) hs).

(** [SELECT COUNT( * ) ... WHERE symbol = ? AND stage = <n> AND status = 'completed'] *)
Definition count_completed (sym : string) (stage : Z) (hs : list HistoryRow) : nat :=
  length (List.filter (fun h => String.eqb (h_symbol h) sym && (h_stage h =? stage)
                             && is_completed h) hs).

(** The row of least [stage] (the earliest inserted among equals). *)
Fixpoint least_stage (hs : list HistoryRow) : option HistoryRow :=
  match hs with
  | [] => None
  | h :: rest =>
      match least_stage rest with
      | Some h' => if h_stage h' <? h_stage h then Some h' else Some h
      | None => Some h
      end
  end.

(** [SELECT stage, trigger_price, ... WHERE symbol = ? AND status = 'completed'
     ORDER BY stage ASC LIMIT 1] *)
Definition first_completed (sym : string) (hs : list HistoryRow) : option HistoryRow :=
  least_stage (List.filter (fun h => String.eqb (h_symbol h) sym && is_completed h) hs).

(** ** Statements on [positions] and [price_orders] *)

(** [SELECT ... FROM positions WHERE quantity != 0] *)
Definition open_positions (ps : list PositionRow) : list PositionRow :=
  List.filter (fun p => negb (Qeq_bool (quantity p) 0)) ps.

(** [DELETE FROM positions WHERE symbol = ? AND side = ?] *)
Definition delete_position (sym sd : string) (ps : list PositionRow) : list PositionRow :=
  List.filter (fun p => negb (String.eqb (symbol p) sym && String.eqb (side p) sd)) ps.

Definition is_active (o : PriceOrderRow) : bool := String.eqb (o_status o) "active".

(** [SELECT id, order_id, symbol, side, type FROM price_orders WHERE status = 'active'] *)
Definition active_orders (os : list PriceOrderRow) : list PriceOrderRow :=
  List.filter is_active os.

(** [SELECT order_id FROM price_orders WHERE symbol = ? AND side = ? AND status = 'active'] *)
Definition active_orders_of (sym sd : string) (os : list PriceOrderRow) : list string :=
  map o_order_id
      (List.filter (fun o => String.eqb (o_symbol o) sym && String.eqb (o_side o) sd
                             && is_active o) os).

(** [UPDATE price_orders SET status = ?, updated_at = ? WHERE order_id = ?] *)
Definition update_order_status (status : string) (now : Z) (order_id : string)
    (os : list PriceOrderRow) : list PriceOrderRow :=
  map (fun o => if String.eqb (o_order_id o) order_id
                then mkPriceOrderRow (o_id o) (o_order_id o) (o_symbol o) (o_side o)
                                     (o_type o) status now
                else o) os.

End Store.

Import Store.

(* ===================================================================== *)
(** * The world the two services run in                                   *)
(* ===================================================================== *)

(** Calls that leave the process, in the order they were made. *)
Inductive Effect : Type :=
| ExecutorCall (symbol stage : string)
| CancelOrderCall (order_id : string).

Record World : Type := mkWorld {
  db : Db;
  now : Z;             (** the clock, in milliseconds *)
  calls : nat;         (** store statements issued so far *)
  effects : list Effect
}.

Definition with_db (f : Db -> Db) (w : World) : World :=
  mkWorld (f (db w)) (now w) (calls w) (effects w).

Definition count_call (w : World) : World :=
  mkWorld (db w) (now w) (S (calls w)) (effects w).

Definition emit (e : Effect) (w : World) : World :=
  mkWorld (db w) (now w) (calls w) (effects w ++ [e]).

(** A position as the exchange reports it: [size] is the decimal the text
    [p.size || '0'] denotes. *)
Record ExchangePosition : Type := mkExchangePosition {
  contract : string;
  size : Q
}.

(** The collaborators of the two services.  The awaited ones return or throw,
    and may depend on the world they are called in. *)
Record Env : Type := mkEnv {
  (** the store rejects its [n]-th statement *)
  dbFault : nat -> bool;
  (** [exchangeClient.normalizeContract] *)
  normalizeContract : string -> string;
  (** [exchangeClient.getFuturesTicker(contract)], read as
      [parseFloat(ticker.last || '0')] *)
  getFuturesTicker : World -> string -> Res Q;
  (** [exchangeClient.getPositions()] *)
  getPositions : World -> Res (list ExchangePosition);
  (** [exchangeClient.cancelOrder(orderId)] *)
  cancelOrder : World -> string -> Res unit;
  Volatility : Type;
  (** [analyzeMarketVolatility(symbol, "15m")] *)
  analyzeMarketVolatility : World -> string -> Res Volatility;
  (** [adjustRMultipleForVolatility(rMultiple, volatility)] *)
  adjustRMultipleForVolatility : Q -> Volatility -> Q;
  (** [calculateRMultiple(entryPrice, currentPrice, stopLoss, side)] *)
  calculateRMultiple : Q -> Q -> Q -> string -> Q;
  (** [strategyParams.partialTakeProfit.stage<n>.rMultiple] *)
  stage1_rMultiple : Q;
  stage2_rMultiple : Q;
  (** [partialTakeProfitTool.execute({symbol, stage})], read as [result.success] *)
  partialTakeProfitTool_execute : string -> string -> World -> Res bool * World
}.

Definition no_db_faults (E : Env) : Prop := forall n, dbFault E n = false.

(** Two worlds that differ at most in the count of statements issued. *)
Definition same_store (w w' : World) : Prop :=
  db w' = db w /\ now w' = now w /\ effects w' = effects w.

(** Two worlds whose stores differ at most in the [system_config] row of [key]. *)
Definition same_but_lease (key : string) (w w' : World) : Prop :=
  (forall k, k <> key -> system_config (db w') !! k = system_config (db w) !! k) /\
  partial_take_profit_history (db w') = partial_take_profit_history (db w) /\
  positions (db w') = positions (db w) /\
  price_orders (db w') = price_orders (db w) /\
  now w' = now w /\ effects w' = effects w.

Section Statements.
Context (E : Env).

(** [await dbClient.execute(...)]: one statement, atomic on the store. *)
Definition dbExecute {A} (q : Db -> A * Db) : M World A :=
  fun w =>
    if dbFault E (calls w) then (Throw "SQLITE_ERROR", count_call w)
    else let (a, d) := q (db w) in (Ok a, count_call (with_db (fun _ => d) w)).

Definition dbQuery {A} (q : Db -> A) : M World A := dbExecute (fun d => (q d, d)).

Definition dbUpdate (u : Db -> Db) : M World unit := dbExecute (fun d => (tt, u d)).

(** [Date.now()] *)
Definition date_now : M World Z := fun w => (Ok (now w), w).
End Statements.

(* ===================================================================== *)
(** * [class DistributedLock]                                             *)
(* ===================================================================== *)

Module DistributedLock.
Section DistributedLock.
Context (E : Env).

Definition LOCK_TIMEOUT_MS : Z := 30000.

Definition tryAcquire (key holder : string) : M World bool :=
  try_catch
    (let* now := date_now in
     let lockTimeoutSeconds := LOCK_TIMEOUT_MS / 1000 in
     (* 1. clear an expired lock *)
     dbUpdate E (with_system_config (delete_expired key lockTimeoutSeconds now)) ;;
     (* 2. is it our own lock? *)
     let* checkResult := dbQuery E (fun d => select_lock key (system_config d)) in
     match checkResult with
     | Some row =>
         if String.eqb (value row) holder then
           dbUpdate E (with_system_config (refresh_lock now key holder)) ;;
           ret true
         else ret false
     | None =>
         (* 3. insert only when no row exists *)
         let* inserted :=
           try_catch
             (dbUpdate E (with_system_config (insert_lock_if_absent key holder now)) ;;
              ret true)
             (fun _ => ret false) in
         if negb inserted then ret false
         else
           (* 4. read back *)
           let* verifyResult := dbQuery E (fun d => select_lock key (system_config d)) in
           match verifyResult with
           | Some row => if String.eqb (value row) holder then ret true else ret false
           | None => ret false
           end
     end)
    (fun _ => ret false).

Definition release (key holder : string) : M World unit :=
  try_catch
    (let* checkResult := dbQuery E (fun d => select_lock key (system_config d)) in
     match checkResult with
     | Some row =>
         if String.eqb (value row) holder
         then dbUpdate E (with_system_config (delete_lock key))
         else ret tt
     | None => ret tt
     end)
    (fun _ => ret tt).

Definition hasRecentExecution (symbol : string) (stage windowSeconds : Z) : M World bool :=
  try_catch
    (let* now := date_now in
     let cutoffTime := now - windowSeconds * 1000 in
     let* count := dbQuery E (fun d => count_recent symbol stage cutoffTime
                                         (partial_take_profit_history d)) in
     ret (0 <? count)%nat)
    (fun _ => ret false).

End DistributedLock.
End DistributedLock.

(* ===================================================================== *)
(** * JavaScript string operations the code uses                          *)
(* ===================================================================== *)

(** [s.includes(pattern)] *)
Definition includes (pattern s : string) : bool :=
  match String.index 0 pattern s with
  | Some _ => true
  | None => false
  end.

(** [s.replace(pattern, replacement)] with a string pattern: the first
    occurrence only. *)
Definition replace (pattern replacement s : string) : string :=
  match String.index 0 pattern s with
  | Some i =>
      String.substring 0 i s ++ replacement ++
      String.substring (i + String.length pattern)
                       (String.length s - (i + String.length pattern)) s
  | None => s
  end.

(* ===================================================================== *)
(** * [class PartialTakeProfitExecutor]                                   *)
(* ===================================================================== *)

Module PartialTakeProfitExecutor.

(** An element of [details]. *)
Record Detail : Type := mkDetail {
  d_symbol : string;
  d_stage : Z;
  d_result : string
}.

(** The local variables of [executeCheck] that outlive the [try] block. *)
Record Locals : Type := mkLocals {
  executed : list Detail;
  executedCount : nat;
  skippedCount : nat
}.

(** The object [executeCheck] resolves to. *)
Record CheckResult : Type := mkCheckResult {
  success : bool;
  r_executed : nat;
  r_skipped : nat;
  details : list Detail
}.

Definition St : Type := Locals * World.

Definition lift {A} (m : M World A) : M St A :=
  fun st => let (r, w') := m (snd st) in (r, (fst st, w')).

(** [skippedCount++; executed.push({ symbol, stage, result })] *)
Definition skip (symbol : string) (stage : Z) (result : string) : M St unit :=
  modify (fun st => (mkLocals (executed (fst st) ++ [mkDetail symbol stage result])
                              (executedCount (fst st)) (S (skippedCount (fst st))),
                     snd st)).

(** [executedCount++; executed.push({ symbol, stage, result })] *)
Definition count_executed (symbol : string) (stage : Z) (result : string) : M St unit :=
  modify (fun st => (mkLocals (executed (fst st) ++ [mkDetail symbol stage result])
                              (S (executedCount (fst st))) (skippedCount (fst st)),
                     snd st)).

(** [executed.push({ symbol, stage, result })] *)
Definition push (symbol : string) (stage : Z) (result : string) : M St unit :=
  modify (fun st => (mkLocals (executed (fst st) ++ [mkDetail symbol stage result])
                              (executedCount (fst st)) (skippedCount (fst st)),
                     snd st)).

(** Lines 233-260: the stop-loss the R-multiple is measured against.
    [firstStage] is the first row of the history query, when there is one. *)
Definition originalStopLoss (entryPrice stopLossPrice : Q)
    (firstStage : option HistoryRow) : Q :=
  match firstStage with
  | Some row =>
      let stage := h_stage row in
      let triggerPrice := h_trigger_price row in
      if (stage =? 1) && negb (Qle_bool triggerPrice 0)
      then (2 * entryPrice - triggerPrice)%Q
      else stopLossPrice
  | None => stopLossPrice
  end.

(** Line 263: [Math.abs(entryPrice - originalStopLoss)] *)
Definition riskDistance (entryPrice originalStopLoss : Q) : Q :=
  Qabs (entryPrice - originalStopLoss)%Q.

Section Executor.
Context (E : Env).

(** [await partialTakeProfitTool.execute({ symbol, stage })] *)
Definition execute (symbol stage : string) : M World bool :=
  fun w => partialTakeProfitTool_execute E symbol stage (emit (ExecutorCall symbol stage) w).

(** Lines 299-329 for stage 1 and lines 359-389 for stage 2: the body of
    the [try] that runs under the lease. *)
Definition underLease (symbol : string) (n : Z) (digit : string) : M St unit :=
  let* count := lift (dbQuery E (fun d => count_completed symbol n
                                           (partial_take_profit_history d))) in
  let stageExecuted := (0 <? count)%nat in
  if negb stageExecuted then
    let* result := lift (execute (replace "USDT" "" (replace "_USDT" "" symbol))
                                 digit) in
    if result
    then count_executed symbol n "success"
    else push symbol n "failed"
  else skip symbol n "already_executed".

(** Lines 277-334 for stage 1 and lines 337-394 for stage 2: the source
    repeats one block, with the stage number [n] (and its decimal [digit])
    changed.  The result is [true] when the block ended in [continue]. *)
Definition stageBlock (caller symbol side : string) (n : Z) (digit : string) : M St bool :=
  let lockKey := "partial_tp_" ++ symbol ++ "_" ++ side ++ "_stage" ++ digit in
  let* hasRecent := lift (DistributedLock.hasRecentExecution E symbol n 30) in
  if hasRecent then
    skip symbol n "recently_executed" ;;
    ret true
  else
    let* lockAcquired := lift (DistributedLock.tryAcquire E lockKey caller) in
    if negb lockAcquired then
      skip symbol n "lock_busy" ;;
      ret true
    else
      try_finally
        (underLease symbol n digit)
        (lift (DistributedLock.release E lockKey caller)) ;;
      ret false.

(** Lines 276-394: the two stage blocks, for one position. *)
Definition evaluateStages (caller symbol side : string) (currentR adjustedR1 adjustedR2 : Q)
    : M St unit :=
  let* continued :=
    if Qle_bool adjustedR1 currentR
    then stageBlock caller symbol side 1 "1"
    else ret false in
  if continued then ret tt
  else
    if Qle_bool adjustedR2 currentR
    then stageBlock caller symbol side 2 "2" ;; ret tt
    else ret tt.

(** Lines 262-275 and on: from the recovered stop-loss to the stages. *)
Definition evaluateFrom (caller : string) (pos : PositionRow) (currentPrice osl : Q)
    : M St unit :=
  if Qeq_bool (riskDistance (entry_price pos) osl) 0 then ret tt
  else
    let currentR := calculateRMultiple E (entry_price pos) currentPrice osl (side pos) in
    let* volatility :=
      lift (fun w => (analyzeMarketVolatility E w (symbol pos), w)) in
    let adjustedR1 := adjustRMultipleForVolatility E (stage1_rMultiple E) volatility in
    let adjustedR2 := adjustRMultipleForVolatility E (stage2_rMultiple E) volatility in
    evaluateStages caller (symbol pos) (side pos) currentR adjustedR1 adjustedR2.

(** Lines 209-395: the body of [for (const pos of dbPositions.rows)];
    returning early is [continue]. *)
Definition evaluatePosition (caller : string) (pos : PositionRow) : M St unit :=
  let symbol := symbol pos in
  let entryPrice := entry_price pos in
  let stopLossPrice := stop_loss pos in
  if Qle_bool stopLossPrice 0 then ret tt
  else
    let* fetched :=
      try_catch
        (let contract := normalizeContract E symbol in
         let* last := lift (fun w => (getFuturesTicker E w contract, w)) in
         ret (Some last))
        (fun _ => ret None) in
    match fetched with
    | None => ret tt
    | Some currentPrice =>
        if Qle_bool currentPrice 0 then ret tt
        else
          let* osl :=
            try_catch
              (let* historyResult :=
                 lift (dbQuery E (fun d => first_completed symbol
                                             (partial_take_profit_history d))) in
               ret (originalStopLoss entryPrice stopLossPrice historyResult))
              (fun _ => ret stopLossPrice) in
          evaluateFrom caller pos currentPrice osl
    end.

(** Lines 192-406: the [try] block. *)
Definition tryBlock (caller : string) : M St CheckResult :=
  let* dbPositions := lift (dbQuery E (fun d => open_positions (positions d))) in
  match dbPositions with
  | [] => ret (mkCheckResult true 0 0 [])
  | _ =>
      for_of dbPositions (evaluatePosition caller) ;;
      let* st := get in
      ret (mkCheckResult true (executedCount (fst st)) (skippedCount (fst st))
                         (executed (fst st)))
  end.

(** Lines 407-415: the [catch] block. *)
Definition catchBlock (_ : string) : M St CheckResult :=
  let* st := get in
  ret (mkCheckResult false (executedCount (fst st)) (skippedCount (fst st))
                     (executed (fst st))).

Definition executeCheck (caller : string) : M World CheckResult :=
  fun w =>
    let (r, st) := try_catch (tryBlock caller) catchBlock (mkLocals [] 0 0, w) in
    (r, snd st).

(** ** What a stage block finds on entry *)

Definition stageKey (symbol side digit : string) : string :=
  "partial_tp_" ++ symbol ++ "_" ++ side ++ "_stage" ++ digit.

(** A [completed] entry of the stage lies within the trailing 30 seconds. *)
Definition recently (symbol : string) (n : Z) (w : World) : bool :=
  (0 <? count_recent symbol n (now w - 30 * 1000) (partial_take_profit_history (db w)))%nat.

(** The lease of the stage is held by another holder and has not expired. *)
Definition busy (key caller : string) (w : World) : bool :=
  match system_config (db w) !! key with
  | Some row => negb (expired 30 (now w) row) && negb (String.eqb (value row) caller)
  | None => false
  end.

(** The stage has a [completed] entry. *)
Definition already (symbol : string) (n : Z) (w : World) : bool :=
  (0 <? count_completed symbol n (partial_take_profit_history (db w)))%nat.

(** [locals] after [skip], [count_executed] and [push]. *)
Definition skipped (l : Locals) (symbol : string) (n : Z) (result : string) : Locals :=
  mkLocals (executed l ++ [mkDetail symbol n result]) (executedCount l) (S (skippedCount l)).

Definition counted (l : Locals) (symbol : string) (n : Z) (result : string) : Locals :=
  mkLocals (executed l ++ [mkDetail symbol n result]) (S (executedCount l)) (skippedCount l).

Definition pushed (l : Locals) (symbol : string) (n : Z) (result : string) : Locals :=
  mkLocals (executed l ++ [mkDetail symbol n result]) (executedCount l) (skippedCount l).

(** The lease row of [key] does not name [caller]. *)
Definition released (key caller : string) (w : World) : Prop :=
  value <$> system_config (db w) !! key <> Some caller.

(** ** The pass as the specification words it *)

(** Stages evaluated one by one: the outcome of stage 1 does not end the
    evaluation of the position. *)
Definition evaluateStages_each (caller symbol side : string)
    (currentR adjustedR1 adjustedR2 : Q) : M St unit :=
  (if Qle_bool adjustedR1 currentR
   then stageBlock caller symbol side 1 "1" ;; ret tt
   else ret tt) ;;
  (if Qle_bool adjustedR2 currentR
   then stageBlock caller symbol side 2 "2" ;; ret tt
   else ret tt).

(** An exception in the evaluation of one position is caught at the
    boundary of that position, and the pass goes on. *)
Definition evaluatePosition_guarded (caller : string) (pos : PositionRow) : M St unit :=
  try_catch (evaluatePosition caller pos) (fun _ => ret tt).

Definition executeCheck_isolating (caller : string) : M World CheckResult :=
  fun w =>
    let (r, st) :=
      try_catch
        (let* dbPositions := lift (dbQuery E (fun d => open_positions (positions d))) in
         match dbPositions with
         | [] => ret (mkCheckResult true 0 0 [])
         | _ =>
             for_of dbPositions (evaluatePosition_guarded caller) ;;
             let* st := get in
             ret (mkCheckResult true (executedCount (fst st)) (skippedCount (fst st))
                                (executed (fst st)))
         end)
        catchBlock (mkLocals [] 0 0, w) in
    (r, snd st).

End Executor.

(** [details] of a resolved call. *)
Definition details_of (r : Res CheckResult * World) : list Detail :=
  match fst r with
  | Ok result => details result
  | Throw _ => []
  end.

End PartialTakeProfitExecutor.

(* ===================================================================== *)
(** * [class DataConsistencyChecker]                                      *)
(* ===================================================================== *)

Module DataConsistencyChecker.

Record OrphanPosition : Type := mkOrphanPosition {
  op_symbol : string;
  op_side : string;
  dbSize : Q;
  exchangeSize : Q
}.

Record OrphanPriceOrder : Type := mkOrphanPriceOrder {
  oo_id : Z;
  oo_order_id : string;
  oo_symbol : string;
  oo_type : string
}.

Record TestDataPosition : Type := mkTestDataPosition {
  td_symbol : string;
  td_side : string
}.

Record MissingPosition : Type := mkMissingPosition {
  mp_contract : string;
  mp_size : Q
}.

Record InconsistentData : Type := mkInconsistentData {
  orphanPositions : list OrphanPosition;
  orphanPriceOrders : list OrphanPriceOrder;
  testDataPositions : list TestDataPosition;
  missingPositions : list MissingPosition
}.

(** The literal [0.0001], a double. *)
Definition epsilon : Q := parseFloat (1 # 10000).

(** Lines 154-156. *)
Definition isTestData (symbol : string) : bool :=
  includes "_TEST" symbol || includes "test" symbol || includes "TEST" symbol.

(** [ORDER BY symbol]: a stable insertion sort on the byte order of strings. *)
Fixpoint insert_by_symbol (p : PositionRow) (sorted : list PositionRow) : list PositionRow :=
  match sorted with
  | [] => [p]
  | q :: rest =>
      if String.leb (symbol p) (symbol q) then p :: q :: rest
      else q :: insert_by_symbol p rest
  end.

Definition order_by_symbol (ps : list PositionRow) : list PositionRow :=
  fold_right insert_by_symbol [] ps.

(** [exchangePositions.find(p => p.contract === contract)] *)
Definition find_contract (c : string) (eps : list ExchangePosition) : option ExchangePosition :=
  List.find (fun p => String.eqb (contract p) c) eps.

Section Checker.
Context (E : Env).

(** Line 147: [Math.abs(parseFloat(dbPos.quantity))]. *)
Definition dbQtyOf (dbPos : PositionRow) : Q := Qabs (parseFloat (quantity dbPos)).

(** Lines 151 and 179: [Math.abs(parseFloat(exchangePos.size || '0'))]. *)
Definition sizeOf (exchangePos : ExchangePosition) : Q := Qabs (parseFloat (size exchangePos)).

(** Lines 150-151: the size the exchange holds for a local symbol. *)
Definition exchangeSizeOf (exchangePositions : list ExchangePosition) (symbol : string) : Q :=
  match find_contract (normalizeContract E symbol) exchangePositions with
  | Some exchangePos => sizeOf exchangePos
  | None => 0
  end.

(** Line 165: [exchangeSize === 0 || Math.abs(exchangeSize - dbQty) > 0.0001],
    on doubles. *)
Definition mismatch (exchangeSize dbQty : Q) : bool :=
  Qeq_bool exchangeSize 0
  || negb (Qle_bool (Qabs (Double.sub exchangeSize dbQty)) epsilon).

(** The test of line 165, on a local row. *)
Definition diverges (exchangePositions : list ExchangePosition) (p : PositionRow) : bool :=
  mismatch (exchangeSizeOf exchangePositions (symbol p)) (dbQtyOf p).

(** Lines 144-174: the body of the loop over local positions. *)
Definition checkLocalPosition (exchangePositions : list ExchangePosition)
    (result : InconsistentData) (dbPos : PositionRow) : InconsistentData :=
  let symbol := symbol dbPos in
  let side := side dbPos in
  let dbQty := dbQtyOf dbPos in
  let exchangeSize := exchangeSizeOf exchangePositions symbol in
  if isTestData symbol then
    mkInconsistentData (orphanPositions result) (orphanPriceOrders result)
      (testDataPositions result ++ [mkTestDataPosition symbol side])
      (missingPositions result)
  else if mismatch exchangeSize dbQty
  then
    mkInconsistentData
      (orphanPositions result ++ [mkOrphanPosition symbol side dbQty exchangeSize])
      (orphanPriceOrders result) (testDataPositions result) (missingPositions result)
  else result.

(** Lines 177-192: the body of the loop over exchange positions. *)
Definition checkExchangePosition (dbPositions : list PositionRow)
    (result : InconsistentData) (exchangePos : ExchangePosition) : InconsistentData :=
  let contract := contract exchangePos in
  let size := sizeOf exchangePos in
  if negb (Qle_bool epsilon size) then result
  else
    match List.find (fun p => String.eqb (normalizeContract E (symbol p)) contract)
                    dbPositions with
    | Some _ => result
    | None =>
        mkInconsistentData (orphanPositions result) (orphanPriceOrders result)
          (testDataPositions result)
          (missingPositions result ++ [mkMissingPosition contract size])
    end.

(** Lines 199-217: the body of the loop over active conditional orders. *)
Definition checkPriceOrder (dbPositions : list PositionRow)
    (result : InconsistentData) (order : PriceOrderRow) : InconsistentData :=
  let positionExists :=
    existsb (fun p => String.eqb (symbol p) (o_symbol order)
                      && String.eqb (side p) (o_side order)) dbPositions in
  if negb positionExists then
    mkInconsistentData (orphanPositions result)
      (orphanPriceOrders result ++
         [mkOrphanPriceOrder (o_id order) (o_order_id order) (o_symbol order) (o_type order)])
      (testDataPositions result) (missingPositions result)
  else result.

(** Lines 125-227. *)
Definition checkConsistency : M World InconsistentData :=
  let result := mkInconsistentData [] [] [] [] in
  let* exchangePositions := (fun w => (getPositions E w, w)) in
  let* dbPositions := dbQuery E (fun d => order_by_symbol (positions d)) in
  let result := fold_left (checkLocalPosition exchangePositions) dbPositions result in
  let result := fold_left (checkExchangePosition dbPositions) exchangePositions result in
  let* activePriceOrders := dbQuery E (fun d => active_orders (price_orders d)) in
  let result := fold_left (checkPriceOrder dbPositions) activePriceOrders result in
  ret result.

(** Lines 232-237. *)
Definition hasInconsistencies (data : InconsistentData) : bool :=
  (0 <? length (orphanPositions data))%nat
  || (0 <? length (orphanPriceOrders data))%nat
  || (0 <? length (testDataPositions data))%nat
  || (0 <? length (missingPositions data))%nat.

(** Lines 294-304. *)
Definition removePosition (symbol side : string) : M World unit :=
  try_catch
    (dbUpdate E (with_positions (delete_position symbol side)))
    (fun _ => ret tt).

(** Lines 340-353. *)
Definition updatePriceOrderStatus (orderId status : string) : M World unit :=
  try_catch
    (let* now := date_now in
     dbUpdate E (with_price_orders (update_order_status status now orderId)))
    (fun _ => ret tt).

(** [await this.exchangeClient.cancelOrder(orderId)] *)
Definition remoteCancel (orderId : string) : M World unit :=
  fun w => let w' := emit (CancelOrderCall orderId) w in (cancelOrder E w' orderId, w').

(** Lines 309-335. *)
Definition cancelRelatedPriceOrders (symbol side : string) : M World unit :=
  try_catch
    (let* rows := dbQuery E (fun d => active_orders_of symbol side (price_orders d)) in
     for_of rows (fun orderId =>
       try_catch (remoteCancel orderId) (fun _ => ret tt) ;;
       updatePriceOrderStatus orderId "cancelled"))
    (fun _ => ret tt).

(** Lines 242-289.  Logging is not modelled: the [else] branch of the first
    loop and the whole of step 4 only log. *)
Definition fixInconsistencies (data : InconsistentData) : M World unit :=
  for_of (orphanPositions data) (fun orphan =>
    if Qeq_bool (exchangeSize orphan) 0 then
      removePosition (op_symbol orphan) (op_side orphan) ;;
      cancelRelatedPriceOrders (op_symbol orphan) (op_side orphan)
    else ret tt) ;;
  for_of (orphanPriceOrders data) (fun orphan =>
    try_catch (remoteCancel (oo_order_id orphan)) (fun _ => ret tt) ;;
    updatePriceOrderStatus (oo_order_id orphan) "cancelled") ;;
  for_of (testDataPositions data) (fun testData =>
    removePosition (td_symbol testData) (td_side testData) ;;
    cancelRelatedPriceOrders (td_symbol testData) (td_side testData)) ;;
  ret tt.

(** Lines 100-120. *)
Definition runCheck : M World unit :=
  try_catch
    (let* inconsistencies := checkConsistency in
     if hasInconsistencies inconsistencies
     then fixInconsistencies inconsistencies
     else ret tt)
    (fun _ => ret tt).

End Checker.

(** ** The repair, seen from the ledger

    With a store that answers, [fixInconsistencies] acts on the tables
    [positions] and [price_orders] alone, as the functions below say. *)

Definition Ledger : Type := list PositionRow * list PriceOrderRow.

Definition ledger (w : World) : Ledger := (positions (db w), price_orders (db w)).

(** The loop of [cancelRelatedPriceOrders] over the order ids it selected. *)
Definition cancel_all (ids : list string) (now : Z) (os : list PriceOrderRow)
    : list PriceOrderRow :=
  fold_left (fun os id => update_order_status "cancelled" now id os) ids os.

(** [removePosition] followed by [cancelRelatedPriceOrders]. *)
Definition purge (now : Z) (symbol side : string) (l : Ledger) : Ledger :=
  (delete_position symbol side (fst l),
   cancel_all (active_orders_of symbol side (snd l)) now (snd l)).

Definition fix_ledger (data : InconsistentData) (now : Z) (l : Ledger) : Ledger :=
  let l1 := fold_left (fun l orphan =>
              if Qeq_bool (exchangeSize orphan) 0
              then purge now (op_symbol orphan) (op_side orphan) l else l)
            (orphanPositions data) l in
  let l2 := fold_left (fun l orphan =>
              (fst l, update_order_status "cancelled" now (oo_order_id orphan) (snd l)))
            (orphanPriceOrders data) l1 in
  fold_left (fun l testData => purge now (td_symbol testData) (td_side testData) l)
            (testDataPositions data) l2.

(** [m] returns, leaves the clock alone, and changes the ledger as [f] says. *)
Definition acts_as (m : M World unit) (f : Z -> Ledger -> Ledger) : Prop :=
  forall w, exists w',
    m w = (Ok tt, w') /\ now w' = now w /\ ledger w' = f (now w) (ledger w).

(** The symbol and side pairs the repair deletes. *)
Definition targets (data : InconsistentData) : list (string * string) :=
  map (fun o => (op_symbol o, op_side o))
      (List.filter (fun o => Qeq_bool (exchangeSize o) 0) (orphanPositions data))
  ++ map (fun t => (td_symbol t, td_side t)) (testDataPositions data).

Definition targeted (ts : list (string * string)) (symbol side : string) : bool :=
  existsb (fun t => String.eqb symbol (fst t) && String.eqb side (snd t)) ts.

(** A conditional order without its [updated_at]. *)
Definition view (o : PriceOrderRow) : Z * string * string * string * string * string :=
  (o_id o, o_order_id o, o_symbol o, o_side o, o_type o, o_status o).

(** [o'] is [o], or [o] cancelled. *)
Definition fades (o o' : PriceOrderRow) : Prop :=
  o_id o' = o_id o /\ o_order_id o' = o_order_id o /\ o_symbol o' = o_symbol o /\
  o_side o' = o_side o /\ o_type o' = o_type o /\
  (o_status o' = o_status o \/ o_status o' = "cancelled").

(** No active order belongs to a pair in [ts]. *)
Definition quiet (ts : list (string * string)) (os : list PriceOrderRow) : Prop :=
  forall o, In o os -> is_active o = true -> targeted ts (o_symbol o) (o_side o) = false.

(** Every order whose id is in [ids] is cancelled. *)
Definition settled (ids : list string) (os : list PriceOrderRow) : Prop :=
  forall o, In o os -> In (o_order_id o) ids -> o_status o = "cancelled".

Definition purge_all (now : Z) (ts : list (string * string)) (l : Ledger) : Ledger :=
  fold_left (fun l t => purge now (fst t) (snd t) l) ts l.

(** The divergences the repair leaves to a person: orphans whose remote size
    is not zero, and missing positions. *)
Definition manual_only (data : InconsistentData) : InconsistentData :=
  mkInconsistentData
    (List.filter (fun o => negb (Qeq_bool (exchangeSize o) 0)) (orphanPositions data))
    [] [] (missingPositions data).

(** The divergences the repair acts on. *)
Definition actionable (data : InconsistentData) : InconsistentData :=
  mkInconsistentData
    (List.filter (fun o => Qeq_bool (exchangeSize o) 0) (orphanPositions data))
    (orphanPriceOrders data) (testDataPositions data) [].

(** ** [start], [stop] and the interval timer

    The event loop is a state: the checker's fields, the interval timers
    that are armed, and the passes ([runCheck] promises) not yet settled.
    [start] and the timer callback call [runCheck()] without awaiting it. *)

Record Scheduler : Type := mkScheduler {
  isRunning : bool;
  intervalId : option nat;
  armed : list nat;          (** interval timers [setInterval] has armed *)
  nextTimer : nat;
  passesInProgress : nat;
  passesStarted : nat
}.

Definition created : Scheduler := mkScheduler false None [] 0 0 0.

(** [this.runCheck()], not awaited: a pass begins. *)
Definition beginPass (s : Scheduler) : Scheduler :=
  mkScheduler (isRunning s) (intervalId s) (armed s) (nextTimer s)
              (S (passesInProgress s)) (S (passesStarted s)).

(** Lines 66-83. *)
Definition start (s : Scheduler) : Scheduler :=
  if isRunning s then s
  else
    let s1 := beginPass s in
    mkScheduler true (Some (nextTimer s1)) (nextTimer s1 :: armed s1) (S (nextTimer s1))
                (passesInProgress s1) (passesStarted s1).

(** Lines 88-95. *)
Definition stop (s : Scheduler) : Scheduler :=
  match intervalId s with
  | Some t =>
      mkScheduler false None (List.filter (fun t' => negb (Nat.eqb t' t)) (armed s))
                  (nextTimer s) (passesInProgress s) (passesStarted s)
  | None =>
      mkScheduler false None (armed s) (nextTimer s) (passesInProgress s) (passesStarted s)
  end.

(** Lines 78-80: the callback of timer [t]. *)
Definition tick (t : nat) (s : Scheduler) : Scheduler :=
  if existsb (Nat.eqb t) (armed s) then beginPass s else s.

(** The promise of one pass settles. *)
Definition passSettles (s : Scheduler) : Scheduler :=
  mkScheduler (isRunning s) (intervalId s) (armed s) (nextTimer s)
              (Nat.pred (passesInProgress s)) (passesStarted s).

Inductive SchedulerEvent : Type :=
| CallStart
| CallStop
| TimerFires (t : nat)
| PassSettles.

Definition handle (s : Scheduler) (e : SchedulerEvent) : Scheduler :=
  match e with
  | CallStart => start s
  | CallStop => stop s
  | TimerFires t => tick t s
  | PassSettles => passSettles s
  end.

Definition after (events : list SchedulerEvent) : Scheduler :=
  fold_left handle events created.

(** The tick the specification describes: skipped while a pass is in
    progress. *)
Definition tick_skipping (t : nat) (s : Scheduler) : Scheduler :=
  if (0 <? passesInProgress s)%nat then s else tick t s.

End DataConsistencyChecker.

(* ===================================================================== *)
(** * Concurrent callers of one stage block                               *)
(* ===================================================================== *)

(** Several [executeCheck] calls, each by its own caller, are in flight and
    have reached the stage block of the same position and stage.  Every
    [await] is a suspension point, so the calls interleave statement by
    statement; the store runs each statement atomically, at the instant the
    clock shows when the [await] settles.  [Pc] names the [await] a call is
    suspended at (lines 281-332 and, inside [DistributedLock], lines 52-115,
    130-139 and 158).  What a function computes before its first [await]
    belongs to the step that calls it: [cutoffTime] is the cutoff
    [hasRecentExecution] computed on entry (line 156), and [now0] the
    instant [tryAcquire] read on entry (line 45), which it writes into the
    row (lines 74 and 94). *)

Module Interleaving.

Inductive Pc : Type :=
| AtGuard (cutoffTime : Z)              (** line 158: the query of [hasRecentExecution] *)
| AtAcquireDelete (now0 : Z)            (** line 52: expiry [DELETE] *)
| AtAcquireSelect (now0 : Z)            (** line 60 *)
| AtAcquireRefresh (now0 : Z)           (** line 72 *)
| AtAcquireInsert (now0 : Z)            (** line 88 *)
| AtAcquireVerify                       (** line 103 *)
| AtHistoryCheck                        (** line 300, lease granted *)
| AtExecute                             (** line 311, about to call the executor *)
| Executing                             (** line 313, the executor is running *)
| AtReleaseSelect (outcome : string)    (** line 130, in [finally] *)
| AtReleaseDelete (outcome : string)    (** line 136 *)
| Finished (outcome : string).

(** What the awaited dependency answers. *)
Inductive Reply : Type :=
| Returns (ok : bool)   (** it returns; [ok] is [result.success] of the executor *)
| Rejects.              (** it throws *)

Inductive Event : Type :=
| Advance (ms : N)                       (** the clock moves on *)
| Resume (caller : string) (r : Reply).  (** [caller]'s pending [await] settles *)

Record State : Type := mkState {
  table : gmap string LockRow;           (** [system_config] *)
  history : list HistoryRow;             (** [partial_take_profit_history] *)
  clock : Z;
  pcs : gmap string Pc;                  (** by caller *)
  invocations : list (string * nat)      (** executor calls: the caller, and the
                                             completed entries at that moment *)
}.

Section Stage.
Context (symbol side : string) (n : Z) (digit : string).

(** The symbol under which the stage executor files its history entry.
    The executor is not part of the sources; [executeCheck] hands it
    [symbol.replace('_USDT', '').replace('USDT', '')] (lines 314 and 374)
    and looks its entries up under [symbol] (lines 158, 300 and 360). *)
Context (filed : string).

Definition lockKey : string :=
  "partial_tp_" ++ symbol ++ "_" ++ side ++ "_stage" ++ digit.

Definition lockTimeoutSeconds : Z := DistributedLock.LOCK_TIMEOUT_MS / 1000.

Definition holder_is (caller : string) (row : option LockRow) : bool :=
  match row with
  | Some r => String.eqb (value r) caller
  | None => false
  end.

(** Modelled from the spec: on success the Stage Executor appends the
    [completed] Execution History Entry of the stage, stamped with the
    current instant. *)
Definition record_completion (trigger : Q) (now : Z) (hs : list HistoryRow)
    : list HistoryRow :=
  hs ++ [mkHistoryRow filed n trigger now "completed"].

Definition set_pc (caller : string) (pc : Pc) (s : State) : State :=
  mkState (table s) (history s) (clock s) (<[caller := pc]> (pcs s)) (invocations s).

Definition set_table (t : gmap string LockRow) (s : State) : State :=
  mkState t (history s) (clock s) (pcs s) (invocations s).

(** One suspension point of [caller] settles with reply [r]. *)
Definition resume (caller : string) (r : Reply) (pc : Pc) (s : State) : State :=
  match pc, r with
  (* hasRecentExecution; a rejected query reads as "not recent".  When it
     returns [false] the block calls tryAcquire, which reads the clock *)
  | AtGuard cutoffTime, Returns _ =>
      if (0 <? count_recent symbol n cutoffTime (history s))%nat
      then set_pc caller (Finished "recently_executed") s
      else set_pc caller (AtAcquireDelete (clock s)) s
  | AtGuard _, Rejects => set_pc caller (AtAcquireDelete (clock s)) s
  (* tryAcquire; every rejection ends in [return false].  The DELETE
     compares with julianday('now'), the clock of the store *)
  | AtAcquireDelete now0, Returns _ =>
      set_pc caller (AtAcquireSelect now0)
             (set_table (delete_expired lockKey lockTimeoutSeconds (clock s) (table s)) s)
  | AtAcquireSelect now0, Returns _ =>
      match select_lock lockKey (table s) with
      | Some row =>
          if String.eqb (value row) caller
          then set_pc caller (AtAcquireRefresh now0) s
          else set_pc caller (Finished "lock_busy") s
      | None => set_pc caller (AtAcquireInsert now0) s
      end
  | AtAcquireRefresh now0, Returns _ =>
      set_pc caller AtHistoryCheck
             (set_table (refresh_lock now0 lockKey caller (table s)) s)
  | AtAcquireInsert now0, Returns _ =>
      set_pc caller AtAcquireVerify
             (set_table (insert_lock_if_absent lockKey caller now0 (table s)) s)
  | AtAcquireVerify, Returns _ =>
      if holder_is caller (select_lock lockKey (table s))
      then set_pc caller AtHistoryCheck s
      else set_pc caller (Finished "lock_busy") s
  | (AtAcquireDelete _ | AtAcquireSelect _ | AtAcquireRefresh _ | AtAcquireInsert _
     | AtAcquireVerify), Rejects =>
      set_pc caller (Finished "lock_busy") s
  (* under the lease *)
  | AtHistoryCheck, Returns _ =>
      if (0 <? count_completed symbol n (history s))%nat
      then set_pc caller (AtReleaseSelect "already_executed") s
      else set_pc caller AtExecute s
  | AtHistoryCheck, Rejects => set_pc caller (AtReleaseSelect "thrown") s
  | AtExecute, _ =>
      mkState (table s) (history s) (clock s) (<[caller := Executing]> (pcs s))
              (invocations s ++ [(caller, count_completed symbol n (history s))])
  | Executing, Returns true =>
      mkState (table s) (record_completion 0 (clock s) (history s)) (clock s)
              (<[caller := AtReleaseSelect "success"]> (pcs s)) (invocations s)
  | Executing, Returns false => set_pc caller (AtReleaseSelect "failed") s
  | Executing, Rejects => set_pc caller (AtReleaseSelect "thrown") s
  (* release; a rejection is swallowed *)
  | AtReleaseSelect outcome, Returns _ =>
      if holder_is caller (select_lock lockKey (table s))
      then set_pc caller (AtReleaseDelete outcome) s
      else set_pc caller (Finished outcome) s
  | AtReleaseDelete outcome, Returns _ =>
      set_pc caller (Finished outcome) (set_table (delete_lock lockKey (table s)) s)
  | (AtReleaseSelect outcome | AtReleaseDelete outcome), Rejects =>
      set_pc caller (Finished outcome) s
  (* the caller's next pass reaches the block again and calls
     hasRecentExecution, which reads the clock *)
  | Finished _, _ => set_pc caller (AtGuard (clock s - 30 * 1000)) s
  end.

Definition step (s : State) (e : Event) : State :=
  match e with
  | Advance ms =>
      mkState (table s) (history s) (clock s + Z.of_N ms) (pcs s) (invocations s)
  | Resume caller r =>
      match pcs s !! caller with
      | Some pc => resume caller r pc s
      | None => s
      end
  end.

Definition run (s : State) (events : list Event) : State := fold_left step events s.

(** The pcs at which [tryAcquire] has returned [true] and [release] has not
    finished. *)
Definition in_lease (pc : Pc) : bool :=
  match pc with
  | AtHistoryCheck | AtExecute | Executing | AtReleaseSelect _ | AtReleaseDelete _ => true
  | _ => false
  end.

(** The age test of the expiry [DELETE] holds of no lease row. *)
Definition lease_live (s : State) : Prop :=
  forall row, table s !! lockKey = Some row ->
              expired lockTimeoutSeconds (clock s) row = false.

(** [lease_live] holds in [s] and after every prefix of [events]. *)
Fixpoint always_live (s : State) (events : list Event) : Prop :=
  lease_live s /\
  match events with
  | [] => True
  | e :: rest => always_live (step s e) rest
  end.

(** All calls have entered the block and wait for the guard, and the
    executor has not been called. *)
Definition entering (s : State) : Prop :=
  (forall caller pc, pcs s !! caller = Some pc -> exists cutoffTime, pc = AtGuard cutoffTime) /\
  invocations s = [].

Definition completed_entries (s : State) : nat := count_completed symbol n (history s).

(** ** The invariant of the interleaving *)

(** The lease row names [caller]. *)
Definition owns (caller : string) (t : gmap string LockRow) : Prop :=
  exists row, t !! lockKey = Some row /\ value row = caller.

(** The pcs at which a call has read its own name in the lease row and has
    not finished releasing. *)
Definition claims (pc : Pc) : Prop :=
  in_lease pc = true \/ exists now0, pc = AtAcquireRefresh now0.

Definition calling (pc : Pc) : Prop := pc = AtExecute \/ pc = Executing.

(** [h0] is the history the calls found, and [c0] the number of its
    [completed] entries of the stage. *)
Record Inv (h0 : list HistoryRow) (c0 : nat) (s : State) : Prop := mkInv {
  inv_owner : forall c pc, pcs s !! c = Some pc -> claims pc -> owns c (table s);
  inv_calling : forall c pc, pcs s !! c = Some pc -> calling pc -> completed_entries s = 0%nat;
  inv_log : forall c k, (c, k) ∈ invocations s -> k = 0%nat;
  inv_count : completed_entries s = c0 \/ (c0 = 0%nat /\ completed_entries s = 1%nat);
  inv_idle : (0 < c0)%nat -> invocations s = [];
  inv_rows : exists rows,
               history s = (h0 ++ rows)%list /\
               (filed = symbol -> completed_entries s = (c0 + length rows)%nat)
}.

(** [lease_live] and [always_live], decided. *)
Definition lease_liveb (s : State) : bool :=
  match table s !! lockKey with
  | Some row => negb (expired lockTimeoutSeconds (clock s) row)
  | None => true
  end.

Fixpoint always_liveb (s : State) (events : list Event) : bool :=
  lease_liveb s &&
  match events with
  | [] => true
  | e :: rest => always_liveb (step s e) rest
  end.

(** The property as the specification words it: while the stage has no
    [completed] entry, the executor has been called at most once. *)
Definition invoked_at_most_once (s : State) : Prop :=
  completed_entries s = 0%nat -> (length (invocations s) <= 1)%nat.

End Stage.

(** ** One call on its own *)

(** The store of [w], with [caller] entering the block. *)
Definition of_world (caller : string) (w : World) : State :=
  mkState (system_config (db w)) (partial_take_profit_history (db w)) (now w)
          (<[caller := AtGuard (now w - 30 * 1000)]> ∅) [].

(** [k] suspension points of [caller] settle in a row; the executor answers
    [ok]. *)
Definition alone (symbol side : string) (n : Z) (digit filed caller : string) (ok : bool)
    (k : nat) (s : State) : State :=
  run symbol side n digit filed s (repeat (Resume caller (Returns ok)) k).

(** [caller] is suspended at [pc], over the tables [t] and [h], at instant
    [now]. *)
Definition stands (caller : string) (s : State) (pc : Pc)
    (t : gmap string LockRow) (h : list HistoryRow) (now : Z) : Prop :=
  pcs s !! caller = Some pc /\ table s = t /\ history s = h /\ clock s = now.

(** The executor of the interleaving, as a collaborator of [executeCheck]. *)
Definition recording (n : Z) (filed : string) (ok : bool)
    (_ _ : string) (w : World) : Res bool * World :=
  if ok
  then (Ok true, with_db (with_history (fun hs => record_completion n filed 0 (now w) hs)) w)
  else (Ok false, w).

(** ** A scenario: the health check and the agent meet at stage 1 of BTC *)

Definition two_callers : State :=
  mkState ∅ [] 1700000000000
          (<["ai-agent" := AtGuard (1700000000000 - 30 * 1000)]>
             (<["health-check" := AtGuard (1700000000000 - 30 * 1000)]> ∅)) [].

(** One call runs through the block with no other call in between; the
    executor answers [ok]. *)
Definition solo (caller : string) (ok : bool) : list Event :=
  [ Resume caller (Returns true);   (* guard *)
    Resume caller (Returns true);   (* expiry DELETE *)
    Resume caller (Returns true);   (* SELECT *)
    Resume caller (Returns true);   (* INSERT *)
    Resume caller (Returns true);   (* read back *)
    Resume caller (Returns true);   (* history check *)
    Resume caller (Returns true);   (* the executor is called *)
    Resume caller (Returns ok);     (* the executor answers *)
    Resume caller (Returns true);   (* release: SELECT *)
    Resume caller (Returns true) ]. (* release: DELETE *)

(** The executor fails for the health check; two seconds later the agent
    arrives. *)
Definition retry_after_failure : list Event :=
  solo "health-check" false ++ [Advance 2000%N] ++ solo "ai-agent" false.

(** The health check's executor call outlasts the lease: the agent clears
    the expired row and calls the executor as well. *)
Definition slow_executor : list Event :=
  [ Resume "health-check" (Returns true); Resume "health-check" (Returns true);
    Resume "health-check" (Returns true); Resume "health-check" (Returns true);
    Resume "health-check" (Returns true); Resume "health-check" (Returns true);
    Resume "health-check" (Returns true);
    Advance 31000%N;
    Resume "ai-agent" (Returns true); Resume "ai-agent" (Returns true);
    Resume "ai-agent" (Returns true); Resume "ai-agent" (Returns true);
    Resume "ai-agent" (Returns true); Resume "ai-agent" (Returns true);
    Resume "ai-agent" (Returns true) ].

(** The health check is suspended for 31 seconds between the entry of
    [tryAcquire] and its [DELETE]: the row it inserts carries the instant of
    the entry and is 31 seconds old at once, so the agent clears it and
    calls the executor as well. *)
Definition late_insert : list Event :=
  [ Resume "health-check" (Returns true);   (* guard; tryAcquire reads the clock *)
    Advance 31000%N;
    Resume "health-check" (Returns true); Resume "health-check" (Returns true);
    Resume "health-check" (Returns true); Resume "health-check" (Returns true);
    Resume "health-check" (Returns true); Resume "health-check" (Returns true);
    Resume "ai-agent" (Returns true); Resume "ai-agent" (Returns true);
    Resume "ai-agent" (Returns true); Resume "ai-agent" (Returns true);
    Resume "ai-agent" (Returns true); Resume "ai-agent" (Returns true);
    Resume "ai-agent" (Returns true) ].

(** The executor succeeds for the health check; a minute later the agent
    arrives. *)
Definition one_after_the_other : list Event :=
  solo "health-check" true ++ [Advance 60000%N] ++ solo "ai-agent" true.

(** Both calls interleave statement by statement; the executor succeeds. *)
Definition neck_and_neck : list Event :=
  [ Resume "health-check" (Returns true); Resume "ai-agent" (Returns true);
    Resume "health-check" (Returns true); Resume "ai-agent" (Returns true);
    Resume "health-check" (Returns true); Resume "ai-agent" (Returns true);
    Resume "ai-agent" (Returns true); Resume "health-check" (Returns true);
    Resume "ai-agent" (Returns true); Resume "health-check" (Returns true);
    Resume "ai-agent" (Returns true); Resume "ai-agent" (Returns true);
    Resume "ai-agent" (Returns true); Advance 500%N;
    Resume "ai-agent" (Returns true); Resume "ai-agent" (Returns true) ].

End Interleaving.

(* ===================================================================== *)
(** * Collaborators for worked examples                                   *)
(* ===================================================================== *)

Module Scenario.

(** Modelled from the spec: [calculateRMultiple] is imported from
    [tools/trading/takeProfitManagement], which is not among the sources.
    The progress metric is the multiple of the risk distance achieved in
    the direction of the position. *)
Definition calculateRMultiple (entryPrice currentPrice stopLoss : Q) (side : string) : Q :=
  let risk := Qabs (entryPrice - stopLoss) in
  if Qeq_bool risk 0 then 0
  else if String.eqb side "long"
       then (currentPrice - entryPrice) / risk
       else (entryPrice - currentPrice) / risk.

Definition stage_of (digit : string) : Z := if String.eqb digit "1" then 1 else 2.

(** Modelled from the spec: [partialTakeProfitTool.execute] is imported from
    [tools/trading/takeProfitManagement], which is not among the sources.
    A stage that executes appends its [completed] Execution History Entry,
    with the price it fired at as trigger price, and stage 1 advances the
    stop-loss of the position to its entry price. *)
Definition stageExecuted (price : string -> Q) (symbol digit : string) (w : World) : World :=
  with_db (fun d =>
    with_history (fun hs : list HistoryRow =>
                    (hs ++ [mkHistoryRow symbol (stage_of digit) (price symbol)
                                         (now w) "completed"])%list)
      (with_positions
         (map (fun p => if String.eqb (Store.symbol p) symbol && String.eqb digit "1"
                        then mkPositionRow (Store.symbol p) (side p) (entry_price p)
                                           (entry_price p) (quantity p)
                        else p)) d)) w.

(** What the executor does for a symbol. *)
Inductive Behaviour : Type := Succeeds | Fails | Throws.

Definition executor (price : string -> Q) (behaviour : string -> Behaviour)
    (symbol digit : string) (w : World) : Res bool * World :=
  match behaviour symbol with
  | Succeeds => (Ok true, stageExecuted price symbol digit w)
  | Fails => (Ok false, w)
  | Throws => (Throw "order rejected", w)
  end.

(** Contracts are symbols, volatility leaves the configured multiples (1R
    and 2R) as they are, the exchange answers [ticker] and reports the
    positions [remote], cancelling the orders in [gone] fails, and the
    store rejects the statements [faults] selects. *)
Definition env_with (faults : nat -> bool) (ticker : string -> Res Q)
    (price : string -> Q) (behaviour : string -> Behaviour)
    (remote : list ExchangePosition) (gone : string -> bool) : Env :=
  mkEnv faults
        (fun symbol => symbol)
        (fun _ contract => ticker contract)
        (fun _ => Ok remote)
        (fun _ orderId => if gone orderId then Throw "ORDER_NOT_FOUND" else Ok tt)
        unit
        (fun _ _ => Ok tt)
        (fun rMultiple _ => rMultiple)
        calculateRMultiple
        1 2
        (executor price behaviour).

(** The store never fails and the exchange quotes [price]. *)
Definition env (price : string -> Q) (behaviour : string -> Behaviour)
    (remote : list ExchangePosition) : Env :=
  env_with (fun _ => false) (fun contract => Ok (price contract)) price behaviour remote
           (fun _ => false).

Definition world (d : Db) (now : Z) : World := mkWorld d now 0 [].

Definition t0 : Z := 1700000000000.

(** BTC long from 100 with the stop at 90, ETH long from 2000 with the stop
    at 1900. *)
Definition btc : PositionRow := mkPositionRow "BTC" "long" 100 90 (1 # 2).
Definition eth : PositionRow := mkPositionRow "ETH" "long" 2000 1900 3.

Definition quotes (btc_price eth_price : Q) (symbol : string) : Q :=
  if String.eqb symbol "BTC" then btc_price else eth_price.

Definition all (b : Behaviour) (_ : string) : Behaviour := b.

Definition btc_throws (symbol : string) : Behaviour :=
  if String.eqb symbol "BTC" then Throws else Succeeds.

(** BTC after stage 1 fired at [trigger], [age] milliseconds before [t0]:
    the stop-loss stands at the entry price and the history holds the
    entry of stage 1. *)
Definition btc_after_stage1 : PositionRow := mkPositionRow "BTC" "long" 100 100 (1 # 2).

Definition stage1_fired (trigger : Q) (age : Z) : HistoryRow :=
  mkHistoryRow "BTC" 1 trigger (t0 - age) "completed".

(** ETH short 2.0 in the ledger; the exchange reports a short of [remote]. *)
Definition eth_short : PositionRow := mkPositionRow "ETH" "short" 2000 2100 (-2).

Definition eth_remote (remote : Q) : list ExchangePosition :=
  [mkExchangePosition "ETH" (- remote)].

Definition checker_env (remote : list ExchangePosition) : Env :=
  env (quotes 115 2050) (all Succeeds) remote.

(** A ledger out of step with the exchange: BTC long 0.5 is gone remotely,
    ETH short 2.0 stands at 1.5 remotely, BTC_TEST is a test row, SOL long
    10 is held remotely only; BTC has an active stop-loss order, and XRP an
    active take-profit order without a position. *)
Definition drifted : Db :=
  mkDb ∅ []
       [mkPositionRow "BTC" "long" 100 90 (1 # 2); eth_short;
        mkPositionRow "BTC_TEST" "long" 1 1 1]
       [mkPriceOrderRow 1 "sl-1" "BTC" "long" "stop_loss" "active" 0;
        mkPriceOrderRow 2 "tp-9" "XRP" "short" "take_profit" "active" 0;
        mkPriceOrderRow 3 "sl-2" "ETH" "short" "stop_loss" "active" 0].

Definition drifted_remote : list ExchangePosition :=
  [mkExchangePosition "ETH" (- (3 # 2)); mkExchangePosition "SOL" 10].

(** The agent took the lease of stage 1 of BTC [age] milliseconds before
    [t0] and has not released it. *)
Definition lease_of_agent (age : Z) : Db :=
  mkDb (<["partial_tp_BTC_long_stage1" := mkLockRow "ai-agent" (t0 - age)]> ∅)
       [] [btc] [].

(** The ticker of BTC is unreachable. *)
Definition btc_unquoted (eth_price : Q) (contract : string) : Res Q :=
  if String.eqb contract "BTC" then Throw "ETIMEDOUT" else Ok eth_price.

Definition nth_statement (k n : nat) : bool := Nat.eqb n k.

(** The candles of BTC cannot be fetched: the volatility analysis throws
    for BTC. *)
Definition volatility_env (price : string -> Q) (behaviour : string -> Behaviour) : Env :=
  mkEnv (fun _ => false)
        (fun symbol => symbol)
        (fun _ contract => Ok (price contract))
        (fun _ => Ok [])
        (fun _ _ => Ok tt)
        unit
        (fun _ symbol =>
           if String.eqb symbol "BTC" then Throw "candles unavailable" else Ok tt)
        (fun rMultiple _ => rMultiple)
        calculateRMultiple
        1 2
        (executor price behaviour).

End Scenario.

(* ===================================================================== *)
(** * Relations a computation keeps                                       *)
(* ===================================================================== *)

(** Every run of [m], whether it returns or throws, takes the state along
    [R]. *)
Definition within {S A} (R : S -> S -> Prop) (m : M S A) : Prop :=
  forall s r s', m s = (r, s') -> R s s'.

(* ===================================================================== *)
(** * What a pass of [executeCheck] reports and writes                    *)
(* ===================================================================== *)

Section PassReport.
Import PartialTakeProfitExecutor.

(** The number of [details] with the outcome [result]. *)
Definition tally (result : string) (ds : list Detail) : nat :=
  length (List.filter (fun d => String.eqb (d_result d) result) ds).

(** The outcomes the stage blocks push (lines 283-392). *)
Definition outcome (result : string) : Prop :=
  In result ["recently_executed"; "lock_busy"; "already_executed"; "success"; "failed"].

(** The locals of [st'] are those of [st] with details appended that
    satisfy [P], and with the two counters advanced by the outcomes of
    those details. *)
Definition grows (P : Detail -> Prop) (st st' : St) : Prop :=
  exists ds,
    executed (fst st') = (executed (fst st) ++ ds)%list /\
    Forall P ds /\
    executedCount (fst st') = (executedCount (fst st) + tally "success" ds)%nat /\
    skippedCount (fst st') =
      (skippedCount (fst st) +
       (tally "recently_executed" ds + tally "lock_busy" ds + tally "already_executed" ds))%nat.

(** A detail a stage block of [symbol] pushes. *)
Definition stage_detail (symbol : string) (d : Detail) : Prop :=
  d_symbol d = symbol /\ (d_stage d = 1 \/ d_stage d = 2) /\ outcome (d_result d).

(** A detail the evaluation of one of [rows] pushes. *)
Definition row_detail (rows : list PositionRow) (d : Detail) : Prop :=
  (d_stage d = 1 \/ d_stage d = 2) /\ outcome (d_result d) /\
  exists p, In p rows /\ symbol p = d_symbol d /\ Qle_bool (stop_loss p) 0 = false.

(** The store outside [system_config], and the clock. *)
Definition outside_leases (w : World)
    : list HistoryRow * list PositionRow * list PriceOrderRow * Z :=
  (partial_take_profit_history (db w), positions (db w), price_orders (db w), now w).

(** [P] holds of the world of [st'] when it holds of the world of [st]. *)
Definition keeps (P : World -> Prop) (st st' : St) : Prop := P (snd st) -> P (snd st').

(** No row of [system_config] is added or changed. *)
Definition leases_shrink (st st' : St) : Prop :=
  forall k row, system_config (db (snd st')) !! k = Some row ->
                system_config (db (snd st)) !! k = Some row.
End PassReport.

(* ===================================================================== *)
(** * The ledger against the exchange                                     *)
(* ===================================================================== *)

Section Reconciliation.
Import DataConsistencyChecker.

(** The ledger [d] agrees with the positions [remote] the exchange
    reports: every local position is no test row and is held remotely in a
    size, other than zero, whose difference from the local quantity is at
    most [epsilon] as doubles; every remote position of size [epsilon] or
    more has a local row; and every active conditional order has its
    position. *)
Definition in_sync (E : Env) (remote : list ExchangePosition) (d : Db) : Prop :=
  (forall p, In p (positions d) ->
     isTestData (symbol p) = false /\
     ~ (exchangeSizeOf E remote (symbol p) == 0)%Q /\
     (Qabs (Double.sub (exchangeSizeOf E remote (symbol p)) (dbQtyOf p)) <= epsilon)%Q) /\
  (forall x, In x remote -> (epsilon <= sizeOf x)%Q ->
     exists p, In p (positions d) /\ normalizeContract E (symbol p) = contract x) /\
  (forall o, In o (price_orders d) -> o_status o = "active" ->
     exists p, In p (positions d) /\ symbol p = o_symbol o /\ side p = o_side o).

(** From [w] to [w'] positions were deleted and conditional orders
    cancelled, remote cancellations were requested, and nothing else
    happened. *)
Definition wanes (w w' : World) : Prop :=
  sublist (positions (db w')) (positions (db w)) /\
  Forall2 fades (price_orders (db w)) (price_orders (db w')) /\
  system_config (db w') = system_config (db w) /\
  partial_take_profit_history (db w') = partial_take_profit_history (db w) /\
  now w' = now w /\
  exists ids, effects w' = (effects w ++ map CancelOrderCall ids)%list.
End Reconciliation.

(* ===================================================================== *)
(** * [class PartialTakeProfitMonitor]                                    *)
(* ===================================================================== *)

(** The caller of [executeCheck('tp-monitor')].  Its source is the
    TypeScript module that closes [docs/CONDITIONAL_ORDERS_FIX.md] (lines
    291-443). *)

Module PartialTakeProfitMonitor.

(** ** One call of [checkAndExecute], run to its end

    The state is the field [isRunning] and the world. *)

Definition St : Type := bool * World.

Definition lift {A} (m : M World A) : M St A :=
  fun st => let (r, w') := m (snd st) in (r, (fst st, w')).

(** [this.isRunning = b] *)
Definition set_isRunning (b : bool) : M St unit := modify (fun st => (b, snd st)).

Section Monitor.
Context (E : Env).

(** Lines 371-400: the [try] block and its [catch]. *)
Definition checkBody : M St unit :=
  try_catch
    (let* posCount :=
       lift (dbQuery E (fun d => length (open_positions (positions d)))) in
     let hasPositions := (0 <? posCount)%nat in
     if negb hasPositions then ret tt
     else
       let* result := lift (PartialTakeProfitExecutor.executeCheck E "tp-monitor") in
       ret tt)
    (fun _ => ret tt).

(** Lines 363-405. *)
Definition checkAndExecute : M St unit :=
  let* st := (get : M St St) in
  if fst st then ret tt
  else
    set_isRunning true ;;
    try_finally checkBody (set_isRunning false).
End Monitor.

(** ** [start], [stop] and the interval timer

    The event loop is a state, as for the consistency checker: the fields
    of the monitor, the interval timers that are armed and the pass in
    progress.  [start] is [async]: it begins the first pass, or finds one in
    progress, and in both cases its continuation, which arms the timer,
    runs later: when the pass it awaits settles, or at once when
    [checkAndExecute] returned without a pass.  [resuming] counts the
    continuations whose promise has resolved; the model lets such a
    continuation wait for any number of other events, where JavaScript
    runs it before the next timer or store callback, so the model has every
    schedule JavaScript has. *)

Record Monitor : Type := mkMonitor {
  checkInterval : option nat;
  isRunning : bool;
  armed : list nat;          (** interval timers [setInterval] has armed *)
  nextTimer : nat;
  passesInProgress : nat;
  passesStarted : nat;
  awaited : bool;            (** a call of [start] awaits the pass in progress *)
  resuming : nat             (** calls of [start] ready to run line 344 *)
}.

Definition created : Monitor := mkMonitor None false [] 0 0 0 false 0.

(** [this.checkAndExecute()] up to its first [await]: the call returns at
    once when a pass is in progress (lines 364-367), and begins a pass
    otherwise.  [byStart] tells whether the caller is [start]. *)
Definition beginCheck (byStart : bool) (s : Monitor) : Monitor :=
  if isRunning s then
    mkMonitor (checkInterval s) true (armed s) (nextTimer s) (passesInProgress s)
              (passesStarted s) (awaited s)
              (if byStart then S (resuming s) else resuming s)
  else
    mkMonitor (checkInterval s) true (armed s) (nextTimer s) (S (passesInProgress s))
              (S (passesStarted s)) byStart (resuming s).

(** Lines 332-341: [start] up to its [await]. *)
Definition start (s : Monitor) : Monitor :=
  match checkInterval s with
  | Some _ => s
  | None => beginCheck true s
  end.

(** Lines 344-346: the continuation of [start]. *)
Definition startResumes (s : Monitor) : Monitor :=
  match resuming s with
  | O => s
  | S n =>
      mkMonitor (Some (nextTimer s)) (isRunning s) (nextTimer s :: armed s)
                (S (nextTimer s)) (passesInProgress s) (passesStarted s) (awaited s) n
  end.

(** Lines 352-358. *)
Definition stop (s : Monitor) : Monitor :=
  match checkInterval s with
  | Some t =>
      mkMonitor None (isRunning s) (List.filter (fun t' => negb (Nat.eqb t' t)) (armed s))
                (nextTimer s) (passesInProgress s) (passesStarted s) (awaited s)
                (resuming s)
  | None => s
  end.

(** Lines 344-346: the callback of timer [t]. *)
Definition tick (t : nat) (s : Monitor) : Monitor :=
  if existsb (Nat.eqb t) (armed s) then beginCheck false s else s.

(** Lines 401-404: the pass in progress reaches its [finally] and settles;
    the call of [start] that awaited it may resume. *)
Definition passSettles (s : Monitor) : Monitor :=
  match passesInProgress s with
  | O => s
  | S n =>
      mkMonitor (checkInterval s) false (armed s) (nextTimer s) n (passesStarted s) false
                (if awaited s then S (resuming s) else resuming s)
  end.

Inductive MonitorEvent : Type :=
| CallStart
| StartResumes
| CallStop
| TimerFires (t : nat)
| PassSettles.

Definition handle (s : Monitor) (e : MonitorEvent) : Monitor :=
  match e with
  | CallStart => start s
  | StartResumes => startResumes s
  | CallStop => stop s
  | TimerFires t => tick t s
  | PassSettles => passSettles s
  end.

Definition after (events : list MonitorEvent) : Monitor :=
  fold_left handle events created.

(** Timer [t] is armed and [stop] cannot reach it: [checkInterval] holds
    another handle, or none. *)
Definition leaked (t : nat) (s : Monitor) : Prop :=
  In t (armed s) /\ checkInterval s <> Some t.

End PartialTakeProfitMonitor.

(* ===================================================================== *)
(** * [class EmailAlertService]                                           *)
(* ===================================================================== *)

(** [src/utils/emailAlert.ts].  Logging is not modelled. *)

Module EmailAlertService.

Inductive AlertLevel : Type := INFO | WARNING | ERROR | CRITICAL.

(** The string value of the enum member. *)
Definition level_name (l : AlertLevel) : string :=
  match l with
  | INFO => "INFO"
  | WARNING => "WARNING"
  | ERROR => "ERROR"
  | CRITICAL => "CRITICAL"
  end.

(** [details] and [timestamp] reach the HTML body only, which
    [buildEmailHtml] stands for. *)
Record AlertMessage : Type := mkAlertMessage {
  level : AlertLevel;
  title : string;
  message : string
}.

(** A mail the transporter accepted: its alert key and the instant
    [sendAlert] read on entry. *)
Record Mail : Type := mkMail {
  m_key : string;
  m_time : Z
}.

(** The fields of the service, the clock and the mails sent so far. *)
Record Mailer : Type := mkMailer {
  enabled : bool;
  transporter : bool;                  (** [this.transporter] is not [null] *)
  lastAlertTime : gmap string Z;
  clock : Z;
  outbox : list Mail
}.

(** The collaborators: [buildEmailHtml], which throws when the details
    cannot be serialised, and [transporter.sendMail]. *)
Record Smtp : Type := mkSmtp {
  buildEmailHtml : AlertMessage -> Res string;
  sendMail : Mailer -> string -> string -> Res unit
}.

(** [5 * 60 * 1000] *)
Definition alertCooldown : Z := 5 * 60 * 1000.

(** Line 112: [`${alert.level}-${alert.title}`] *)
Definition alertKey (alert : AlertMessage) : string :=
  level_name (level alert) ++ "-" ++ title alert.

Section Service.
Context (T : Smtp).

(** [await this.transporter.sendMail({ ..., subject, html })] *)
Definition deliver (key subject html : string) : M Mailer unit :=
  fun s =>
    match sendMail T s subject html with
    | Ok _ =>
        (Ok tt, mkMailer (enabled s) (transporter s) (lastAlertTime s) (clock s)
                         (outbox s ++ [mkMail key (clock s)]))
    | Throw e => (Throw e, s)
    end.

(** Lines 90-145. *)
Definition sendAlert (alert : AlertMessage) : M Mailer bool :=
  let* s := (get : M Mailer Mailer) in
  if negb (enabled s) || negb (transporter s) then ret false
  else
    let alertKey := alertKey alert in
    let lastTime := default 0 (lastAlertTime s !! alertKey) in
    let now := clock s in
    if now - lastTime <? alertCooldown then ret false
    else
      try_catch
        (let subject := "[" ++ level_name (level alert) ++ "] " ++ title alert
                        ++ " - AI自动交易系统" in
         let* html := (fun s => (buildEmailHtml T alert, s)) in
         deliver alertKey subject html ;;
         modify (fun s => mkMailer (enabled s) (transporter s)
                                   (<[alertKey := now]> (lastAlertTime s))
                                   (clock s) (outbox s)) ;;
         ret true)
        (fun _ => ret false).

(** Lines 211-229. *)
Definition testEmail : M Mailer bool :=
  let* s := (get : M Mailer Mailer) in
  if negb (enabled s) || negb (transporter s) then ret false
  else
    try_catch
      (sendAlert (mkAlertMessage INFO "邮件告警测试"
                    "这是一封测试邮件，如果您收到此邮件，说明邮件告警配置正确。") ;;
       ret true)
      (fun _ => ret false).

(** Calls of [sendAlert], each awaited before the next, with the time that
    passes before each. *)
Definition pass (ms : Z) (s : Mailer) : Mailer :=
  mkMailer (enabled s) (transporter s) (lastAlertTime s) (clock s + ms) (outbox s).

Fixpoint sendAll (alerts : list (Z * AlertMessage)) (s : Mailer) : Mailer :=
  match alerts with
  | [] => s
  | (ms, alert) :: rest => sendAll rest (snd (sendAlert alert (pass ms s)))
  end.
End Service.

(** Two mails of the same key lie a cooldown or more apart. *)
Definition spaced (mails : list Mail) : Prop :=
  forall i j m1 m2,
    (i < j)%nat -> mails !! i = Some m1 -> mails !! j = Some m2 ->
    m_key m1 = m_key m2 -> alertCooldown <= m_time m2 - m_time m1.

(** The last send of every key is on record, at or after every mail of
    the key. *)
Definition on_record (s : Mailer) : Prop :=
  forall m, In m (outbox s) ->
    exists t, lastAlertTime s !! m_key m = Some t /\ m_time m <= t.

End EmailAlertService.

(* ===================================================================== *)
(** * Scoring functions of the strategies                                 *)
(* ===================================================================== *)

(** [src/strategies/strategyUtils.ts], lines 33-192. *)

Module StrategyUtils.

(** [a < b] on numbers; [a > b] is [Qlt_bool b a]. *)
Definition Qlt_bool (a b : Q) : bool := negb (Qle_bool b a).

(** [interface TimeframeAnalysis], without the optional [klines]. *)
Record TimeframeAnalysis : Type := mkTimeframeAnalysis {
  ema20 : Q;
  ema50 : Q;
  rsi7 : Q;
  rsi14 : Q;
  macd : Q;
  macdSignal : Q;
  close : Q
}.

(** The argument of [calculateSignalStrength]. *)
Record Indicators : Type := mkIndicators {
  i_rsi7 : Q;
  i_rsi14 : Q;
  i_macd : Q;
  i_macdSignal : Q;
  emaAlignment : bool;
  pricePosition : Q;
  trendConsistency : Q
}.

(** Lines 33-82. *)
Definition calculateSignalStrength (indicators : Indicators) : Q :=
  (let score := 0 in
   let maxScore := 0 in
   (* RSI7 *)
   let maxScore := maxScore + 25 in
   let score :=
     if Qlt_bool (i_rsi7 indicators) 25
     then score + 25 * (25 - i_rsi7 indicators) / 25
     else if Qlt_bool 75 (i_rsi7 indicators)
     then score + 25 * (i_rsi7 indicators - 75) / 25
     else if Qle_bool 30 (i_rsi7 indicators) && Qle_bool (i_rsi7 indicators) 70
     then score + 15
     else score in
   (* MACD *)
   let maxScore := maxScore + 20 in
   let macdDiff := i_macd indicators - i_macdSignal indicators in
   let score :=
     if Qlt_bool 0 (Qabs macdDiff)
     then score + 20 * Qmin (Qabs macdDiff / 100) 1
     else score in
   (* EMA *)
   let maxScore := maxScore + 25 in
   let score := if emaAlignment indicators then score + 25 else score in
   (* price position *)
   let maxScore := maxScore + 15 in
   let absDeviation := Qabs (pricePosition indicators) in
   let score :=
     if Qlt_bool absDeviation 3 then score + 15 * (1 - absDeviation / 3) else score in
   (* consistency *)
   let maxScore := maxScore + 15 in
   let score := score + 15 * trendConsistency indicators in
   Qmin (score / maxScore) 1)%Q.

(** ['long' | 'short'] *)
Inductive Direction : Type := long | short.

Definition is_long (d : Direction) : bool := match d with long => true | short => false end.
Definition is_short (d : Direction) : bool := match d with long => false | short => true end.

Record Alignment : Type := mkAlignment {
  aligned : bool;
  score : Q
}.

(** Lines 88-147.  The counter [checks] is never read. *)
Definition checkMultiTimeframeAlignment (timeframe15m timeframe1h : TimeframeAnalysis)
    (direction : Direction) : Alignment :=
  (let alignmentScore := 0 in
   (* EMA *)
   let ema15m := Qlt_bool (ema50 timeframe15m) (ema20 timeframe15m) in
   let ema1h := Qlt_bool (ema50 timeframe1h) (ema20 timeframe1h) in
   let alignmentScore :=
     if is_long direction && ema15m && ema1h then alignmentScore + 30
     else if is_short direction && negb ema15m && negb ema1h then alignmentScore + 30
     else if is_long direction && ema1h then alignmentScore + 15
     else if is_short direction && negb ema1h then alignmentScore + 15
     else alignmentScore in
   (* MACD *)
   let macd15m := Qlt_bool 0 (macd timeframe15m) in
   let macd1h := Qlt_bool 0 (macd timeframe1h) in
   let alignmentScore :=
     if is_long direction && macd1h then
       let alignmentScore := alignmentScore + 25 in
       if macd15m then alignmentScore + 10 else alignmentScore
     else if is_short direction && negb macd1h then
       let alignmentScore := alignmentScore + 25 in
       if negb macd15m then alignmentScore + 10 else alignmentScore
     else alignmentScore in
   (* RSI *)
   let rsi15m := rsi14 timeframe15m in
   let rsi1h := rsi14 timeframe1h in
   let alignmentScore :=
     if is_long direction then
       let alignmentScore :=
         if Qlt_bool rsi1h 70 then alignmentScore + 15 else alignmentScore in
       if Qlt_bool rsi15m 30 then alignmentScore + 10 else alignmentScore
     else
       let alignmentScore :=
         if Qlt_bool 30 rsi1h then alignmentScore + 15 else alignmentScore in
       if Qlt_bool 70 rsi15m then alignmentScore + 10 else alignmentScore in
   (* price against EMA20 *)
   let alignmentScore :=
     if is_long direction && Qlt_bool (ema20 timeframe1h) (close timeframe1h)
     then alignmentScore + 10
     else if is_short direction && Qlt_bool (close timeframe1h) (ema20 timeframe1h)
     then alignmentScore + 10
     else alignmentScore in
   let finalScore := alignmentScore / 100 in
   let aligned := Qle_bool (6 # 10) finalScore in
   mkAlignment aligned finalScore)%Q.

Inductive VolatilityStatus : Type := low | normal | high | extreme.

Record VolatilityAdjustment : Type := mkVolatilityAdjustment {
  adjustment : Q;
  leverageMultiplier : Q;
  status : VolatilityStatus
}.

(** Lines 153-192.  [baseVolatility] is not read. *)
Definition calculateVolatilityAdjustment (atr atrMa baseVolatility : Q)
    : VolatilityAdjustment :=
  (let atrRatio := atr / atrMa in
   if Qlt_bool atrRatio (8 # 10) then mkVolatilityAdjustment (12 # 10) 1 low
   else if Qlt_bool atrRatio (12 # 10) then mkVolatilityAdjustment 1 1 normal
   else if Qlt_bool atrRatio (18 # 10) then mkVolatilityAdjustment (8 # 10) (8 # 10) high
   else mkVolatilityAdjustment (6 # 10) (6 # 10) extreme)%Q.

End StrategyUtils.

(* ===================================================================== *)
(** * Properties                                                          *)
(* ===================================================================== *)

(** ** Running the monad *)

Lemma bind_ok {S A B} (m : M S A) (k : A -> M S B) s a s' :
  m s = (Ok a, s') -> bind m k s = k a s'.
Proof. unfold bind. intros ->. reflexivity. Qed.

Lemma bind_throw {S A B} (m : M S A) (k : A -> M S B) s e s' :
  m s = (Throw e, s') -> bind m k s = (Throw e, s').
Proof. unfold bind. intros ->. reflexivity. Qed.

Lemma bind_cong {S A B} (m m' : M S A) (k : A -> M S B) s s' :
  m s = m' s' -> bind m k s = bind m' k s'.
Proof. unfold bind. intros ->. reflexivity. Qed.

Lemma try_finally_bind_ok {S A B} (m : M S A) (k : A -> M S B) (f : M S unit) s a s' :
  m s = (Ok a, s') -> try_finally (bind m k) f s = try_finally (k a) f s'.
Proof. unfold try_finally, bind. intros ->. reflexivity. Qed.

(** ** Binary64 rounding *)

Section DoubleFacts.
Import Double.
Local Open Scope Q_scope.

Lemma nearest_even_cases q :
  let f := Qfloor q in
  (nearest_even q = f /\ q - inject_Z f <= 1 # 2 /\
     (q - inject_Z f == 1 # 2 -> Z.even f = true)) \/
  (nearest_even q = (f + 1)%Z /\ 1 # 2 <= q - inject_Z f /\
     (q - inject_Z f == 1 # 2 -> Z.even f = false)).
Proof.
  cbv zeta. unfold nearest_even.
  destruct (Qcompare (q - inject_Z (Qfloor q)) (1 # 2)) eqn:Hc.
  - apply Qeq_alt in Hc. destruct (Z.even (Qfloor q)) eqn:He.
    + left. split; [reflexivity|]. split; [rewrite Hc; apply Qle_refl | auto].
    + right. split; [reflexivity|]. split; [rewrite Hc; apply Qle_refl | auto].
  - apply Qlt_alt in Hc. left. split; [reflexivity|]. split; [apply Qlt_le_weak; exact Hc|].
    intros Heq. rewrite Heq in Hc. discriminate.
  - apply Qgt_alt in Hc. right. split; [reflexivity|]. split; [apply Qlt_le_weak; exact Hc|].
    intros Heq. rewrite Heq in Hc. discriminate.
Qed.

(** The nearest integer is within a half. *)
Lemma nearest_even_error q : Qabs (inject_Z (nearest_even q) - q) <= 1 # 2.
Proof.
  pose proof (Qfloor_le q) as Hlo. pose proof (Qlt_floor q) as Hhi.
  rewrite inject_Z_plus in Hhi.
  destruct (nearest_even_cases q) as [(-> & H & _) | (-> & H & _)];
    apply Qabs_Qle_condition; rewrite ?inject_Z_plus;
    change (inject_Z 1) with 1 in *;
    set (x := inject_Z (Qfloor q)) in *; clearbody x; split; lra.
Qed.

Lemma nearest_even_le q1 q2 : q1 <= q2 -> (nearest_even q1 <= nearest_even q2)%Z.
Proof.
  intros Hle. pose proof (Qfloor_resp_le _ _ Hle) as Hf.
  pose proof (Qfloor_le q1) as Hlo1. pose proof (Qlt_floor q1) as Hhi1.
  pose proof (Qfloor_le q2) as Hlo2. pose proof (Qlt_floor q2) as Hhi2.
  rewrite inject_Z_plus in Hhi1, Hhi2. change (inject_Z 1) with 1 in *.
  destruct (nearest_even_cases q1) as [(-> & H1 & E1) | (-> & H1 & E1)];
    destruct (nearest_even_cases q2) as [(-> & H2 & E2) | (-> & H2 & E2)]; try lia.
  destruct (Z.eq_dec (Qfloor q1) (Qfloor q2)) as [Heq | Hne]; [|lia].
  exfalso. rewrite Heq in *.
  assert (Ha : q1 - inject_Z (Qfloor q2) == 1 # 2)
    by (set (x := inject_Z (Qfloor q2)) in *; clearbody x; lra).
  assert (Hb : q2 - inject_Z (Qfloor q2) == 1 # 2)
    by (set (x := inject_Z (Qfloor q2)) in *; clearbody x; lra).
  rewrite (E1 Ha) in E2. specialize (E2 Hb). discriminate.
Qed.

Lemma nearest_even_Z (k : Z) q : q == inject_Z k -> nearest_even q = k.
Proof.
  intros Hq. pose proof (nearest_even_error q) as He.
  apply Qabs_Qle_condition in He as [H1 H2].
  set (n := nearest_even q) in *. clearbody n.
  assert (H3 : - (1 # 2) <= inject_Z (n + - k))
    by (rewrite inject_Z_plus, inject_Z_opp; lra).
  assert (H4 : inject_Z (n + - k) <= 1 # 2)
    by (rewrite inject_Z_plus, inject_Z_opp; lra).
  unfold Qle in H3, H4. cbn in H3, H4. lia.
Qed.

Lemma pow2_pos e : 0 < 2 ^ e.
Proof. apply Qpower_0_lt. reflexivity. Qed.

Lemma pow2_plus a b : 2 ^ (a + b) == 2 ^ a * 2 ^ b.
Proof. apply Qpower_plus. discriminate. Qed.

Lemma pow2_le a b : (a <= b)%Z -> 2 ^ a <= 2 ^ b.
Proof. intros H. apply Qpower_le_compat_l; [exact H | discriminate]. Qed.

Lemma pow2_lt a b : (a < b)%Z -> 2 ^ a < 2 ^ b.
Proof. intros H. apply Qpower_lt_compat_l; [exact H | reflexivity]. Qed.

Lemma pow2_succ a : 2 ^ (a + 1) == 2 * 2 ^ a.
Proof. rewrite pow2_plus. change (2 ^ 1) with 2. ring. Qed.

Lemma pow2_Z a : (0 <= a)%Z -> inject_Z (2 ^ a) == 2 ^ a.
Proof. intros H. rewrite Zpower_Qpower by exact H. reflexivity. Qed.

Lemma exponent_spec q : 0 < q -> 2 ^ exponent q <= q /\ q < 2 ^ (exponent q + 1).
Proof.
  destruct q as [n d]. intros Hq.
  assert (Hn : (0 < n)%Z) by (unfold Qlt in Hq; cbn in Hq; lia).
  unfold exponent. cbn [Qnum Qden].
  pose proof (Z.log2_spec n Hn) as [Hn1 Hn2].
  pose proof (Z.log2_spec (Zpos d) eq_refl) as [Hd1 Hd2].
  pose proof (Z.log2_nonneg n) as Ln. pose proof (Z.log2_nonneg (Zpos d)) as Ld.
  set (ln := Z.log2 n) in *. set (ld := Z.log2 (Zpos d)) in *.
  assert (HA : 2 ^ (ln - ld) * 2 ^ ld == 2 ^ ln)
    by (rewrite <- pow2_plus; replace (ln - ld + ld)%Z with ln by lia; reflexivity).
  assert (Hq' : (n # d) * inject_Z (Zpos d) == inject_Z n)
    by (unfold Qeq, Qmult, inject_Z; cbn; lia).
  assert (N1 : 2 ^ ln <= inject_Z n) by (rewrite <- pow2_Z by exact Ln; rewrite <- Zle_Qle; exact Hn1).
  assert (N2 : inject_Z n < 2 * 2 ^ ln).
  { rewrite <- pow2_succ, <- pow2_Z by lia. rewrite <- Zlt_Qlt. exact Hn2. }
  assert (D1 : 2 ^ ld <= inject_Z (Zpos d)) by (rewrite <- pow2_Z by exact Ld; rewrite <- Zle_Qle; exact Hd1).
  assert (D2 : inject_Z (Zpos d) < 2 * 2 ^ ld).
  { rewrite <- pow2_succ, <- pow2_Z by lia. rewrite <- Zlt_Qlt. exact Hd2. }
  pose proof (pow2_pos ln) as PA. pose proof (pow2_pos ld) as PB.
  pose proof (pow2_pos (ln - ld)) as PC.
  set (A := 2 ^ ln) in *. set (B := 2 ^ ld) in *. set (C := 2 ^ (ln - ld)) in *.
  set (N := inject_Z n) in *. set (D := inject_Z (Zpos d)) in *.
  set (q := n # d) in *.
  assert (Hup : q < 2 * C).
  { apply Qnot_le_lt. intros Hc.
    assert (H1 : 2 * C * D <= q * D) by (apply Qmult_le_compat_r; [exact Hc | lra]).
    assert (H2 : 2 * C * B <= 2 * C * D) by (apply Qmult_le_l; lra).
    nra. }
  assert (Hlo : C <= 2 * q).
  { apply Qnot_lt_le. intros Hc.
    assert (H1 : 2 * q * D < C * D) by (apply Qmult_lt_compat_r; lra).
    assert (H2 : C * D < C * (2 * B)) by (apply Qmult_lt_l; lra).
    nra. }
  destruct (Qle_bool C q) eqn:Ht.
  - apply Qle_bool_iff in Ht. split; [exact Ht|]. rewrite pow2_succ. exact Hup.
  - assert (Hlt : q < C).
    { apply Qnot_le_lt. intros Hc. apply Qle_bool_iff in Hc. congruence. }
    split.
    + assert (HC : C == 2 * 2 ^ (ln - ld - 1))
        by (unfold C; rewrite <- pow2_succ; replace (ln - ld - 1 + 1)%Z with (ln - ld)%Z by lia;
            reflexivity).
      lra.
    + replace (ln - ld - 1 + 1)%Z with (ln - ld)%Z by lia. exact Hlt.
Qed.

Lemma exponent_unique q e : 2 ^ e <= q -> q < 2 ^ (e + 1) -> exponent q = e.
Proof.
  intros Hlo Hhi.
  assert (Hq : 0 < q) by (pose proof (pow2_pos e); lra).
  destruct (exponent_spec q Hq) as [Slo Shi].
  assert (H1 : (e < exponent q + 1)%Z).
  { apply (Qpower_lt_compat_l_inv 2); [|reflexivity]. lra. }
  assert (H2 : (exponent q < e + 1)%Z).
  { apply (Qpower_lt_compat_l_inv 2); [|reflexivity]. lra. }
  lia.
Qed.

Lemma exponent_le q1 q2 : 0 < q1 -> q1 <= q2 -> (exponent q1 <= exponent q2)%Z.
Proof.
  intros H1 Hle. assert (H2 : 0 < q2) by lra.
  destruct (exponent_spec q1 H1) as [A1 B1]. destruct (exponent_spec q2 H2) as [A2 B2].
  assert (H : (exponent q1 < exponent q2 + 1)%Z).
  { apply (Qpower_lt_compat_l_inv 2); [|reflexivity]. lra. }
  lia.
Qed.

(** The scaled significand lies in [[2^52, 2^53)]. *)
Lemma scaled_range q :
  0 < q -> 2 ^ 52 <= q / 2 ^ (exponent q - 52) /\ q / 2 ^ (exponent q - 52) < 2 ^ 53.
Proof.
  intros Hq. destruct (exponent_spec q Hq) as [Hlo Hhi].
  pose proof (pow2_pos (exponent q - 52)) as Hu.
  assert (H52 : 2 ^ 52 * 2 ^ (exponent q - 52) == 2 ^ exponent q)
    by (rewrite <- pow2_plus; replace (52 + (exponent q - 52))%Z with (exponent q) by lia;
        reflexivity).
  assert (H53 : 2 ^ 53 * 2 ^ (exponent q - 52) == 2 ^ (exponent q + 1))
    by (rewrite <- pow2_plus; replace (53 + (exponent q - 52))%Z with (exponent q + 1)%Z by lia;
        reflexivity).
  split.
  - apply Qle_shift_div_l; [exact Hu|]. rewrite H52. exact Hlo.
  - apply Qlt_shift_div_r; [exact Hu|]. rewrite H53. exact Hhi.
Qed.

Lemma significand_range q :
  0 < q ->
  (2 ^ 52 <= nearest_even (q / 2 ^ (exponent q - 52)) <= 2 ^ 53)%Z.
Proof.
  intros Hq. destruct (scaled_range q Hq) as [Hlo Hhi].
  split.
  - rewrite <- (nearest_even_Z (2 ^ 52)%Z (inject_Z (2 ^ 52))) by reflexivity.
    apply nearest_even_le. exact Hlo.
  - rewrite <- (nearest_even_Z (2 ^ 53)%Z (inject_Z (2 ^ 53))) by reflexivity.
    apply nearest_even_le. apply Qlt_le_weak. exact Hhi.
Qed.

Lemma round_pos_range q :
  0 < q -> 2 ^ exponent q <= round_pos q /\ round_pos q <= 2 ^ (exponent q + 1).
Proof.
  intros Hq. destruct (significand_range q Hq) as [Hlo Hhi].
  pose proof (pow2_pos (exponent q - 52)) as Hu.
  unfold round_pos. cbv zeta.
  set (m := nearest_even _) in *. clearbody m.
  assert (H52 : 2 ^ 52 * 2 ^ (exponent q - 52) == 2 ^ exponent q)
    by (rewrite <- pow2_plus; replace (52 + (exponent q - 52))%Z with (exponent q) by lia;
        reflexivity).
  assert (H53 : 2 ^ 53 * 2 ^ (exponent q - 52) == 2 ^ (exponent q + 1))
    by (rewrite <- pow2_plus; replace (53 + (exponent q - 52))%Z with (exponent q + 1)%Z by lia;
        reflexivity).
  rewrite <- H52, <- H53. split; apply Qmult_le_compat_r; try lra.
  - change (2 ^ 52) with (inject_Z (2 ^ 52)). rewrite <- Zle_Qle. exact Hlo.
  - change (2 ^ 53) with (inject_Z (2 ^ 53)). rewrite <- Zle_Qle. exact Hhi.
Qed.

(** Rounding moves a positive number by at most half a unit in the last
    place. *)
Lemma round_pos_error q :
  0 < q -> Qabs (round_pos q - q) <= 2 ^ (exponent q - 53).
Proof.
  intros Hq. pose proof (pow2_pos (exponent q - 52)) as Hu.
  unfold round_pos. cbv zeta.
  pose proof (nearest_even_error (q / 2 ^ (exponent q - 52))) as He.
  set (u := 2 ^ (exponent q - 52)) in *.
  set (m := inject_Z (nearest_even (q / u))) in *. clearbody m.
  assert (Hh : 2 ^ (exponent q - 53) == (1 # 2) * u).
  { unfold u. replace (exponent q - 52)%Z with (exponent q - 53 + 1)%Z by lia.
    rewrite pow2_succ. ring. }
  rewrite Hh.
  assert (Hs : m * u - q == (m - q / u) * u) by (field; lra).
  rewrite Hs, Qabs_Qmult, (Qabs_pos u) by lra.
  apply Qmult_le_compat_r; [exact He | lra].
Qed.

Lemma round_positive q : 0 < q -> round q == round_pos q.
Proof.
  intros Hq. unfold round. rewrite Qred_correct.
  destruct q as [[|p|p] d]; try (unfold Qlt in Hq; cbn in Hq; lia). reflexivity.
Qed.

Lemma round_negative q : q < 0 -> round q == - round_pos (- q).
Proof.
  intros Hq. unfold round. rewrite Qred_correct.
  destruct q as [[|p|p] d]; try (unfold Qlt in Hq; cbn in Hq; lia). reflexivity.
Qed.

Lemma round_zero q : q == 0 -> round q = 0.
Proof.
  intros Hq. unfold round.
  destruct q as [[|p|p] d]; try (unfold Qeq in Hq; cbn in Hq; lia). reflexivity.
Qed.

Lemma round_pos_le q1 q2 : 0 < q1 -> q1 <= q2 -> round_pos q1 <= round_pos q2.
Proof.
  intros H1 Hle. assert (H2 : 0 < q2) by lra.
  pose proof (exponent_le q1 q2 H1 Hle) as He.
  destruct (Z.eq_dec (exponent q1) (exponent q2)) as [Heq | Hne].
  - unfold round_pos. cbv zeta. rewrite Heq.
    pose proof (pow2_pos (exponent q2 - 52)) as Hu.
    apply Qmult_le_compat_r; [|lra]. rewrite <- Zle_Qle. apply nearest_even_le.
    apply Qmult_le_compat_r; [exact Hle|]. apply Qlt_le_weak, Qinv_lt_0_compat. exact Hu.
  - destruct (round_pos_range q1 H1) as [_ Hhi]. destruct (round_pos_range q2 H2) as [Hlo _].
    assert (Hp : 2 ^ (exponent q1 + 1) <= 2 ^ exponent q2) by (apply pow2_le; lia).
    lra.
Qed.

Lemma round_pos_positive q : 0 < q -> 0 < round_pos q.
Proof.
  intros Hq. destruct (round_pos_range q Hq) as [Hlo _].
  pose proof (pow2_pos (exponent q)). lra.
Qed.

(** Rounding is monotone. *)
Lemma round_le q1 q2 : q1 <= q2 -> round q1 <= round q2.
Proof.
  intros Hle.
  destruct (Qlt_le_dec 0 q1) as [P1 | N1].
  - assert (P2 : 0 < q2) by lra.
    rewrite (round_positive q1 P1), (round_positive q2 P2). apply round_pos_le; assumption.
  - assert (R1 : round q1 <= 0).
    { destruct (Qlt_le_dec q1 0) as [Hn | Hz].
      - rewrite (round_negative q1 Hn).
        assert (Hp : 0 < - q1) by lra. pose proof (round_pos_positive _ Hp). lra.
      - rewrite (round_zero q1) by lra. lra. }
    destruct (Qlt_le_dec 0 q2) as [P2 | N2].
    + rewrite (round_positive q2 P2). pose proof (round_pos_positive q2 P2). lra.
    + destruct (Qlt_le_dec q2 0) as [Hn2 | Hz2].
      * assert (Hn1 : q1 < 0) by lra.
        rewrite (round_negative q1 Hn1), (round_negative q2 Hn2).
        assert (H : round_pos (- q2) <= round_pos (- q1)) by (apply round_pos_le; lra).
        lra.
      * rewrite (round_zero q2) by lra. exact R1.
Qed.

Lemma exponent_below q k : 0 < q -> q < 2 ^ k -> (exponent q < k)%Z.
Proof.
  intros Hq Hk. destruct (exponent_spec q Hq) as [Hlo _].
  apply (Qpower_lt_compat_l_inv 2); [|reflexivity]. lra.
Qed.

(** Below [2 ^ k] the result lies within [2 ^ (k - 54)] of the argument. *)
Lemma round_error q k : 0 < q -> q < 2 ^ k -> Qabs (round q - q) <= 2 ^ (k - 54).
Proof.
  intros Hq Hk. rewrite (round_positive q Hq).
  pose proof (round_pos_error q Hq) as He.
  pose proof (exponent_below q k Hq Hk) as Hlt.
  assert (Hp : 2 ^ (exponent q - 53) <= 2 ^ (k - 54)) by (apply pow2_le; lia).
  lra.
Qed.
End DoubleFacts.

(** ** The age test of the expiry [DELETE] *)

Section Expiry.
Local Open Scope Q_scope.

Lemma days_range t : datable t -> 0 < days t /\ days t < 2 ^ 22.
Proof.
  intros [Hlo Hhi]. unfold days. split.
  - apply Qlt_shift_div_l; [reflexivity|]. rewrite Qmult_0_l.
    change 0 with (inject_Z 0). rewrite <- Zlt_Qlt. lia.
  - apply Qlt_shift_div_r; [reflexivity|].
    change (2 ^ 22 * 86400000) with (inject_Z 362387865600000). rewrite <- Zlt_Qlt. lia.
Qed.

(** [julianday] is off by at most [2 ^ -32] days. *)
Lemma julianday_error t : datable t -> Qabs (julianday t - days t) <= 2 ^ (-32).
Proof.
  intros Ht. destruct (days_range t Ht) as [Hpos Hlt].
  exact (round_error (days t) 22 Hpos Hlt).
Qed.

Lemma days_minus t1 t2 : days t1 - days t2 == inject_Z (t1 - t2) / 86400000.
Proof.
  unfold days. unfold Z.sub. rewrite !inject_Z_plus, inject_Z_opp. field.
Qed.

Lemma expired_after now r :
  datable now -> datable (updated_at r) ->
  (30001 <= now - updated_at r)%Z -> expired 30 now r = true.
Proof.
  intros Hn Hu Hage. unfold expired. apply Qle_bool_iff.
  pose proof (julianday_error now Hn) as En. pose proof (julianday_error _ Hu) as Eu.
  apply Qabs_Qle_condition in En as [En1 En2]. apply Qabs_Qle_condition in Eu as [Eu1 Eu2].
  pose proof (days_minus now (updated_at r)) as Hd.
  assert (Hq : 30001 / 86400000 <= inject_Z (now - updated_at r) / 86400000).
  { apply Qmult_le_compat_r; [|discriminate].
    change 30001 with (inject_Z 30001). rewrite <- Zle_Qle. exact Hage. }
  set (jn := julianday now) in *. set (ju := julianday (updated_at r)) in *.
  set (c := 745655 # 2147483648).
  assert (Hc : c <= jn - ju).
  { unfold c. change (2 ^ (-32)) with (1 # 4294967296) in *. 
    set (dn := days now) in *. set (du := days (updated_at r)) in *.
    set (a := inject_Z (now - updated_at r) / 86400000) in *. clearbody jn ju dn du a.
    change (30001 / 86400000) with (30001 # 86400000) in Hq. lra. }
  assert (H1 : c <= Double.sub jn ju).
  { change c with (Double.round c). apply round_le. exact Hc. }
  assert (H2 : c * 86400 <= Double.sub jn ju * 86400).
  { apply Qmult_le_compat_r; [exact H1 | discriminate]. }
  apply (round_le _ _) in H2.
  refine (Qle_trans _ _ _ _ H2). vm_compute. discriminate.
Qed.

Lemma expired_before now r :
  datable now -> datable (updated_at r) ->
  (now - updated_at r <= 29999)%Z -> expired 30 now r = false.
Proof.
  intros Hn Hu Hage. unfold expired. apply not_true_iff_false. rewrite Qle_bool_iff.
  apply Qlt_not_le.
  pose proof (julianday_error now Hn) as En. pose proof (julianday_error _ Hu) as Eu.
  apply Qabs_Qle_condition in En as [En1 En2]. apply Qabs_Qle_condition in Eu as [Eu1 Eu2].
  pose proof (days_minus now (updated_at r)) as Hd.
  assert (Hq : inject_Z (now - updated_at r) / 86400000 <= 29999 / 86400000).
  { apply Qmult_le_compat_r; [|discriminate].
    change 29999 with (inject_Z 29999). rewrite <- Zle_Qle. exact Hage. }
  set (jn := julianday now) in *. set (ju := julianday (updated_at r)) in *.
  set (c := 745653 # 2147483648).
  assert (Hc : jn - ju <= c).
  { unfold c. change (2 ^ (-32)) with (1 # 4294967296) in *. 
    set (dn := days now) in *. set (du := days (updated_at r)) in *.
    set (a := inject_Z (now - updated_at r) / 86400000) in *. clearbody jn ju dn du a.
    change (29999 / 86400000) with (29999 # 86400000) in Hq. lra. }
  assert (H1 : Double.sub jn ju <= c).
  { change c with (Double.round c). apply round_le. exact Hc. }
  assert (H2 : Double.sub jn ju * 86400 <= c * 86400).
  { apply Qmult_le_compat_r; [exact H1 | discriminate]. }
  apply (round_le _ _) in H2.
  refine (Qle_lt_trans _ _ _ H2 _). vm_compute. reflexivity.
Qed.
End Expiry.

#[local] Arguments expired : simpl never.
#[local] Arguments julianday : simpl never.
#[local] Arguments parseFloat : simpl never.

Section StatementFacts.
Context (E : Env) (HE : no_db_faults E).

Lemma dbExecute_ok {A} (q : Db -> A * Db) w :
  dbExecute E q w =
  (Ok (fst (q (db w))), count_call (with_db (fun _ => snd (q (db w))) w)).
Proof. unfold dbExecute. rewrite HE. destruct (q (db w)); reflexivity. Qed.

Lemma dbQuery_ok {A} (q : Db -> A) w :
  dbQuery E q w = (Ok (q (db w)), count_call (with_db (fun _ => db w) w)).
Proof. unfold dbQuery. rewrite dbExecute_ok. reflexivity. Qed.

Lemma dbUpdate_ok (u : Db -> Db) w :
  dbUpdate E u w = (Ok tt, count_call (with_db (fun _ => u (db w)) w)).
Proof. unfold dbUpdate. rewrite dbExecute_ok. reflexivity. Qed.
End StatementFacts.

#[local] Arguments delete_expired : simpl never.
#[local] Arguments select_lock : simpl never.
#[local] Arguments refresh_lock : simpl never.
#[local] Arguments insert_lock_if_absent : simpl never.
#[local] Arguments delete_lock : simpl never.
#[local] Arguments count_recent : simpl never.
#[local] Arguments count_completed : simpl never.
#[local] Arguments first_completed : simpl never.
#[local] Arguments open_positions : simpl never.
#[local] Arguments delete_position : simpl never.
#[local] Arguments active_orders : simpl never.
#[local] Arguments active_orders_of : simpl never.
#[local] Arguments update_order_status : simpl never.

(** Evaluate monadic code whose store statements cannot fail. *)
Ltac run_store HE :=
  unfold try_catch, try_finally, bind, ret, throw, date_now, dbUpdate, dbQuery, dbExecute,
    with_db, count_call, emit, with_system_config, with_history, with_positions,
    with_price_orders;
  cbn -[Z.div Z.mul Z.sub Z.leb Z.ltb];
  repeat (rewrite !HE; cbn -[Z.div Z.mul Z.sub Z.leb Z.ltb]).

(** ** The statements on [system_config] *)

Section LockTable.
Context (key holder : string) (now : Z).
Implicit Type t : gmap string LockRow.

Lemma select_delete_expired seconds t :
  select_lock key (delete_expired key seconds now t) =
  match t !! key with
  | Some row => if expired seconds now row then None else Some row
  | None => None
  end.
Proof.
  unfold select_lock, delete_expired.
  destruct (t !! key) as [row|] eqn:Hk; [|exact Hk].
  destruct (expired seconds now row); [apply lookup_delete_eq | exact Hk].
Qed.

Lemma delete_expired_other seconds t k :
  k <> key -> delete_expired key seconds now t !! k = t !! k.
Proof.
  intros Hne. unfold delete_expired.
  destruct (t !! key) as [row|]; [|reflexivity].
  destruct (expired seconds now row); [|reflexivity].
  apply lookup_delete_ne. congruence.
Qed.

Lemma insert_lock_absent t :
  select_lock key t = None ->
  insert_lock_if_absent key holder now t = <[key := mkLockRow holder now]> t.
Proof. unfold select_lock, insert_lock_if_absent. intros ->. reflexivity. Qed.

Lemma insert_lock_present t row :
  select_lock key t = Some row -> insert_lock_if_absent key holder now t = t.
Proof. unfold select_lock, insert_lock_if_absent. intros ->. reflexivity. Qed.

Lemma refresh_lock_own t row :
  select_lock key t = Some row -> value row = holder ->
  refresh_lock now key holder t = <[key := mkLockRow holder now]> t.
Proof.
  unfold select_lock, refresh_lock. intros -> <-. rewrite String.eqb_refl. reflexivity.
Qed.

Lemma refresh_lock_foreign t :
  (forall row, select_lock key t = Some row -> value row <> holder) ->
  refresh_lock now key holder t = t.
Proof.
  unfold select_lock, refresh_lock. intros H.
  destruct (t !! key) as [row|]; [|reflexivity].
  destruct (String.eqb_spec (value row) holder) as [Heq|]; [|reflexivity].
  exfalso. exact (H row eq_refl Heq).
Qed.

Lemma insert_over_expired seconds t row :
  t !! key = Some row -> expired seconds now row = true ->
  <[key := mkLockRow holder now]> (delete_expired key seconds now t) =
  <[key := mkLockRow holder now]> t.
Proof.
  intros Hk Hx. unfold delete_expired. rewrite Hk, Hx. apply insert_delete_eq.
Qed.

Lemma delete_expired_fresh seconds t :
  (forall row, t !! key = Some row -> expired seconds now row = false) ->
  delete_expired key seconds now t = t.
Proof.
  intros H. unfold delete_expired.
  destruct (t !! key) as [row|] eqn:Hk; [|reflexivity].
  rewrite (H row eq_refl). reflexivity.
Qed.
End LockTable.

(** ** [DistributedLock.tryAcquire] *)

Section TryAcquire.
Context (E : Env) (HE : no_db_faults E).
Context (key holder : string).

Lemma expired_timeout now row :
  expired (DistributedLock.LOCK_TIMEOUT_MS / 1000) now row = expired 30 now row.
Proof. reflexivity. Qed.

Lemma tryAcquire_spec (w : World) :
  exists granted w',
    DistributedLock.tryAcquire E key holder w = (Ok granted, w') /\
    let t := system_config (db w) in
    let t' := system_config (db w') in
    let mine := <[key := mkLockRow holder (now w)]> t in
    match t !! key with
    | Some row =>
        if expired 30 (now w) row then granted = true /\ t' = mine
        else if String.eqb (value row) holder then granted = true /\ t' = mine
        else granted = false /\ t' = t
    | None => granted = true /\ t' = mine
    end /\
    (granted = true <-> value <$> t' !! key = Some holder) /\
    (forall k, k <> key -> t' !! k = t !! k) /\
    partial_take_profit_history (db w') = partial_take_profit_history (db w) /\
    positions (db w') = positions (db w) /\
    price_orders (db w') = price_orders (db w) /\
    now w' = now w /\ effects w' = effects w.
Proof.
  destruct w as [d nw c fx]. destruct d as [t hs ps os].
  unfold DistributedLock.tryAcquire. run_store HE.
  rewrite select_delete_expired.
  destruct (t !! key) as [row|] eqn:Hk.
  - rewrite expired_timeout.
    destruct (expired 30 nw row) eqn:Hx.
    + run_store HE.
      rewrite insert_lock_absent
        by (rewrite select_delete_expired, Hk, expired_timeout, Hx; reflexivity).
      unfold select_lock at 1. rewrite lookup_insert_eq. cbn. rewrite String.eqb_refl.
      eexists _, _. split; [reflexivity|]. cbn.
      rewrite (insert_over_expired _ _ _ _ _ row Hk) by (rewrite expired_timeout; exact Hx).
      rewrite lookup_insert_eq. cbn.
      repeat split; auto.
      intros k Hne. rewrite lookup_insert_ne by congruence. reflexivity.
    + rewrite delete_expired_fresh
        by (intros r Hr; rewrite expired_timeout; congruence).
      destruct (String.eqb_spec (value row) holder) as [Hv|Hv].
      * run_store HE. rewrite (refresh_lock_own _ _ _ _ row Hk Hv).
        eexists _, _. split; [reflexivity|]. cbn.
        rewrite lookup_insert_eq. cbn.
        repeat split; auto.
        intros k Hne. rewrite lookup_insert_ne by congruence. reflexivity.
      * eexists _, _. split; [reflexivity|]. cbn. rewrite Hk. cbn.
        repeat split; auto; try discriminate.
        intros [= Hh]. contradiction.
  - run_store HE.
    rewrite delete_expired_fresh by (intros r Hr; congruence).
    rewrite insert_lock_absent by exact Hk.
    unfold select_lock at 1. rewrite lookup_insert_eq. cbn. rewrite String.eqb_refl.
    eexists _, _. split; [reflexivity|]. cbn.
    rewrite lookup_insert_eq. cbn.
    repeat split; auto.
    intros k Hne. rewrite lookup_insert_ne by congruence. reflexivity.
Qed.

Lemma tryAcquire_granted (w : World) :
  PartialTakeProfitExecutor.busy key holder w = false ->
  exists w',
    DistributedLock.tryAcquire E key holder w = (Ok true, w') /\
    system_config (db w') = <[key := mkLockRow holder (now w)]> (system_config (db w)) /\
    same_but_lease key w w'.
Proof.
  intros Hbusy. destruct (tryAcquire_spec w) as (g & w' & Hrun & Hcase & _ & Hrest).
  unfold PartialTakeProfitExecutor.busy in Hbusy. cbv zeta in Hcase.
  exists w'. destruct (system_config (db w) !! key) as [row|].
  - destruct (expired 30 (now w) row).
    + destruct Hcase as [-> Ht]. repeat split; auto; apply Hrest.
    + cbn in Hbusy. apply negb_false_iff in Hbusy. rewrite Hbusy in Hcase.
      destruct Hcase as [-> Ht]. repeat split; auto; apply Hrest.
  - destruct Hcase as [-> Ht]. repeat split; auto; apply Hrest.
Qed.

Lemma tryAcquire_refused (w : World) :
  PartialTakeProfitExecutor.busy key holder w = true ->
  exists w', DistributedLock.tryAcquire E key holder w = (Ok false, w') /\ same_store w w'.
Proof.
  intros Hbusy. destruct (tryAcquire_spec w) as (g & w' & Hrun & Hcase & _ & Hrest).
  unfold PartialTakeProfitExecutor.busy in Hbusy. cbv zeta in Hcase.
  exists w'. destruct (system_config (db w) !! key) as [row|]; [|discriminate].
  apply andb_prop in Hbusy as [Hx Hv].
  apply negb_true_iff in Hx. apply negb_true_iff in Hv. rewrite Hx, Hv in Hcase.
  destruct Hcase as [-> Ht]. split; [exact Hrun|].
  destruct Hrest as (_ & Hh & Hp & Ho & Hn & Hf).
  unfold same_store. repeat split; auto.
  destruct (db w'), (db w). cbn in *. congruence.
Qed.

Lemma release_spec (w : World) :
  exists w',
    DistributedLock.release E key holder w = (Ok tt, w') /\
    PartialTakeProfitExecutor.released key holder w' /\
    system_config (db w') =
      (if Interleaving.holder_is holder (system_config (db w) !! key)
       then delete key (system_config (db w)) else system_config (db w)) /\
    same_but_lease key w w'.
Proof.
  destruct w as [d nw c fx]. destruct d as [t hs ps os].
  unfold DistributedLock.release, PartialTakeProfitExecutor.released, same_but_lease,
    Interleaving.holder_is.
  run_store HE. unfold select_lock.
  destruct (t !! key) as [row|] eqn:Hk.
  - destruct (String.eqb_spec (value row) holder) as [Hv|Hv].
    + run_store HE. eexists. split; [reflexivity|]. cbn. unfold delete_lock.
      rewrite lookup_delete_eq. repeat split; auto; try discriminate.
      intros k Hne. apply lookup_delete_ne. congruence.
    + eexists. split; [reflexivity|]. cbn. rewrite Hk. cbn.
      repeat split; auto; congruence.
  - eexists. split; [reflexivity|]. cbn. rewrite Hk. cbn.
    repeat split; auto; discriminate.
Qed.

Lemma hasRecentExecution_spec symbol stage (w : World) :
  exists w',
    DistributedLock.hasRecentExecution E symbol stage 30 w =
      (Ok (PartialTakeProfitExecutor.recently symbol stage w), w') /\
    same_store w w'.
Proof.
  destruct w as [d nw c fx].
  unfold DistributedLock.hasRecentExecution, PartialTakeProfitExecutor.recently.
  run_store HE. eexists. split; [reflexivity|]. repeat split.
Qed.

(** C2: one call of [tryAcquire], run as one unit of work against a store
    that accepts its statements.  A row of the key for which the age test
    of the [DELETE] holds is cleared first, so the caller is granted the
    lease whoever held it; a row for which the test fails is refreshed to
    now when it names the caller, and the lease is granted; when it names
    another holder it is left as it is and the lease is refused; with no
    row the lease is inserted and granted.  The lease is granted exactly
    when the row names the caller afterwards, and nothing else in the store
    changes.  The age test holds of every row of 30001 ms or more and of no
    row of 29999 ms or less. *)
Theorem tryAcquire_unit_of_work (w : World) :
  exists granted w',
    DistributedLock.tryAcquire E key holder w = (Ok granted, w') /\
    let t := system_config (db w) in
    let t' := system_config (db w') in
    let mine := Some (mkLockRow holder (now w)) in
    (forall row, t !! key = Some row -> expired 30 (now w) row = true ->
                 granted = true /\ t' !! key = mine) /\
    (forall row, t !! key = Some row -> expired 30 (now w) row = false ->
                 value row = holder ->
                 granted = true /\ t' !! key = mine) /\
    (forall row, t !! key = Some row -> expired 30 (now w) row = false ->
                 value row <> holder ->
                 granted = false /\ t' = t) /\
    (t !! key = None -> granted = true /\ t' !! key = mine) /\
    (granted = true <-> value <$> t' !! key = Some holder) /\
    (forall k, k <> key -> t' !! k = t !! k) /\
    partial_take_profit_history (db w') = partial_take_profit_history (db w) /\
    positions (db w') = positions (db w) /\
    price_orders (db w') = price_orders (db w) /\
    now w' = now w /\ effects w' = effects w /\
    (forall row, datable (now w) -> datable (updated_at row) ->
       (30001 <= now w - updated_at row -> expired 30 (now w) row = true) /\
       (now w - updated_at row <= 29999 -> expired 30 (now w) row = false)).
Proof.
  destruct (tryAcquire_spec w) as (granted & w' & Hrun & Hcase & Hiff & Hframe).
  exists granted, w'. split; [exact Hrun|]. cbv zeta in *.
  repeat match goal with |- _ /\ _ => split end; try tauto.
  - intros row Hrow Hold. rewrite Hrow, Hold in Hcase.
    destruct Hcase as [-> ->]. split; [reflexivity | apply lookup_insert_eq].
  - intros row Hrow Hyoung Hmine. rewrite Hrow, Hyoung in Hcase.
    rewrite Hmine, String.eqb_refl in Hcase.
    destruct Hcase as [-> ->]. split; [reflexivity | apply lookup_insert_eq].
  - intros row Hrow Hyoung Hother. rewrite Hrow, Hyoung in Hcase.
    apply String.eqb_neq in Hother. rewrite Hother in Hcase. exact Hcase.
  - intros Hnone. rewrite Hnone in Hcase.
    destruct Hcase as [-> ->]. split; [reflexivity | apply lookup_insert_eq].
  - intros row Hn Hu. split; [apply expired_after | apply expired_before]; assumption.
Qed.
End TryAcquire.

(** The agent's lease is 31 seconds old and was never released: the health
    check is granted the lease, and the row names it afterwards. *)
Lemma tryAcquire_unit_of_work_witness :
  let E := Scenario.env (Scenario.quotes 115 2050) (Scenario.all Scenario.Succeeds) [] in
  let w := Scenario.world (Scenario.lease_of_agent 31000) Scenario.t0 in
  no_db_faults E /\
  exists w',
    DistributedLock.tryAcquire E "partial_tp_BTC_long_stage1" "health-check" w = (Ok true, w') /\
    system_config (db w') !! "partial_tp_BTC_long_stage1" =
      Some (mkLockRow "health-check" Scenario.t0).
Proof.
  intros E w.
  assert (HE : no_db_faults E) by (intros k; reflexivity).
  split; [exact HE|].
  destruct (tryAcquire_unit_of_work E HE "partial_tp_BTC_long_stage1" "health-check" w)
    as (granted & w' & Hrun & Hexpired & _).
  assert (Hrow : system_config (db w) !! "partial_tp_BTC_long_stage1" =
                 Some (mkLockRow "ai-agent" (Scenario.t0 - 31000)))
    by (vm_compute; reflexivity).
  destruct (Hexpired _ Hrow) as [-> Htable]; [vm_compute; reflexivity|].
  exists w'. split; [exact Hrun | exact Htable].
Defined.

(** C2 as the specification words it fails at the timeout itself: the
    agent's lease is exactly 30000 ms old, the difference of the two Julian
    day numbers times 86400 comes to 29.999998 on doubles, the row is not
    deleted and the health check is refused.  A row written 5 ms after the
    instant of the scenario is deleted at the same age: at 30000 ms the
    rounding decides. *)
Lemma lease_of_30_seconds_is_kept :
  let E := Scenario.env (Scenario.quotes 115 2050) (Scenario.all Scenario.Succeeds) [] in
  let key := "partial_tp_BTC_long_stage1" in
  let w := Scenario.world (Scenario.lease_of_agent 30000) Scenario.t0 in
  let row := mkLockRow "ai-agent" (Scenario.t0 - 30000) in
  system_config (db w) !! key = Some row /\
  now w - updated_at row = DistributedLock.LOCK_TIMEOUT_MS /\
  (Double.mul (Double.sub (julianday (now w)) (julianday (updated_at row))) 86400
   == 251658225 # 8388608)%Q /\
  expired 30 (now w) row = false /\
  (exists w', DistributedLock.tryAcquire E key "health-check" w = (Ok false, w') /\
              system_config (db w') = system_config (db w)) /\
  expired 30 (Scenario.t0 + 30005) (mkLockRow "ai-agent" (Scenario.t0 + 5)) = true.
Proof.
  cbv zeta. split; [vm_compute; reflexivity|]. split; [reflexivity|].
  split; [vm_compute; reflexivity|]. split; [vm_compute; reflexivity|].
  split; [|vm_compute; reflexivity].
  eexists. split; vm_compute; reflexivity.
Qed.

(** The premise on the store is needed: when the store rejects the expiry
    [DELETE], the agent's lease of 31 seconds stays in the table and the
    health check is refused. *)
Lemma rejected_delete_keeps_the_expired_lease :
  let E := Scenario.env_with (Scenario.nth_statement 0)
             (fun contract => Ok (Scenario.quotes 115 2050 contract))
             (Scenario.quotes 115 2050) (Scenario.all Scenario.Succeeds) [] (fun _ => false) in
  let key := "partial_tp_BTC_long_stage1" in
  let w := Scenario.world (Scenario.lease_of_agent 31000) Scenario.t0 in
  expired 30 (now w) (mkLockRow "ai-agent" (Scenario.t0 - 31000)) = true /\
  exists w', DistributedLock.tryAcquire E key "health-check" w = (Ok false, w') /\
             system_config (db w') = system_config (db w).
Proof.
  cbv zeta. split; [vm_compute; reflexivity|].
  eexists. split; vm_compute; reflexivity.
Qed.

(** ** Concurrent callers of one stage block *)

Module InterleavingFacts.
Import Interleaving.

Section StageFacts.
Context (symbol side : string) (n : Z) (digit filed : string).

Abbreviation key := (lockKey symbol side digit).
Abbreviation resume := (resume symbol side n digit filed).
Abbreviation step := (step symbol side n digit filed).
Abbreviation run := (run symbol side n digit filed).
Abbreviation lease_live := (lease_live symbol side digit).
Abbreviation always_live := (always_live symbol side n digit filed).
Abbreviation completed_entries := (completed_entries symbol n).

Abbreviation owns := (owns symbol side digit).
Abbreviation Inv := (Inv symbol side n digit filed).

Lemma owns_unique c1 c2 t : owns c1 t -> owns c2 t -> c1 = c2.
Proof. intros (r1 & H1 & <-) (r2 & H2 & <-). congruence. Qed.

Lemma holder_is_owns c t : holder_is c (select_lock key t) = true -> owns c t.
Proof.
  unfold holder_is, select_lock. destruct (t !! key) as [row|] eqn:Hk; [|discriminate].
  intros H%String.eqb_eq. exists row. split; [exact Hk | exact H].
Qed.

Lemma owns_refresh c c' now0 t : owns c' t -> owns c' (refresh_lock now0 key c t).
Proof.
  intros (row & Hk & Hv). unfold refresh_lock. rewrite Hk.
  destruct (String.eqb (value row) c); [|exists row; auto].
  eexists. rewrite lookup_insert_eq. split; [reflexivity | exact Hv].
Qed.

Lemma owns_insert c c' now0 t : owns c' t -> owns c' (insert_lock_if_absent key c now0 t).
Proof.
  intros (row & Hk & Hv). unfold insert_lock_if_absent. rewrite Hk. exists row. auto.
Qed.

(** An entry the executor files counts for the stage when it is filed
    under the symbol of the position. *)
Lemma count_completed_record trigger now hs :
  count_completed symbol n (record_completion n filed trigger now hs) =
  if String.eqb filed symbol
  then S (count_completed symbol n hs) else count_completed symbol n hs.
Proof.
  unfold count_completed, record_completion.
  rewrite List.filter_app, List.length_app. cbn.
  destruct (String.eqb filed symbol); cbn; [rewrite Z.eqb_refl; cbn|]; lia.
Qed.

(** A caller moves on without touching a table. *)
Lemma inv_set_pc h0 c0 s c pc :
  Inv h0 c0 s ->
  (claims pc -> owns c (table s)) ->
  (calling pc -> completed_entries s = 0%nat) ->
  Inv h0 c0 (set_pc c pc s).
Proof.
  intros [Ho Hc Hl Hn Hi Hr] Hown Hcall. split; cbn; auto.
  - intros c' pc'. rewrite lookup_insert. case_decide as Hd.
    + intros [= <-]. subst. exact Hown.
    + apply Ho.
  - intros c' pc'. rewrite lookup_insert. case_decide as Hd.
    + intros [= <-]. exact Hcall.
    + apply Hc.
Qed.

(** A statement on [system_config] that leaves every owner in place. *)
Lemma inv_set_table h0 c0 s t' :
  Inv h0 c0 s ->
  (forall c, owns c (table s) -> owns c t') ->
  Inv h0 c0 (set_table t' s).
Proof.
  intros [Ho Hc Hl Hn Hi Hr] Hkeep. split; cbn; auto.
  intros c pc Hpc Hcl. apply Hkeep. exact (Ho c pc Hpc Hcl).
Qed.

Lemma inv_no_claim h0 c0 s c pc :
  Inv h0 c0 s -> ~ claims pc -> ~ calling pc -> Inv h0 c0 (set_pc c pc s).
Proof. intros HI H1 H2. apply inv_set_pc; [exact HI | tauto | tauto]. Qed.

Ltac no_claim :=
  match goal with
  | |- ~ claims _ => let H := fresh in intros [H | [? H]]; discriminate
  | |- ~ calling _ => let H := fresh in intros [H | H]; discriminate
  end.

(** The executor is called. *)
Lemma inv_call h0 c0 s c :
  Inv h0 c0 s -> owns c (table s) -> completed_entries s = 0%nat ->
  Inv h0 c0 (mkState (table s) (history s) (clock s) (<[c := Executing]> (pcs s))
                     (invocations s ++ [(c, count_completed symbol n (history s))])).
Proof.
  intros [Ho' Hc Hl Hn Hi Hr] Ho Hz. split; cbn.
  - intros c' pc'. rewrite lookup_insert. case_decide.
    + intros [= <-]. subst. auto.
    + apply Ho'.
  - intros c' pc'. rewrite lookup_insert. case_decide.
    + intros [= <-]. auto.
    + apply Hc.
  - intros c' k [Hin | Hin]%elem_of_app.
    + eapply Hl; eauto.
    + apply list_elem_of_singleton in Hin. injection Hin as -> ->. exact Hz.
  - exact Hn.
  - intros Hpos. exfalso. unfold Interleaving.completed_entries in *. lia.
  - exact Hr.
Qed.

(** The executor returns with success, and its entry is filed. *)
Lemma inv_success h0 c0 s c :
  Inv h0 c0 s -> pcs s !! c = Some Executing ->
  Inv h0 c0 (mkState (table s) (record_completion n filed 0 (clock s) (history s)) (clock s)
                     (<[c := AtReleaseSelect "success"]> (pcs s)) (invocations s)).
Proof.
  intros HI Hpc.
  assert (Ho : owns c (table s))
    by (apply (inv_owner _ _ _ _ _ _ _ _ HI c Executing Hpc); left; reflexivity).
  assert (Hz : completed_entries s = 0%nat)
    by (apply (inv_calling _ _ _ _ _ _ _ _ HI c Executing Hpc); right; reflexivity).
  destruct HI as [Ho' Hc Hl Hn Hi Hr]. unfold Interleaving.completed_entries in *.
  split; cbn.
  - intros c' pc'. rewrite lookup_insert. case_decide.
    + intros [= <-]. subst. auto.
    + apply Ho'.
  - intros c' pc'. rewrite lookup_insert. case_decide.
    + intros [= <-] [?|?]; discriminate.
    + intros Hpc' Hcall'. exfalso.
      assert (c' = c); [|congruence].
      apply (owns_unique c' c (table s)); [|exact Ho].
      apply (Ho' c' pc' Hpc'). left. destruct Hcall' as [-> | ->]; reflexivity.
  - exact Hl.
  - unfold Interleaving.completed_entries. cbn. rewrite count_completed_record.
    destruct (String.eqb filed symbol); [right; lia | exact Hn].
  - exact Hi.
  - destruct Hr as (rows & Hh & Hcount).
    exists (rows ++ [mkHistoryRow filed n 0 (clock s) "completed"])%list. split.
    + unfold record_completion. rewrite Hh, <- app_assoc. reflexivity.
    + intros Hf. unfold Interleaving.completed_entries. cbn.
      rewrite count_completed_record, Hf, String.eqb_refl, List.length_app. cbn.
      specialize (Hcount Hf). lia.
Qed.

Lemma resume_inv h0 c0 s c r pc :
  Inv h0 c0 s -> lease_live s -> pcs s !! c = Some pc -> Inv h0 c0 (resume c r pc s).
Proof.
  intros HI Hlive Hpc.
  assert (Hmine : claims pc -> owns c (table s))
    by (apply (inv_owner _ _ _ _ _ _ _ _ HI c pc Hpc)).
  assert (Hzero : calling pc -> completed_entries s = 0%nat)
    by (apply (inv_calling _ _ _ _ _ _ _ _ HI c pc Hpc)).
  destruct pc; destruct r as [ok|]; cbn [Interleaving.resume].
  (* AtGuard *)
  - destruct (0 <? _)%nat; apply inv_no_claim; auto; no_claim.
  - apply inv_no_claim; auto; no_claim.
  (* AtAcquireDelete *)
  - apply inv_no_claim; [|no_claim|no_claim].
    apply inv_set_table; [exact HI|].
    rewrite delete_expired_fresh; [auto | exact Hlive].
  - apply inv_no_claim; auto; no_claim.
  (* AtAcquireSelect *)
  - destruct (select_lock key (table s)) as [row|] eqn:Hsel.
    + destruct (String.eqb_spec (value row) c) as [Hv|Hv].
      * apply inv_set_pc; [exact HI | | intros [?|?]; discriminate].
        intros _. exists row. auto.
      * apply inv_no_claim; auto; no_claim.
    + apply inv_no_claim; auto; no_claim.
  - apply inv_no_claim; auto; no_claim.
  (* AtAcquireRefresh *)
  - apply inv_set_pc; [| | intros [?|?]; discriminate].
    + apply inv_set_table; [exact HI|]. intros c'. apply owns_refresh.
    + intros _. cbn. apply owns_refresh. apply Hmine. right. eauto.
  - apply inv_no_claim; auto; no_claim.
  (* AtAcquireInsert *)
  - apply inv_no_claim; [|no_claim|no_claim].
    apply inv_set_table; [exact HI|]. intros c'. apply owns_insert.
  - apply inv_no_claim; auto; no_claim.
  (* AtAcquireVerify *)
  - destruct (holder_is c (select_lock key (table s))) eqn:Hh.
    + apply inv_set_pc; [exact HI | | intros [?|?]; discriminate].
      intros _. apply holder_is_owns. exact Hh.
    + apply inv_no_claim; auto; no_claim.
  - apply inv_no_claim; auto; no_claim.
  (* AtHistoryCheck *)
  - assert (Ho : owns c (table s)) by (apply Hmine; left; reflexivity).
    destruct (0 <? count_completed symbol n (history s))%nat eqn:Hcnt.
    + apply inv_set_pc; [exact HI | auto | intros [?|?]; discriminate].
    + apply inv_set_pc; [exact HI | auto |].
      intros _. apply Nat.ltb_ge in Hcnt. unfold Interleaving.completed_entries. lia.
  - assert (Ho : owns c (table s)) by (apply Hmine; left; reflexivity).
    apply inv_set_pc; [exact HI | auto | intros [?|?]; discriminate].
  (* AtExecute *)
  - assert (Ho : owns c (table s)) by (apply Hmine; left; reflexivity).
    assert (Hz : completed_entries s = 0%nat) by (apply Hzero; left; reflexivity).
    apply inv_call; auto.
  - assert (Ho : owns c (table s)) by (apply Hmine; left; reflexivity).
    assert (Hz : completed_entries s = 0%nat) by (apply Hzero; left; reflexivity).
    apply inv_call; auto.
  (* Executing *)
  - assert (Ho : owns c (table s)) by (apply Hmine; left; reflexivity).
    destruct ok.
    + apply inv_success; assumption.
    + apply inv_set_pc; [exact HI | auto | intros [?|?]; discriminate].
  - assert (Ho : owns c (table s)) by (apply Hmine; left; reflexivity).
    apply inv_set_pc; [exact HI | auto | intros [?|?]; discriminate].
  (* AtReleaseSelect *)
  - assert (Ho : owns c (table s)) by (apply Hmine; left; reflexivity).
    destruct (holder_is c (select_lock key (table s))).
    + apply inv_set_pc; [exact HI | auto | intros [?|?]; discriminate].
    + apply inv_no_claim; auto; no_claim.
  - apply inv_no_claim; auto; no_claim.
  (* AtReleaseDelete *)
  - assert (Ho : owns c (table s)) by (apply Hmine; left; reflexivity).
    destruct HI as [Ho' Hc Hl Hn Hi Hr]. split; cbn; auto.
    + intros c' pc'. rewrite lookup_insert. case_decide.
      * intros [= <-]. intros [? | [? ?]]; discriminate.
      * intros Hpc' Hcl. exfalso.
        assert (c' = c); [|congruence].
        apply (owns_unique c' c (table s)); [|exact Ho]. eauto.
    + intros c' pc'. rewrite lookup_insert. case_decide.
      * intros [= <-] [?|?]; discriminate.
      * apply Hc.
  - apply inv_no_claim; auto; no_claim.
  (* Finished *)
  - apply inv_no_claim; auto; no_claim.
  - apply inv_no_claim; auto; no_claim.
Qed.

Lemma step_inv h0 c0 s e : Inv h0 c0 s -> lease_live s -> Inv h0 c0 (step s e).
Proof.
  intros HI Hlive. destruct e as [ms | c r]; cbn.
  - destruct HI as [Ho Hc Hl Hn Hi Hr]. split; auto.
  - destruct (pcs s !! c) as [pc|] eqn:Hpc; [|exact HI].
    apply resume_inv; auto.
Qed.

Lemma run_inv h0 c0 events :
  forall s, Inv h0 c0 s -> always_live s events -> Inv h0 c0 (run s events).
Proof.
  induction events as [|e rest IH]; intros s HI Hlive; cbn.
  - exact HI.
  - destruct Hlive as [Hs Hrest]. apply IH; [apply step_inv; auto | exact Hrest].
Qed.

Lemma entering_inv s : entering s -> Inv (history s) (completed_entries s) s.
Proof.
  intros [Hpcs Hlog]. split.
  - intros c pc Hpc [H | [x H]]; destruct (Hpcs c pc Hpc) as [cutoff ->]; discriminate.
  - intros c pc Hpc [H | H]; destruct (Hpcs c pc Hpc) as [cutoff ->]; discriminate.
  - rewrite Hlog. intros c k Hin. inversion Hin.
  - left. reflexivity.
  - intros _. exact Hlog.
  - exists []. rewrite app_nil_r. split; [reflexivity|]. intros _. cbn. lia.
Qed.

Lemma lease_liveb_sound s : lease_liveb symbol side digit s = true -> lease_live s.
Proof.
  unfold lease_liveb, Interleaving.lease_live. intros H row Hrow.
  rewrite Hrow in H. destruct (expired _ _ row); [discriminate | reflexivity].
Qed.

Lemma always_liveb_sound events :
  forall s, always_liveb symbol side n digit filed s events = true -> always_live s events.
Proof.
  induction events as [|e rest IH]; intros s H; cbn in H;
    apply andb_prop in H as [H1 H2]; split; auto using lease_liveb_sound.
Qed.

End StageFacts.
End InterleavingFacts.




(** Why the lease must stay live: an executor call that outlasts the timeout
    lets a second caller in while the first is still inside. *)
Lemma expired_lease_admits_second_caller :
  let s := Interleaving.run "BTC" "long" 1 "1" "BTC" Interleaving.two_callers
             Interleaving.slow_executor in
  Interleaving.always_liveb "BTC" "long" 1 "1" "BTC" Interleaving.two_callers
    Interleaving.slow_executor = false /\
  Interleaving.pcs s !! "health-check" = Some Interleaving.Executing /\
  Interleaving.pcs s !! "ai-agent" = Some Interleaving.Executing /\
  Interleaving.invocations s = [("health-check", 0%nat); ("ai-agent", 0%nat)].
Proof. vm_compute. repeat split; reflexivity. Qed.

(** The row carries the instant [tryAcquire] read on entry, not the instant
    of the insert: a call that is suspended for 31 seconds before its
    [DELETE] inserts a row that has expired already, and the next caller
    clears it while the first is inside. *)
Lemma late_insert_admits_second_caller :
  let s1 := Interleaving.run "BTC" "long" 1 "1" "BTC" Interleaving.two_callers
              (firstn 6 Interleaving.late_insert) in
  let s := Interleaving.run "BTC" "long" 1 "1" "BTC" Interleaving.two_callers
             Interleaving.late_insert in
  Interleaving.pcs s1 !! "health-check" = Some Interleaving.AtHistoryCheck /\
  Interleaving.table s1 !! "partial_tp_BTC_long_stage1" =
    Some (mkLockRow "health-check" (Interleaving.clock s1 - 31000)) /\
  Interleaving.lease_liveb "BTC" "long" "1" s1 = false /\
  Interleaving.pcs s !! "health-check" = Some Interleaving.Executing /\
  Interleaving.pcs s !! "ai-agent" = Some Interleaving.Executing /\
  Interleaving.invocations s = [("health-check", 0%nat); ("ai-agent", 0%nat)].
Proof. vm_compute. repeat split; reflexivity. Qed.

(** Why the entry must be filed under the symbol of the position: for
    BTC_USDT the executor is handed BTC; if it files its entry under BTC, the
    guard and the check under the lease, which look under BTC_USDT, never see
    it, and the next caller calls the executor again, which records a second
    entry.  No lease has expired. *)
Lemma entry_filed_under_the_stripped_symbol :
  let filed := replace "USDT" "" (replace "_USDT" "" "BTC_USDT") in
  let s := Interleaving.run "BTC_USDT" "long" 1 "1" filed Interleaving.two_callers
             Interleaving.one_after_the_other in
  filed = "BTC" /\
  Interleaving.always_liveb "BTC_USDT" "long" 1 "1" filed Interleaving.two_callers
    Interleaving.one_after_the_other = true /\
  Interleaving.invocations s = [("health-check", 0%nat); ("ai-agent", 0%nat)] /\
  map h_symbol (Interleaving.history s) = ["BTC"; "BTC"] /\
  map h_status (Interleaving.history s) = ["completed"; "completed"].
Proof. vm_compute. repeat split; reflexivity. Qed.

(** ** Exceptions *)

Lemma ret_never_throws {S A} (a : A) : never_throws (@ret S A a).
Proof. intros s. exists a, s. reflexivity. Qed.

Lemma try_catch_never_throws {S A} (m : M S A) (h : string -> M S A) :
  (forall e, never_throws (h e)) -> never_throws (try_catch m h).
Proof.
  intros Hh s. unfold try_catch. destruct (m s) as [[a|e] s'].
  - exists a, s'. reflexivity.
  - apply Hh.
Qed.

Lemma bind_never_throws {S A B} (m : M S A) (k : A -> M S B) :
  never_throws m -> (forall a, never_throws (k a)) -> never_throws (bind m k).
Proof.
  intros Hm Hk s. unfold bind. destruct (Hm s) as (a & s' & ->). apply Hk.
Qed.

Lemma for_of_never_throws {S A} (xs : list A) (body : A -> M S unit) :
  (forall x, never_throws (body x)) -> never_throws (for_of xs body).
Proof.
  intros Hb. induction xs as [|x rest IH]; cbn.
  - apply ret_never_throws.
  - apply bind_never_throws; auto.
Qed.

(** A loop stops at the first iteration that throws, in the state that
    iteration left. *)
Lemma for_of_aborts {S A} (before after : list A) (x : A) (body : A -> M S unit) s0 s1 e s2 :
  for_of before body s0 = (Ok tt, s1) ->
  body x s1 = (Throw e, s2) ->
  for_of (before ++ x :: after)%list body s0 = (Throw e, s2).
Proof.
  revert s0. induction before as [|y before IH]; intros s0 Hbefore Hx; cbn in *.
  - injection Hbefore as <-. unfold bind. rewrite Hx. reflexivity.
  - unfold bind in *. destruct (body y s0) as [[[]|e'] s'].
    + apply IH; assumption.
    + discriminate.
Qed.

Section LockNeverThrows.
Context (E : Env).

Lemma tryAcquire_never_throws key holder :
  never_throws (DistributedLock.tryAcquire E key holder).
Proof. apply try_catch_never_throws. intros e. apply ret_never_throws. Qed.

Lemma release_never_throws key holder :
  never_throws (DistributedLock.release E key holder).
Proof. apply try_catch_never_throws. intros e. apply ret_never_throws. Qed.

Lemma hasRecentExecution_never_throws symbol stage window :
  never_throws (DistributedLock.hasRecentExecution E symbol stage window).
Proof. apply try_catch_never_throws. intros e. apply ret_never_throws. Qed.
End LockNeverThrows.

(** ** [PartialTakeProfitExecutor.executeCheck] *)

(** C10: [executeCheck] resolves whatever its collaborators do, and when an
    exception leaves the loop over the positions it resolves to
    [success = false] with the counts and details of the moment the exception
    was thrown. *)
Theorem executeCheck_always_resolves (E : Env) (caller : string) (w : World) :
  exists result w',
    PartialTakeProfitExecutor.executeCheck E caller w = (Ok result, w') /\
    match PartialTakeProfitExecutor.tryBlock E caller
            (PartialTakeProfitExecutor.mkLocals [] 0 0, w) with
    | (Ok returned, st) => result = returned /\ w' = snd st
    | (Throw _, st) =>
        result = PartialTakeProfitExecutor.mkCheckResult false
                   (PartialTakeProfitExecutor.executedCount (fst st))
                   (PartialTakeProfitExecutor.skippedCount (fst st))
                   (PartialTakeProfitExecutor.executed (fst st)) /\
        w' = snd st
    end /\
    forall before pos after st1 e st2,
      dbFault E (calls w) = false ->
      open_positions (positions (db w)) = (before ++ pos :: after)%list ->
      for_of before (PartialTakeProfitExecutor.evaluatePosition E caller)
             (PartialTakeProfitExecutor.mkLocals [] 0 0,
              count_call (with_db (fun _ => db w) w)) = (Ok tt, st1) ->
      PartialTakeProfitExecutor.evaluatePosition E caller pos st1 = (Throw e, st2) ->
      result = PartialTakeProfitExecutor.mkCheckResult false
                 (PartialTakeProfitExecutor.executedCount (fst st2))
                 (PartialTakeProfitExecutor.skippedCount (fst st2))
                 (PartialTakeProfitExecutor.executed (fst st2)) /\
      w' = snd st2.
Proof.
  unfold PartialTakeProfitExecutor.executeCheck, try_catch.
  destruct (PartialTakeProfitExecutor.tryBlock E caller _) as [[returned|e0] st] eqn:Htry.
  - exists returned, (snd st). split; [reflexivity|]. split; [auto|].
    intros before pos after st1 e st2 Hdb Hrows Hbefore Hpos. exfalso.
    pose proof (for_of_aborts before after pos _ _ st1 e st2 Hbefore Hpos) as Hloop.
    revert Htry. unfold PartialTakeProfitExecutor.tryBlock, PartialTakeProfitExecutor.lift,
      dbQuery, dbExecute, bind. cbn. rewrite Hdb, Hrows.
    destruct (before ++ pos :: after)%list as [|row rows] eqn:Hlist;
      [destruct before; discriminate|].
    rewrite Hloop. discriminate.
  - eexists _, (snd st). split; [reflexivity|]. split; [auto|].
    intros before pos after st1 e st2 Hdb Hrows Hbefore Hpos.
    pose proof (for_of_aborts before after pos _ _ st1 e st2 Hbefore Hpos) as Hloop.
    revert Htry. unfold PartialTakeProfitExecutor.tryBlock, PartialTakeProfitExecutor.lift,
      dbQuery, dbExecute, bind. cbn. rewrite Hdb, Hrows.
    destruct (before ++ pos :: after)%list as [|row rows] eqn:Hlist;
      [destruct before; discriminate|].
    rewrite Hloop. intros [= _ <-]. auto.
Qed.

(** *** One stage block *)

Section StageBlock.
Import PartialTakeProfitExecutor.
Context (E : Env) (HE : no_db_faults E).
Context (caller symbol side : string) (n : Z) (digit : string).

Abbreviation key := (stageKey symbol side digit).
Abbreviation tool :=
  (partialTakeProfitTool_execute E (replace "USDT" "" (replace "_USDT" "" symbol)) digit).

Lemma same_store_recently w w' : same_store w w' -> recently symbol n w' = recently symbol n w.
Proof. intros (Hd & Hn & _). unfold recently. rewrite Hd, Hn. reflexivity. Qed.

Lemma same_store_busy w w' : same_store w w' -> busy key caller w' = busy key caller w.
Proof. intros (Hd & Hn & _). unfold busy. rewrite Hd, Hn. reflexivity. Qed.

Lemma same_store_already w w' : same_store w w' -> already symbol n w' = already symbol n w.
Proof. intros (Hd & _). unfold already. rewrite Hd. reflexivity. Qed.

(** The block up to the guard. *)
Lemma stageBlock_recent l w :
  recently symbol n w = true ->
  exists w',
    stageBlock E caller symbol side n digit (l, w) =
      (Ok true, (skipped l symbol n "recently_executed", w')) /\
    same_store w w'.
Proof.
  intros Hrecent.
  destruct (hasRecentExecution_spec E HE symbol n w) as (w1 & H1 & S1).
  exists w1. split; [|exact S1].
  unfold stageBlock, bind, lift. cbn [fst snd]. rewrite H1, Hrecent. reflexivity.
Qed.

(** The block up to the lease. *)
Lemma stageBlock_busy l w :
  recently symbol n w = false ->
  busy key caller w = true ->
  exists w',
    stageBlock E caller symbol side n digit (l, w) =
      (Ok true, (skipped l symbol n "lock_busy", w')) /\
    same_store w w'.
Proof.
  intros Hrecent Hbusy.
  destruct (hasRecentExecution_spec E HE symbol n w) as (w1 & H1 & S1).
  rewrite <- (same_store_busy w w1 S1) in Hbusy.
  destruct (tryAcquire_refused E HE key caller w1 Hbusy) as (w2 & H2 & S2).
  exists w2. split.
  - unfold stageBlock, bind, lift. cbn [fst snd]. rewrite H1, Hrecent.
    cbn [fst snd]. fold key. rewrite H2. reflexivity.
  - destruct S1 as (? & ? & ?), S2 as (? & ? & ?). unfold same_store. repeat split; congruence.
Qed.

Lemma same_but_lease_trans k w1 w2 w3 :
  same_but_lease k w1 w2 -> same_but_lease k w2 w3 -> same_but_lease k w1 w3.
Proof.
  intros (A1 & A2 & A3 & A4 & A5 & A6) (B1 & B2 & B3 & B4 & B5 & B6).
  unfold same_but_lease. repeat split; try congruence.
  intros k' Hne. rewrite B1, A1; auto.
Qed.

Lemma same_store_but_lease k w1 w2 : same_store w1 w2 -> same_but_lease k w1 w2.
Proof.
  intros (Hd & Hn & Hf). unfold same_but_lease. rewrite Hd. repeat split; auto.
Qed.

Lemma same_but_lease_already k w1 w2 :
  same_but_lease k w1 w2 -> already symbol n w2 = already symbol n w1.
Proof. intros (_ & Hh & _). unfold already. rewrite Hh. reflexivity. Qed.

(** The world in which the block holds the lease and has read the history. *)
Lemma stageBlock_in_lease l w :
  recently symbol n w = false ->
  busy key caller w = false ->
  exists w3,
    system_config (db w3) = <[key := mkLockRow caller (now w)]> (system_config (db w)) /\
    same_but_lease key w w3 /\
    stageBlock E caller symbol side n digit (l, w) =
      (try_finally
         (if negb (already symbol n w) then
            let* result := lift (execute E (replace "USDT" "" (replace "_USDT" "" symbol))
                                         digit) in
            if result then count_executed symbol n "success" else push symbol n "failed"
          else skip symbol n "already_executed")
         (lift (DistributedLock.release E key caller)) ;;
       ret false) (l, w3).
Proof.
  intros Hrecent Hbusy.
  destruct (hasRecentExecution_spec E HE symbol n w) as (w1 & H1 & S1).
  rewrite <- (same_store_busy w w1 S1) in Hbusy.
  destruct (tryAcquire_granted E HE key caller w1 Hbusy) as (w2 & H2 & T2 & S2).
  assert (S12 : same_but_lease key w w2)
    by (eapply same_but_lease_trans; [apply same_store_but_lease; exact S1 | exact S2]).
  exists (count_call (with_db (fun _ => db w2) w2)). split; [|split].
  - cbn. rewrite T2. destruct S1 as (-> & -> & _). reflexivity.
  - destruct S12 as (A1 & A2 & A3 & A4 & A5 & A6). unfold same_but_lease. cbn.
    repeat split; auto.
  - rewrite <- (same_but_lease_already key w w2 S12).
    unfold stageBlock. unfold bind at 1. unfold lift at 1. cbn [fst snd].
    rewrite H1, Hrecent.
    unfold bind at 1. unfold lift at 1. cbn [fst snd]. fold key. rewrite H2.
    cbn [negb].
    assert (Hq : lift (dbQuery E (fun d => count_completed symbol n
                                           (partial_take_profit_history d))) (l, w2) =
                 (Ok (count_completed symbol n (partial_take_profit_history (db w2))),
                  (l, count_call (with_db (fun _ => db w2) w2))))
      by (unfold lift; cbn [fst snd]; rewrite (dbQuery_ok E HE); reflexivity).
    apply bind_cong. unfold underLease.
    rewrite (try_finally_bind_ok _ _ _ _ _ _ Hq). reflexivity.
Qed.

(** Under the lease, with the stage in the history. *)
Lemma stageBlock_already l w :
  recently symbol n w = false ->
  busy key caller w = false ->
  already symbol n w = true ->
  exists w',
    stageBlock E caller symbol side n digit (l, w) =
      (Ok false, (skipped l symbol n "already_executed", w')) /\
    released key caller w' /\
    system_config (db w') = delete key (system_config (db w)) /\
    same_but_lease key w w'.
Proof.
  intros Hrecent Hbusy Halready.
  destruct (stageBlock_in_lease l w Hrecent Hbusy) as (w3 & T3 & S3 & ->).
  rewrite Halready. cbn [negb].
  destruct (release_spec E HE key caller w3) as (w4 & H4 & R4 & T4 & S4).
  exists w4. split; [|split; [exact R4 | split]].
  - unfold bind, try_finally, skip, modify, lift, ret. cbn [fst snd]. rewrite H4. reflexivity.
  - rewrite T4, T3, lookup_insert_eq. cbn. rewrite String.eqb_refl.
    apply delete_insert_eq.
  - eapply same_but_lease_trans; eauto.
Qed.

(** Under the lease, with the stage not in the history: the executor is
    called, in world [wa]. *)
Lemma stageBlock_executes l w :
  recently symbol n w = false ->
  busy key caller w = false ->
  already symbol n w = false ->
  exists wa,
    system_config (db wa) = <[key := mkLockRow caller (now w)]> (system_config (db w)) /\
    partial_take_profit_history (db wa) = partial_take_profit_history (db w) /\
    positions (db wa) = positions (db w) /\
    price_orders (db wa) = price_orders (db w) /\
    now wa = now w /\
    effects wa = (effects w ++
                  [ExecutorCall (replace "USDT" "" (replace "_USDT" "" symbol)) digit])%list /\
    exists w',
      stageBlock E caller symbol side n digit (l, w) =
        (match fst (tool wa) with
         | Ok _ => Ok false
         | Throw e => Throw e
         end,
         (match fst (tool wa) with
          | Ok true => counted l symbol n "success"
          | Ok false => pushed l symbol n "failed"
          | Throw _ => l
          end, w')) /\
      released key caller w' /\
      same_but_lease key (snd (tool wa)) w' /\
      system_config (db w') =
        (if Interleaving.holder_is caller (system_config (db (snd (tool wa))) !! key)
         then delete key (system_config (db (snd (tool wa))))
         else system_config (db (snd (tool wa)))).
Proof.
  intros Hrecent Hbusy Halready.
  destruct (stageBlock_in_lease l w Hrecent Hbusy) as (w3 & T3 & S3 & ->).
  rewrite Halready. cbn [negb].
  exists (emit (ExecutorCall (replace "USDT" "" (replace "_USDT" "" symbol)) digit) w3).
  destruct S3 as (A1 & A2 & A3 & A4 & A5 & A6).
  repeat (split; [cbn; congruence|]).
  set (wa := emit _ w3).
  destruct (tool wa) as [r w5] eqn:Htool.
  destruct (release_spec E HE key caller w5) as (w6 & H6 & R6 & T6 & S6).
  exists w6. split; [|split; [exact R6 | split; [exact S6 | exact T6]]].
  unfold bind, try_finally, lift, execute. cbn [fst snd]. fold wa. rewrite Htool.
  destruct r as [[|]|e]; cbn [fst snd];
    unfold count_executed, push, modify, ret; cbn [fst snd]; rewrite H6; reflexivity.
Qed.
End StageBlock.

(** *** One stage block, whatever the store does *)

Section StageBlockAnyStore.
Import PartialTakeProfitExecutor.
Context (E : Env).
Context (caller symbol side : string) (n : Z) (digit : string).

Abbreviation key := (stageKey symbol side digit).
Abbreviation stripped := (replace "USDT" "" (replace "_USDT" "" symbol)).

(** The block up to the lease: the guard and [tryAcquire] decide. *)
Lemma stageBlock_entry l w :
  exists hasRecent w1 granted w2,
    DistributedLock.hasRecentExecution E symbol n 30 w = (Ok hasRecent, w1) /\
    DistributedLock.tryAcquire E key caller w1 = (Ok granted, w2) /\
    stageBlock E caller symbol side n digit (l, w) =
      if hasRecent then (Ok true, (skipped l symbol n "recently_executed", w1))
      else if negb granted then (Ok true, (skipped l symbol n "lock_busy", w2))
      else
        (try_finally (underLease E symbol n digit)
                     (lift (DistributedLock.release E key caller)) ;;
         ret false) (l, w2).
Proof.
  destruct (hasRecentExecution_never_throws E symbol n 30 w) as (hasRecent & w1 & H1).
  destruct (tryAcquire_never_throws E key caller w1) as (granted & w2 & H2).
  exists hasRecent, w1, granted, w2. split; [exact H1|]. split; [exact H2|].
  unfold stageBlock, bind, lift. cbn [fst snd]. rewrite H1.
  destruct hasRecent; [reflexivity|]. cbn [fst snd]. fold key. rewrite H2.
  destruct granted; reflexivity.
Qed.

(** [finally]: whichever way the body under the lease ends, [release] runs
    in the world the body left, and the outcome of the body is the outcome
    of the block. *)
Lemma stageBlock_finally l w2 :
  exists r l' u w',
    underLease E symbol n digit (l, w2) = (r, (l', u)) /\
    DistributedLock.release E key caller u = (Ok tt, w') /\
    (try_finally (underLease E symbol n digit)
                 (lift (DistributedLock.release E key caller)) ;;
     ret false) (l, w2) =
    (match r with Ok _ => Ok false | Throw e => Throw e end, (l', w')).
Proof.
  destruct (underLease E symbol n digit (l, w2)) as [r [l' u]] eqn:Hbody.
  destruct (release_never_throws E key caller u) as ([] & w' & Hrel).
  exists r, l', u, w'. split; [reflexivity|]. split; [exact Hrel|].
  unfold bind, try_finally, lift. rewrite Hbody. cbn [fst snd]. rewrite Hrel.
  destruct r; reflexivity.
Qed.

(** The three ways the body under the lease ends. *)
Lemma underLease_exits l w2 :
  let wa := emit (ExecutorCall stripped digit) (count_call w2) in
  underLease E symbol n digit (l, w2) =
    if dbFault E (calls w2) then (Throw "SQLITE_ERROR", (l, count_call w2))
    else if already symbol n w2
         then (Ok tt, (skipped l symbol n "already_executed", count_call w2))
         else match partialTakeProfitTool_execute E stripped digit wa with
              | (Ok true, w5) => (Ok tt, (counted l symbol n "success", w5))
              | (Ok false, w5) => (Ok tt, (pushed l symbol n "failed", w5))
              | (Throw e, w5) => (Throw e, (l, w5))
              end.
Proof.
  cbv zeta. unfold underLease, bind, lift, dbQuery, dbExecute, already. cbn [fst snd].
  destruct (dbFault E (calls w2)); [reflexivity|]. cbn [fst snd].
  destruct (0 <? count_completed symbol n (partial_take_profit_history (db w2)))%nat;
    cbn [negb]; [reflexivity|].
  unfold execute.
  destruct (partialTakeProfitTool_execute E stripped digit _) as [[[|]|e] w5]; reflexivity.
Qed.
End StageBlockAnyStore.

Section ReleaseAnyStore.
Context (E : Env) (key holder : string).

(** [release], statement by statement: the row is deleted when the store
    answers the [SELECT] with a row that names the holder and accepts the
    [DELETE]; in every other case the table stays as it is. *)
Lemma release_cases (u : World) :
  exists u',
    DistributedLock.release E key holder u = (Ok tt, u') /\
    same_but_lease key u u' /\
    system_config (db u') =
      if dbFault E (calls u) then system_config (db u)
      else if negb (Interleaving.holder_is holder (system_config (db u) !! key))
           then system_config (db u)
           else if dbFault E (S (calls u)) then system_config (db u)
                else delete key (system_config (db u)).
Proof.
  assert (Hsame : forall c' t', (forall k, k <> key -> t' !! k = system_config (db u) !! k) ->
            same_but_lease key u
              (mkWorld (mkDb t' (partial_take_profit_history (db u)) (positions (db u))
                             (price_orders (db u))) (now u) c' (effects u))).
  { intros c' t' Ht. unfold same_but_lease. cbn. auto 10. }
  destruct u as [d nw c fx]. destruct d as [t hs ps os].
  unfold DistributedLock.release, try_catch, bind, ret, dbUpdate, dbQuery, dbExecute,
    with_db, count_call, with_system_config, Interleaving.holder_is, select_lock, delete_lock.
  cbn [fst snd db system_config calls now effects partial_take_profit_history positions
       price_orders] in *.
  destruct (dbFault E c); cbn [fst snd db system_config calls now effects negb
       partial_take_profit_history positions price_orders].
  { eexists. split; [reflexivity|]. split; [apply Hsame; auto | reflexivity]. }
  destruct (t !! key) as [row|]; cbn [negb].
  2:{ eexists. split; [reflexivity|]. split; [apply Hsame; auto | reflexivity]. }
  destruct (String.eqb (value row) holder); cbn [negb].
  2:{ eexists. split; [reflexivity|]. split; [apply Hsame; auto | reflexivity]. }
  cbn [fst snd db system_config calls now effects
       partial_take_profit_history positions price_orders].
  destruct (dbFault E (S c)); cbn [fst snd db system_config calls now effects
       partial_take_profit_history positions price_orders].
  { eexists. split; [reflexivity|]. split; [apply Hsame; auto | reflexivity]. }
  eexists. split; [reflexivity|]. split; [|reflexivity].
  apply Hsame. intros k Hk. apply lookup_delete_ne. congruence.
Qed.
End ReleaseAnyStore.

(** C3, as far as the code goes.

    With a store that answers, a stage block

    - finds a [completed] entry of its stage within the trailing 30 seconds:
      [recently_executed], and the evaluation of the position ends;
    - else finds the lease held by another holder, in a row the expiry
      [DELETE] does not clear: [lock_busy], and the evaluation of the
      position ends;
    - else, under the lease, finds the stage in the history:
      [already_executed];
    - else calls the executor: [success] or [failed] by its result, or its
      exception;

    and on every one of the exits under the lease, the executor's exception
    included, the lease row does not name the caller afterwards.  Stage 1 is
    evaluated before stage 2, and stage 2 only when stage 1 did not end the
    evaluation of the position.

    Whatever the store does, the block reports [recently_executed] when the
    guard answers true, [lock_busy] when [tryAcquire] answers false, and with
    a grant it runs the body under the lease and then [release], whichever
    way the body ends: with its outcome pushed, with the exception of the
    executor, or with the rejection of the history query under the lease, in
    which case nothing is pushed and the executor is not called.  [release]
    deletes the row when the store answers its [SELECT] with a row that names
    the caller and accepts its [DELETE]; when either statement is rejected
    the row stays. *)
Theorem stage_protocol (E : Env) (caller symbol side : string)
    (l : PartialTakeProfitExecutor.Locals) (w : World) :
  (no_db_faults E ->
   forall n digit,
      let key := PartialTakeProfitExecutor.stageKey symbol side digit in
      let block := PartialTakeProfitExecutor.stageBlock E caller symbol side n digit (l, w) in
      let tool := partialTakeProfitTool_execute E
                    (replace "USDT" "" (replace "_USDT" "" symbol)) digit in
      if PartialTakeProfitExecutor.recently symbol n w then
        exists w',
          block = (Ok true, (PartialTakeProfitExecutor.skipped l symbol n "recently_executed", w'))
          /\ same_store w w'
      else if PartialTakeProfitExecutor.busy key caller w then
        exists w',
          block = (Ok true, (PartialTakeProfitExecutor.skipped l symbol n "lock_busy", w'))
          /\ same_store w w'
      else if PartialTakeProfitExecutor.already symbol n w then
        exists w',
          block = (Ok false, (PartialTakeProfitExecutor.skipped l symbol n "already_executed", w'))
          /\ PartialTakeProfitExecutor.released key caller w'
          /\ system_config (db w') = delete key (system_config (db w))
          /\ same_but_lease key w w'
      else
        exists wa,
          system_config (db wa) = <[key := mkLockRow caller (now w)]> (system_config (db w)) /\
          partial_take_profit_history (db wa) = partial_take_profit_history (db w) /\
          positions (db wa) = positions (db w) /\
          price_orders (db wa) = price_orders (db w) /\
          now wa = now w /\
          effects wa = (effects w ++
                        [ExecutorCall (replace "USDT" "" (replace "_USDT" "" symbol)) digit])%list /\
          exists w',
            block =
              (match fst (tool wa) with
               | Ok _ => Ok false
               | Throw e => Throw e
               end,
               (match fst (tool wa) with
                | Ok true => PartialTakeProfitExecutor.counted l symbol n "success"
                | Ok false => PartialTakeProfitExecutor.pushed l symbol n "failed"
                | Throw _ => l
                end, w')) /\
            PartialTakeProfitExecutor.released key caller w' /\
            same_but_lease key (snd (tool wa)) w' /\
            system_config (db w') =
              (if Interleaving.holder_is caller (system_config (db (snd (tool wa))) !! key)
               then delete key (system_config (db (snd (tool wa))))
               else system_config (db (snd (tool wa))))) /\
  (forall currentR adjustedR1 adjustedR2,
      PartialTakeProfitExecutor.evaluateStages E caller symbol side
        currentR adjustedR1 adjustedR2 (l, w) =
      let stage2 :=
        if Qle_bool adjustedR2 currentR
        then PartialTakeProfitExecutor.stageBlock E caller symbol side 2 "2" ;; ret tt
        else ret tt in
      if Qle_bool adjustedR1 currentR then
        match PartialTakeProfitExecutor.stageBlock E caller symbol side 1 "1" (l, w) with
        | (Ok true, st) => (Ok tt, st)
        | (Ok false, st) => stage2 st
        | (Throw e, st) => (Throw e, st)
        end
      else stage2 (l, w)) /\
  (forall n digit,
      let key := PartialTakeProfitExecutor.stageKey symbol side digit in
      let block := PartialTakeProfitExecutor.stageBlock E caller symbol side n digit (l, w) in
      exists hasRecent w1 granted w2,
        DistributedLock.hasRecentExecution E symbol n 30 w = (Ok hasRecent, w1) /\
        DistributedLock.tryAcquire E key caller w1 = (Ok granted, w2) /\
        if hasRecent then
          block = (Ok true, (PartialTakeProfitExecutor.skipped l symbol n "recently_executed", w1))
        else if negb granted then
          block = (Ok true, (PartialTakeProfitExecutor.skipped l symbol n "lock_busy", w2))
        else
          exists r l' u w',
            PartialTakeProfitExecutor.underLease E symbol n digit (l, w2) = (r, (l', u)) /\
            DistributedLock.release E key caller u = (Ok tt, w') /\
            block = (match r with Ok _ => Ok false | Throw e => Throw e end, (l', w'))) /\
  (forall n digit l2 w2,
      let tool := partialTakeProfitTool_execute E
                    (replace "USDT" "" (replace "_USDT" "" symbol)) digit in
      let wa := emit (ExecutorCall (replace "USDT" "" (replace "_USDT" "" symbol)) digit)
                     (count_call w2) in
      PartialTakeProfitExecutor.underLease E symbol n digit (l2, w2) =
        if dbFault E (calls w2) then (Throw "SQLITE_ERROR", (l2, count_call w2))
        else if PartialTakeProfitExecutor.already symbol n w2
             then (Ok tt, (PartialTakeProfitExecutor.skipped l2 symbol n "already_executed",
                           count_call w2))
             else match tool wa with
                  | (Ok true, w5) =>
                      (Ok tt, (PartialTakeProfitExecutor.counted l2 symbol n "success", w5))
                  | (Ok false, w5) =>
                      (Ok tt, (PartialTakeProfitExecutor.pushed l2 symbol n "failed", w5))
                  | (Throw e, w5) => (Throw e, (l2, w5))
                  end) /\
  (forall key u,
      exists u',
        DistributedLock.release E key caller u = (Ok tt, u') /\
        same_but_lease key u u' /\
        system_config (db u') =
          if dbFault E (calls u) then system_config (db u)
          else if negb (Interleaving.holder_is caller (system_config (db u) !! key))
               then system_config (db u)
               else if dbFault E (S (calls u)) then system_config (db u)
                    else delete key (system_config (db u))).
Proof.
  split; [|split; [|split; [|split]]].
  - intros HE n digit. cbv zeta.
    destruct (PartialTakeProfitExecutor.recently symbol n w) eqn:Hrecent;
      [apply stageBlock_recent; assumption|].
    destruct (PartialTakeProfitExecutor.busy _ caller w) eqn:Hbusy;
      [apply stageBlock_busy; assumption|].
    destruct (PartialTakeProfitExecutor.already symbol n w) eqn:Halready;
      [apply stageBlock_already; assumption | apply stageBlock_executes; assumption].
  - intros currentR adjustedR1 adjustedR2. cbv zeta.
    unfold PartialTakeProfitExecutor.evaluateStages.
    destruct (Qle_bool adjustedR1 currentR).
    + unfold bind at 1.
      destruct (PartialTakeProfitExecutor.stageBlock E caller symbol side 1 "1" (l, w))
        as [[[|]|e] st]; reflexivity.
    + reflexivity.
  - intros n digit. cbv zeta.
    destruct (stageBlock_entry E caller symbol side n digit l w)
      as (hasRecent & w1 & granted & w2 & H1 & H2 & Hblock).
    exists hasRecent, w1, granted, w2. split; [exact H1|]. split; [exact H2|].
    destruct hasRecent; [exact Hblock|]. destruct granted; [|exact Hblock].
    cbn [negb] in *.
    destruct (stageBlock_finally E caller symbol side n digit l w2)
      as (r & l' & u & w' & Hbody & Hrel & Hfin).
    exists r, l', u, w'. split; [exact Hbody|]. split; [exact Hrel|].
    rewrite Hblock. exact Hfin.
  - intros n digit l2 w2. apply underLease_exits.
  - intros key u. apply release_cases.
Qed.

(** BTC reaches 2.5R with nothing in the history and no lease taken: stage 1
    and then stage 2 call the executor, and both leases are gone afterwards. *)
Lemma stage_protocol_witness :
  let E := Scenario.env (Scenario.quotes 125 2050) (Scenario.all Scenario.Succeeds) [] in
  let w := Scenario.world (mkDb ∅ [] [Scenario.btc] []) Scenario.t0 in
  let l := PartialTakeProfitExecutor.mkLocals [] 0 0 in
  no_db_faults E /\
  exists st,
    PartialTakeProfitExecutor.evaluateStages E "health-check" "BTC" "long" (5 # 2) 1 2 (l, w) =
      (Ok tt, st) /\
    PartialTakeProfitExecutor.executed (fst st) =
      [PartialTakeProfitExecutor.mkDetail "BTC" 1 "success";
       PartialTakeProfitExecutor.mkDetail "BTC" 2 "success"] /\
    system_config (db (snd st)) = ∅.
Proof.
  intros E w l.
  assert (HE : no_db_faults E) by (intros k; reflexivity).
  split; [exact HE|].
  destruct (stage_protocol E "health-check" "BTC" "long" l w) as (_ & Horder & _).
  rewrite (Horder (5 # 2) 1 2)%Q.
  eexists. split; [vm_compute; reflexivity|].
  split; vm_compute; reflexivity.
Defined.

(** The store rejects the [DELETE] of [release] (the eighth statement of the
    block): the outcome is [success] all the same, and the lease row stays in
    the table, naming the health check, until it expires. *)
Lemma rejected_release_keeps_the_lease :
  let E := Scenario.env_with (Scenario.nth_statement 7)
             (fun contract => Ok (Scenario.quotes 125 2050 contract))
             (Scenario.quotes 125 2050) (Scenario.all Scenario.Succeeds) [] (fun _ => false) in
  let w := Scenario.world (mkDb ∅ [] [Scenario.btc] []) Scenario.t0 in
  let l := PartialTakeProfitExecutor.mkLocals [] 0 0 in
  let run := PartialTakeProfitExecutor.stageBlock E "health-check" "BTC" "long" 1 "1" (l, w) in
  fst run = Ok false /\
  PartialTakeProfitExecutor.executed (fst (snd run)) =
    [PartialTakeProfitExecutor.mkDetail "BTC" 1 "success"] /\
  system_config (db (snd (snd run))) !! "partial_tp_BTC_long_stage1" =
    Some (mkLockRow "health-check" Scenario.t0).
Proof. vm_compute. repeat split; reflexivity. Qed.

(** The store rejects the history query under the lease (the sixth statement
    of the block): the block throws, nothing is pushed, the executor is not
    called, and [release] has removed the lease. *)
Lemma rejected_check_under_the_lease :
  let E := Scenario.env_with (Scenario.nth_statement 5)
             (fun contract => Ok (Scenario.quotes 125 2050 contract))
             (Scenario.quotes 125 2050) (Scenario.all Scenario.Succeeds) [] (fun _ => false) in
  let w := Scenario.world (mkDb ∅ [] [Scenario.btc] []) Scenario.t0 in
  let l := PartialTakeProfitExecutor.mkLocals [] 0 0 in
  let run := PartialTakeProfitExecutor.stageBlock E "health-check" "BTC" "long" 1 "1" (l, w) in
  fst run = Throw "SQLITE_ERROR" /\
  fst (snd run) = l /\
  effects (snd (snd run)) = [] /\
  system_config (db (snd (snd run))) = ∅.
Proof. vm_compute. repeat split; reflexivity. Qed.

(** C3 as the specification words it fails: stage 1 of BTC completed ten
    seconds ago and stage 2 is due; stage 1 reports [recently_executed] and
    its [continue] ends the evaluation of BTC, so stage 2 is not evaluated in
    this pass.  Evaluating each due stage by the protocol would have run
    stage 2. *)
Lemma recent_stage_ends_the_position :
  let E := Scenario.env (Scenario.quotes 125 2050) (Scenario.all Scenario.Succeeds) [] in
  let w := Scenario.world (mkDb ∅ [Scenario.stage1_fired 110 10000]
                                [Scenario.btc_after_stage1] []) Scenario.t0 in
  let l := PartialTakeProfitExecutor.mkLocals [] 0 0 in
  PartialTakeProfitExecutor.details_of
    (PartialTakeProfitExecutor.executeCheck E "health-check" w) =
    [PartialTakeProfitExecutor.mkDetail "BTC" 1 "recently_executed"] /\
  PartialTakeProfitExecutor.executed
    (fst (snd (PartialTakeProfitExecutor.evaluateStages E "health-check" "BTC" "long"
                 (5 # 2) 1 2 (l, w)))) =
    [PartialTakeProfitExecutor.mkDetail "BTC" 1 "recently_executed"] /\
  PartialTakeProfitExecutor.executed
    (fst (snd (PartialTakeProfitExecutor.evaluateStages_each E "health-check" "BTC" "long"
                 (5 # 2) 1 2 (l, w)))) =
    [PartialTakeProfitExecutor.mkDetail "BTC" 1 "recently_executed";
     PartialTakeProfitExecutor.mkDetail "BTC" 2 "success"] /\
  PartialTakeProfitExecutor.evaluateStages E "health-check" "BTC" "long" (5 # 2) 1 2 (l, w) <>
  PartialTakeProfitExecutor.evaluateStages_each E "health-check" "BTC" "long" (5 # 2) 1 2 (l, w).
Proof.
  cbv zeta. split; [vm_compute; reflexivity|]. split; [vm_compute; reflexivity|].
  split; [vm_compute; reflexivity|].
  intros H.
  apply (f_equal (fun r => length (PartialTakeProfitExecutor.executed (fst (snd r))))) in H.
  vm_compute in H. discriminate.
Qed.

(** *** One call on its own, in the interleaving *)

Section Solo.
Import Interleaving.
Context (symbol side : string) (n : Z) (digit filed caller : string) (ok : bool).

Abbreviation skey := (lockKey symbol side digit).
Abbreviation solo_steps := (alone symbol side n digit filed caller ok).
Abbreviation at_pc := (stands caller).

Lemma alone_S k s :
  solo_steps (S k) s =
  solo_steps k (step symbol side n digit filed s (Resume caller (Returns ok))).
Proof. reflexivity. Qed.

Lemma alone_add k1 k2 s : solo_steps (k1 + k2) s = solo_steps k2 (solo_steps k1 s).
Proof. unfold alone, run. rewrite repeat_app, fold_left_app. reflexivity. Qed.

Lemma step_stands s pc t h now :
  at_pc s pc t h now ->
  step symbol side n digit filed s (Resume caller (Returns ok)) =
  resume symbol side n digit filed caller (Returns ok) pc s.
Proof. intros (Hpc & _). cbn. rewrite Hpc. reflexivity. Qed.

Lemma stands_set_pc s pc pc' t h now :
  at_pc s pc t h now -> at_pc (set_pc caller pc' s) pc' t h now.
Proof.
  intros (Hpc & Ht & Hh & Hc). unfold stands. cbn. rewrite lookup_insert_eq. auto.
Qed.

Lemma stands_set_table s pc pc' t t' h now :
  at_pc s pc t h now -> at_pc (set_pc caller pc' (set_table t' s)) pc' t' h now.
Proof.
  intros (Hpc & Ht & Hh & Hc). unfold stands. cbn. rewrite lookup_insert_eq. auto.
Qed.

(** The guard. *)
Lemma solo_guard s t h now cutoffTime :
  at_pc s (AtGuard cutoffTime) t h now ->
  at_pc (solo_steps 1 s)
        (if (0 <? count_recent symbol n cutoffTime h)%nat
         then Finished "recently_executed" else AtAcquireDelete now) t h now.
Proof.
  intros Hs. rewrite alone_S, (step_stands s _ _ _ _ Hs). cbn [alone run repeat fold_left resume].
  destruct Hs as (Hpc & Ht & Hh & Hc). rewrite Hh, Hc.
  destruct (0 <? _)%nat; apply stands_set_pc with (pc := AtGuard cutoffTime);
    repeat split; auto.
Qed.

(** [tryAcquire], refused. *)
Lemma solo_refused s t h now row :
  at_pc s (AtAcquireDelete now) t h now ->
  t !! skey = Some row ->
  expired 30 now row = false ->
  String.eqb (value row) caller = false ->
  at_pc (solo_steps 2 s) (Finished "lock_busy") t h now.
Proof.
  intros Hs Hrow Hfresh Hother.
  assert (Hkeep : delete_expired skey (lockTimeoutSeconds) now t = t).
  { apply delete_expired_fresh. intros r Hr. rewrite Hrow in Hr. injection Hr as <-.
    exact Hfresh. }
  rewrite alone_S, (step_stands s _ _ _ _ Hs). cbn [resume].
  destruct Hs as (Hpc & Ht & Hh & Hc). rewrite Ht, Hc, Hkeep.
  set (s1 := set_pc _ _ _).
  assert (H1 : at_pc s1 (AtAcquireSelect now) t h now)
    by (apply stands_set_table with (pc := AtAcquireDelete now) (t := t); repeat split; auto).
  rewrite alone_S, (step_stands s1 _ _ _ _ H1). cbn [alone run repeat fold_left resume].
  destruct H1 as (_ & Ht1 & _). rewrite Ht1. unfold select_lock. rewrite Hrow, Hother.
  apply stands_set_pc with (pc := AtAcquireSelect now). subst s1. repeat split; auto.
  cbn. apply lookup_insert_eq.
Qed.

(** [tryAcquire], granted over the caller's own row. *)
Lemma solo_refreshed s t h now row :
  at_pc s (AtAcquireDelete now) t h now ->
  t !! skey = Some row ->
  expired 30 now row = false ->
  value row = caller ->
  at_pc (solo_steps 3 s) AtHistoryCheck (<[skey := mkLockRow caller now]> t) h now.
Proof.
  intros Hs Hrow Hfresh Hown.
  assert (Hkeep : delete_expired skey (lockTimeoutSeconds) now t = t).
  { apply delete_expired_fresh. intros r Hr. rewrite Hrow in Hr. injection Hr as <-.
    exact Hfresh. }
  rewrite alone_S, (step_stands s _ _ _ _ Hs). cbn [resume].
  destruct Hs as (Hpc & Ht & Hh & Hc). rewrite Ht, Hc, Hkeep.
  set (s1 := set_pc _ _ _).
  assert (H1 : at_pc s1 (AtAcquireSelect now) t h now)
    by (apply stands_set_table with (pc := AtAcquireDelete now) (t := t); repeat split; auto).
  rewrite alone_S, (step_stands s1 _ _ _ _ H1). cbn [resume].
  pose proof H1 as (_ & Ht1 & _). rewrite Ht1. unfold select_lock. rewrite Hrow, Hown.
  rewrite String.eqb_refl.
  set (s2 := set_pc _ _ s1).
  assert (H2 : at_pc s2 (AtAcquireRefresh now) t h now)
    by (apply stands_set_pc with (pc := AtAcquireSelect now); exact H1).
  rewrite alone_S, (step_stands s2 _ _ _ _ H2). cbn [alone run repeat fold_left resume].
  pose proof H2 as (_ & Ht2 & _). rewrite Ht2.
  rewrite (refresh_lock_own skey caller now t row Hrow Hown).
  apply stands_set_table with (pc := AtAcquireRefresh now) (t := t). exact H2.
Qed.

(** [tryAcquire], granted over no row, or over an expired one. *)
Lemma solo_inserted s t h now :
  at_pc s (AtAcquireDelete now) t h now ->
  select_lock skey (delete_expired skey lockTimeoutSeconds now t) = None ->
  at_pc (solo_steps 4 s) AtHistoryCheck (<[skey := mkLockRow caller now]> t) h now.
Proof.
  intros Hs Hnone.
  rewrite alone_S, (step_stands s _ _ _ _ Hs). cbn [resume].
  destruct Hs as (Hpc & Ht & Hh & Hc). rewrite Ht, Hc.
  set (t1 := delete_expired skey lockTimeoutSeconds now t) in *.
  set (s1 := set_pc _ _ _).
  assert (H1 : at_pc s1 (AtAcquireSelect now) t1 h now)
    by (apply stands_set_table with (pc := AtAcquireDelete now) (t := t); repeat split; auto).
  rewrite alone_S, (step_stands s1 _ _ _ _ H1). cbn [resume].
  pose proof H1 as (_ & Ht1 & _). rewrite Ht1, Hnone.
  set (s2 := set_pc _ _ s1).
  assert (H2 : at_pc s2 (AtAcquireInsert now) t1 h now)
    by (apply stands_set_pc with (pc := AtAcquireSelect now); exact H1).
  rewrite alone_S, (step_stands s2 _ _ _ _ H2). cbn [resume].
  pose proof H2 as (_ & Ht2 & _). rewrite Ht2.
  rewrite (insert_lock_absent skey caller now t1 Hnone).
  assert (Hmine : <[skey := mkLockRow caller now]> t1 = <[skey := mkLockRow caller now]> t).
  { unfold t1, delete_expired. destruct (t !! skey) as [row|]; [|reflexivity].
    destruct (expired _ now row); [apply insert_delete_eq | reflexivity]. }
  rewrite Hmine.
  set (s3 := set_pc _ _ (set_table _ s2)).
  assert (H3 : at_pc s3 AtAcquireVerify (<[skey := mkLockRow caller now]> t) h now)
    by (apply stands_set_table with (pc := AtAcquireInsert now) (t := t1); exact H2).
  rewrite alone_S, (step_stands s3 _ _ _ _ H3). cbn [alone run repeat fold_left resume].
  pose proof H3 as (_ & Ht3 & _). rewrite Ht3. unfold select_lock, holder_is.
  rewrite lookup_insert_eq. cbn. rewrite String.eqb_refl.
  apply stands_set_pc with (pc := AtAcquireVerify). exact H3.
Qed.

(** [release], by the holder. *)
Lemma solo_released s t h now outcome row :
  at_pc s (AtReleaseSelect outcome) t h now ->
  t !! skey = Some row -> value row = caller ->
  at_pc (solo_steps 2 s) (Finished outcome) (delete skey t) h now.
Proof.
  intros Hs Hrow Hown.
  rewrite alone_S, (step_stands s _ _ _ _ Hs). cbn [resume].
  pose proof Hs as (_ & Ht & _). rewrite Ht. unfold select_lock, holder_is.
  rewrite Hrow, Hown, String.eqb_refl.
  set (s1 := set_pc _ _ s).
  assert (H1 : at_pc s1 (AtReleaseDelete outcome) t h now)
    by (apply stands_set_pc with (pc := AtReleaseSelect outcome); exact Hs).
  rewrite alone_S, (step_stands s1 _ _ _ _ H1). cbn [alone run repeat fold_left resume].
  pose proof H1 as (_ & Ht1 & _). rewrite Ht1.
  apply stands_set_table with (pc := AtReleaseDelete outcome) (t := t). exact H1.
Qed.

(** Under the lease: the history check, and the executor. *)
Lemma solo_already s t h now :
  at_pc s AtHistoryCheck t h now ->
  (0 <? count_completed symbol n h)%nat = true ->
  at_pc (solo_steps 1 s) (AtReleaseSelect "already_executed") t h now.
Proof.
  intros Hs Hdone.
  rewrite alone_S, (step_stands s _ _ _ _ Hs). cbn [alone run repeat fold_left resume].
  pose proof Hs as (_ & _ & Hh & _). rewrite Hh, Hdone.
  apply stands_set_pc with (pc := AtHistoryCheck). exact Hs.
Qed.

Lemma solo_executed s t h now :
  at_pc s AtHistoryCheck t h now ->
  (0 <? count_completed symbol n h)%nat = false ->
  at_pc (solo_steps 3 s)
        (AtReleaseSelect (if ok then "success" else "failed")) t
        (if ok then record_completion n filed 0 now h else h) now.
Proof.
  intros Hs Hdone.
  rewrite alone_S, (step_stands s _ _ _ _ Hs). cbn [resume].
  pose proof Hs as (_ & _ & Hh & _). rewrite Hh, Hdone.
  set (s1 := set_pc _ _ s).
  assert (H1 : at_pc s1 AtExecute t h now)
    by (apply stands_set_pc with (pc := AtHistoryCheck); exact Hs).
  rewrite alone_S, (step_stands s1 _ _ _ _ H1). cbn [resume].
  set (s2 := mkState _ _ _ _ _).
  assert (H2 : at_pc s2 Executing t h now).
  { destruct H1 as (H1a & H1b & H1c & H1d). unfold stands, s2. cbn.
    rewrite lookup_insert_eq. auto. }
  rewrite alone_S, (step_stands s2 _ _ _ _ H2). cbn [alone run repeat fold_left resume].
  destruct H2 as (H2a & H2b & H2c & H2d).
  destruct ok; unfold stands; cbn; rewrite lookup_insert_eq; cbn in *; subst; auto.
Qed.
End Solo.

(** A call that meets no other call goes through the suspension points of
    the interleaving to the outcome, the lease table and the history that the
    stage block of [executeCheck] computes, wherever the executor files its
    entry. *)
Lemma solo_call_agrees (E : Env) (caller symbol side : string) (n : Z) (digit filed : string)
    (ok : bool) (l : PartialTakeProfitExecutor.Locals) (w : World) :
  no_db_faults E ->
  partialTakeProfitTool_execute E = Interleaving.recording n filed ok ->
  exists k outcome continued l' w',
    PartialTakeProfitExecutor.stageBlock E caller symbol side n digit (l, w) =
      (Ok continued, (l', w')) /\
    PartialTakeProfitExecutor.executed l' =
      (PartialTakeProfitExecutor.executed l ++
       [PartialTakeProfitExecutor.mkDetail symbol n outcome])%list /\
    Interleaving.stands caller
      (Interleaving.alone symbol side n digit filed caller ok k
         (Interleaving.of_world caller w))
      (Interleaving.Finished outcome)
      (system_config (db w')) (partial_take_profit_history (db w')) (now w).
Proof.
  intros HE Htool.
  set (t := system_config (db w)). set (h := partial_take_profit_history (db w)).
  assert (H0 : Interleaving.stands caller (Interleaving.of_world caller w)
                 (Interleaving.AtGuard (now w - 30 * 1000)) t h (now w)).
  { unfold Interleaving.stands, Interleaving.of_world. cbn. rewrite lookup_insert_eq. auto. }
  pose proof (solo_guard symbol side n digit filed caller ok _ _ _ _ _ H0) as H1.
  destruct (PartialTakeProfitExecutor.recently symbol n w) eqn:Hrecent.
  { (* recently executed *)
    destruct (stageBlock_recent E HE caller symbol side n digit l w Hrecent)
      as (w' & Hrun & Hd & _).
    exists 1%nat, "recently_executed", true. eexists. exists w'. split; [exact Hrun|].
    split; [reflexivity|]. rewrite Hd.
    unfold PartialTakeProfitExecutor.recently in Hrecent. fold h in Hrecent.
    rewrite Hrecent in H1. exact H1. }
  unfold PartialTakeProfitExecutor.recently in Hrecent. fold h in Hrecent.
  rewrite Hrecent in H1.
  destruct (PartialTakeProfitExecutor.busy
              (PartialTakeProfitExecutor.stageKey symbol side digit) caller w) eqn:Hbusy.
  { (* lock busy *)
    destruct (stageBlock_busy E HE caller symbol side n digit l w) as (w' & Hrun & Hd & _);
      [exact Hrecent | exact Hbusy |].
    unfold PartialTakeProfitExecutor.busy in Hbusy. fold t in Hbusy.
    destruct (t !! PartialTakeProfitExecutor.stageKey symbol side digit) as [row|] eqn:Hrow;
      [|discriminate].
    apply andb_prop in Hbusy as [Hfresh Hother].
    apply negb_true_iff in Hfresh. apply negb_true_iff in Hother.
    exists (1 + 2)%nat, "lock_busy", true. eexists. exists w'. split; [exact Hrun|].
    split; [reflexivity|]. rewrite Hd, alone_add.
    exact (solo_refused symbol side n digit filed caller ok _ _ _ _ row H1 Hrow Hfresh Hother). }
  (* the lease is granted *)
  assert (H2 : exists k2,
             Interleaving.stands caller
               (Interleaving.alone symbol side n digit filed caller ok (1 + k2)
                  (Interleaving.of_world caller w))
               Interleaving.AtHistoryCheck
               (<[PartialTakeProfitExecutor.stageKey symbol side digit :=
                    mkLockRow caller (now w)]> t) h (now w)).
  { pose proof Hbusy as Hb. unfold PartialTakeProfitExecutor.busy in Hb. fold t in Hb.
    destruct (t !! PartialTakeProfitExecutor.stageKey symbol side digit) as [row|] eqn:Hrow.
    - destruct (expired 30 (now w) row) eqn:Hage.
      + exists 4%nat. rewrite alone_add. apply solo_inserted; [exact H1|].
        rewrite select_delete_expired.
        change (Interleaving.lockKey symbol side digit)
          with (PartialTakeProfitExecutor.stageKey symbol side digit).
        rewrite Hrow. unfold Interleaving.lockTimeoutSeconds. rewrite expired_timeout, Hage.
        reflexivity.
      + cbn in Hb. apply negb_false_iff in Hb. apply String.eqb_eq in Hb.
        exists 3%nat. rewrite alone_add.
        exact (solo_refreshed symbol side n digit filed caller ok _ _ _ _ row H1 Hrow Hage Hb).
    - exists 4%nat. rewrite alone_add. apply solo_inserted; [exact H1|].
      rewrite select_delete_expired.
      change (Interleaving.lockKey symbol side digit)
        with (PartialTakeProfitExecutor.stageKey symbol side digit).
      rewrite Hrow. reflexivity. }
  destruct H2 as (k2 & H2).
  assert (Hmine : (<[PartialTakeProfitExecutor.stageKey symbol side digit :=
                       mkLockRow caller (now w)]> t)
                  !! Interleaving.lockKey symbol side digit =
                  Some (mkLockRow caller (now w))) by apply lookup_insert_eq.
  destruct (PartialTakeProfitExecutor.already symbol n w) eqn:Halready.
  { (* already executed *)
    destruct (stageBlock_already E HE caller symbol side n digit l w Hrecent Hbusy Halready)
      as (w' & Hrun & _ & Ht' & (_ & Hh' & _)).
    exists (1 + k2 + 1 + 2)%nat, "already_executed", false. eexists. exists w'. split; [exact Hrun|].
    split; [reflexivity|]. rewrite Ht', Hh'. fold t h. rewrite !alone_add.
    rewrite <- (delete_insert_eq t (PartialTakeProfitExecutor.stageKey symbol side digit)
                  (mkLockRow caller (now w))).
    rewrite <- alone_add.
    eapply solo_released; [|exact Hmine | reflexivity].
    apply solo_already; [exact H2 | exact Halready]. }
  (* the executor is called *)
  destruct (stageBlock_executes E HE caller symbol side n digit l w Hrecent Hbusy Halready)
    as (wa & Ta & Ha & _ & _ & Na & _ & w' & Hrun & _ & (_ & Hh' & _) & Ht').
  rewrite Htool in Hrun, Hh', Ht'. unfold Interleaving.recording in Hrun, Hh', Ht'.
  pose proof (solo_executed symbol side n digit filed caller ok _ _ _ _ H2 Halready) as H3.
  exists (1 + k2 + 3 + 2)%nat, (if ok then "success" else "failed"), false.
  destruct ok; cbn [fst snd] in Hrun, Hh', Ht'.
  - cbn in Ht', Hh'. rewrite Ta in Ht'. fold t in Ht'.
    rewrite lookup_insert_eq in Ht'. cbn in Ht'. rewrite String.eqb_refl in Ht'.
    rewrite delete_insert_eq in Ht'. rewrite Ha, Na in Hh'. fold h in Hh'.
    eexists. exists w'. split; [exact Hrun|]. split; [reflexivity|].
    rewrite Ht', Hh'.
    rewrite <- (delete_insert_eq t (PartialTakeProfitExecutor.stageKey symbol side digit)
                  (mkLockRow caller (now w))).
    rewrite (alone_add _ _ _ _ _ _ _ (1 + k2 + 3) 2).
    eapply solo_released; [|exact Hmine | reflexivity].
    rewrite (alone_add _ _ _ _ _ _ _ (1 + k2) 3). exact H3.
  - rewrite Ta in Ht'. fold t in Ht'.
    rewrite lookup_insert_eq in Ht'. cbn in Ht'. rewrite String.eqb_refl in Ht'.
    rewrite delete_insert_eq in Ht'. rewrite Ha in Hh'. fold h in Hh'.
    eexists. exists w'. split; [exact Hrun|]. split; [reflexivity|].
    rewrite Ht', Hh'.
    rewrite <- (delete_insert_eq t (PartialTakeProfitExecutor.stageKey symbol side digit)
                  (mkLockRow caller (now w))).
    rewrite (alone_add _ _ _ _ _ _ _ (1 + k2 + 3) 2).
    eapply solo_released; [|exact Hmine | reflexivity].
    rewrite (alone_add _ _ _ _ _ _ _ (1 + k2) 3). exact H3.
Qed.

(** *** What leaves the evaluation of a position *)

Section Propagation.
Import PartialTakeProfitExecutor.
Context (E : Env) (caller : string).

(** With a usable stop-loss and a positive price, the evaluation of a
    position comes to line 262 with the stop-loss the history query gave,
    or with the stored one when the store rejected the query. *)
Lemma evaluatePosition_reaches (pos : PositionRow) (price : Q) (st : St) :
  Qle_bool (stop_loss pos) 0 = false ->
  getFuturesTicker E (snd st) (normalizeContract E (symbol pos)) = Ok price ->
  Qle_bool price 0 = false ->
  evaluatePosition E caller pos st =
  evaluateFrom E caller pos price
    (if dbFault E (calls (snd st)) then stop_loss pos
     else originalStopLoss (entry_price pos) (stop_loss pos)
            (first_completed (symbol pos) (partial_take_profit_history (db (snd st)))))
    (fst st, count_call (snd st)).
Proof.
  destruct st as [l w]. cbn [fst snd]. intros Hsl Hp Hpos.
  unfold evaluatePosition, lift, try_catch, bind, ret, dbQuery, dbExecute.
  rewrite Hsl. cbn [fst snd]. rewrite Hp. cbn [fst snd]. rewrite Hpos. cbn [fst snd].
  destruct (dbFault E (calls w)); cbn [fst snd]; reflexivity.
Qed.

(** The exception of the volatility analysis is the outcome of
    [evaluateFrom]. *)
Lemma evaluateFrom_volatility (pos : PositionRow) (price osl : Q) (st : St) :
  Qeq_bool (riskDistance (entry_price pos) osl) 0 = false ->
  evaluateFrom E caller pos price osl st =
  match analyzeMarketVolatility E (snd st) (symbol pos) with
  | Throw e => (Throw e, st)
  | Ok volatility =>
      evaluateStages E caller (symbol pos) (side pos)
        (calculateRMultiple E (entry_price pos) price osl (side pos))
        (adjustRMultipleForVolatility E (stage1_rMultiple E) volatility)
        (adjustRMultipleForVolatility E (stage2_rMultiple E) volatility) st
  end.
Proof.
  destruct st as [l w]. cbn [fst snd]. intros Hrisk.
  unfold evaluateFrom, lift, bind. rewrite Hrisk. cbn [fst snd].
  destruct (analyzeMarketVolatility E w (symbol pos)); reflexivity.
Qed.

(** The exception of a stage block is the outcome of [evaluateStages]. *)
Lemma evaluateStages_stage1_throws symbol side currentR adjustedR1 adjustedR2 st e st' :
  Qle_bool adjustedR1 currentR = true ->
  stageBlock E caller symbol side 1 "1" st = (Throw e, st') ->
  evaluateStages E caller symbol side currentR adjustedR1 adjustedR2 st = (Throw e, st').
Proof.
  intros H1 Hblock. unfold evaluateStages. rewrite H1. unfold bind at 1.
  rewrite Hblock. reflexivity.
Qed.

Lemma evaluateStages_stage2_throws symbol side currentR adjustedR1 adjustedR2 st st1 e st' :
  (Qle_bool adjustedR1 currentR = false /\ st1 = st \/
   Qle_bool adjustedR1 currentR = true /\
   stageBlock E caller symbol side 1 "1" st = (Ok false, st1)) ->
  Qle_bool adjustedR2 currentR = true ->
  stageBlock E caller symbol side 2 "2" st1 = (Throw e, st') ->
  evaluateStages E caller symbol side currentR adjustedR1 adjustedR2 st = (Throw e, st').
Proof.
  intros [[H1 ->]|[H1 Hfirst]] H2 Hblock; unfold evaluateStages; rewrite H1, H2.
  - unfold bind, ret. rewrite Hblock. reflexivity.
  - unfold bind at 1. rewrite Hfirst. unfold bind. rewrite Hblock. reflexivity.
Qed.

(** With the lease granted, the rejection of the history query under the
    lease and the exception of the executor are the outcome of the block:
    nothing is pushed. *)
Lemma stageBlock_throws symbol side n digit l w w1 w2 :
  DistributedLock.hasRecentExecution E symbol n 30 w = (Ok false, w1) ->
  DistributedLock.tryAcquire E (stageKey symbol side digit) caller w1 = (Ok true, w2) ->
  (dbFault E (calls w2) = true ->
   exists w',
     stageBlock E caller symbol side n digit (l, w) = (Throw "SQLITE_ERROR", (l, w'))) /\
  (forall e w5,
      dbFault E (calls w2) = false ->
      already symbol n w2 = false ->
      partialTakeProfitTool_execute E (replace "USDT" "" (replace "_USDT" "" symbol)) digit
        (emit (ExecutorCall (replace "USDT" "" (replace "_USDT" "" symbol)) digit)
              (count_call w2)) = (Throw e, w5) ->
      exists w',
        stageBlock E caller symbol side n digit (l, w) = (Throw e, (l, w'))).
Proof.
  intros Hguard Hgrant.
  destruct (stageBlock_entry E caller symbol side n digit l w)
    as (hasRecent & w1' & granted & w2' & H1 & H2 & Hblock).
  rewrite Hguard in H1. injection H1 as <- <-.
  rewrite Hgrant in H2. injection H2 as <- <-.
  cbn [negb] in Hblock.
  destruct (stageBlock_finally E caller symbol side n digit l w2)
    as (r & l' & u & w' & Hbody & _ & Hfin).
  rewrite Hblock, Hfin. clear Hblock Hfin.
  pose proof (underLease_exits E symbol n digit l w2) as Hexits. cbv zeta in Hexits.
  rewrite Hbody in Hexits. split.
  - intros Hfault. rewrite Hfault in Hexits. injection Hexits as -> -> _.
    exists w'. reflexivity.
  - intros e w5 Hfault Halready Htool. rewrite Hfault, Halready, Htool in Hexits.
    injection Hexits as -> -> _. exists w'. reflexivity.
Qed.

(** The exception of a position is the outcome of the [try] block, and
    the [catch] block turns it into [success = false]. *)
Lemma executeCheck_aborts (w : World) before pos after st1 e st2 :
  dbFault E (calls w) = false ->
  open_positions (positions (db w)) = (before ++ pos :: after)%list ->
  for_of before (evaluatePosition E caller) (mkLocals [] 0 0, count_call w) = (Ok tt, st1) ->
  evaluatePosition E caller pos st1 = (Throw e, st2) ->
  executeCheck E caller w =
    (Ok (mkCheckResult false (executedCount (fst st2)) (skippedCount (fst st2))
                       (executed (fst st2))), snd st2).
Proof.
  intros Hdb Hrows Hbefore Hpos.
  pose proof (for_of_aborts before after pos _ _ st1 e st2 Hbefore Hpos) as Hloop.
  unfold executeCheck, try_catch, tryBlock, lift, dbQuery, dbExecute, bind.
  cbn [fst snd]. rewrite Hdb, Hrows.
  destruct (before ++ pos :: after)%list as [|row rows] eqn:Hlist;
    [destruct before; discriminate|].
  cbn [fst snd]. change (count_call (with_db (fun _ => db w) w)) with (count_call w).
  rewrite Hloop. reflexivity.
Qed.
End Propagation.

(** C5, as far as the code goes.

    An exception of the price fetch, or a rejection of the history query
    that recovers the original stop-loss, stays inside the evaluation of its
    position, and the loop goes on with the remaining positions; the guard
    query and the lease statements swallow their own failures.

    An exception of the volatility analysis, a rejection of the history
    query under the lease, and an exception of the executor are not caught in
    the position: each is the outcome of its stage block or of
    [evaluateFrom], of [evaluateStages] and of [evaluatePosition]; the loop
    ends at that position, the remaining positions are not evaluated, and
    [executeCheck] resolves to [success = false] with the counts and details
    of that moment. *)
Theorem fetch_failures_stay_in_position (E : Env) (caller : string)
    (pos : PositionRow) (rest : list PositionRow) (st : PartialTakeProfitExecutor.St) :
  (forall e,
      getFuturesTicker E (snd st) (normalizeContract E (symbol pos)) = Throw e ->
      for_of (pos :: rest) (PartialTakeProfitExecutor.evaluatePosition E caller) st =
      for_of rest (PartialTakeProfitExecutor.evaluatePosition E caller) st) /\
  (forall price,
      Qle_bool (stop_loss pos) 0 = false ->
      getFuturesTicker E (snd st) (normalizeContract E (symbol pos)) = Ok price ->
      Qle_bool price 0 = false ->
      dbFault E (calls (snd st)) = true ->
      for_of (pos :: rest) (PartialTakeProfitExecutor.evaluatePosition E caller) st =
      (PartialTakeProfitExecutor.evaluateFrom E caller pos price (stop_loss pos) ;;
       for_of rest (PartialTakeProfitExecutor.evaluatePosition E caller))
        (fst st, count_call (snd st))) /\
  (forall key symbol stage window,
      never_throws (DistributedLock.hasRecentExecution E symbol stage window) /\
      never_throws (DistributedLock.tryAcquire E key caller) /\
      never_throws (DistributedLock.release E key caller)) /\
  (forall price,
      Qle_bool (stop_loss pos) 0 = false ->
      getFuturesTicker E (snd st) (normalizeContract E (symbol pos)) = Ok price ->
      Qle_bool price 0 = false ->
      let osl :=
        if dbFault E (calls (snd st)) then stop_loss pos
        else PartialTakeProfitExecutor.originalStopLoss (entry_price pos) (stop_loss pos)
               (first_completed (symbol pos) (partial_take_profit_history (db (snd st)))) in
      let st1 := (fst st, count_call (snd st)) in
      Qeq_bool (PartialTakeProfitExecutor.riskDistance (entry_price pos) osl) 0 = false ->
      match analyzeMarketVolatility E (snd st1) (symbol pos) with
      | Throw e =>
          PartialTakeProfitExecutor.evaluatePosition E caller pos st = (Throw e, st1)
      | Ok volatility =>
          PartialTakeProfitExecutor.evaluatePosition E caller pos st =
          PartialTakeProfitExecutor.evaluateStages E caller (symbol pos) (side pos)
            (calculateRMultiple E (entry_price pos) price osl (side pos))
            (adjustRMultipleForVolatility E (stage1_rMultiple E) volatility)
            (adjustRMultipleForVolatility E (stage2_rMultiple E) volatility) st1
      end) /\
  (forall symbol side n digit l w w1 w2,
      DistributedLock.hasRecentExecution E symbol n 30 w = (Ok false, w1) ->
      DistributedLock.tryAcquire E (PartialTakeProfitExecutor.stageKey symbol side digit)
        caller w1 = (Ok true, w2) ->
      (dbFault E (calls w2) = true ->
       exists w',
         PartialTakeProfitExecutor.stageBlock E caller symbol side n digit (l, w) =
         (Throw "SQLITE_ERROR", (l, w'))) /\
      (forall e w5,
          dbFault E (calls w2) = false ->
          PartialTakeProfitExecutor.already symbol n w2 = false ->
          partialTakeProfitTool_execute E (replace "USDT" "" (replace "_USDT" "" symbol)) digit
            (emit (ExecutorCall (replace "USDT" "" (replace "_USDT" "" symbol)) digit)
                  (count_call w2)) = (Throw e, w5) ->
          exists w',
            PartialTakeProfitExecutor.stageBlock E caller symbol side n digit (l, w) =
            (Throw e, (l, w')))) /\
  (forall symbol side currentR adjustedR1 adjustedR2 st0 e st',
      (Qle_bool adjustedR1 currentR = true ->
       PartialTakeProfitExecutor.stageBlock E caller symbol side 1 "1" st0 = (Throw e, st') ->
       PartialTakeProfitExecutor.evaluateStages E caller symbol side
         currentR adjustedR1 adjustedR2 st0 = (Throw e, st')) /\
      (Qle_bool adjustedR1 currentR = false ->
       Qle_bool adjustedR2 currentR = true ->
       PartialTakeProfitExecutor.stageBlock E caller symbol side 2 "2" st0 = (Throw e, st') ->
       PartialTakeProfitExecutor.evaluateStages E caller symbol side
         currentR adjustedR1 adjustedR2 st0 = (Throw e, st')) /\
      (forall st1,
          Qle_bool adjustedR1 currentR = true ->
          PartialTakeProfitExecutor.stageBlock E caller symbol side 1 "1" st0 = (Ok false, st1) ->
          Qle_bool adjustedR2 currentR = true ->
          PartialTakeProfitExecutor.stageBlock E caller symbol side 2 "2" st1 = (Throw e, st') ->
          PartialTakeProfitExecutor.evaluateStages E caller symbol side
            currentR adjustedR1 adjustedR2 st0 = (Throw e, st'))) /\
  (forall e st',
      PartialTakeProfitExecutor.evaluatePosition E caller pos st = (Throw e, st') ->
      for_of (pos :: rest) (PartialTakeProfitExecutor.evaluatePosition E caller) st =
        (Throw e, st') /\
      forall w before,
        dbFault E (calls w) = false ->
        open_positions (positions (db w)) = (before ++ pos :: rest)%list ->
        for_of before (PartialTakeProfitExecutor.evaluatePosition E caller)
               (PartialTakeProfitExecutor.mkLocals [] 0 0, count_call w) = (Ok tt, st) ->
        PartialTakeProfitExecutor.executeCheck E caller w =
          (Ok (PartialTakeProfitExecutor.mkCheckResult false
                 (PartialTakeProfitExecutor.executedCount (fst st'))
                 (PartialTakeProfitExecutor.skippedCount (fst st'))
                 (PartialTakeProfitExecutor.executed (fst st'))), snd st')).
Proof.
  repeat apply conj.
  - destruct st as [l w]. cbn [fst snd]. intros e He. cbn [for_of].
    unfold PartialTakeProfitExecutor.evaluatePosition, PartialTakeProfitExecutor.lift,
      try_catch, bind, ret.
    destruct (Qle_bool (stop_loss pos) 0); [reflexivity|].
    cbn. rewrite He. reflexivity.
  - destruct st as [l w]. cbn [fst snd]. intros price Hsl Hp Hpos Hfault. cbn [for_of].
    unfold PartialTakeProfitExecutor.evaluatePosition, PartialTakeProfitExecutor.lift,
      try_catch, bind, ret, dbQuery, dbExecute.
    rewrite Hsl. cbn. rewrite Hp, Hpos. cbn. rewrite Hfault. reflexivity.
  - intros key symbol stage window.
    auto using hasRecentExecution_never_throws, tryAcquire_never_throws,
      release_never_throws.
  - intros price Hsl Hp Hpos osl st1 Hrisk.
    rewrite (evaluatePosition_reaches E caller pos price st Hsl Hp Hpos).
    fold osl. fold st1. rewrite (evaluateFrom_volatility E caller pos price osl st1 Hrisk).
    destruct (analyzeMarketVolatility E (snd st1) (symbol pos)); reflexivity.
  - intros symbol side n digit l w w1 w2. apply stageBlock_throws.
  - intros symbol side currentR adjustedR1 adjustedR2 st0 e st'. repeat apply conj.
    + apply evaluateStages_stage1_throws.
    + intros H1 H2 Hblock.
      apply (evaluateStages_stage2_throws E caller symbol side _ _ _ st0 st0 e st'); auto.
    + intros st1 H1 Hfirst H2 Hblock.
      apply (evaluateStages_stage2_throws E caller symbol side _ _ _ st0 st1 e st'); auto.
  - intros e st' Hthrows. split.
    + cbn [for_of]. unfold bind. rewrite Hthrows. reflexivity.
    + intros w before Hdb Hrows Hbefore.
      exact (executeCheck_aborts E caller w before pos rest st e st' Hdb Hrows Hbefore Hthrows).
Qed.

(** The ticker of BTC times out: the pass goes on to ETH, as if BTC were not
    in the ledger. *)
Lemma fetch_failures_witness :
  let E := Scenario.env_with (fun _ => false) (Scenario.btc_unquoted 2150)
             (Scenario.quotes 115 2150) (Scenario.all Scenario.Succeeds) [] (fun _ => false) in
  let st := (PartialTakeProfitExecutor.mkLocals [] 0 0,
             Scenario.world (mkDb ∅ [] [Scenario.btc; Scenario.eth] []) Scenario.t0) in
  getFuturesTicker E (snd st) (normalizeContract E (symbol Scenario.btc)) = Throw "ETIMEDOUT" /\
  for_of [Scenario.btc; Scenario.eth]
         (PartialTakeProfitExecutor.evaluatePosition E "health-check") st =
  for_of [Scenario.eth] (PartialTakeProfitExecutor.evaluatePosition E "health-check") st.
Proof.
  intros E st. split; [reflexivity|].
  apply (proj1 (fetch_failures_stay_in_position E "health-check" Scenario.btc
                  [Scenario.eth] st) "ETIMEDOUT").
  reflexivity.
Defined.

(** The volatility analysis throws for BTC: the exception leaves the loop,
    ETH, whose stage 1 is due, is not evaluated, and the pass resolves to
    [success = false]. *)
Lemma volatility_exception_ends_the_pass :
  let E := Scenario.volatility_env (Scenario.quotes 115 2150) (Scenario.all Scenario.Succeeds) in
  let w := Scenario.world (mkDb ∅ [] [Scenario.btc; Scenario.eth] []) Scenario.t0 in
  analyzeMarketVolatility E w "BTC" = Throw "candles unavailable" /\
  fst (PartialTakeProfitExecutor.executeCheck E "health-check" w) =
    Ok (PartialTakeProfitExecutor.mkCheckResult false 0 0 []) /\
  effects (snd (PartialTakeProfitExecutor.executeCheck E "health-check" w)) = [] /\
  PartialTakeProfitExecutor.details_of
    (PartialTakeProfitExecutor.executeCheck_isolating E "health-check" w) =
    [PartialTakeProfitExecutor.mkDetail "ETH" 1 "success"].
Proof. vm_compute. repeat split; reflexivity. Qed.

(** The store rejects the history query under the lease of stage 1 of BTC
    (the eighth statement of the pass): the exception leaves the loop, the
    executor is called for neither position, and the pass resolves to
    [success = false]. *)
Lemma rejected_check_ends_the_pass :
  let E := Scenario.env_with (Scenario.nth_statement 7)
             (fun contract => Ok (Scenario.quotes 115 2150 contract))
             (Scenario.quotes 115 2150) (Scenario.all Scenario.Succeeds) [] (fun _ => false) in
  let w := Scenario.world (mkDb ∅ [] [Scenario.btc; Scenario.eth] []) Scenario.t0 in
  fst (PartialTakeProfitExecutor.executeCheck E "health-check" w) =
    Ok (PartialTakeProfitExecutor.mkCheckResult false 0 0 []) /\
  effects (snd (PartialTakeProfitExecutor.executeCheck E "health-check" w)) = [] /\
  system_config (db (snd (PartialTakeProfitExecutor.executeCheck E "health-check" w))) = ∅ /\
  PartialTakeProfitExecutor.details_of
    (PartialTakeProfitExecutor.executeCheck_isolating E "health-check" w) =
    [PartialTakeProfitExecutor.mkDetail "ETH" 1 "success"].
Proof. vm_compute. repeat split; reflexivity. Qed.

(** C5 as the specification words it fails: the executor throws for BTC, the
    exception leaves the loop, and ETH, whose stage 1 is due, is not
    evaluated; a pass that caught the exception at the position would have
    gone on to ETH. *)
Lemma executor_exception_ends_the_pass :
  let E := Scenario.env (Scenario.quotes 115 2150) Scenario.btc_throws [] in
  let w := Scenario.world (mkDb ∅ [] [Scenario.btc; Scenario.eth] []) Scenario.t0 in
  PartialTakeProfitExecutor.details_of
    (PartialTakeProfitExecutor.executeCheck E "health-check" w) = [] /\
  effects (snd (PartialTakeProfitExecutor.executeCheck E "health-check" w)) =
    [ExecutorCall "BTC" "1"] /\
  PartialTakeProfitExecutor.details_of
    (PartialTakeProfitExecutor.executeCheck_isolating E "health-check" w) =
    [PartialTakeProfitExecutor.mkDetail "ETH" 1 "success"] /\
  PartialTakeProfitExecutor.executeCheck E "health-check" w <>
  PartialTakeProfitExecutor.executeCheck_isolating E "health-check" w.
Proof.
  cbv zeta. split; [vm_compute; reflexivity|]. split; [vm_compute; reflexivity|].
  split; [vm_compute; reflexivity|].
  intros H. apply (f_equal PartialTakeProfitExecutor.details_of) in H.
  vm_compute in H. discriminate.
Qed.

(** ** The original stop-loss *)

(** The stop-loss recovered from a stage-1 entry is the one in effect before
    stage 1 exactly when the entry's trigger price lies one risk distance
    beyond the entry price. *)
Lemma originalStopLoss_exact (entryPrice stopLossPrice before : Q) (row : HistoryRow) :
  h_stage row = 1 ->
  Qle_bool (h_trigger_price row) 0 = false ->
  (PartialTakeProfitExecutor.originalStopLoss entryPrice stopLossPrice (Some row) == before
   <-> h_trigger_price row == 2 * entryPrice - before)%Q.
Proof.
  intros Hstage Htrigger. unfold PartialTakeProfitExecutor.originalStopLoss.
  rewrite Hstage, Htrigger. cbn.
  split; intros H.
  - rewrite <- H. ring.
  - rewrite H. ring.
Qed.

(** C6 at a stage 1 that fired beyond 1R.  BTC is long from 100 with the stop
    at 90, so 1R is 10.  The price is 115 when a pass finds stage 1 due
    (1.5R against a threshold of 1R); the executor records 115 as trigger
    price and moves the stop to the entry price.  From that entry the next
    pass recovers 85 as original stop-loss, not 90: the risk distance reads
    15, and at a price of 125 the R-multiple reads 5/3 where it is 5/2
    against the stop-loss that was in effect, so stage 2 (due at 2R) is not
    evaluated. *)
Theorem recovered_stop_loss_beyond_1R :
  let E115 := Scenario.env (Scenario.quotes 115 2050) (Scenario.all Scenario.Succeeds) [] in
  let E125 := Scenario.env (Scenario.quotes 125 2050) (Scenario.all Scenario.Succeeds) [] in
  let w0 := Scenario.world (mkDb ∅ [] [Scenario.btc] []) Scenario.t0 in
  let w1 := snd (PartialTakeProfitExecutor.executeCheck E115 "health-check" w0) in
  let w2 := Scenario.world (db w1) (Scenario.t0 + 60000) in
  let recovered :=
    PartialTakeProfitExecutor.originalStopLoss 100 100
      (first_completed "BTC" (partial_take_profit_history (db w1))) in
  partial_take_profit_history (db w1) = [Scenario.stage1_fired 115 0] /\
  positions (db w1) = [Scenario.btc_after_stage1] /\
  (recovered == 85)%Q /\
  ~ (recovered == stop_loss Scenario.btc)%Q /\
  (PartialTakeProfitExecutor.riskDistance 100 recovered == 15)%Q /\
  (PartialTakeProfitExecutor.riskDistance 100 (stop_loss Scenario.btc) == 10)%Q /\
  (Scenario.calculateRMultiple 100 125 recovered "long" == 5 # 3)%Q /\
  (Scenario.calculateRMultiple 100 125 (stop_loss Scenario.btc) "long" == 5 # 2)%Q /\
  PartialTakeProfitExecutor.details_of
    (PartialTakeProfitExecutor.executeCheck E125 "health-check" w2) =
    [PartialTakeProfitExecutor.mkDetail "BTC" 1 "already_executed"].
Proof.
  cbv zeta. repeat split; try (vm_compute; reflexivity).
  vm_compute. discriminate.
Qed.

(** ** The scheduler of the consistency checker *)

Section SchedulerFacts.
Import DataConsistencyChecker.

(** One timer at most is armed, and it is the one [intervalId] holds. *)
Lemma handle_armed s e :
  armed s = match intervalId s with Some t => [t] | None => [] end ->
  (isRunning s = true <-> is_Some (intervalId s)) ->
  armed (handle s e) = match intervalId (handle s e) with Some t => [t] | None => [] end /\
  (isRunning (handle s e) = true <-> is_Some (intervalId (handle s e))).
Proof.
  intros Harmed Hrun. destruct e as [| | t |]; cbn.
  - unfold start. destruct (isRunning s) eqn:Hr; [split; [exact Harmed | rewrite Hr; exact Hrun]|]. cbn.
    destruct (intervalId s) as [t|] eqn:Hi.
    + exfalso. destruct Hrun as [_ Hrun].
      assert (false = true) by (apply Hrun; eauto). discriminate.
    + rewrite Harmed. split; [reflexivity|]. split; eauto.
  - unfold stop. destruct (intervalId s) as [t|] eqn:Hi; cbn.
    + rewrite Harmed. cbn. rewrite Nat.eqb_refl. cbn.
      split; [reflexivity|]. split; [discriminate | intros [? ?]; discriminate].
    + rewrite Harmed. split; [reflexivity|]. split; [discriminate | intros [? ?]; discriminate].
  - unfold tick. destruct (existsb _ _); cbn; auto.
  - auto.
Qed.

Lemma after_armed events :
  let s := after events in
  armed s = match intervalId s with Some t => [t] | None => [] end /\
  (isRunning s = true <-> is_Some (intervalId s)).
Proof.
  unfold after. cbv zeta.
  induction events as [|e events IH] using rev_ind.
  - cbn. split; [reflexivity|]. split; [discriminate | intros [? ?]; discriminate].
  - rewrite fold_left_app. cbn. destruct IH as [IH1 IH2]. apply handle_armed; assumption.
Qed.
End SchedulerFacts.

(** C4, as far as the code goes: [isRunning] is set by [start] and cleared by
    [stop]; it keeps a second [start] from beginning a pass and from arming a
    second timer, so that at most one timer is ever armed; the callback of
    the timer begins a pass at every tick, whether or not a pass is in
    progress. *)
Theorem isRunning_guards_start_only (events : list DataConsistencyChecker.SchedulerEvent) :
  let s := DataConsistencyChecker.after events in
  (length (DataConsistencyChecker.armed s) <= 1)%nat /\
  (DataConsistencyChecker.isRunning s = true ->
   DataConsistencyChecker.start s = s) /\
  (forall t, In t (DataConsistencyChecker.armed s) ->
     DataConsistencyChecker.passesInProgress (DataConsistencyChecker.tick t s) =
     S (DataConsistencyChecker.passesInProgress s)).
Proof.
  cbv zeta. destruct (after_armed events) as [Harmed _]. split; [|split].
  - rewrite Harmed. destruct (DataConsistencyChecker.intervalId _); cbn; lia.
  - intros Hr. unfold DataConsistencyChecker.start. rewrite Hr. reflexivity.
  - intros t Hin. unfold DataConsistencyChecker.tick.
    assert (Hex : existsb (Nat.eqb t) (DataConsistencyChecker.armed
                                         (DataConsistencyChecker.after events)) = true).
    { apply existsb_exists. exists t. split; [exact Hin | apply Nat.eqb_refl]. }
    rewrite Hex. reflexivity.
Qed.

(** The checker is started and its timer fires while the first pass is in
    progress: a second pass begins. *)
Lemma isRunning_guards_start_only_witness :
  let s := DataConsistencyChecker.after [DataConsistencyChecker.CallStart] in
  DataConsistencyChecker.isRunning s = true /\
  In 0%nat (DataConsistencyChecker.armed s) /\
  DataConsistencyChecker.start s = s /\
  DataConsistencyChecker.passesInProgress (DataConsistencyChecker.tick 0 s) = 2%nat.
Proof.
  cbv zeta.
  destruct (isRunning_guards_start_only [DataConsistencyChecker.CallStart])
    as (_ & Hstart & Htick).
  split; [reflexivity|]. split; [left; reflexivity|].
  split; [apply Hstart; reflexivity|].
  rewrite (Htick 0%nat); [reflexivity | left; reflexivity].
Defined.

(** C4 as the specification words it fails: the timer fires while the pass
    that [start] began is still in progress, and a second pass runs alongside
    it; a tick that skipped while a pass is in progress would not have begun
    one. *)
Lemma tick_overlaps_running_pass :
  let s := DataConsistencyChecker.after
             [DataConsistencyChecker.CallStart; DataConsistencyChecker.TimerFires 0] in
  DataConsistencyChecker.passesInProgress s = 2%nat /\
  DataConsistencyChecker.passesInProgress
    (DataConsistencyChecker.tick_skipping 0
       (DataConsistencyChecker.after [DataConsistencyChecker.CallStart])) = 1%nat /\
  DataConsistencyChecker.tick 0 (DataConsistencyChecker.after [DataConsistencyChecker.CallStart])
  <> DataConsistencyChecker.tick_skipping 0
       (DataConsistencyChecker.after [DataConsistencyChecker.CallStart]).
Proof.
  cbv zeta. split; [reflexivity|]. split; [reflexivity|].
  intros H. apply (f_equal DataConsistencyChecker.passesInProgress) in H.
  vm_compute in H. discriminate.
Qed.

(** ** [DataConsistencyChecker.checkConsistency] *)

Section Classification.
Import DataConsistencyChecker.
Context (E : Env).

Lemma insert_by_symbol_In p q sorted :
  In q (insert_by_symbol p sorted) <-> q = p \/ In q sorted.
Proof.
  induction sorted as [|r rest IH]; cbn.
  - intuition congruence.
  - destruct (String.leb (symbol p) (symbol r)); cbn; [intuition congruence|].
    rewrite IH. intuition congruence.
Qed.

Lemma order_by_symbol_In q ps : In q (order_by_symbol ps) <-> In q ps.
Proof.
  induction ps as [|p ps IH]; cbn; [tauto|].
  rewrite insert_by_symbol_In, IH. intuition congruence.
Qed.

Lemma local_loop exchangePositions rows : forall result,
  let result' := fold_left (checkLocalPosition E exchangePositions) rows result in
  testDataPositions result' =
    (testDataPositions result ++
     map (fun p => mkTestDataPosition (symbol p) (side p))
         (List.filter (fun p => isTestData (symbol p)) rows))%list /\
  orphanPositions result' =
    (orphanPositions result ++
     map (fun p => mkOrphanPosition (symbol p) (side p) (dbQtyOf p)
                     (exchangeSizeOf E exchangePositions (symbol p)))
         (List.filter (fun p => negb (isTestData (symbol p)) && diverges E exchangePositions p)
                      rows))%list /\
  orphanPriceOrders result' = orphanPriceOrders result /\
  missingPositions result' = missingPositions result.
Proof.
  induction rows as [|p rows IH]; intros result; cbn.
  - rewrite !app_nil_r. auto.
  - destruct (IH (checkLocalPosition E exchangePositions result p)) as (H1 & H2 & H3 & H4).
    rewrite H1, H2, H3, H4. unfold checkLocalPosition, diverges.
    destruct (isTestData (symbol p)); cbn.
    + rewrite <- app_assoc. auto.
    + destruct (mismatch _ _); cbn; [rewrite <- app_assoc|]; auto.
Qed.

Lemma exchange_loop dbPositions exchangePositions : forall result,
  let result' := fold_left (checkExchangePosition E dbPositions) exchangePositions result in
  testDataPositions result' = testDataPositions result /\
  orphanPositions result' = orphanPositions result /\
  orphanPriceOrders result' = orphanPriceOrders result.
Proof.
  induction exchangePositions as [|x xs IH]; intros result; cbn; [auto|].
  destruct (IH (checkExchangePosition E dbPositions result x)) as (H1 & H2 & H3).
  rewrite H1, H2, H3. unfold checkExchangePosition.
  destruct (negb _); [auto|]. destruct (List.find _ _); auto.
Qed.

Lemma order_loop dbPositions orders : forall result,
  let result' := fold_left (checkPriceOrder dbPositions) orders result in
  testDataPositions result' = testDataPositions result /\
  orphanPositions result' = orphanPositions result /\
  missingPositions result' = missingPositions result /\
  orphanPriceOrders result' =
    (orphanPriceOrders result ++
     map (fun o => mkOrphanPriceOrder (o_id o) (o_order_id o) (o_symbol o) (o_type o))
         (List.filter (fun o => negb (existsb (fun p => String.eqb (symbol p) (o_symbol o)
                                                   && String.eqb (side p) (o_side o))
                                         dbPositions)) orders))%list.
Proof.
  induction orders as [|o os IH]; intros result; cbn.
  - rewrite app_nil_r. auto.
  - destruct (IH (checkPriceOrder dbPositions result o)) as (H1 & H2 & H3 & H4).
    rewrite H1, H2, H3, H4. unfold checkPriceOrder.
    destruct (negb _); cbn; [rewrite <- app_assoc|]; auto.
Qed.

(** What a pass that returns has computed. *)
Lemma checkConsistency_returns w data w' :
  checkConsistency E w = (Ok data, w') ->
  exists exchangePositions,
    getPositions E w = Ok exchangePositions /\
    db w' = db w /\ now w' = now w /\
    let rows := order_by_symbol (positions (db w)) in
    testDataPositions data =
      map (fun p => mkTestDataPosition (symbol p) (side p))
          (List.filter (fun p => isTestData (symbol p)) rows) /\
    orphanPositions data =
      map (fun p => mkOrphanPosition (symbol p) (side p) (dbQtyOf p)
                      (exchangeSizeOf E exchangePositions (symbol p)))
          (List.filter (fun p => negb (isTestData (symbol p))
                                 && diverges E exchangePositions p) rows) /\
    orphanPriceOrders data =
      map (fun o => mkOrphanPriceOrder (o_id o) (o_order_id o) (o_symbol o) (o_type o))
          (List.filter (fun o => negb (existsb (fun p => String.eqb (symbol p) (o_symbol o)
                                                    && String.eqb (side p) (o_side o))
                                          rows))
                       (active_orders (price_orders (db w)))).
Proof.
  unfold checkConsistency, bind, ret, dbQuery, dbExecute.
  destruct (getPositions E w) as [ex|e]; [|discriminate].
  destruct (dbFault E (calls w)); [discriminate|]. cbn.
  destruct (dbFault E (S (calls w))); [discriminate|]. cbn.
  intros [= <- <-]. exists ex. split; [reflexivity|]. cbn.
  split; [reflexivity|]. split; [reflexivity|].
  set (rows := order_by_symbol (positions (db w))).
  destruct (order_loop rows (active_orders (price_orders (db w)))
              (fold_left (checkExchangePosition E rows) ex
                 (fold_left (checkLocalPosition E ex) rows (mkInconsistentData [] [] [] []))))
    as (A1 & A2 & A3 & A4).
  destruct (exchange_loop rows ex
              (fold_left (checkLocalPosition E ex) rows (mkInconsistentData [] [] [] [])))
    as (B1 & B2 & B3).
  destruct (local_loop ex rows (mkInconsistentData [] [] [] [])) as (L1 & L2 & L3 & L4).
  rewrite A1, A2, A4, B1, B2, B3, L1, L2, L3. cbn. auto.
Qed.

Lemma diverges_spec exchangePositions p :
  diverges E exchangePositions p = true <->
  (exchangeSizeOf E exchangePositions (symbol p) == 0 \/
   epsilon < Qabs (Double.sub (exchangeSizeOf E exchangePositions (symbol p)) (dbQtyOf p)))%Q.
Proof.
  unfold diverges, mismatch. rewrite orb_true_iff, Qeq_bool_iff, negb_true_iff.
  rewrite <- not_true_iff_false, Qle_bool_iff.
  split; (intros [H|H]; [left; exact H | right]).
  - apply Qnot_le_lt. exact H.
  - apply Qlt_not_le. exact H.
Qed.
End Classification.

(** C7, as far as the code goes: in a pass that returns, a local position
    whose symbol matches the test-data pattern is listed as test data and
    no orphan entry bears its symbol; any other local position is listed as
    orphan exactly when the remote size of its contract is zero or, with
    both sizes read as doubles and the subtraction carried out on doubles,
    differs from the local quantity by more than the double 0.0001 in
    absolute value; and no test-data entry bears its symbol. *)
Theorem local_position_classification (E : Env) (w w' : World)
    (data : DataConsistencyChecker.InconsistentData)
    (exchangePositions : list ExchangePosition) (p : PositionRow) :
  DataConsistencyChecker.checkConsistency E w = (Ok data, w') ->
  getPositions E w = Ok exchangePositions ->
  In p (positions (db w)) ->
  let remote := DataConsistencyChecker.exchangeSizeOf E exchangePositions (symbol p) in
  let quantity := DataConsistencyChecker.dbQtyOf p in
  if DataConsistencyChecker.isTestData (symbol p) then
    In (DataConsistencyChecker.mkTestDataPosition (symbol p) (side p))
       (DataConsistencyChecker.testDataPositions data) /\
    (forall o, In o (DataConsistencyChecker.orphanPositions data) ->
               DataConsistencyChecker.op_symbol o <> symbol p)
  else
    (In (DataConsistencyChecker.mkOrphanPosition (symbol p) (side p) quantity remote)
        (DataConsistencyChecker.orphanPositions data)
     <-> (remote == 0 \/
          DataConsistencyChecker.epsilon < Qabs (Double.sub remote quantity))%Q) /\
    (forall t, In t (DataConsistencyChecker.testDataPositions data) ->
               DataConsistencyChecker.td_symbol t <> symbol p).
Proof.
  intros Hcheck Hex Hp. cbv zeta.
  destruct (checkConsistency_returns E w data w' Hcheck) as (ex & Hex' & _ & _ & Htd & Hop & _).
  rewrite Hex in Hex'. injection Hex' as <-.
  rewrite <- (order_by_symbol_In p) in Hp.
  destruct (DataConsistencyChecker.isTestData (symbol p)) eqn:Htest.
  - split.
    + rewrite Htd. apply in_map_iff. exists p. split; [reflexivity|].
      apply filter_In. auto.
    + intros o Ho Hsym. rewrite Hop in Ho. apply in_map_iff in Ho as (q & <- & Hq).
      apply filter_In in Hq as [_ Hq]. cbn in Hsym. rewrite Hsym, Htest in Hq. discriminate.
  - split.
    + rewrite <- diverges_spec. rewrite Hop. split.
      * intros Ho. apply in_map_iff in Ho as (q & Heq & Hq).
        apply filter_In in Hq as [_ Hq]. apply andb_prop in Hq as [_ Hq].
        injection Heq as Hs _ Hqty _.
        unfold DataConsistencyChecker.diverges in *. rewrite <- Hs, <- Hqty. exact Hq.
      * intros Hd. apply in_map_iff. exists p. split; [reflexivity|].
        apply filter_In. split; [exact Hp|]. rewrite Htest, Hd. reflexivity.
    + intros t Ht Hsym. rewrite Htd in Ht. apply in_map_iff in Ht as (q & <- & Hq).
      apply filter_In in Hq as [_ Hq]. cbn in Hsym. rewrite Hsym, Htest in Hq. discriminate.
Qed.

(** ETH short 2.0 against a remote size of 1.99995: the difference is within
    0.0001 and the position is not listed. *)
Lemma local_position_classification_witness :
  let E := Scenario.checker_env (Scenario.eth_remote (39999 # 20000)) in
  let w := Scenario.world (mkDb ∅ [] [Scenario.eth_short] []) Scenario.t0 in
  exists data w',
    DataConsistencyChecker.checkConsistency E w = (Ok data, w') /\
    ~ In (DataConsistencyChecker.mkOrphanPosition "ETH" "short" 2 (parseFloat (39999 # 20000)))
         (DataConsistencyChecker.orphanPositions data).
Proof.
  intros E w.
  destruct (DataConsistencyChecker.checkConsistency E w) as [r w'] eqn:Hrun.
  assert (Hok : exists data, r = Ok data) by (vm_compute in Hrun; injection Hrun as <- _; eauto).
  destruct Hok as [data ->]. exists data, w'. split; [reflexivity|].
  pose proof (local_position_classification E w w' data
                (Scenario.eth_remote (39999 # 20000)) Scenario.eth_short Hrun eq_refl
                (or_introl eq_refl)) as [Hiff _].
  intros Hin.
  assert (Hin' : In (DataConsistencyChecker.mkOrphanPosition (symbol Scenario.eth_short)
                       (side Scenario.eth_short)
                       (DataConsistencyChecker.dbQtyOf Scenario.eth_short)
                       (DataConsistencyChecker.exchangeSizeOf E
                          (Scenario.eth_remote (39999 # 20000)) (symbol Scenario.eth_short)))
                    (DataConsistencyChecker.orphanPositions data)).
  { refine (eq_ind _ (fun o => In o _) Hin _ _). vm_compute. reflexivity. }
  apply Hiff in Hin'. destruct Hin' as [Hzero | Hfar].
  - vm_compute in Hzero. discriminate.
  - vm_compute in Hfar. discriminate.
Defined.

(** C7 as the specification words it fails on its example: ETH short 2.0
    against a remote size of 1.999 differ by 0.001, which is more than
    0.0001, and the position is listed as orphan. *)
Lemma eth_1999_is_flagged :
  let E := Scenario.checker_env (Scenario.eth_remote (1999 # 1000)) in
  let w := Scenario.world (mkDb ∅ [] [Scenario.eth_short] []) Scenario.t0 in
  (1 # 10000 < Qabs ((1999 # 1000) - 2))%Q /\
  exists data w',
    DataConsistencyChecker.checkConsistency E w = (Ok data, w') /\
    DataConsistencyChecker.orphanPositions data =
      [DataConsistencyChecker.mkOrphanPosition "ETH" "short" 2 (parseFloat (1999 # 1000))].
Proof.
  cbv zeta. split; [reflexivity|].
  eexists _, _. split; vm_compute; reflexivity.
Qed.

(** At the tolerance itself the rounding decides, and here against the
    specification: ETH short 2.0 against a remote size of 2.0001 differ by
    exactly 0.0001, not by more; the double nearest to 2.0001 lies above it,
    the difference of the doubles is 0.00010000000000021103, which is more
    than the double 0.0001, and the position is listed as orphan. *)
Lemma eth_20001_is_flagged :
  let E := Scenario.checker_env (Scenario.eth_remote (20001 # 10000)) in
  let w := Scenario.world (mkDb ∅ [] [Scenario.eth_short] []) Scenario.t0 in
  (Qabs ((20001 # 10000) - 2) == 1 # 10000)%Q /\
  (Double.sub (parseFloat (20001 # 10000)) 2 == 225179981369 # 2251799813685248)%Q /\
  (DataConsistencyChecker.epsilon < Double.sub (parseFloat (20001 # 10000)) 2)%Q /\
  exists data w',
    DataConsistencyChecker.checkConsistency E w = (Ok data, w') /\
    DataConsistencyChecker.orphanPositions data =
      [DataConsistencyChecker.mkOrphanPosition "ETH" "short" 2 (parseFloat (20001 # 10000))].
Proof.
  cbv zeta. split; [reflexivity|]. split; [vm_compute; reflexivity|].
  split; [vm_compute; reflexivity|].
  eexists _, _. split; vm_compute; reflexivity.
Qed.

(** ** [DataConsistencyChecker.fixInconsistencies] *)

Section Repair.
Import DataConsistencyChecker.
Context (E : Env).

Lemma for_of_filter {S A} (keep : A -> bool) (body : A -> M S unit) (xs : list A) s :
  (forall x s, keep x = false -> body x s = (Ok tt, s)) ->
  for_of xs body s = for_of (List.filter keep xs) body s.
Proof.
  intros Hskip. revert s. induction xs as [|x xs IH]; intros s; cbn; [reflexivity|].
  destruct (keep x) eqn:Hk; cbn.
  - unfold bind. destruct (body x s) as [[[]|e] s']; [apply IH | reflexivity].
  - unfold bind. rewrite (Hskip x s Hk). apply IH.
Qed.

Lemma for_of_idle {S A} (body : A -> M S unit) (xs : list A) s :
  (forall x s, In x xs -> body x s = (Ok tt, s)) -> for_of xs body s = (Ok tt, s).
Proof.
  revert s. induction xs as [|x xs IH]; intros s Hidle; cbn; [reflexivity|].
  unfold bind. rewrite (Hidle x s (or_introl eq_refl)).
  apply IH. intros y s' Hy. apply Hidle. right. exact Hy.
Qed.
End Repair.

(** C9: orphans whose remote size is not zero and missing positions make no
    difference to what the repair does: it runs as on the divergence set
    without them, and on a set that holds nothing else it issues no
    statement and no remote call, and leaves the world as it is. *)
Theorem manual_divergences_untouched (E : Env)
    (data : DataConsistencyChecker.InconsistentData) (w : World) :
  DataConsistencyChecker.fixInconsistencies E data w =
  DataConsistencyChecker.fixInconsistencies E (DataConsistencyChecker.actionable data) w /\
  DataConsistencyChecker.fixInconsistencies E (DataConsistencyChecker.manual_only data) w =
  (Ok tt, w).
Proof.
  unfold DataConsistencyChecker.fixInconsistencies, DataConsistencyChecker.actionable,
    DataConsistencyChecker.manual_only. cbn [DataConsistencyChecker.orphanPositions
    DataConsistencyChecker.orphanPriceOrders DataConsistencyChecker.testDataPositions
    DataConsistencyChecker.missingPositions]. split.
  - apply bind_cong.
    apply (for_of_filter (fun o => Qeq_bool (DataConsistencyChecker.exchangeSize o) 0)).
    intros o s Hz. rewrite Hz. reflexivity.
  - unfold bind. rewrite for_of_idle; [reflexivity|].
    intros o s Ho. apply filter_In in Ho as [_ Ho].
    apply negb_true_iff in Ho. rewrite Ho. reflexivity.
Qed.

(** *** The repair on the ledger *)

Section RepairLedger.
Import DataConsistencyChecker.
Context (E : Env) (HE : no_db_faults E).

Lemma acts_as_ret : acts_as (ret tt) (fun _ l => l).
Proof. intros w. exists w. auto. Qed.

Lemma acts_as_bind m k f g :
  acts_as m f -> acts_as k g -> acts_as (m ;; k) (fun t l => g t (f t l)).
Proof.
  intros Hm Hk w. destruct (Hm w) as (w1 & H1 & N1 & L1).
  destruct (Hk w1) as (w2 & H2 & N2 & L2).
  exists w2. unfold bind. rewrite H1, H2. repeat split; congruence.
Qed.

Lemma acts_as_ext m f g : acts_as m f -> (forall t l, f t l = g t l) -> acts_as m g.
Proof.
  intros Hm Hfg w. destruct (Hm w) as (w1 & H1 & N1 & L1).
  exists w1. rewrite <- Hfg. auto.
Qed.

Lemma acts_as_for_of {A} (xs : list A) body (f : A -> Z -> Ledger -> Ledger) :
  (forall x, acts_as (body x) (f x)) ->
  acts_as (for_of xs body) (fun t l => fold_left (fun l x => f x t l) xs l).
Proof.
  intros Hbody. induction xs as [|x xs IH]; cbn.
  - apply acts_as_ret.
  - apply (acts_as_bind _ _ _ _ (Hbody x) IH).
Qed.

Lemma acts_as_try_catch m h f : acts_as m f -> acts_as (try_catch m h) f.
Proof.
  intros Hm w. destruct (Hm w) as (w1 & H1 & N1 & L1).
  exists w1. unfold try_catch. rewrite H1. auto.
Qed.

Lemma removePosition_acts symbol side :
  acts_as (removePosition E symbol side)
          (fun _ l => (delete_position symbol side (fst l), snd l)).
Proof.
  intros w. unfold removePosition, try_catch. rewrite (dbUpdate_ok E HE).
  eexists. split; [reflexivity|]. split; reflexivity.
Qed.

Lemma updatePriceOrderStatus_acts orderId status :
  acts_as (updatePriceOrderStatus E orderId status)
          (fun t l => (fst l, update_order_status status t orderId (snd l))).
Proof.
  intros w. unfold updatePriceOrderStatus, try_catch, bind, date_now.
  rewrite (dbUpdate_ok E HE). eexists. split; [reflexivity|]. split; reflexivity.
Qed.

Lemma remoteCancel_acts orderId :
  acts_as (try_catch (remoteCancel E orderId) (fun _ => ret tt)) (fun _ l => l).
Proof.
  intros w. unfold try_catch, remoteCancel, ret.
  destruct (cancelOrder E _ orderId) as [[]|e]; eexists; split; try reflexivity;
    split; reflexivity.
Qed.

Lemma cancel_one_acts orderId :
  acts_as (try_catch (remoteCancel E orderId) (fun _ => ret tt) ;;
           updatePriceOrderStatus E orderId "cancelled")
          (fun t l => (fst l, update_order_status "cancelled" t orderId (snd l))).
Proof.
  eapply acts_as_ext.
  - apply (acts_as_bind _ _ _ _ (remoteCancel_acts orderId)
             (updatePriceOrderStatus_acts orderId "cancelled")).
  - reflexivity.
Qed.

Lemma cancel_all_fold ids t (l : Ledger) :
  fold_left (fun l id => (fst l, update_order_status "cancelled" t id (snd l))) ids l =
  (fst l, cancel_all ids t (snd l)).
Proof.
  revert l. induction ids as [|id ids IH]; intros [ps os]; cbn; [reflexivity|].
  rewrite IH. reflexivity.
Qed.

Lemma cancelRelatedPriceOrders_acts symbol side :
  acts_as (cancelRelatedPriceOrders E symbol side)
          (fun t l => (fst l, cancel_all (active_orders_of symbol side (snd l)) t (snd l))).
Proof.
  apply acts_as_try_catch. intros w.
  rewrite (bind_ok _ _ _ _ _ (dbQuery_ok E HE _ w)).
  set (w1 := count_call _).
  destruct (acts_as_for_of (active_orders_of symbol side (price_orders (db w)))
              (fun orderId => try_catch (remoteCancel E orderId) (fun _ => ret tt) ;;
                              updatePriceOrderStatus E orderId "cancelled")
              _ cancel_one_acts w1) as (w2 & H2 & N2 & L2).
  exists w2. rewrite H2. split; [reflexivity|]. split; [exact N2|].
  rewrite L2, cancel_all_fold. reflexivity.
Qed.

Lemma purge_acts symbol side :
  acts_as (removePosition E symbol side ;; cancelRelatedPriceOrders E symbol side)
          (fun t l => purge t symbol side l).
Proof.
  eapply acts_as_ext.
  - apply (acts_as_bind _ _ _ _ (removePosition_acts symbol side)
             (cancelRelatedPriceOrders_acts symbol side)).
  - reflexivity.
Qed.

Lemma fixInconsistencies_acts data : acts_as (fixInconsistencies E data) (fix_ledger data).
Proof.
  unfold fixInconsistencies. eapply acts_as_ext.
  - eapply acts_as_bind; [|eapply acts_as_bind; [|eapply acts_as_bind; [|apply acts_as_ret]]].
    + apply (acts_as_for_of (orphanPositions data) _
               (fun orphan t l => if Qeq_bool (exchangeSize orphan) 0
                                  then purge t (op_symbol orphan) (op_side orphan) l else l)).
      intros orphan. destruct (Qeq_bool (exchangeSize orphan) 0).
      * apply purge_acts.
      * apply acts_as_ret.
    + apply (acts_as_for_of (orphanPriceOrders data) _
               (fun orphan t l =>
                  (fst l, update_order_status "cancelled" t (oo_order_id orphan) (snd l)))).
      intros orphan. apply cancel_one_acts.
    + apply (acts_as_for_of (testDataPositions data) _
               (fun testData t l => purge t (td_symbol testData) (td_side testData) l)).
      intros testData. apply purge_acts.
  - reflexivity.
Qed.
End RepairLedger.

(** *** The ledger after the repair *)

Section LedgerFacts.
Import DataConsistencyChecker.

Lemma fades_refl o : fades o o.
Proof. unfold fades. auto 10. Qed.

Lemma fades_trans o1 o2 o3 : fades o1 o2 -> fades o2 o3 -> fades o1 o3.
Proof.
  intros (A1 & A2 & A3 & A4 & A5 & A6) (B1 & B2 & B3 & B4 & B5 & B6).
  unfold fades. repeat split; try congruence.
  destruct B6 as [B6|B6]; [rewrite B6; exact A6 | right; exact B6].
Qed.

Lemma fades_all_refl os : Forall2 fades os os.
Proof. induction os; constructor; auto using fades_refl. Qed.

Lemma fades_all_trans os1 : forall os2 os3,
  Forall2 fades os1 os2 -> Forall2 fades os2 os3 -> Forall2 fades os1 os3.
Proof.
  induction os1 as [|o os1 IH]; intros os2 os3 H12 H23.
  - inversion H12; subst. inversion H23; subst. constructor.
  - inversion H12; subst. inversion H23; subst. constructor; eauto using fades_trans.
Qed.

Lemma fades_update t id os : Forall2 fades os (update_order_status "cancelled" t id os).
Proof.
  unfold update_order_status. induction os as [|o os IH]; cbn; constructor; auto.
  destruct (String.eqb (o_order_id o) id); [|apply fades_refl].
  unfold fades. cbn. auto 10.
Qed.

Lemma fades_cancel_all ids t : forall os, Forall2 fades os (cancel_all ids t os).
Proof.
  unfold cancel_all. induction ids as [|id ids IH]; intros os; cbn.
  - apply fades_all_refl.
  - eapply fades_all_trans; [apply fades_update | apply IH].
Qed.

(** A row of the later table comes from a row of the earlier one. *)
Lemma fades_In os os' o' :
  Forall2 fades os os' -> In o' os' -> exists o, In o os /\ fades o o'.
Proof.
  induction 1 as [|o p os os' Hop Hrest IH]; cbn; [tauto|].
  intros [<- | Hin].
  - exists o. auto.
  - destruct (IH Hin) as (q & Hq & Hf). exists q. auto.
Qed.

Lemma fades_active o o' : fades o o' -> is_active o' = true -> is_active o = true.
Proof.
  intros (_ & _ & _ & _ & _ & [H|H]); unfold is_active; rewrite H; [auto|].
  cbn. discriminate.
Qed.

Lemma quiet_fades ts os os' : Forall2 fades os os' -> quiet ts os -> quiet ts os'.
Proof.
  intros Hf Hq o' Hin Hact. destruct (fades_In os os' o' Hf Hin) as (o & Ho & Hfo).
  pose proof (fades_active o o' Hfo Hact) as Hact0.
  destruct Hfo as (_ & _ & -> & -> & _). apply Hq; assumption.
Qed.

Lemma settled_fades ids os os' : Forall2 fades os os' -> settled ids os -> settled ids os'.
Proof.
  intros Hf Hs o' Hin Hid. destruct (fades_In os os' o' Hf Hin) as (o & Ho & Hfo).
  destruct Hfo as (_ & Hoid & _ & _ & _ & [Hst|Hst]); [|exact Hst].
  rewrite Hst. apply Hs; [exact Ho | rewrite <- Hoid; exact Hid].
Qed.

Lemma settled_update t id os : settled [id] (update_order_status "cancelled" t id os).
Proof.
  intros o Hin [Hid | []]. unfold update_order_status in Hin.
  apply in_map_iff in Hin as (o0 & <- & _).
  destruct (String.eqb_spec (o_order_id o0) id) as [Heq|Hne]; [reflexivity|].
  congruence.
Qed.

Lemma settled_app ids1 ids2 os :
  settled ids1 os -> settled ids2 os -> settled (ids1 ++ ids2) os.
Proof.
  intros H1 H2 o Hin Hid. apply in_app_or in Hid as [Hid|Hid]; [apply H1 | apply H2]; auto.
Qed.

Lemma settled_cancel_all t ids : forall os, settled ids (cancel_all ids t os).
Proof.
  unfold cancel_all. induction ids as [|id ids IH]; intros os; cbn.
  - intros o _ [].
  - apply (settled_app [id] ids).
    + eapply settled_fades; [apply (fades_cancel_all ids t) | apply settled_update].
    + apply IH.
Qed.

Lemma targeted_app ts1 ts2 symbol side :
  targeted (ts1 ++ ts2) symbol side = targeted ts1 symbol side || targeted ts2 symbol side.
Proof. unfold targeted. apply existsb_app. Qed.

Lemma quiet_app ts1 ts2 os : quiet ts1 os -> quiet ts2 os -> quiet (ts1 ++ ts2) os.
Proof.
  intros H1 H2 o Hin Hact. rewrite targeted_app, (H1 o Hin Hact), (H2 o Hin Hact).
  reflexivity.
Qed.

Lemma quiet_app_l ts1 ts2 os : quiet (ts1 ++ ts2) os -> quiet ts1 os.
Proof.
  intros H o Hin Hact. specialize (H o Hin Hact). rewrite targeted_app in H.
  apply orb_false_elim in H. tauto.
Qed.

Lemma quiet_app_r ts1 ts2 os : quiet (ts1 ++ ts2) os -> quiet ts2 os.
Proof.
  intros H o Hin Hact. specialize (H o Hin Hact). rewrite targeted_app in H.
  apply orb_false_elim in H. tauto.
Qed.

(** After [purge], no active order belongs to the purged pair. *)
Lemma quiet_purge t symbol side l : quiet [(symbol, side)] (snd (purge t symbol side l)).
Proof.
  intros o' Hin Hact. cbn in Hin. unfold targeted. cbn. rewrite orb_false_r.
  destruct (String.eqb_spec (o_symbol o') symbol) as [Hs|]; [|reflexivity].
  destruct (String.eqb_spec (o_side o') side) as [Hd|]; [|reflexivity].
  exfalso.
  pose proof (fades_cancel_all (active_orders_of symbol side (snd l)) t (snd l)) as Hf.
  destruct (fades_In _ _ o' Hf Hin) as (o & Ho & Hfo).
  pose proof (fades_active o o' Hfo Hact) as Hact0.
  assert (Hid : In (o_order_id o') (active_orders_of symbol side (snd l))).
  { destruct Hfo as (_ & -> & Hs' & Hd' & _). unfold active_orders_of.
    apply in_map. apply filter_In. split; [exact Ho|].
    rewrite <- Hs', <- Hd', Hs, Hd, !String.eqb_refl, Hact0. reflexivity. }
  pose proof (settled_cancel_all t _ (snd l) o' Hin Hid) as Hst.
  unfold is_active in Hact. rewrite Hst in Hact. discriminate.
Qed.

Lemma fades_purge t symbol side l : Forall2 fades (snd l) (snd (purge t symbol side l)).
Proof. cbn. apply fades_cancel_all. Qed.

Lemma filter_targeted s d ts ps :
  List.filter (fun p => negb (targeted ts (symbol p) (side p))) (delete_position s d ps) =
  List.filter (fun p => negb (targeted ((s, d) :: ts) (symbol p) (side p))) ps.
Proof.
  unfold delete_position, targeted. induction ps as [|p ps IH]; cbn; [reflexivity|].
  destruct (String.eqb (symbol p) s && String.eqb (side p) d); cbn.
  - exact IH.
  - destruct (existsb _ ts); cbn; [|f_equal]; exact IH.
Qed.

Lemma purge_all_spec t ts : forall l,
  fst (purge_all t ts l) =
    List.filter (fun p => negb (targeted ts (symbol p) (side p))) (fst l) /\
  Forall2 fades (snd l) (snd (purge_all t ts l)) /\
  quiet ts (snd (purge_all t ts l)).
Proof.
  unfold purge_all. induction ts as [|[s d] ts IH]; intros l; cbn [fold_left].
  - split; [|split].
    + cbn. induction (fst l) as [|p ps IHp]; cbn; [reflexivity | f_equal; exact IHp].
    + apply fades_all_refl.
    + intros o _ _. reflexivity.
  - destruct (IH (purge t s d l)) as (Hp & Hf & Hq). cbn [fst snd] in *. split; [|split].
    + rewrite Hp. apply filter_targeted.
    + eapply fades_all_trans; [apply fades_purge | exact Hf].
    + apply (quiet_app [(s, d)] ts); [|exact Hq].
      eapply quiet_fades; [exact Hf | apply quiet_purge].
Qed.

Lemma step1_fold t xs : forall l,
  fold_left (fun l orphan =>
               if Qeq_bool (exchangeSize orphan) 0
               then purge t (op_symbol orphan) (op_side orphan) l else l) xs l =
  purge_all t (map (fun o => (op_symbol o, op_side o))
                   (List.filter (fun o => Qeq_bool (exchangeSize o) 0) xs)) l.
Proof.
  induction xs as [|x xs IH]; intros l; cbn; [reflexivity|].
  rewrite IH. destruct (Qeq_bool (exchangeSize x) 0); reflexivity.
Qed.

Lemma step2_fold t xs : forall l : Ledger,
  fold_left (fun l orphan =>
               (fst l, update_order_status "cancelled" t (oo_order_id orphan) (snd l))) xs l =
  (fst l, cancel_all (map oo_order_id xs) t (snd l)).
Proof.
  induction xs as [|x xs IH]; intros [ps os]; cbn; [reflexivity|].
  rewrite IH. reflexivity.
Qed.

Lemma step3_fold t xs : forall l,
  fold_left (fun l testData => purge t (td_symbol testData) (td_side testData) l) xs l =
  purge_all t (map (fun x => (td_symbol x, td_side x)) xs) l.
Proof.
  induction xs as [|x xs IH]; intros l; cbn; [reflexivity|]. rewrite IH. reflexivity.
Qed.

Lemma fix_ledger_steps data t l :
  fix_ledger data t l =
  purge_all t (map (fun x => (td_symbol x, td_side x)) (testDataPositions data))
    (let l1 := purge_all t (map (fun o => (op_symbol o, op_side o))
                                (List.filter (fun o => Qeq_bool (exchangeSize o) 0)
                                             (orphanPositions data))) l in
     (fst l1, cancel_all (map oo_order_id (orphanPriceOrders data)) t (snd l1))).
Proof. unfold fix_ledger. rewrite step1_fold, step2_fold, step3_fold. reflexivity. Qed.

Lemma filter_filter {A} (f g : A -> bool) (xs : list A) :
  List.filter f (List.filter g xs) = List.filter (fun x => g x && f x) xs.
Proof.
  induction xs as [|x xs IH]; cbn; [reflexivity|].
  destruct (g x); cbn; [destruct (f x); [f_equal|]|]; exact IH.
Qed.

(** What one run of the repair leaves. *)
Lemma fix_ledger_spec data t l :
  let l' := fix_ledger data t l in
  fst l' = List.filter (fun p => negb (targeted (targets data) (symbol p) (side p))) (fst l) /\
  Forall2 fades (snd l) (snd l') /\
  quiet (targets data) (snd l') /\
  settled (map oo_order_id (orphanPriceOrders data)) (snd l').
Proof.
  cbv zeta. rewrite fix_ledger_steps. cbv zeta.
  set (zs := map (fun o => (op_symbol o, op_side o)) _).
  set (ts := map (fun x => (td_symbol x, td_side x)) _).
  set (ids := map oo_order_id _).
  destruct (purge_all_spec t zs l) as (P1 & F1 & Q1).
  set (l1 := purge_all t zs l) in *.
  pose proof (fades_cancel_all ids t (snd l1)) as F2.
  pose proof (settled_cancel_all t ids (snd l1)) as S2.
  set (l2 := (fst l1, cancel_all ids t (snd l1))) in *.
  destruct (purge_all_spec t ts l2) as (P3 & F3 & Q3).
  split; [|split; [|split]].
  - rewrite P3. cbn [l2 fst]. rewrite P1, filter_filter.
    unfold targets. fold zs ts.
    apply List.filter_ext. intros p. rewrite targeted_app, negb_orb. reflexivity.
  - eapply fades_all_trans; [exact F1|]. eapply fades_all_trans; [exact F2 | exact F3].
  - unfold targets. fold zs ts. apply quiet_app; [|exact Q3].
    eapply quiet_fades; [exact F3|]. eapply quiet_fades; [exact F2 | exact Q1].
  - eapply settled_fades; [exact F3 | exact S2].
Qed.

Lemma active_orders_of_quiet s d os : quiet [(s, d)] os -> active_orders_of s d os = [].
Proof.
  intros Hq. unfold active_orders_of.
  induction os as [|o os IH]; cbn; [reflexivity|].
  assert (Hrest : quiet [(s, d)] os) by (intros o' Hin; apply Hq; right; exact Hin).
  destruct (String.eqb (o_symbol o) s && String.eqb (o_side o) d && is_active o) eqn:Hm;
    [|apply IH; exact Hrest].
  exfalso. apply andb_prop in Hm as [Hsd Hact].
  specialize (Hq o (or_introl eq_refl) Hact). unfold targeted in Hq. cbn in Hq.
  rewrite Hsd in Hq. discriminate.
Qed.

Lemma purge_all_quiet t ts : forall l, quiet ts (snd l) -> snd (purge_all t ts l) = snd l.
Proof.
  unfold purge_all. induction ts as [|[s d] ts IH]; intros l Hq; cbn [fold_left]; [reflexivity|].
  assert (Hsd : snd (purge t s d l) = snd l).
  { cbn. rewrite active_orders_of_quiet; [reflexivity|].
    apply (quiet_app_l [(s, d)] ts). exact Hq. }
  cbn [fst snd]. rewrite IH; [exact Hsd|]. rewrite Hsd.
  apply (quiet_app_r [(s, d)] ts). exact Hq.
Qed.

Lemma view_update_settled t id os :
  settled [id] os -> map view (update_order_status "cancelled" t id os) = map view os.
Proof.
  intros Hs. unfold update_order_status. rewrite map_map. apply map_ext_in.
  intros o Hin. destruct (String.eqb_spec (o_order_id o) id) as [Hid|]; [|reflexivity].
  unfold view. cbn. rewrite (Hs o Hin); [reflexivity | left; auto].
Qed.

Lemma view_cancel_all_settled t ids : forall os,
  settled ids os -> map view (cancel_all ids t os) = map view os.
Proof.
  unfold cancel_all. induction ids as [|id ids IH]; intros os Hs; cbn; [reflexivity|].
  rewrite IH.
  - apply view_update_settled. intros o Hin [Hid | []].
    apply Hs; [exact Hin | left; exact Hid].
  - eapply settled_fades; [apply fades_update|].
    intros o Hin Hid. apply Hs; [exact Hin | right; exact Hid].
Qed.

Lemma filter_idem {A} (f : A -> bool) (xs : list A) :
  List.filter f (List.filter f xs) = List.filter f xs.
Proof.
  rewrite filter_filter. apply List.filter_ext. intros x. destruct (f x); reflexivity.
Qed.

(** A second run, at any later instant, re-stamps cancelled orders and
    changes nothing else. *)
Lemma fix_ledger_twice data t1 t2 l :
  let l1 := fix_ledger data t1 l in
  let l2 := fix_ledger data t2 l1 in
  fst l2 = fst l1 /\ map view (snd l2) = map view (snd l1).
Proof.
  cbv zeta. destruct (fix_ledger_spec data t1 l) as (P1 & F1 & Q1 & S1).
  set (l1 := fix_ledger data t1 l) in *.
  split.
  - destruct (fix_ledger_spec data t2 l1) as (P2 & _). rewrite P2, P1. apply filter_idem.
  - rewrite fix_ledger_steps. cbv zeta.
    set (zs := map (fun o => (op_symbol o, op_side o)) _).
    set (ts := map (fun x => (td_symbol x, td_side x)) _).
    set (ids := map oo_order_id _) in *.
    assert (Qz : quiet zs (snd l1)) by (apply (quiet_app_l zs ts); exact Q1).
    assert (Qt : quiet ts (snd l1)) by (apply (quiet_app_r zs ts); exact Q1).
    rewrite (purge_all_quiet t2 zs l1 Qz).
    rewrite purge_all_quiet.
    + cbn [snd]. apply view_cancel_all_settled. exact S1.
    + cbn [snd]. eapply quiet_fades; [apply fades_cancel_all | exact Qt].
Qed.
End LedgerFacts.

(** *** Classifying again after the repair *)

Section Recheck.
Import DataConsistencyChecker.
Context (E : Env).

Lemma targeted_In ts s d : In (s, d) ts -> targeted ts s d = true.
Proof.
  intros Hin. unfold targeted. apply existsb_exists. exists (s, d).
  split; [exact Hin|]. cbn. rewrite !String.eqb_refl. reflexivity.
Qed.

Lemma filter_none {A} (f : A -> bool) (xs : list A) :
  (forall x, In x xs -> f x = false) -> List.filter f xs = [].
Proof.
  induction xs as [|x xs IH]; intros H; cbn; [reflexivity|].
  rewrite (H x (or_introl eq_refl)). apply IH. intros y Hy. apply H. right. exact Hy.
Qed.

Context (exchangePositions : list ExchangePosition).
Context (ps0 : list PositionRow) (os0 : list PriceOrderRow).

(** The divergence set a pass computes from the ledger [(ps0, os0)]. *)
Context (data : InconsistentData).
Context
  (Htd : testDataPositions data =
         map (fun p => mkTestDataPosition (symbol p) (side p))
             (List.filter (fun p => isTestData (symbol p)) (order_by_symbol ps0)))
  (Hop : orphanPositions data =
         map (fun p => mkOrphanPosition (symbol p) (side p) (dbQtyOf p)
                         (exchangeSizeOf E exchangePositions (symbol p)))
             (List.filter (fun p => negb (isTestData (symbol p))
                                    && diverges E exchangePositions p)
                          (order_by_symbol ps0)))
  (Hoo : orphanPriceOrders data =
         map (fun o => mkOrphanPriceOrder (o_id o) (o_order_id o) (o_symbol o) (o_type o))
             (List.filter (fun o => negb (existsb (fun p => String.eqb (symbol p) (o_symbol o)
                                                       && String.eqb (side p) (o_side o))
                                             (order_by_symbol ps0)))
                          (active_orders os0))).

(** The ledger the repair leaves. *)
Context (t : Z).
Let ps1 := fst (fix_ledger data t (ps0, os0)).
Let os1 := snd (fix_ledger data t (ps0, os0)).

Lemma kept_position p :
  In p ps1 -> In p ps0 /\ targeted (targets data) (symbol p) (side p) = false.
Proof.
  unfold ps1. destruct (fix_ledger_spec data t (ps0, os0)) as (-> & _).
  intros Hin. apply filter_In in Hin as [Hin Hk]. apply negb_true_iff in Hk. auto.
Qed.

Lemma no_test_data_left p : In p (order_by_symbol ps1) -> isTestData (symbol p) = false.
Proof.
  intros Hin. rewrite order_by_symbol_In in Hin.
  destruct (kept_position p Hin) as [Hp0 Hk].
  destruct (isTestData (symbol p)) eqn:Htest; [|reflexivity].
  rewrite <- Hk. symmetry. apply targeted_In. unfold targets.
  apply in_or_app. right. rewrite Htd, map_map. cbn.
  apply (in_map (fun p => (symbol p, side p))). apply filter_In.
  split; [rewrite order_by_symbol_In; exact Hp0 | exact Htest].
Qed.

Lemma no_vanished_position_left p :
  In p (order_by_symbol ps1) -> isTestData (symbol p) = false ->
  Qeq_bool (exchangeSizeOf E exchangePositions (symbol p)) 0 = false.
Proof.
  intros Hin Htest. rewrite order_by_symbol_In in Hin.
  destruct (kept_position p Hin) as [Hp0 Hk].
  destruct (Qeq_bool _ 0) eqn:Hz; [|reflexivity].
  rewrite <- Hk. symmetry. apply targeted_In. unfold targets.
  apply in_or_app. left. rewrite Hop.
  apply (in_map_iff (fun o => (op_symbol o, op_side o))).
  exists (mkOrphanPosition (symbol p) (side p) (dbQtyOf p)
            (exchangeSizeOf E exchangePositions (symbol p))).
  split; [reflexivity|]. apply filter_In. split; [|exact Hz].
  apply in_map_iff. exists p. split; [reflexivity|]. apply filter_In.
  split; [rewrite order_by_symbol_In; exact Hp0|].
  unfold diverges, mismatch. rewrite Htest, Hz. reflexivity.
Qed.

Lemma no_orphan_order_left o' :
  In o' (active_orders os1) ->
  existsb (fun p => String.eqb (symbol p) (o_symbol o') && String.eqb (side p) (o_side o'))
          (order_by_symbol ps1) = true.
Proof.
  intros Hin. apply filter_In in Hin as [Hin Hact].
  destruct (fix_ledger_spec data t (ps0, os0)) as (Hps & Hf & Hq & Hs).
  fold os1 in Hf, Hq, Hs. cbn [snd] in Hf.
  destruct (fades_In os0 os1 o' Hf Hin) as (o & Ho & Hfo).
  pose proof (fades_active o o' Hfo Hact) as Hact0.
  destruct Hfo as (Hid & Hoid & Hsym & Hside & Htype & _).
  destruct (existsb (fun p => String.eqb (symbol p) (o_symbol o)
                              && String.eqb (side p) (o_side o))
                    (order_by_symbol ps0)) eqn:Hpos.
  - apply existsb_exists in Hpos as (p & Hp & Hm).
    apply andb_prop in Hm as [Hms Hmd].
    apply String.eqb_eq in Hms. apply String.eqb_eq in Hmd.
    apply existsb_exists. exists p. split.
    + rewrite order_by_symbol_In. unfold ps1. rewrite Hps. apply filter_In.
      split; [rewrite order_by_symbol_In in Hp; exact Hp|].
      rewrite Hms, Hmd, <- Hsym, <- Hside. rewrite (Hq o' Hin Hact). reflexivity.
    + rewrite Hms, Hmd, Hsym, Hside, !String.eqb_refl. reflexivity.
  - exfalso.
    assert (Hst : o_status o' = "cancelled").
    { apply Hs; [exact Hin|]. rewrite Hoid, Hoo, map_map. cbn.
      apply (in_map o_order_id). apply filter_In. split.
      - apply filter_In. auto.
      - rewrite Hpos. reflexivity. }
    unfold is_active in Hact. rewrite Hst in Hact. discriminate.
Qed.
End Recheck.

(** C8, as far as the code goes.  With a store that answers, after one run
    of the repair on the divergence set a pass has computed,

    - a second run on the same set, at any later instant, leaves the same
      positions and the same conditional orders up to their [updated_at];
    - a pass over the repaired ledger, against the same remote positions,
      finds no test data, no orphan conditional order and no orphan whose
      remote size is zero.

    Orphans whose remote size differs and missing positions are found
    again. *)
Theorem repair_settles (E : Env) (w w1 w2 : World)
    (data : DataConsistencyChecker.InconsistentData) :
  no_db_faults E ->
  DataConsistencyChecker.checkConsistency E w = (Ok data, w1) ->
  DataConsistencyChecker.fixInconsistencies E data w1 = (Ok tt, w2) ->
  (forall later,
      db later = db w2 ->
      exists w3,
        DataConsistencyChecker.fixInconsistencies E data later = (Ok tt, w3) /\
        positions (db w3) = positions (db w2) /\
        map DataConsistencyChecker.view (price_orders (db w3)) =
        map DataConsistencyChecker.view (price_orders (db w2))) /\
  (forall later data' w3,
      db later = db w2 ->
      getPositions E later = getPositions E w ->
      DataConsistencyChecker.checkConsistency E later = (Ok data', w3) ->
      DataConsistencyChecker.testDataPositions data' = [] /\
      DataConsistencyChecker.orphanPriceOrders data' = [] /\
      forall o, In o (DataConsistencyChecker.orphanPositions data') ->
                Qeq_bool (DataConsistencyChecker.exchangeSize o) 0 = false).
Proof.
  intros HE Hcheck Hfix.
  destruct (checkConsistency_returns E w data w1 Hcheck)
    as (ex & Hex & Hdb1 & Hnow1 & Htd & Hop & Hoo).
  destruct (fixInconsistencies_acts E HE data w1) as (w2' & Hfix' & _ & Hl2).
  rewrite Hfix in Hfix'. injection Hfix' as <-.
  unfold DataConsistencyChecker.ledger in Hl2. rewrite Hdb1 in Hl2.
  set (l0 := (positions (db w), price_orders (db w))) in *.
  assert (Hps2 : positions (db w2) = fst (DataConsistencyChecker.fix_ledger data (now w1) l0))
    by (rewrite <- Hl2; reflexivity).
  assert (Hos2 : price_orders (db w2) =
                 snd (DataConsistencyChecker.fix_ledger data (now w1) l0))
    by (rewrite <- Hl2; reflexivity).
  split.
  - intros later Hlater.
    destruct (fixInconsistencies_acts E HE data later) as (w3 & Hfix3 & _ & Hl3).
    exists w3. split; [exact Hfix3|].
    unfold DataConsistencyChecker.ledger in Hl3. rewrite Hlater, Hl2 in Hl3.
    destruct (fix_ledger_twice data (now w1) (now later) l0) as [Hp Hv].
    rewrite Hps2, Hos2, <- Hp, <- Hv, <- Hl3. split; reflexivity.
  - intros later data' w3 Hlater Hremote Hcheck'.
    destruct (checkConsistency_returns E later data' w3 Hcheck')
      as (ex' & Hex' & _ & _ & Htd' & Hop' & Hoo').
    rewrite Hremote, Hex in Hex'. injection Hex' as <-.
    rewrite Hlater, Hps2 in Htd', Hop', Hoo'. rewrite Hos2 in Hoo'.
    split; [|split].
    + rewrite Htd'. rewrite filter_none; [reflexivity|].
      intros p Hp. subst l0. eapply no_test_data_left; [exact Htd | exact Hp].
    + rewrite Hoo'. rewrite filter_none; [reflexivity|].
      intros o Ho. apply negb_false_iff. subst l0.
      eapply no_orphan_order_left; [exact Hoo | exact Ho].
    + intros o Ho. rewrite Hop' in Ho. apply in_map_iff in Ho as (p & <- & Hp).
      apply filter_In in Hp as [Hp Hc]. apply andb_prop in Hc as [Htest _].
      apply negb_true_iff in Htest. cbn. subst l0.
      eapply no_vanished_position_left; [exact Hop | exact Hp | exact Htest].
Qed.

(** The drifted ledger: the repair deletes BTC and BTC_TEST and cancels the
    orders of BTC and XRP; run again a minute later it changes nothing but
    the [updated_at] of the XRP order, and the next pass finds neither test
    data nor orphan orders. *)
Lemma repair_settles_witness :
  let E := Scenario.checker_env Scenario.drifted_remote in
  let w := Scenario.world Scenario.drifted Scenario.t0 in
  exists data w1 w2,
    no_db_faults E /\
    DataConsistencyChecker.checkConsistency E w = (Ok data, w1) /\
    DataConsistencyChecker.fixInconsistencies E data w1 = (Ok tt, w2) /\
    positions (db w2) = [Scenario.eth_short] /\
    exists w3,
      DataConsistencyChecker.fixInconsistencies E data
        (Scenario.world (db w2) (Scenario.t0 + 60000)) = (Ok tt, w3) /\
      positions (db w3) = positions (db w2) /\
      map DataConsistencyChecker.view (price_orders (db w3)) =
      map DataConsistencyChecker.view (price_orders (db w2)).
Proof.
  intros E w.
  assert (HE : no_db_faults E) by (intros k; reflexivity).
  destruct (DataConsistencyChecker.checkConsistency E w) as [r w1] eqn:Hcheck.
  assert (Hok : exists data, r = Ok data)
    by (vm_compute in Hcheck; injection Hcheck as <- _; eauto).
  destruct Hok as [data ->].
  destruct (DataConsistencyChecker.fixInconsistencies E data w1) as [r2 w2] eqn:Hfix.
  assert (Hok2 : r2 = Ok tt).
  { destruct (fixInconsistencies_acts E HE data w1) as (w2' & Hfix' & _).
    rewrite Hfix in Hfix'. injection Hfix' as -> _. reflexivity. }
  subst r2. exists data, w1, w2.
  split; [exact HE|]. split; [first [exact Hcheck | reflexivity]|].
  split; [first [exact Hfix | reflexivity]|].
  split.
  - pose proof Hcheck as Hc. vm_compute in Hc. injection Hc as <- <-.
    pose proof Hfix as Hf. vm_compute in Hf. injection Hf as <-. reflexivity.
  - destruct (repair_settles E w w1 w2 data HE Hcheck Hfix) as [Htwice _].
    apply (Htwice (Scenario.world (db w2) (Scenario.t0 + 60000))). reflexivity.
Defined.

(** C8 as the specification words it fails: on the drifted ledger the pass
    after the repair still finds the ETH position, whose remote size differs,
    and the SOL position the ledger does not hold. *)
Lemma recheck_still_finds_divergences :
  let E := Scenario.checker_env Scenario.drifted_remote in
  let w := Scenario.world Scenario.drifted Scenario.t0 in
  exists data w1 w2 data' w3,
    DataConsistencyChecker.checkConsistency E w = (Ok data, w1) /\
    DataConsistencyChecker.fixInconsistencies E data w1 = (Ok tt, w2) /\
    DataConsistencyChecker.checkConsistency E w2 = (Ok data', w3) /\
    DataConsistencyChecker.hasInconsistencies data' = true /\
    DataConsistencyChecker.orphanPositions data' =
      [DataConsistencyChecker.mkOrphanPosition "ETH" "short" 2 (3 # 2)] /\
    DataConsistencyChecker.missingPositions data' =
      [DataConsistencyChecker.mkMissingPosition "SOL" 10].
Proof.
  cbv zeta. eexists _, _, _, _, _.
  split; [vm_compute; reflexivity|].
  split; [vm_compute; reflexivity|].
  split; [vm_compute; reflexivity|].
  split; vm_compute; auto.
Qed.

(* ===================================================================== *)
(** * Further properties of the lease                                     *)
(* ===================================================================== *)

(** ** Relations a computation keeps *)

Section Within.
Context {S : Type} (R : S -> S -> Prop) (Hrefl : forall s, R s s)
        (Htrans : forall s1 s2 s3, R s1 s2 -> R s2 s3 -> R s1 s3).

Lemma within_ret {A} (a : A) : within R (ret a).
Proof. intros s r s' [= _ <-]. apply Hrefl. Qed.

Lemma within_get : within R get.
Proof. intros s r s' [= _ <-]. apply Hrefl. Qed.

Lemma within_bind {A B} (m : M S A) (k : A -> M S B) :
  within R m -> (forall a, within R (k a)) -> within R (bind m k).
Proof.
  intros Hm Hk s r s'. unfold bind. destruct (m s) as [[a|e] s1] eqn:H1.
  - intros H2. eapply Htrans; [eapply Hm; exact H1 | eapply Hk; exact H2].
  - intros [= _ <-]. eapply Hm; exact H1.
Qed.

Lemma within_try_catch {A} (m : M S A) (h : string -> M S A) :
  within R m -> (forall e, within R (h e)) -> within R (try_catch m h).
Proof.
  intros Hm Hh s r s'. unfold try_catch. destruct (m s) as [[a|e] s1] eqn:H1.
  - intros [= _ <-]. eapply Hm; exact H1.
  - intros H2. eapply Htrans; [eapply Hm; exact H1 | eapply Hh; exact H2].
Qed.

Lemma within_try_finally {A} (m : M S A) (f : M S unit) :
  within R m -> within R f -> within R (try_finally m f).
Proof.
  intros Hm Hf s r s'. unfold try_finally. destruct (m s) as [r1 s1] eqn:H1.
  destruct (f s1) as [[[]|e] s2] eqn:H2; intros [= _ <-];
    (eapply Htrans; [eapply Hm; exact H1 | eapply Hf; exact H2]).
Qed.

Lemma within_for_of {A} (xs : list A) (body : A -> M S unit) :
  (forall x, In x xs -> within R (body x)) -> within R (for_of xs body).
Proof.
  induction xs as [|x xs IH]; intros Hbody; cbn [for_of].
  - apply within_ret.
  - apply within_bind; [apply Hbody; left; reflexivity|].
    intros _. apply IH. intros y Hy. apply Hbody. right. exact Hy.
Qed.
End Within.

(** [DistributedLock.release], with a store that answers: the row of the key
    is deleted when it names the caller, and only then; a row that names
    another holder stays as it is, and so does everything else in the
    store. *)
Theorem release_only_by_holder (E : Env) (key holder : string) (w : World) :
  no_db_faults E ->
  exists w',
    DistributedLock.release E key holder w = (Ok tt, w') /\
    (forall row, system_config (db w) !! key = Some row ->
       if String.eqb (value row) holder
       then system_config (db w') !! key = None
       else system_config (db w') = system_config (db w)) /\
    (system_config (db w) !! key = None -> system_config (db w') = system_config (db w)) /\
    same_but_lease key w w'.
Proof.
  intros HE. destruct (release_spec E HE key holder w) as (w' & Hrun & _ & Ht & Hsame).
  exists w'. split; [exact Hrun|]. split; [|split; [|exact Hsame]].
  - intros row Hrow. rewrite Hrow in Ht. cbn in Ht.
    destruct (String.eqb (value row) holder).
    + rewrite Ht. apply lookup_delete_eq.
    + exact Ht.
  - intros Hnone. rewrite Hnone in Ht. exact Ht.
Qed.

(** The agent's lease is not released by the health check. *)
Lemma release_only_by_holder_witness :
  let E := Scenario.env (Scenario.quotes 115 2050) (Scenario.all Scenario.Succeeds) [] in
  let w := Scenario.world (Scenario.lease_of_agent 1000) Scenario.t0 in
  no_db_faults E /\
  exists w',
    DistributedLock.release E "partial_tp_BTC_long_stage1" "health-check" w = (Ok tt, w') /\
    system_config (db w') = system_config (db w).
Proof.
  intros E w.
  assert (HE : no_db_faults E) by (intros k; reflexivity).
  split; [exact HE|].
  destruct (release_only_by_holder E "partial_tp_BTC_long_stage1" "health-check" w HE)
    as (w' & Hrun & Hrow & _).
  exists w'. split; [exact Hrun|].
  apply (Hrow (mkLockRow "ai-agent" (Scenario.t0 - 1000))). vm_compute. reflexivity.
Defined.



(** A lease that was granted keeps every other holder out until the age
    test of the expiry [DELETE] holds of its row, and no longer: asked at a
    later instant, with the table as the grant left it, another holder is
    granted the lease exactly when the test holds, and a refusal leaves the
    table as it is.  The holder is kept out for every age of 29999 ms or
    less and let in for every age of 30001 ms or more. *)
Theorem lease_excludes_until_timeout (E : Env) (key holder other : string)
    (w w1 w2 : World) :
  no_db_faults E ->
  other <> holder ->
  DistributedLock.tryAcquire E key holder w = (Ok true, w1) ->
  system_config (db w2) = system_config (db w1) ->
  exists granted w3,
    DistributedLock.tryAcquire E key other w2 = (Ok granted, w3) /\
    granted = expired 30 (now w2) (mkLockRow holder (now w)) /\
    (granted = false -> system_config (db w3) = system_config (db w2)) /\
    (granted = true -> system_config (db w3) !! key = Some (mkLockRow other (now w2))) /\
    (datable (now w) -> datable (now w2) ->
     (now w2 - now w <= 29999 -> granted = false) /\
     (30001 <= now w2 - now w -> granted = true)).
Proof.
  intros HE Hother Hacq Hlater.
  destruct (tryAcquire_spec E HE key holder w) as (g & w1' & Hrun & Hcase & _).
  rewrite Hacq in Hrun. injection Hrun as <- <-. cbv zeta in Hcase.
  assert (Ht1 : system_config (db w1) = <[key := mkLockRow holder (now w)]> (system_config (db w))).
  { destruct (system_config (db w) !! key) as [row|].
    - destruct (expired 30 (now w) row); [tauto|].
      destruct (String.eqb (value row) holder); [tauto|].
      destruct Hcase; discriminate.
    - tauto. }
  destruct (tryAcquire_spec E HE key other w2) as (g & w3 & Hrun3 & Hcase3 & _).
  cbv zeta in Hcase3. rewrite Hlater, Ht1, lookup_insert_eq in Hcase3. cbn [value] in Hcase3.
  set (row := mkLockRow holder (now w)) in *.
  assert (Hg : g = expired 30 (now w2) row /\
               (g = false -> system_config (db w3) = system_config (db w2)) /\
               (g = true -> system_config (db w3) !! key = Some (mkLockRow other (now w2)))).
  { destruct (expired 30 (now w2) row) eqn:Hx.
    - destruct Hcase3 as [-> Ht3]. split; [reflexivity|]. split; [discriminate|].
      intros _. rewrite Ht3. apply lookup_insert_eq.
    - apply String.eqb_neq in Hother. rewrite String.eqb_sym in Hother.
      rewrite Hother in Hcase3. destruct Hcase3 as [-> Ht3].
      split; [reflexivity|]. split; [|discriminate].
      intros _. rewrite Ht3, Hlater, Ht1. reflexivity. }
  destruct Hg as (Hg & Hkeep & Htake).
  exists g, w3. split; [exact Hrun3|]. split; [exact Hg|]. split; [exact Hkeep|].
  split; [exact Htake|].
  intros Hd Hd2. rewrite Hg. split; intros Hage.
  - apply expired_before; assumption.
  - apply expired_after; assumption.
Qed.

(** The agent holds the lease of stage 1 of BTC; the health check asks 29.999
    seconds later and is refused. *)
Lemma lease_excludes_until_timeout_witness :
  let E := Scenario.env (Scenario.quotes 115 2050) (Scenario.all Scenario.Succeeds) [] in
  let key := "partial_tp_BTC_long_stage1" in
  let w := Scenario.world (mkDb ∅ [] [Scenario.btc] []) Scenario.t0 in
  let w1 := snd (DistributedLock.tryAcquire E key "ai-agent" w) in
  let w2 := Scenario.world (db w1) (Scenario.t0 + 29999) in
  no_db_faults E /\
  DistributedLock.tryAcquire E key "ai-agent" w = (Ok true, w1) /\
  exists w3, DistributedLock.tryAcquire E key "health-check" w2 = (Ok false, w3).
Proof.
  intros E key w w1 w2.
  assert (HE : no_db_faults E) by (intros k; reflexivity).
  assert (H1 : DistributedLock.tryAcquire E key "ai-agent" w = (Ok true, w1))
    by (vm_compute; reflexivity).
  split; [exact HE|]. split; [exact H1|].
  destruct (lease_excludes_until_timeout E key "ai-agent" "health-check" w w1 w2 HE
              ltac:(discriminate) H1 eq_refl) as (g & w3 & Hrun & _ & _ & _ & Hms).
  destruct Hms as [Hearly _]; [vm_compute; split; [discriminate | reflexivity] ..|].
  assert (Hg : g = false) by (apply Hearly; vm_compute; discriminate).
  exists w3. rewrite Hg in Hrun. exact Hrun.
Defined.

Lemma refresh_lock_other now key holder (t : gmap string LockRow) k :
  k <> key -> refresh_lock now key holder t !! k = t !! k.
Proof.
  intros Hne. unfold refresh_lock. destruct (t !! key) as [row|]; [|reflexivity].
  destruct (String.eqb (value row) holder); [|reflexivity].
  apply lookup_insert_ne. congruence.
Qed.

Lemma insert_lock_other key holder now (t : gmap string LockRow) k :
  k <> key -> insert_lock_if_absent key holder now t !! k = t !! k.
Proof.
  intros Hne. unfold insert_lock_if_absent. destruct (t !! key) as [row|]; [reflexivity|].
  apply lookup_insert_ne. congruence.
Qed.

(** Whatever the store does, [tryAcquire] resolves, touches nothing but the
    row of its key, and grants the lease only with that row naming the caller
    and stamped with the instant of the call. *)
Theorem tryAcquire_grant_is_sound (E : Env) (key holder : string) (w : World) :
  exists granted w',
    DistributedLock.tryAcquire E key holder w = (Ok granted, w') /\
    (granted = true ->
     system_config (db w') !! key = Some (mkLockRow holder (now w))) /\
    same_but_lease key w w'.
Proof.
  destruct w as [d nw c fx]. destruct d as [t hs ps os].
  unfold DistributedLock.tryAcquire, same_but_lease.
  unfold try_catch, try_finally, bind, ret, throw, date_now, dbUpdate, dbQuery, dbExecute,
    with_db, count_call, emit, with_system_config.
  cbn -[Z.div Z.mul Z.sub Z.leb Z.ltb].
  assert (Hother : forall k, k <> key ->
            delete_expired key (DistributedLock.LOCK_TIMEOUT_MS / 1000) nw t !! k = t !! k)
    by (intros k Hne; apply delete_expired_other; exact Hne).
  set (t1 := delete_expired key (DistributedLock.LOCK_TIMEOUT_MS / 1000) nw t) in *.
  destruct (dbFault E c); cbn -[Z.div].
  { eexists _, _. split; [reflexivity|]. cbn. split; [discriminate|]. repeat split; auto. }
  destruct (dbFault E (S c)); cbn -[Z.div].
  { eexists _, _. split; [reflexivity|]. cbn. split; [discriminate|]. repeat split; auto. }
  destruct (select_lock key t1) as [row|] eqn:Hsel.
  - destruct (String.eqb_spec (value row) holder) as [Hv|Hv]; cbn -[Z.div].
    + destruct (dbFault E (S (S c))); cbn -[Z.div].
      { eexists _, _. split; [reflexivity|]. cbn. split; [discriminate|]. repeat split; auto. }
      eexists _, _. split; [reflexivity|]. cbn. split.
      * intros _. rewrite (refresh_lock_own key holder nw t1 row Hsel Hv).
        apply lookup_insert_eq.
      * repeat split; auto. intros k Hne. rewrite refresh_lock_other by exact Hne. auto.
    + eexists _, _. split; [reflexivity|]. cbn. split; [discriminate|]. repeat split; auto.
  - cbn -[Z.div]. destruct (dbFault E (S (S c))); cbn -[Z.div].
    { eexists _, _. split; [reflexivity|]. cbn. split; [discriminate|]. repeat split; auto. }
    rewrite (insert_lock_absent key holder nw t1 Hsel).
    destruct (dbFault E (S (S (S c)))); cbn -[Z.div].
    { eexists _, _. split; [reflexivity|]. cbn. split; [discriminate|]. repeat split; auto.
      intros k Hne. rewrite lookup_insert_ne by congruence. auto. }
    unfold select_lock at 1. rewrite lookup_insert_eq. cbn. rewrite String.eqb_refl.
    eexists _, _. split; [reflexivity|]. cbn. split.
    + intros _. apply lookup_insert_eq.
    + repeat split; auto. intros k Hne. rewrite lookup_insert_ne by congruence. auto.
Qed.


Section LeaseFrame.
Context (E : Env) (key : string).

Lemma same_but_lease_refl w : same_but_lease key w w.
Proof. unfold same_but_lease. auto 10. Qed.

Lemma same_but_lease_trans' w1 w2 w3 :
  same_but_lease key w1 w2 -> same_but_lease key w2 w3 -> same_but_lease key w1 w3.
Proof.
  intros (A1 & A2 & A3 & A4 & A5 & A6) (B1 & B2 & B3 & B4 & B5 & B6).
  unfold same_but_lease. repeat split; try congruence.
  intros k Hne. rewrite B1, A1; auto.
Qed.

Lemma dbQuery_lease {A} (q : Db -> A) : within (same_but_lease key) (dbQuery E q).
Proof.
  intros w r w'. unfold dbQuery, dbExecute, same_but_lease.
  destruct (dbFault E (calls w)); intros [= _ <-]; cbn; auto 10.
Qed.

Lemma dbUpdate_lease (f : gmap string LockRow -> gmap string LockRow) :
  (forall t k, k <> key -> f t !! k = t !! k) ->
  within (same_but_lease key) (dbUpdate E (with_system_config f)).
Proof.
  intros Hf w r w'. unfold dbUpdate, dbExecute, same_but_lease.
  destruct (dbFault E (calls w)); intros [= _ <-]; cbn; auto 10.
Qed.

Lemma tryAcquire_frame holder :
  within (same_but_lease key) (DistributedLock.tryAcquire E key holder).
Proof.
  pose proof same_but_lease_refl as Hrefl. pose proof same_but_lease_trans' as Htrans.
  unfold DistributedLock.tryAcquire.
  apply within_try_catch; auto. 2: intros; apply within_ret; auto.
  apply within_bind; auto.
  { intros w r w' [= _ <-]. auto. }
  intros now0. cbv zeta. apply within_bind; auto.
  { apply dbUpdate_lease. intros t k Hne. apply delete_expired_other. exact Hne. }
  intros _. apply within_bind; auto using dbQuery_lease.
  intros [row|].
  - destruct (String.eqb (value row) holder); [|apply within_ret; auto].
    apply within_bind; auto. 2: intros; apply within_ret; auto.
    apply dbUpdate_lease. intros t k Hne. apply refresh_lock_other. exact Hne.
  - apply within_bind; auto.
    { apply within_try_catch; auto. 2: intros; apply within_ret; auto.
      apply within_bind; auto. 2: intros; apply within_ret; auto.
      apply dbUpdate_lease. intros t k Hne. apply insert_lock_other. exact Hne. }
    intros inserted. destruct (negb inserted); [apply within_ret; auto|].
    apply within_bind; auto using dbQuery_lease.
    intros [row|]; [destruct (String.eqb (value row) holder)|]; apply within_ret; auto.
Qed.

Lemma release_frame holder :
  within (same_but_lease key) (DistributedLock.release E key holder).
Proof.
  pose proof same_but_lease_refl as Hrefl. pose proof same_but_lease_trans' as Htrans.
  unfold DistributedLock.release.
  apply within_try_catch; auto. 2: intros; apply within_ret; auto.
  apply within_bind; auto using dbQuery_lease.
  intros [row|]; [|apply within_ret; auto].
  destruct (String.eqb (value row) holder); [|apply within_ret; auto].
  apply dbUpdate_lease. intros t k Hne. unfold delete_lock. apply lookup_delete_ne. congruence.
Qed.
End LeaseFrame.

Lemma dbQuery_reads (E : Env) {A} (q : Db -> A) (w : World) r w' :
  dbQuery E q w = (r, w') -> same_store w w'.
Proof.
  unfold dbQuery, dbExecute, same_store. destruct (dbFault E (calls w)); intros [= _ <-];
    cbn; auto.
Qed.

Lemma hasRecentExecution_reads (E : Env) symbol stage window (w : World) r w' :
  DistributedLock.hasRecentExecution E symbol stage window w = (r, w') -> same_store w w'.
Proof.
  unfold DistributedLock.hasRecentExecution, try_catch, bind, ret, date_now, dbQuery, dbExecute,
    same_store.
  destruct (dbFault E (calls w)); intros [= _ <-]; cbn; auto.
Qed.

(** The read-back of step 4 is rejected after the insert of step 3 went
    through, over a table with no row of the key or with one the expiry
    [DELETE] clears: [tryAcquire] reports that the lease was not acquired,
    and the row it inserted stays in the table, naming the caller. *)
Theorem rejected_read_back_leaves_the_lease (E : Env) (key holder : string) (w : World) :
  (forall row, system_config (db w) !! key = Some row -> expired 30 (now w) row = true) ->
  dbFault E (calls w) = false ->
  dbFault E (S (calls w)) = false ->
  dbFault E (S (S (calls w))) = false ->
  dbFault E (S (S (S (calls w)))) = true ->
  exists w',
    DistributedLock.tryAcquire E key holder w = (Ok false, w') /\
    system_config (db w') = <[key := mkLockRow holder (now w)]> (system_config (db w)).
Proof.
  destruct w as [d nw c fx]. destruct d as [t hs ps os]. cbn [db now calls system_config].
  intros Hstale F0 F1 F2 F3.
  unfold DistributedLock.tryAcquire.
  unfold try_catch, try_finally, bind, ret, throw, date_now, dbUpdate, dbQuery, dbExecute,
    with_db, count_call, emit, with_system_config.
  cbn -[Z.div Z.mul Z.sub Z.leb Z.ltb]. rewrite F0. cbn -[Z.div]. rewrite F1. cbn -[Z.div].
  rewrite select_delete_expired.
  assert (Hsel : match t !! key with
                 | Some row => if expired (DistributedLock.LOCK_TIMEOUT_MS / 1000) nw row
                               then None else Some row
                 | None => None
                 end = None).
  { destruct (t !! key) as [row|] eqn:Hk; [|reflexivity].
    rewrite expired_timeout, (Hstale row eq_refl). reflexivity. }
  rewrite Hsel. cbn -[Z.div]. rewrite F2. cbn -[Z.div]. rewrite F3. cbn -[Z.div].
  eexists. split; [reflexivity|]. cbn.
  rewrite insert_lock_absent by (rewrite select_delete_expired; exact Hsel).
  destruct (t !! key) as [row|] eqn:Hk.
  - apply (insert_over_expired key holder nw _ t row Hk).
    rewrite expired_timeout. apply Hstale. reflexivity.
  - rewrite delete_expired_fresh by (intros r Hr; congruence). reflexivity.
Qed.

(** The store rejects the fourth statement of the health check's call: the
    health check is told it has no lease, and the table names it as holder. *)
Lemma rejected_read_back_witness :
  let E := Scenario.env_with (Scenario.nth_statement 3)
             (fun contract => Ok (Scenario.quotes 115 2050 contract))
             (Scenario.quotes 115 2050) (Scenario.all Scenario.Succeeds) [] (fun _ => false) in
  let key := "partial_tp_BTC_long_stage1" in
  let w := Scenario.world (mkDb ∅ [] [Scenario.btc] []) Scenario.t0 in
  exists w',
    DistributedLock.tryAcquire E key "health-check" w = (Ok false, w') /\
    system_config (db w') !! key = Some (mkLockRow "health-check" Scenario.t0).
Proof.
  intros E key w.
  destruct (rejected_read_back_leaves_the_lease E key "health-check" w)
    as (w' & Hrun & Ht); try reflexivity.
  - intros row Hrow. vm_compute in Hrow. discriminate.
  - exists w'. split; [exact Hrun|]. rewrite Ht. apply lookup_insert_eq.
Defined.

Lemma some_filtered {A} (f : A -> bool) (xs : list A) :
  (0 <? length (List.filter f xs))%nat = true <-> exists x, In x xs /\ f x = true.
Proof.
  rewrite Nat.ltb_lt. split.
  - destruct (List.filter f xs) as [|x rest] eqn:Hf; cbn; [lia|]. intros _.
    exists x. apply filter_In. rewrite Hf. left. reflexivity.
  - intros (x & Hin & Hfx). assert (Hx : In x (List.filter f xs)) by (apply filter_In; auto).
    destruct (List.filter f xs); [destruct Hx | cbn; lia].
Qed.

(** [DistributedLock.hasRecentExecution] reads and never writes.  When the
    store answers, it tells whether the history holds a [completed] entry of
    the symbol and stage whose timestamp lies strictly within the trailing
    window; when the store rejects the query, it answers [false]. *)
Theorem hasRecentExecution_window (E : Env) (symbol : string) (stage windowSeconds : Z)
    (w : World) :
  exists recent w',
    DistributedLock.hasRecentExecution E symbol stage windowSeconds w = (Ok recent, w') /\
    same_store w w' /\
    (dbFault E (calls w) = true -> recent = false) /\
    (dbFault E (calls w) = false ->
     (recent = true <->
      exists h, In h (partial_take_profit_history (db w)) /\
                h_symbol h = symbol /\ h_stage h = stage /\ h_status h = "completed" /\
                now w - windowSeconds * 1000 < h_timestamp h)).
Proof.
  destruct w as [d nw c fx].
  unfold DistributedLock.hasRecentExecution, same_store.
  unfold try_catch, bind, ret, date_now, dbQuery, dbExecute, with_db, count_call.
  cbn -[Z.mul Z.sub Z.ltb]. destruct (dbFault E c) eqn:F; cbn -[Z.mul Z.sub Z.ltb].
  - eexists _, _. split; [reflexivity|]. cbn. repeat split; auto. discriminate.
  - eexists _, _. split; [reflexivity|]. cbn. repeat split; try discriminate.
    + intros Hrecent. unfold count_recent in Hrecent.
      apply some_filtered in Hrecent as (h & Hin & Hh).
      apply andb_prop in Hh as [Hh Hdone]. apply andb_prop in Hh as [Hh Hts].
      apply andb_prop in Hh as [Hsym Hst].
      exists h. repeat split; auto.
      * apply String.eqb_eq. exact Hsym.
      * apply Z.eqb_eq. exact Hst.
      * apply String.eqb_eq. exact Hdone.
      * apply Z.ltb_lt. exact Hts.
    + intros (h & Hin & Hsym & Hst & Hdone & Hts). unfold count_recent.
      apply some_filtered. exists h. split; [exact Hin|].
      unfold is_completed. rewrite Hsym, Hst, Hdone, String.eqb_refl, Z.eqb_refl. cbn.
      apply Z.ltb_lt in Hts. rewrite Hts. reflexivity.
Qed.

(** ** The key of a lease *)

Section Keys.
Local Open Scope string_scope.

Lemma list_ascii_of_append (s t : string) :
  list_ascii_of_string (s ++ t) = (list_ascii_of_string s ++ list_ascii_of_string t)%list.
Proof.
  induction s as [|c s IH]; [reflexivity|].
  change (c :: list_ascii_of_string (s ++ t) =
          c :: (list_ascii_of_string s ++ list_ascii_of_string t)%list).
  rewrite IH. reflexivity.
Qed.

Lemma length_list_ascii (s : string) : length (list_ascii_of_string s) = String.length s.
Proof. induction s as [|c s IH]; cbn; [reflexivity | rewrite IH; reflexivity]. Qed.

(** Tails of the same length can be cancelled. *)
Lemma append_inj_tail (s1 s2 t1 t2 : string) :
  String.length t1 = String.length t2 -> s1 ++ t1 = s2 ++ t2 -> s1 = s2 /\ t1 = t2.
Proof.
  intros Hlen Heq. apply (f_equal list_ascii_of_string) in Heq.
  rewrite !list_ascii_of_append in Heq.
  apply app_inj_2 in Heq; [|rewrite !length_list_ascii; exact Hlen].
  destruct Heq as [H1 H2].
  apply (f_equal string_of_list_ascii) in H1. apply (f_equal string_of_list_ascii) in H2.
  rewrite !string_of_list_ascii_of_string in H1, H2. auto.
Qed.

Lemma append_inj_head (p x y : string) : p ++ x = p ++ y -> x = y.
Proof.
  induction p as [|c p IH]; intros H; [exact H|]. apply IH. injection H as H. exact H.
Qed.

Lemma append_assoc_tail (s a t : string) : (s ++ a) ++ t = s ++ (a ++ t).
Proof.
  induction s as [|c s IH]; [reflexivity|].
  change (String c ((s ++ a) ++ t) = String c (s ++ (a ++ t))). rewrite IH. reflexivity.
Qed.
End Keys.

(** The lease of one position and stage is never the lease of another: for
    sides [long] and [short] and stages 1 and 2, two lock keys are equal only
    when symbol, side and stage are. *)
Theorem stage_keys_are_distinct (symbol1 side1 digit1 symbol2 side2 digit2 : string) :
  side1 = "long" \/ side1 = "short" ->
  side2 = "long" \/ side2 = "short" ->
  digit1 = "1" \/ digit1 = "2" ->
  digit2 = "1" \/ digit2 = "2" ->
  PartialTakeProfitExecutor.stageKey symbol1 side1 digit1 =
  PartialTakeProfitExecutor.stageKey symbol2 side2 digit2 ->
  symbol1 = symbol2 /\ side1 = side2 /\ digit1 = digit2.
Proof.
  intros Hs1 Hs2 Hd1 Hd2 Hkey. unfold PartialTakeProfitExecutor.stageKey in Hkey.
  apply append_inj_head in Hkey.
  destruct Hs1 as [-> | ->], Hs2 as [-> | ->], Hd1 as [-> | ->], Hd2 as [-> | ->];
    first
      [ (* the same side *)
        match type of Hkey with
        | (_ ++ ?t1 = _ ++ ?t2)%string =>
            let t1' := eval vm_compute in t1 in
            let t2' := eval vm_compute in t2 in
            destruct (append_inj_tail symbol1 symbol2 t1' t2' eq_refl Hkey) as [Hsym Htail]
        end;
        first [ discriminate Htail | auto ]
      | (* long against short *)
        exfalso;
        match type of Hkey with
        | (_ ++ ?t1 = _ ++ ?t2)%string =>
            let t1' := eval vm_compute in t1 in
            let t2' := eval vm_compute in t2 in
            match t2' with
            | String ?c ?rest =>
                assert (H' : (symbol1 ++ t1' = (symbol2 ++ String c EmptyString) ++ rest)%string)
                  by (rewrite append_assoc_tail; exact Hkey);
                destruct (append_inj_tail symbol1 (symbol2 ++ String c EmptyString) t1' rest
                            eq_refl H') as [_ Htail];
                discriminate Htail
            end
        end
      | (* short against long *)
        exfalso;
        match type of Hkey with
        | (_ ++ ?t1 = _ ++ ?t2)%string =>
            let t1' := eval vm_compute in t1 in
            let t2' := eval vm_compute in t2 in
            match t1' with
            | String ?c ?rest =>
                assert (H' : ((symbol1 ++ String c EmptyString) ++ rest = symbol2 ++ t2')%string)
                  by (rewrite append_assoc_tail; exact Hkey);
                destruct (append_inj_tail (symbol1 ++ String c EmptyString) symbol2 rest t2'
                            eq_refl H') as [_ Htail];
                discriminate Htail
            end
        end ].
Qed.

(** BTC long and BTC short do not share the lease of stage 1. *)
Lemma stage_keys_are_distinct_witness :
  PartialTakeProfitExecutor.stageKey "BTC" "long" "1" <>
  PartialTakeProfitExecutor.stageKey "BTC" "short" "1".
Proof.
  intros Hkey.
  destruct (stage_keys_are_distinct "BTC" "long" "1" "BTC" "short" "1") as (_ & Hside & _);
    auto.
  discriminate Hside.
Defined.

(* ===================================================================== *)
(** * Further properties of [executeCheck]                                *)
(* ===================================================================== *)

Section PassReportFacts.
Import PartialTakeProfitExecutor.
Context (E : Env).

Lemma tally_app result ds1 ds2 :
  tally result (ds1 ++ ds2) = (tally result ds1 + tally result ds2)%nat.
Proof. unfold tally. rewrite List.filter_app, length_app. reflexivity. Qed.

Lemma grows_refl P st : grows P st st.
Proof. exists []. rewrite app_nil_r. cbn. repeat split; auto. Qed.

Lemma grows_trans P st1 st2 st3 : grows P st1 st2 -> grows P st2 st3 -> grows P st1 st3.
Proof.
  intros (ds1 & A1 & A2 & A3 & A4) (ds2 & B1 & B2 & B3 & B4).
  exists (ds1 ++ ds2)%list. rewrite B1, A1, B3, A3, B4, A4, !tally_app, <- app_assoc.
  repeat split; [apply Forall_app; auto | lia | lia].
Qed.

Lemma grows_weaken (P Q : Detail -> Prop) st st' :
  (forall d, P d -> Q d) -> grows P st st' -> grows Q st st'.
Proof.
  intros HPQ (ds & A1 & A2 & A3 & A4). exists ds. repeat split; auto.
  eapply Forall_impl; [exact A2 | exact HPQ].
Qed.

Lemma within_weaken {A} (P Q : Detail -> Prop) (m : M St A) :
  (forall d, P d -> Q d) -> within (grows P) m -> within (grows Q) m.
Proof. intros HPQ Hm s r s' Hrun. eapply grows_weaken; [exact HPQ | eapply Hm; exact Hrun]. Qed.

Lemma lift_grows {A} P (m : M World A) : within (grows P) (lift m).
Proof.
  intros [l w] r [l' w']. unfold lift. cbn. destruct (m w) as [r1 w1].
  intros [= _ <- _]. exists []. cbn. rewrite app_nil_r. repeat split; auto.
Qed.

Lemma skip_grows (P : Detail -> Prop) symbol n result :
  P (mkDetail symbol n result) ->
  result = "recently_executed" \/ result = "lock_busy" \/ result = "already_executed" ->
  within (grows P) (skip symbol n result).
Proof.
  intros HP Hresult [l w] r [l' w']. unfold skip, modify. intros [= _ <- _].
  exists [mkDetail symbol n result]. cbn [fst executed executedCount skippedCount].
  split; [reflexivity|]. split; [constructor; auto|].
  destruct Hresult as [-> | [-> | ->]]; cbn; split; lia.
Qed.

Lemma count_executed_grows (P : Detail -> Prop) symbol n :
  P (mkDetail symbol n "success") -> within (grows P) (count_executed symbol n "success").
Proof.
  intros HP [l w] r [l' w']. unfold count_executed, modify. intros [= _ <- _].
  exists [mkDetail symbol n "success"]. cbn [fst executed executedCount skippedCount].
  split; [reflexivity|]. split; [constructor; auto|]. cbn. split; lia.
Qed.

Lemma push_grows (P : Detail -> Prop) symbol n :
  P (mkDetail symbol n "failed") -> within (grows P) (push symbol n "failed").
Proof.
  intros HP [l w] r [l' w']. unfold push, modify. intros [= _ <- _].
  exists [mkDetail symbol n "failed"]. cbn [fst executed executedCount skippedCount].
  split; [reflexivity|]. split; [constructor; auto|]. cbn. split; lia.
Qed.

Lemma stageBlock_grows caller symbol side n digit :
  n = 1 \/ n = 2 ->
  within (grows (stage_detail symbol)) (stageBlock E caller symbol side n digit).
Proof.
  intros Hn.
  assert (HP : forall result, outcome result -> stage_detail symbol (mkDetail symbol n result))
    by (intros result Hr; unfold stage_detail; cbn; auto).
  pose proof (grows_refl (stage_detail symbol)) as Hrefl.
  pose proof (grows_trans (stage_detail symbol)) as Htrans.
  unfold stageBlock, underLease. cbv zeta.
  apply within_bind; auto using lift_grows. intros [|].
  { apply within_bind; auto. 2: intros; apply within_ret; auto.
    apply skip_grows; [apply HP; unfold outcome; cbn; auto | auto]. }
  apply within_bind; auto using lift_grows. intros [|]; cbn [negb].
  2:{ apply within_bind; auto. 2: intros; apply within_ret; auto.
      apply skip_grows; [apply HP; unfold outcome; cbn; auto | auto]. }
  apply within_bind; auto. 2: intros; apply within_ret; auto.
  apply within_try_finally; auto using lift_grows.
  apply within_bind; auto using lift_grows. intros count.
  destruct (negb (0 <? count)%nat).
  - apply within_bind; auto using lift_grows. intros [|].
    + apply count_executed_grows. apply HP. unfold outcome. cbn. auto.
    + apply push_grows. apply HP. unfold outcome. cbn. auto 10.
  - apply skip_grows; [apply HP; unfold outcome; cbn; auto | auto].
Qed.

Lemma evaluatePosition_grows caller pos :
  within (grows (fun d => stage_detail (symbol pos) d /\ Qle_bool (stop_loss pos) 0 = false))
         (evaluatePosition E caller pos).
Proof.
  set (P := fun d => stage_detail (symbol pos) d /\ Qle_bool (stop_loss pos) 0 = false).
  pose proof (grows_refl P) as Hrefl.
  pose proof (grows_trans P) as Htrans.
  unfold evaluatePosition. cbv zeta.
  destruct (Qle_bool (stop_loss pos) 0) eqn:Hsl; [apply within_ret; auto|].
  assert (Hstage : forall n digit, n = 1 \/ n = 2 ->
            within (grows P) (stageBlock E caller (symbol pos) (side pos) n digit)).
  { intros n digit Hn. eapply within_weaken; [|apply stageBlock_grows; exact Hn].
    intros d Hd. split; [exact Hd | reflexivity]. }
  apply within_bind; auto.
  { apply within_try_catch; auto. 2: intros; apply within_ret; auto.
    apply within_bind; auto using lift_grows. intros; apply within_ret; auto. }
  intros [currentPrice|]; [|apply within_ret; auto].
  destruct (Qle_bool currentPrice 0); [apply within_ret; auto|].
  apply within_bind; auto.
  { apply within_try_catch; auto. 2: intros; apply within_ret; auto.
    apply within_bind; auto using lift_grows. intros; apply within_ret; auto. }
  intros osl. unfold evaluateFrom. cbv zeta.
  destruct (Qeq_bool _ 0); [apply within_ret; auto|].
  apply within_bind; auto using lift_grows. intros volatility.
  unfold evaluateStages.
  apply within_bind; auto.
  { match goal with |- within _ (if ?b then _ else _) => destruct b end;
      [apply Hstage; auto | apply within_ret; auto]. }
  intros [|]; [apply within_ret; auto|].
  match goal with |- within _ (if ?b then _ else _) => destruct b end;
    [|apply within_ret; auto].
  apply within_bind; auto. intros; apply within_ret; auto.
Qed.

Lemma loop_grows caller rows :
  within (grows (row_detail rows)) (for_of rows (evaluatePosition E caller)).
Proof.
  apply within_for_of; [apply grows_refl | apply grows_trans|].
  intros pos Hpos. eapply within_weaken; [|apply evaluatePosition_grows].
  intros d [(Hsym & Hstage & Hout) Hsl]. unfold row_detail. repeat split; auto.
  exists pos. auto.
Qed.
End PassReportFacts.

(** Whatever the collaborators do, the counts [executeCheck] reports are the
    counts of its details: [executed] counts the details with outcome
    [success], [skipped] those with outcome [recently_executed], [lock_busy]
    or [already_executed], and a [failed] detail is counted by neither.
    Every detail is of stage 1 or 2, bears one of these five outcomes, and
    names an open position whose stop-loss is above zero. *)
Theorem executeCheck_counts_match_details (E : Env) (caller : string) (w : World) :
  exists result w',
    PartialTakeProfitExecutor.executeCheck E caller w = (Ok result, w') /\
    PartialTakeProfitExecutor.r_executed result =
      tally "success" (PartialTakeProfitExecutor.details result) /\
    PartialTakeProfitExecutor.r_skipped result =
      (tally "recently_executed" (PartialTakeProfitExecutor.details result) +
       tally "lock_busy" (PartialTakeProfitExecutor.details result) +
       tally "already_executed" (PartialTakeProfitExecutor.details result))%nat /\
    Forall (row_detail (open_positions (positions (db w))))
           (PartialTakeProfitExecutor.details result).
Proof.
  unfold PartialTakeProfitExecutor.executeCheck, try_catch,
    PartialTakeProfitExecutor.tryBlock, PartialTakeProfitExecutor.catchBlock.
  unfold bind at 1. unfold PartialTakeProfitExecutor.lift at 1, dbQuery, dbExecute.
  cbn [fst snd]. destruct (dbFault E (calls w)).
  { cbn. eexists _, _. split; [reflexivity|]. cbn. auto. }
  cbn [fst snd]. set (rows := open_positions (positions (db w))).
  set (w1 := count_call _).
  pose proof (loop_grows E caller rows) as Hloop.
  destruct rows as [|row rows'] eqn:Hrows.
  { cbn. eexists _, _. split; [reflexivity|]. cbn. auto. }
  rewrite <- Hrows in *. clear Hrows.
  unfold bind, get, ret.
  destruct (for_of rows (PartialTakeProfitExecutor.evaluatePosition E caller)
              (PartialTakeProfitExecutor.mkLocals [] 0 0, w1)) as [[[]|e] [l' w']] eqn:Hrun;
    destruct (Hloop _ _ _ Hrun) as (ds & H1 & H2 & H3 & H4); cbn in H1, H3, H4;
    eexists _, _; (split; [reflexivity|]); cbn;
    rewrite H1, H3, H4; repeat split; auto; lia.
Qed.

(** *** What a pass writes *)

(** A relation that the reads of a pass and its stage blocks keep is kept by
    the whole pass. *)
Section PassWithin.
Import PartialTakeProfitExecutor.
Context (E : Env) (caller : string).
Context (R : St -> St -> Prop).
Context (Hrefl : forall st, R st st).
Context (Htrans : forall st1 st2 st3, R st1 st2 -> R st2 st3 -> R st1 st3).
Context (Hread : forall l w w', same_store w w' -> R (l, w) (l, w')).
Context (Hstage : forall symbol side n digit,
            within R (stageBlock E caller symbol side n digit)).

Lemma lift_reads {A} (m : M World A) :
  (forall w r w', m w = (r, w') -> same_store w w') -> within R (lift m).
Proof.
  intros Hm [l w] r [l' w']. unfold lift. cbn. destruct (m w) as [r1 w1] eqn:Hrun.
  intros [= _ <- <-]. apply Hread. eapply Hm. exact Hrun.
Qed.

Lemma lift_pure {A} (f : World -> Res A) : within R (lift (fun w => (f w, w))).
Proof.
  apply lift_reads. intros w r w' [= _ <-]. unfold same_store. auto.
Qed.

Lemma evaluatePosition_within pos : within R (evaluatePosition E caller pos).
Proof.
  unfold evaluatePosition. cbv zeta.
  destruct (Qle_bool (stop_loss pos) 0); [apply within_ret; auto|].
  apply within_bind; auto.
  { apply within_try_catch; auto. 2: intros; apply within_ret; auto.
    apply within_bind; auto using lift_pure. intros; apply within_ret; auto. }
  intros [currentPrice|]; [|apply within_ret; auto].
  destruct (Qle_bool currentPrice 0); [apply within_ret; auto|].
  apply within_bind; auto.
  { apply within_try_catch; auto. 2: intros; apply within_ret; auto.
    apply within_bind; auto. 2: intros; apply within_ret; auto.
    apply lift_reads. intros w r w'. apply dbQuery_reads. }
  intros osl. unfold evaluateFrom. cbv zeta.
  destruct (Qeq_bool _ 0); [apply within_ret; auto|].
  apply within_bind; auto using lift_pure. intros volatility.
  unfold evaluateStages.
  apply within_bind; auto.
  { match goal with |- within _ (if ?b then _ else _) => destruct b end;
      [apply Hstage | apply within_ret; auto]. }
  intros [|]; [apply within_ret; auto|].
  match goal with |- within _ (if ?b then _ else _) => destruct b end;
    [|apply within_ret; auto].
  apply within_bind; auto. intros; apply within_ret; auto.
Qed.

Lemma tryBlock_within : within R (try_catch (tryBlock E caller) catchBlock).
Proof.
  apply within_try_catch; auto.
  - unfold tryBlock. apply within_bind; auto.
    + apply lift_reads. intros w r w'. apply dbQuery_reads.
    + intros [|row rows]; [apply within_ret; auto|].
      apply within_bind; auto.
      * apply within_for_of; auto. intros pos _. apply evaluatePosition_within.
      * intros _. apply within_bind; auto; [apply within_get; auto|].
        intros st. apply within_ret; auto.
  - intros e. unfold catchBlock. apply within_bind; auto; [apply within_get; auto|].
    intros st. apply within_ret; auto.
Qed.

Lemma executeCheck_within w :
  exists l', R (mkLocals [] 0 0, w) (l', snd (executeCheck E caller w)).
Proof.
  unfold executeCheck.
  destruct (try_catch (tryBlock E caller) catchBlock (mkLocals [] 0 0, w)) as [r [l' w']] eqn:Hrun.
  exists l'. cbn. eapply tryBlock_within. exact Hrun.
Qed.
End PassWithin.

Section PassWrites.
Import PartialTakeProfitExecutor.
Context (E : Env) (caller : string).

Lemma same_store_outside w w' : same_store w w' -> outside_leases w' = outside_leases w.
Proof. intros (Hd & Hn & _). unfold outside_leases. rewrite Hd, Hn. reflexivity. Qed.

Lemma same_but_lease_outside k w w' :
  same_but_lease k w w' -> outside_leases w' = outside_leases w.
Proof.
  intros (_ & Hh & Hp & Ho & Hn & _). unfold outside_leases. rewrite Hh, Hp, Ho, Hn.
  reflexivity.
Qed.

Context (P : World -> Prop).
Context (HP : forall w1 w2, outside_leases w2 = outside_leases w1 -> P w1 -> P w2).
Context (Htool : forall symbol stage w1,
            P w1 -> P (snd (partialTakeProfitTool_execute E symbol stage w1))).

Lemma keeps_refl st : keeps P st st.
Proof. unfold keeps. auto. Qed.

Lemma keeps_trans st1 st2 st3 : keeps P st1 st2 -> keeps P st2 st3 -> keeps P st1 st3.
Proof. unfold keeps. auto. Qed.

Lemma lift_keeps {A} (m : M World A) :
  (forall w r w', m w = (r, w') -> P w -> P w') -> within (keeps P) (lift m).
Proof.
  intros Hm [l w] r [l' w']. unfold lift, keeps. cbn. destruct (m w) as [r1 w1] eqn:Hrun.
  intros [= _ _ <-]. eapply Hm. exact Hrun.
Qed.

Lemma modify_keeps (f : St -> St) :
  (forall st, snd (f st) = snd st) -> within (keeps P) (modify f).
Proof.
  intros Hf st r st'. unfold modify, keeps. intros [= _ <-]. rewrite Hf. auto.
Qed.

Lemma stageBlock_keeps symbol side n digit :
  within (keeps P) (stageBlock E caller symbol side n digit).
Proof.
  pose proof keeps_refl as Hrefl. pose proof keeps_trans as Htrans.
  assert (Hskip : forall result, within (keeps P) (skip symbol n result))
    by (intros result; apply modify_keeps; reflexivity).
  unfold stageBlock, underLease. cbv zeta.
  apply within_bind; auto.
  { apply lift_keeps. intros w r w' Hrun. apply HP. apply same_store_outside.
    eapply hasRecentExecution_reads. exact Hrun. }
  intros [|].
  { apply within_bind; auto. intros; apply within_ret; auto. }
  apply within_bind; auto.
  { apply lift_keeps. intros w r w' Hrun. apply HP.
    eapply same_but_lease_outside. eapply tryAcquire_frame. exact Hrun. }
  intros [|]; cbn [negb].
  2:{ apply within_bind; auto. intros; apply within_ret; auto. }
  apply within_bind; auto. 2: intros; apply within_ret; auto.
  apply within_try_finally; auto.
  2:{ apply lift_keeps. intros w r w' Hrun. apply HP.
      eapply same_but_lease_outside. eapply release_frame. exact Hrun. }
  apply within_bind; auto.
  { apply lift_keeps. intros w r w' Hrun. apply HP. apply same_store_outside.
    eapply dbQuery_reads. exact Hrun. }
  intros count. destruct (negb (0 <? count)%nat); [|apply Hskip].
  apply within_bind; auto.
  { apply lift_keeps. intros w r w'. unfold execute. intros Hrun Hw.
    apply (f_equal snd) in Hrun. cbn in Hrun. rewrite <- Hrun. apply Htool.
    eapply HP; [|exact Hw]. reflexivity. }
  intros [|]; apply modify_keeps; reflexivity.
Qed.
End PassWrites.

(** Whatever the store and the exchange do, a pass of [executeCheck] writes
    nothing but lease rows on its own account: a property of the store that
    does not depend on [system_config], and that the stage executor keeps,
    holds after the pass when it held before. *)
Theorem executeCheck_writes_leases_only (E : Env) (caller : string)
    (P : World -> Prop) (w : World) :
  (forall w1 w2, outside_leases w2 = outside_leases w1 -> P w1 -> P w2) ->
  (forall symbol stage w1,
      P w1 -> P (snd (partialTakeProfitTool_execute E symbol stage w1))) ->
  P w ->
  P (snd (PartialTakeProfitExecutor.executeCheck E caller w)).
Proof.
  intros HP Htool Hw.
  destruct (executeCheck_within E caller (keeps P) (keeps_refl P) (keeps_trans P)) with (w := w)
    as (l' & Hkeeps).
  - intros l w1 w2 Hsame. unfold keeps. cbn. apply HP. apply same_store_outside. exact Hsame.
  - intros symbol side n digit. apply stageBlock_keeps; assumption.
  - apply Hkeeps. exact Hw.
Qed.

(** The executor fails for every symbol and writes nothing: after a pass in
    which stage 1 of BTC is due, the ledger still holds BTC as it was. *)
Lemma executeCheck_writes_leases_only_witness :
  let E := Scenario.env (Scenario.quotes 115 2050) (Scenario.all Scenario.Fails) [] in
  let w := Scenario.world (mkDb ∅ [] [Scenario.btc] []) Scenario.t0 in
  effects (snd (PartialTakeProfitExecutor.executeCheck E "health-check" w)) =
    [ExecutorCall "BTC" "1"] /\
  positions (db (snd (PartialTakeProfitExecutor.executeCheck E "health-check" w))) =
    [Scenario.btc].
Proof.
  intros E w. split; [vm_compute; reflexivity|].
  apply (executeCheck_writes_leases_only E "health-check"
           (fun w => positions (db w) = [Scenario.btc]) w).
  - intros w1 w2 Hout Hw1. unfold outside_leases in Hout. injection Hout as _ Hp _ _.
    rewrite Hp. exact Hw1.
  - intros symbol stage w1 Hw1. exact Hw1.
  - reflexivity.
Defined.

Section LeasesShrink.
Import PartialTakeProfitExecutor.
Context (E : Env) (HE : no_db_faults E) (caller : string).
Context (Htool : forall symbol stage w1,
            system_config (db (snd (partialTakeProfitTool_execute E symbol stage w1))) =
            system_config (db w1)).

Lemma leases_shrink_refl st : leases_shrink st st.
Proof. unfold leases_shrink. auto. Qed.

Lemma leases_shrink_trans st1 st2 st3 :
  leases_shrink st1 st2 -> leases_shrink st2 st3 -> leases_shrink st1 st3.
Proof. unfold leases_shrink. auto. Qed.

Lemma stageBlock_shrinks symbol side n digit :
  within leases_shrink (stageBlock E caller symbol side n digit).
Proof.
  intros [l w] r [l' w'] Hrun. unfold leases_shrink. cbn [fst snd].
  destruct (recently symbol n w) eqn:Hrecent.
  { destruct (stageBlock_recent E HE caller symbol side n digit l w Hrecent)
      as (w1 & H1 & (Hd & _)).
    rewrite H1 in Hrun. injection Hrun as _ _ <-. rewrite Hd. auto. }
  destruct (busy (stageKey symbol side digit) caller w) eqn:Hbusy.
  { destruct (stageBlock_busy E HE caller symbol side n digit l w Hrecent Hbusy)
      as (w1 & H1 & (Hd & _)).
    rewrite H1 in Hrun. injection Hrun as _ _ <-. rewrite Hd. auto. }
  destruct (already symbol n w) eqn:Halready.
  { destruct (stageBlock_already E HE caller symbol side n digit l w Hrecent Hbusy Halready)
      as (w1 & H1 & _ & Ht & _).
    rewrite H1 in Hrun. injection Hrun as _ _ <-. rewrite Ht.
    intros k row Hk. apply lookup_delete_Some in Hk. tauto. }
  destruct (stageBlock_executes E HE caller symbol side n digit l w Hrecent Hbusy Halready)
    as (wa & Hta & _ & _ & _ & _ & _ & w1 & H1 & _ & _ & Ht).
  rewrite H1 in Hrun. injection Hrun as _ _ <-.
  rewrite Htool, Hta, lookup_insert_eq in Ht. cbn in Ht. rewrite String.eqb_refl in Ht.
  rewrite delete_insert_eq in Ht. rewrite Ht.
  intros k row Hk. apply lookup_delete_Some in Hk. tauto.
Qed.
End LeasesShrink.

(** With a store that answers and a stage executor that leaves
    [system_config] alone, a pass of [executeCheck] leaks no lease: every
    lease row in the table after the pass was in the table before it,
    unchanged, also when the executor threw.  In particular the caller holds
    no lease after the pass that it did not hold before. *)
Theorem executeCheck_leaks_no_lease (E : Env) (caller : string) (w : World) :
  no_db_faults E ->
  (forall symbol stage w1,
      system_config (db (snd (partialTakeProfitTool_execute E symbol stage w1))) =
      system_config (db w1)) ->
  forall k row,
    system_config (db (snd (PartialTakeProfitExecutor.executeCheck E caller w))) !! k = Some row ->
    system_config (db w) !! k = Some row.
Proof.
  intros HE Htool.
  destruct (executeCheck_within E caller leases_shrink leases_shrink_refl leases_shrink_trans)
    with (w := w) as (l' & Hshrink).
  - intros l w1 w2 (Hd & _). unfold leases_shrink. cbn. rewrite Hd. auto.
  - intros symbol side n digit. apply stageBlock_shrinks; assumption.
  - exact Hshrink.
Qed.

(** The executor throws for BTC, whose stage 1 is due: the pass resolves with
    [success = false], and the lease it took for the stage is gone. *)
Lemma executeCheck_leaks_no_lease_witness :
  let E := Scenario.env (Scenario.quotes 115 2150) Scenario.btc_throws [] in
  let w := Scenario.world (mkDb ∅ [] [Scenario.btc; Scenario.eth] []) Scenario.t0 in
  no_db_faults E /\
  effects (snd (PartialTakeProfitExecutor.executeCheck E "health-check" w)) =
    [ExecutorCall "BTC" "1"] /\
  forall k,
    system_config (db (snd (PartialTakeProfitExecutor.executeCheck E "health-check" w))) !! k =
    None.
Proof.
  intros E w.
  assert (HE : no_db_faults E) by (intros k; reflexivity).
  split; [exact HE|]. split; [vm_compute; reflexivity|].
  intros k.
  destruct (system_config (db (snd (PartialTakeProfitExecutor.executeCheck E "health-check" w)))
              !! k) as [row|] eqn:Hk; [|reflexivity].
  apply (executeCheck_leaks_no_lease E "health-check" w HE) in Hk.
  - change ((∅ : gmap string LockRow) !! k = Some row) in Hk.
    rewrite lookup_empty in Hk. discriminate.
  - intros symbol stage w1. unfold E. cbn. unfold Scenario.executor.
    destruct (Scenario.btc_throws symbol); reflexivity.
Defined.

(* ===================================================================== *)
(** * Further properties of the consistency checker                       *)
(* ===================================================================== *)

Section ClassificationMore.
Import DataConsistencyChecker.
Context (E : Env).

Lemma find_existsb {A} (f : A -> bool) (xs : list A) :
  match List.find f xs with Some _ => true | None => false end = existsb f xs.
Proof.
  induction xs as [|x xs IH]; cbn; [reflexivity|]. destruct (f x); [reflexivity | exact IH].
Qed.

Lemma exchange_loop_missing dbPositions exchangePositions : forall result,
  missingPositions (fold_left (checkExchangePosition E dbPositions) exchangePositions result) =
  (missingPositions result ++
   map (fun x => mkMissingPosition (contract x) (sizeOf x))
       (List.filter (fun x => Qle_bool epsilon (sizeOf x) &&
                              negb (existsb (fun p => String.eqb (normalizeContract E (symbol p))
                                                                 (contract x)) dbPositions))
                    exchangePositions))%list.
Proof.
  induction exchangePositions as [|x xs IH]; intros result; cbn [fold_left List.filter map].
  - rewrite app_nil_r. reflexivity.
  - rewrite IH. unfold checkExchangePosition. cbv zeta.
    rewrite <- (find_existsb (fun p => String.eqb (normalizeContract E (symbol p)) (contract x))).
    destruct (Qle_bool epsilon (sizeOf x)); cbn [negb andb]; [|reflexivity].
    destruct (List.find _ dbPositions); cbn [negb missingPositions map]; [reflexivity|].
    rewrite <- app_assoc. reflexivity.
Qed.

Lemma checkConsistency_missing w data w' exchangePositions :
  checkConsistency E w = (Ok data, w') ->
  getPositions E w = Ok exchangePositions ->
  missingPositions data =
    map (fun x => mkMissingPosition (contract x) (sizeOf x))
        (List.filter (fun x => Qle_bool epsilon (sizeOf x) &&
                               negb (existsb (fun p => String.eqb (normalizeContract E (symbol p))
                                                                  (contract x))
                                             (order_by_symbol (positions (db w)))))
                     exchangePositions).
Proof.
  unfold checkConsistency, bind, ret, dbQuery, dbExecute. intros Hrun Hex.
  rewrite Hex in Hrun.
  destruct (dbFault E (calls w)); [discriminate|]. cbn in Hrun.
  destruct (dbFault E (S (calls w))); [discriminate|]. cbn in Hrun.
  injection Hrun as <- _.
  set (rows := order_by_symbol (positions (db w))).
  destruct (order_loop rows (active_orders (price_orders (db w)))
              (fold_left (checkExchangePosition E rows) exchangePositions
                 (fold_left (checkLocalPosition E exchangePositions) rows
                    (mkInconsistentData [] [] [] []))))
    as (_ & _ & A3 & _).
  rewrite A3, exchange_loop_missing.
  destruct (local_loop E exchangePositions rows (mkInconsistentData [] [] [] []))
    as (_ & _ & _ & L4).
  rewrite L4. reflexivity.
Qed.

Lemma checkConsistency_reads w r w' : checkConsistency E w = (r, w') -> same_store w w'.
Proof.
  unfold checkConsistency, bind, ret, dbQuery, dbExecute, same_store.
  destruct (getPositions E w) as [ex|e]; [|intros [= _ <-]; auto].
  destruct (dbFault E (calls w)); [intros [= _ <-]; cbn; auto|]. cbn.
  destruct (dbFault E (S (calls w))); intros [= _ <-]; cbn; auto.
Qed.

Lemma has_position_iff (symbol0 side0 : string) rows :
  existsb (fun p => String.eqb (symbol p) symbol0 && String.eqb (side p) side0) rows = true <->
  exists p, In p rows /\ symbol p = symbol0 /\ side p = side0.
Proof.
  rewrite existsb_exists. split; intros (p & Hin & H); exists p; (split; [exact Hin|]).
  - apply andb_prop in H as [H1 H2]. split; apply String.eqb_eq; assumption.
  - destruct H as [-> ->]. rewrite !String.eqb_refl. reflexivity.
Qed.

Lemma has_contract_iff (c : string) rows :
  existsb (fun p => String.eqb (normalizeContract E (symbol p)) c) rows = true <->
  exists p, In p rows /\ normalizeContract E (symbol p) = c.
Proof.
  rewrite existsb_exists. split; intros (p & Hin & H); exists p; (split; [exact Hin|]).
  - apply String.eqb_eq. exact H.
  - rewrite H. apply String.eqb_refl.
Qed.
End ClassificationMore.

(** In a pass that returns, the missing positions are the remote positions
    whose absolute size, read as a double, is the double 0.0001 or more and
    whose contract no local row normalizes to: each of them is listed, with
    that size, and nothing else is. *)
Theorem missing_position_classification (E : Env) (w w' : World)
    (data : DataConsistencyChecker.InconsistentData)
    (exchangePositions : list ExchangePosition) :
  DataConsistencyChecker.checkConsistency E w = (Ok data, w') ->
  getPositions E w = Ok exchangePositions ->
  (forall x, In x exchangePositions ->
     (DataConsistencyChecker.epsilon <= DataConsistencyChecker.sizeOf x)%Q ->
     (forall p, In p (positions (db w)) -> normalizeContract E (symbol p) <> contract x) ->
     In (DataConsistencyChecker.mkMissingPosition (contract x)
          (DataConsistencyChecker.sizeOf x))
        (DataConsistencyChecker.missingPositions data)) /\
  (forall m, In m (DataConsistencyChecker.missingPositions data) ->
     exists x, In x exchangePositions /\
       m = DataConsistencyChecker.mkMissingPosition (contract x)
             (DataConsistencyChecker.sizeOf x) /\
       (DataConsistencyChecker.epsilon <= DataConsistencyChecker.sizeOf x)%Q /\
       forall p, In p (positions (db w)) -> normalizeContract E (symbol p) <> contract x).
Proof.
  intros Hcheck Hex. rewrite (checkConsistency_missing E w data w' exchangePositions Hcheck Hex).
  split.
  - intros x Hx Hsize Hnone. apply in_map_iff. exists x. split; [reflexivity|].
    apply filter_In. split; [exact Hx|]. apply andb_true_intro. split.
    + apply Qle_bool_iff. exact Hsize.
    + apply negb_true_iff. apply not_true_iff_false. rewrite has_contract_iff.
      intros (p & Hp & Hc). rewrite order_by_symbol_In in Hp. exact (Hnone p Hp Hc).
  - intros m Hm. apply in_map_iff in Hm as (x & <- & Hx). apply filter_In in Hx as [Hx Hf].
    apply andb_prop in Hf as [Hsize Hnone]. exists x. split; [exact Hx|].
    split; [reflexivity|]. split; [apply Qle_bool_iff; exact Hsize|].
    intros p Hp Hc. apply negb_true_iff in Hnone. apply not_true_iff_false in Hnone.
    apply Hnone. rewrite has_contract_iff. exists p. rewrite order_by_symbol_In. auto.
Qed.

(** On the drifted ledger SOL is held remotely only, and is listed. *)
Lemma missing_position_classification_witness :
  let E := Scenario.checker_env Scenario.drifted_remote in
  let w := Scenario.world Scenario.drifted Scenario.t0 in
  exists data w',
    DataConsistencyChecker.checkConsistency E w = (Ok data, w') /\
    In (DataConsistencyChecker.mkMissingPosition "SOL" 10)
       (DataConsistencyChecker.missingPositions data).
Proof.
  intros E w.
  destruct (DataConsistencyChecker.checkConsistency E w) as [r w'] eqn:Hrun.
  assert (Hok : exists data, r = Ok data) by (vm_compute in Hrun; injection Hrun as <- _; eauto).
  destruct Hok as [data ->]. exists data, w'. split; [reflexivity|].
  destruct (missing_position_classification E w w' data Scenario.drifted_remote Hrun eq_refl)
    as [Hlisted _].
  apply (Hlisted (mkExchangePosition "SOL" 10)).
  - right. left. reflexivity.
  - vm_compute. discriminate.
  - intros p [<- | [<- | [<- | []]]]; vm_compute; discriminate.
Defined.

(** In a pass that returns, the orphan conditional orders are the active
    orders for which no local position has the same symbol and the same
    side, compared as the strings stand: each of them is listed, and nothing
    else is. *)
Theorem orphan_order_classification (E : Env) (w w' : World)
    (data : DataConsistencyChecker.InconsistentData) :
  DataConsistencyChecker.checkConsistency E w = (Ok data, w') ->
  (forall o, In o (price_orders (db w)) -> o_status o = "active" ->
     (forall p, In p (positions (db w)) -> ~ (symbol p = o_symbol o /\ side p = o_side o)) ->
     In (DataConsistencyChecker.mkOrphanPriceOrder (o_id o) (o_order_id o) (o_symbol o) (o_type o))
        (DataConsistencyChecker.orphanPriceOrders data)) /\
  (forall e, In e (DataConsistencyChecker.orphanPriceOrders data) ->
     exists o, In o (price_orders (db w)) /\
       e = DataConsistencyChecker.mkOrphanPriceOrder (o_id o) (o_order_id o) (o_symbol o)
             (o_type o) /\
       o_status o = "active" /\
       forall p, In p (positions (db w)) -> ~ (symbol p = o_symbol o /\ side p = o_side o)).
Proof.
  intros Hcheck.
  destruct (checkConsistency_returns E w data w' Hcheck) as (ex & _ & _ & _ & _ & _ & Hoo).
  cbv zeta in Hoo. rewrite Hoo. split.
  - intros o Ho Hactive Hnone. apply in_map_iff. exists o. split; [reflexivity|].
    apply filter_In. split.
    + apply filter_In. split; [exact Ho|]. unfold is_active. rewrite Hactive. reflexivity.
    + apply negb_true_iff. apply not_true_iff_false. rewrite has_position_iff.
      intros (p & Hp & Hsd). rewrite order_by_symbol_In in Hp. exact (Hnone p Hp Hsd).
  - intros e He. apply in_map_iff in He as (o & <- & Ho). apply filter_In in Ho as [Ho Hnone].
    apply filter_In in Ho as [Ho Hactive]. exists o. split; [exact Ho|].
    split; [reflexivity|]. split; [apply String.eqb_eq; exact Hactive|].
    intros p Hp Hsd. apply negb_true_iff in Hnone. apply not_true_iff_false in Hnone.
    apply Hnone. rewrite has_position_iff. exists p. rewrite order_by_symbol_In. auto.
Qed.

(** On the drifted ledger the take-profit order of XRP has no position, and
    is listed. *)
Lemma orphan_order_classification_witness :
  let E := Scenario.checker_env Scenario.drifted_remote in
  let w := Scenario.world Scenario.drifted Scenario.t0 in
  exists data w',
    DataConsistencyChecker.checkConsistency E w = (Ok data, w') /\
    In (DataConsistencyChecker.mkOrphanPriceOrder 2 "tp-9" "XRP" "take_profit")
       (DataConsistencyChecker.orphanPriceOrders data).
Proof.
  intros E w.
  destruct (DataConsistencyChecker.checkConsistency E w) as [r w'] eqn:Hrun.
  assert (Hok : exists data, r = Ok data) by (vm_compute in Hrun; injection Hrun as <- _; eauto).
  destruct Hok as [data ->]. exists data, w'. split; [reflexivity|].
  destruct (orphan_order_classification E w w' data Hrun) as [Hlisted _].
  apply (Hlisted (mkPriceOrderRow 2 "tp-9" "XRP" "short" "take_profit" "active" 0)).
  - right. left. reflexivity.
  - reflexivity.
  - intros p [<- | [<- | [<- | []]]] [Hs _]; vm_compute in Hs; discriminate.
Defined.

(** ** The repair, whatever the store and the exchange do *)

Section RepairAnyStore.
Import DataConsistencyChecker.
Context (E : Env).

Lemma removePosition_never_throws symbol side : never_throws (removePosition E symbol side).
Proof. apply try_catch_never_throws. intros e. apply ret_never_throws. Qed.

Lemma updatePriceOrderStatus_never_throws orderId status :
  never_throws (updatePriceOrderStatus E orderId status).
Proof. apply try_catch_never_throws. intros e. apply ret_never_throws. Qed.

Lemma cancelRelatedPriceOrders_never_throws symbol side :
  never_throws (cancelRelatedPriceOrders E symbol side).
Proof. apply try_catch_never_throws. intros e. apply ret_never_throws. Qed.

Lemma cancel_one_never_throws orderId :
  never_throws (try_catch (remoteCancel E orderId) (fun _ => ret tt) ;;
                updatePriceOrderStatus E orderId "cancelled").
Proof.
  apply bind_never_throws.
  - apply try_catch_never_throws. intros e. apply ret_never_throws.
  - intros _. apply updatePriceOrderStatus_never_throws.
Qed.

Lemma fixInconsistencies_never_throws data : never_throws (fixInconsistencies E data).
Proof.
  unfold fixInconsistencies.
  apply bind_never_throws.
  { apply for_of_never_throws. intros orphan.
    destruct (Qeq_bool (exchangeSize orphan) 0); [|apply ret_never_throws].
    apply bind_never_throws; [apply removePosition_never_throws|].
    intros _. apply cancelRelatedPriceOrders_never_throws. }
  intros _. apply bind_never_throws.
  { apply for_of_never_throws. intros orphan. apply cancel_one_never_throws. }
  intros _. apply bind_never_throws; [|intros; apply ret_never_throws].
  apply for_of_never_throws. intros testData.
  apply bind_never_throws; [apply removePosition_never_throws|].
  intros _. apply cancelRelatedPriceOrders_never_throws.
Qed.

Lemma filter_is_sublist {A} (f : A -> bool) (xs : list A) : sublist (List.filter f xs) xs.
Proof.
  induction xs as [|x xs IH]; cbn; [constructor|].
  destruct (f x); [apply sublist_skip | apply sublist_cons]; exact IH.
Qed.

Lemma wanes_refl w : wanes w w.
Proof.
  unfold wanes. repeat split; auto using fades_all_refl.
  exists []. cbn. rewrite app_nil_r. reflexivity.
Qed.

Lemma wanes_trans w1 w2 w3 : wanes w1 w2 -> wanes w2 w3 -> wanes w1 w3.
Proof.
  intros (A1 & A2 & A3 & A4 & A5 & ids1 & A6) (B1 & B2 & B3 & B4 & B5 & ids2 & B6).
  unfold wanes. repeat split; try congruence.
  - etransitivity; eassumption.
  - eapply fades_all_trans; eassumption.
  - exists (ids1 ++ ids2)%list. rewrite B6, A6, map_app, app_assoc. reflexivity.
Qed.

Lemma same_store_wanes w w' : same_store w w' -> wanes w w'.
Proof.
  intros (Hd & Hn & Hf). unfold wanes. rewrite Hd, Hn, Hf.
  repeat split; auto using fades_all_refl.
  exists []. cbn. rewrite app_nil_r. reflexivity.
Qed.

Lemma removePosition_wanes symbol side : within wanes (removePosition E symbol side).
Proof.
  intros w r w'. unfold removePosition, try_catch, ret, dbUpdate, dbExecute.
  destruct (dbFault E (calls w)); intros [= _ <-].
  - apply same_store_wanes. unfold same_store. cbn. auto.
  - unfold wanes. cbn. repeat split; auto using fades_all_refl.
    + unfold delete_position. apply filter_is_sublist.
    + exists []. cbn. rewrite app_nil_r. reflexivity.
Qed.

Lemma updatePriceOrderStatus_wanes orderId :
  within wanes (updatePriceOrderStatus E orderId "cancelled").
Proof.
  intros w r w'. unfold updatePriceOrderStatus, try_catch, bind, ret, date_now, dbUpdate,
    dbExecute.
  destruct (dbFault E (calls w)); intros [= _ <-].
  - apply same_store_wanes. unfold same_store. cbn. auto.
  - unfold wanes. cbn. repeat split; auto using fades_update.
    exists []. cbn. rewrite app_nil_r. reflexivity.
Qed.

Lemma remoteCancel_wanes orderId :
  within wanes (try_catch (remoteCancel E orderId) (fun _ => ret tt)).
Proof.
  intros w r w'. unfold try_catch, remoteCancel, ret.
  destruct (cancelOrder E _ orderId); intros [= _ <-];
    unfold wanes; cbn; repeat split; auto using fades_all_refl;
    exists [orderId]; reflexivity.
Qed.

Lemma cancel_one_wanes orderId :
  within wanes (try_catch (remoteCancel E orderId) (fun _ => ret tt) ;;
                updatePriceOrderStatus E orderId "cancelled").
Proof.
  apply within_bind; [exact wanes_trans | apply remoteCancel_wanes|].
  intros _. apply updatePriceOrderStatus_wanes.
Qed.

Lemma cancelRelatedPriceOrders_wanes symbol side :
  within wanes (cancelRelatedPriceOrders E symbol side).
Proof.
  pose proof wanes_refl as Hrefl. pose proof wanes_trans as Htrans.
  unfold cancelRelatedPriceOrders.
  apply within_try_catch; auto.
  2:{ intros e. apply within_ret. auto. }
  apply within_bind; auto.
  - intros w r w' Hrun. apply same_store_wanes. eapply dbQuery_reads. exact Hrun.
  - intros rows. apply within_for_of; auto.
    intros orderId _. apply cancel_one_wanes.
Qed.

Lemma fixInconsistencies_wanes data : within wanes (fixInconsistencies E data).
Proof.
  pose proof wanes_refl as Hrefl. pose proof wanes_trans as Htrans.
  assert (Hpurge : forall symbol side,
            within wanes (removePosition E symbol side ;;
                          cancelRelatedPriceOrders E symbol side)).
  { intros symbol side. apply within_bind; auto using removePosition_wanes.
    intros _. apply cancelRelatedPriceOrders_wanes. }
  unfold fixInconsistencies.
  apply within_bind; auto.
  { apply within_for_of; auto. intros orphan _.
    destruct (Qeq_bool (exchangeSize orphan) 0); [apply Hpurge|].
    apply within_ret. auto. }
  intros _. apply within_bind; auto.
  { apply within_for_of; auto. intros orphan _. apply cancel_one_wanes. }
  intros _. apply within_bind; auto.
  { apply within_for_of; auto. }
  intros _. apply within_ret. auto.
Qed.
End RepairAnyStore.

(** Whatever the store rejects and whatever the exchange answers, the repair
    resolves, and all it does is delete positions, cancel conditional orders
    and request remote cancellations: the positions left are a sublist of
    the positions before, every conditional order is the order it was or
    that order cancelled, [system_config], the history and the clock are as
    before, and the calls that left the process are cancellations. *)
Theorem repair_only_deletes_and_cancels (E : Env)
    (data : DataConsistencyChecker.InconsistentData) (w : World) :
  exists w',
    DataConsistencyChecker.fixInconsistencies E data w = (Ok tt, w') /\
    wanes w w'.
Proof.
  destruct (fixInconsistencies_never_throws E data w) as ([] & w' & Hrun).
  exists w'. split; [exact Hrun|]. eapply fixInconsistencies_wanes. exact Hrun.
Qed.

(** A pass of [runCheck] never throws, and it repairs only after a check that
    returned and found something: when the check throws (the exchange did
    not answer, or the store rejected a query), or when it finds nothing,
    the store is left as it is and no remote call is made. *)
Theorem runCheck_repairs_only_after_a_finding (E : Env) (w : World) :
  exists w',
    DataConsistencyChecker.runCheck E w = (Ok tt, w') /\
    (forall e w1, DataConsistencyChecker.checkConsistency E w = (Throw e, w1) ->
       db w' = db w /\ effects w' = effects w) /\
    (forall data w1, DataConsistencyChecker.checkConsistency E w = (Ok data, w1) ->
       DataConsistencyChecker.hasInconsistencies data = false ->
       db w' = db w /\ effects w' = effects w) /\
    (forall data w1, DataConsistencyChecker.checkConsistency E w = (Ok data, w1) ->
       DataConsistencyChecker.hasInconsistencies data = true ->
       DataConsistencyChecker.fixInconsistencies E data w1 = (Ok tt, w')).
Proof.
  unfold DataConsistencyChecker.runCheck, try_catch, bind, ret.
  destruct (DataConsistencyChecker.checkConsistency E w) as [[data|e] w1] eqn:Hcheck.
  - destruct (checkConsistency_reads E w _ w1 Hcheck) as (Hd & _ & Hf).
    destruct (DataConsistencyChecker.hasInconsistencies data) eqn:Hany.
    + destruct (fixInconsistencies_never_throws E data w1) as ([] & w2 & Hfix).
      rewrite Hfix. exists w2. split; [reflexivity|].
      split; [discriminate|]. split.
      * intros data' w1' [= <- <-] Hnone. congruence.
      * intros data' w1' [= <- <-] _. exact Hfix.
    + exists w1. split; [reflexivity|]. split; [discriminate|]. split.
      * intros data' w1' _ _. auto.
      * intros data' w1' [= <- <-] Hsome. congruence.
  - destruct (checkConsistency_reads E w _ w1 Hcheck) as (Hd & _ & Hf).
    exists w1. split; [reflexivity|]. split; [auto|]. split; discriminate.
Qed.

(** ** A ledger in step with the exchange, and one the exchange has left *)

Section Findings.
Import DataConsistencyChecker.
Context (E : Env).

Lemma no_length {A} (xs : list A) : (0 <? length xs)%nat = false <-> xs = [].
Proof. destruct xs; cbn; split; intros H; try reflexivity; discriminate. Qed.

Lemma hasInconsistencies_false data :
  hasInconsistencies data = false <->
  orphanPositions data = [] /\ orphanPriceOrders data = [] /\
  testDataPositions data = [] /\ missingPositions data = [].
Proof.
  unfold hasInconsistencies. rewrite !orb_false_iff, !no_length. tauto.
Qed.

Lemma map_filter_nil {A B} (f : A -> B) (g : A -> bool) (xs : list A) :
  map f (List.filter g xs) = [] <-> forall x, In x xs -> g x = false.
Proof.
  split.
  - intros Hnil x Hx. destruct (g x) eqn:Hg; [|reflexivity].
    assert (Hin : In (f x) (map f (List.filter g xs)))
      by (apply in_map; apply filter_In; auto).
    rewrite Hnil in Hin. destruct Hin.
  - intros Hnone. rewrite filter_none; [reflexivity | exact Hnone].
Qed.

Lemma checkConsistency_answers w exchangePositions :
  dbFault E (calls w) = false -> dbFault E (S (calls w)) = false ->
  getPositions E w = Ok exchangePositions ->
  exists data w', checkConsistency E w = (Ok data, w').
Proof.
  intros F0 F1 Hex. unfold checkConsistency, bind, ret, dbQuery, dbExecute.
  rewrite Hex, F0. cbn. rewrite F1. cbn. eauto.
Qed.
End Findings.

(** A pass that returns finds nothing exactly when the ledger is in step with
    the positions the exchange reported: every local position is no test
    row and is held remotely in a size that is not zero and whose
    difference from the local quantity, taken on doubles, is at most the
    double 0.0001; every remote position whose size is the double 0.0001 or
    more has a local row; and every active conditional order has its
    position. *)
Theorem no_finding_iff_in_sync (E : Env) (w w' : World)
    (data : DataConsistencyChecker.InconsistentData) (remote : list ExchangePosition) :
  DataConsistencyChecker.checkConsistency E w = (Ok data, w') ->
  getPositions E w = Ok remote ->
  (DataConsistencyChecker.hasInconsistencies data = false <-> in_sync E remote (db w)).
Proof.
  intros Hcheck Hex.
  destruct (checkConsistency_returns E w data w' Hcheck)
    as (ex & Hex' & _ & _ & Htd & Hop & Hoo).
  rewrite Hex in Hex'. injection Hex' as <-.
  pose proof (checkConsistency_missing E w data w' remote Hcheck Hex) as Hmp.
  cbv zeta in Htd, Hop, Hoo.
  rewrite hasInconsistencies_false, Htd, Hop, Hoo, Hmp, !map_filter_nil.
  unfold in_sync. split.
  - intros (Horphan & Horder & Htest & Hmissing). split; [|split].
    + intros p Hp. rewrite <- (order_by_symbol_In p) in Hp.
      specialize (Htest p Hp). specialize (Horphan p Hp).
      rewrite Htest in Horphan. cbn in Horphan.
      apply not_true_iff_false in Horphan. rewrite diverges_spec in Horphan.
      split; [exact Htest|]. split; [tauto|].
      apply Qnot_lt_le. tauto.
    + intros x Hx Hsize. specialize (Hmissing x Hx).
      apply Qle_bool_iff in Hsize. rewrite Hsize in Hmissing. cbn in Hmissing.
      apply negb_false_iff in Hmissing. apply has_contract_iff in Hmissing as (p & Hp & Hc).
      exists p. rewrite order_by_symbol_In in Hp. auto.
    + intros o Ho Hactive.
      assert (Hin : In o (active_orders (price_orders (db w)))).
      { apply filter_In. split; [exact Ho|]. unfold is_active. rewrite Hactive. reflexivity. }
      specialize (Horder o Hin). apply negb_false_iff in Horder.
      apply has_position_iff in Horder as (p & Hp & Hsd).
      exists p. rewrite order_by_symbol_In in Hp. auto.
  - intros (Hlocal & Hremote & Horders). split; [|split; [|split]].
    + intros p Hp. rewrite order_by_symbol_In in Hp.
      destruct (Hlocal p Hp) as (Htest & Hnz & Hnear). rewrite Htest. cbn.
      apply not_true_iff_false. rewrite diverges_spec. intros [Hz | Hfar]; [tauto|].
      apply Qlt_not_le in Hfar. tauto.
    + intros o Ho. apply filter_In in Ho as [Ho Hactive]. apply String.eqb_eq in Hactive.
      destruct (Horders o Ho Hactive) as (p & Hp & Hsd).
      apply negb_false_iff. apply has_position_iff. exists p.
      rewrite order_by_symbol_In. auto.
    + intros p Hp. rewrite order_by_symbol_In in Hp. apply (Hlocal p Hp).
    + intros x Hx.
      destruct (Qle_bool DataConsistencyChecker.epsilon (DataConsistencyChecker.sizeOf x))
        eqn:Hsize; [|reflexivity].
      cbn. apply negb_false_iff. apply has_contract_iff.
      apply Qle_bool_iff in Hsize. destruct (Hremote x Hx Hsize) as (p & Hp & Hc).
      exists p. rewrite order_by_symbol_In. auto.
Qed.

(** ETH short 2.0 with its stop-loss order, held remotely at 1.99995: the
    pass finds nothing, and the ledger is in step. *)
Lemma no_finding_iff_in_sync_witness :
  let E := Scenario.checker_env (Scenario.eth_remote (39999 # 20000)) in
  let w := Scenario.world
             (mkDb ∅ [] [Scenario.eth_short]
                   [mkPriceOrderRow 3 "sl-2" "ETH" "short" "stop_loss" "active" 0])
             Scenario.t0 in
  in_sync E (Scenario.eth_remote (39999 # 20000)) (db w).
Proof.
  intros E w.
  destruct (DataConsistencyChecker.checkConsistency E w) as [r w'] eqn:Hrun.
  assert (Hok : exists data, r = Ok data /\
                             DataConsistencyChecker.hasInconsistencies data = false)
    by (vm_compute in Hrun; injection Hrun as <- _; eauto).
  destruct Hok as (data & -> & Hnone).
  apply (no_finding_iff_in_sync E w w' data (Scenario.eth_remote (39999 # 20000)) Hrun eq_refl).
  exact Hnone.
Defined.

(** With a store that answers, when the exchange reports none of the local
    positions (an empty list, or lists in which every local contract is
    absent or of size zero), one pass of [runCheck] deletes every local
    position and leaves no conditional order active. *)
Theorem vanished_remote_clears_the_ledger (E : Env) (w : World)
    (remote : list ExchangePosition) :
  no_db_faults E ->
  getPositions E w = Ok remote ->
  (forall p, In p (positions (db w)) ->
     DataConsistencyChecker.isTestData (symbol p) = false ->
     (DataConsistencyChecker.exchangeSizeOf E remote (symbol p) == 0)%Q) ->
  exists w',
    DataConsistencyChecker.runCheck E w = (Ok tt, w') /\
    positions (db w') = [] /\
    active_orders (price_orders (db w')) = [].
Proof.
  intros HE Hex Hgone.
  destruct (checkConsistency_answers E w remote (HE _) (HE _) Hex) as (data & w1 & Hcheck).
  destruct (checkConsistency_returns E w data w1 Hcheck)
    as (ex & Hex' & Hdb1 & Hnow1 & Htd & Hop & Hoo).
  rewrite Hex in Hex'. injection Hex' as <-. cbv zeta in Htd, Hop, Hoo.
  set (l1 := DataConsistencyChecker.fix_ledger data (now w1)
               (positions (db w), price_orders (db w))).
  assert (Hrun : exists w', DataConsistencyChecker.runCheck E w = (Ok tt, w') /\
                            DataConsistencyChecker.ledger w' = l1).
  { unfold DataConsistencyChecker.runCheck, try_catch, bind, ret. rewrite Hcheck.
    destruct (DataConsistencyChecker.hasInconsistencies data) eqn:Hany.
    - destruct (fixInconsistencies_acts E HE data w1) as (w2 & Hfix & _ & Hl2).
      rewrite Hfix. exists w2. split; [reflexivity|].
      rewrite Hl2. unfold DataConsistencyChecker.ledger. rewrite Hdb1. reflexivity.
    - exists w1. split; [reflexivity|].
      apply hasInconsistencies_false in Hany as (H1 & H2 & H3 & _).
      unfold l1, DataConsistencyChecker.fix_ledger, DataConsistencyChecker.ledger.
      rewrite H1, H2, H3, Hdb1. reflexivity. }
  destruct Hrun as (w' & Hrun & Hl). exists w'. split; [exact Hrun|].
  assert (Hps : fst l1 = []).
  { destruct (fst l1) as [|p ps] eqn:Hfst; [reflexivity|]. exfalso.
    assert (Hp : In p (fst l1)) by (rewrite Hfst; left; reflexivity).
    destruct (kept_position _ _ data (now w1) p Hp) as [Hp0 _].
    rewrite <- (order_by_symbol_In p) in Hp.
    pose proof (no_test_data_left _ _ data Htd (now w1) p Hp) as Htest.
    pose proof (no_vanished_position_left E remote _ _ data Hop (now w1) p Hp Htest) as Hnz.
    apply not_true_iff_false in Hnz. apply Hnz. apply Qeq_bool_iff.
    apply Hgone; assumption. }
  assert (Hos : active_orders (snd l1) = []).
  { destruct (active_orders (snd l1)) as [|o os] eqn:Hact; [reflexivity|]. exfalso.
    assert (Ho : In o (active_orders (snd l1))) by (rewrite Hact; left; reflexivity).
    pose proof (no_orphan_order_left _ _ data Hoo (now w1) o Ho) as Hpos.
    fold l1 in Hpos. rewrite Hps in Hpos. discriminate. }
  unfold DataConsistencyChecker.ledger in Hl.
  split; [rewrite <- Hps | rewrite <- Hos]; rewrite <- Hl; reflexivity.
Qed.

(** The exchange answers with an empty list: the drifted ledger is emptied of
    its three positions, and its three active orders are cancelled. *)
Lemma vanished_remote_clears_the_ledger_witness :
  let E := Scenario.checker_env [] in
  let w := Scenario.world Scenario.drifted Scenario.t0 in
  no_db_faults E /\
  exists w',
    DataConsistencyChecker.runCheck E w = (Ok tt, w') /\
    positions (db w') = [] /\
    active_orders (price_orders (db w')) = [].
Proof.
  intros E w.
  assert (HE : no_db_faults E) by (intros k; reflexivity).
  split; [exact HE|].
  apply (vanished_remote_clears_the_ledger E w [] HE eq_refl).
  intros p _ _. reflexivity.
Defined.

(** ** [stop] *)

(** After [stop] no timer is armed: until the next [start] no firing begins a
    pass, however many there are.  A pass in progress is not waited for, so a
    [start] that follows begins a pass alongside it. *)
Theorem stop_disarms_the_timer (events : list DataConsistencyChecker.SchedulerEvent) :
  let s := DataConsistencyChecker.stop (DataConsistencyChecker.after events) in
  DataConsistencyChecker.armed s = [] /\
  DataConsistencyChecker.isRunning s = false /\
  DataConsistencyChecker.passesInProgress s =
    DataConsistencyChecker.passesInProgress (DataConsistencyChecker.after events) /\
  (forall ts, fold_left DataConsistencyChecker.handle
                (map DataConsistencyChecker.TimerFires ts) s = s) /\
  DataConsistencyChecker.passesInProgress (DataConsistencyChecker.start s) =
    S (DataConsistencyChecker.passesInProgress s) /\
  length (DataConsistencyChecker.armed (DataConsistencyChecker.start s)) = 1%nat.
Proof.
  cbv zeta. destruct (after_armed events) as [Harmed _].
  set (s0 := DataConsistencyChecker.after events) in *.
  assert (Hstop : DataConsistencyChecker.armed (DataConsistencyChecker.stop s0) = []).
  { unfold DataConsistencyChecker.stop.
    destruct (DataConsistencyChecker.intervalId s0) as [t|]; cbn; rewrite Harmed; cbn;
      [rewrite Nat.eqb_refl|]; reflexivity. }
  split; [exact Hstop|].
  split; [unfold DataConsistencyChecker.stop;
          destruct (DataConsistencyChecker.intervalId s0); reflexivity|].
  split; [unfold DataConsistencyChecker.stop;
          destruct (DataConsistencyChecker.intervalId s0); reflexivity|].
  split; [|split].
  - induction ts as [|t ts IH]; cbn [map fold_left]; [reflexivity|].
    unfold DataConsistencyChecker.handle at 2, DataConsistencyChecker.tick.
    rewrite Hstop. cbn [existsb]. exact IH.
  - unfold DataConsistencyChecker.start, DataConsistencyChecker.stop.
    destruct (DataConsistencyChecker.intervalId s0); reflexivity.
  - unfold DataConsistencyChecker.start.
    assert (Hr : DataConsistencyChecker.isRunning (DataConsistencyChecker.stop s0) = false)
      by (unfold DataConsistencyChecker.stop;
          destruct (DataConsistencyChecker.intervalId s0); reflexivity).
    rewrite Hr. cbn. rewrite Hstop. reflexivity.
Qed.

(* ===================================================================== *)
(** * The take-profit monitor                                             *)
(* ===================================================================== *)

Section MonitorFacts.
Import PartialTakeProfitMonitor.

(** What every reachable state of the monitor satisfies. *)
Lemma monitor_handle_inv s e :
  passesInProgress s = (if isRunning s then 1 else 0)%nat ->
  (awaited s = true -> isRunning s = true) ->
  Forall (fun t => t < nextTimer s)%nat (armed s) ->
  passesInProgress (handle s e) = (if isRunning (handle s e) then 1 else 0)%nat /\
  (awaited (handle s e) = true -> isRunning (handle s e) = true) /\
  Forall (fun t => t < nextTimer (handle s e))%nat (armed (handle s e)).
Proof.
  intros Hpass Hawait Harmed. destruct e as [| | | t |]; cbn [handle].
  - unfold start. destruct (checkInterval s); [auto|].
    unfold beginCheck. destruct (isRunning s) eqn:Hr; cbn; rewrite ?Hpass; auto.
  - unfold startResumes. destruct (resuming s); [auto|]. cbn.
    split; [exact Hpass|]. split; [exact Hawait|].
    constructor; [lia|]. eapply Forall_impl; [exact Harmed|]. cbn. intros; lia.
  - unfold stop. destruct (checkInterval s); [|auto]. cbn.
    split; [exact Hpass|]. split; [exact Hawait|].
    apply Forall_forall. intros t' Ht'. apply list_elem_of_In in Ht'.
    apply filter_In in Ht' as [Ht' _].
    rewrite Forall_forall in Harmed. apply Harmed.
    apply list_elem_of_In. exact Ht'.
  - unfold tick. destruct (existsb _ _); [|auto].
    unfold beginCheck. destruct (isRunning s) eqn:Hr; cbn; rewrite ?Hpass; auto.
  - unfold passSettles. destruct (passesInProgress s) as [|n] eqn:Hn.
    + rewrite Hn. auto.
    + cbn. destruct (isRunning s); [|discriminate].
      split; [congruence|]. split; [discriminate | exact Harmed].
Qed.

Lemma monitor_run_inv events : forall s,
  passesInProgress s = (if isRunning s then 1 else 0)%nat ->
  (awaited s = true -> isRunning s = true) ->
  Forall (fun t => t < nextTimer s)%nat (armed s) ->
  let s' := fold_left handle events s in
  passesInProgress s' = (if isRunning s' then 1 else 0)%nat /\
  (awaited s' = true -> isRunning s' = true) /\
  Forall (fun t => t < nextTimer s')%nat (armed s').
Proof.
  induction events as [|e events IH]; intros s H1 H2 H3; cbn [fold_left]; [auto|].
  destruct (monitor_handle_inv s e H1 H2 H3) as (A1 & A2 & A3). apply IH; assumption.
Qed.

Lemma monitor_after_inv events :
  let s := after events in
  passesInProgress s = (if isRunning s then 1 else 0)%nat /\
  (awaited s = true -> isRunning s = true) /\
  Forall (fun t => t < nextTimer s)%nat (armed s).
Proof.
  apply monitor_run_inv; cbn; [reflexivity | discriminate | constructor].
Qed.

Lemma leaked_handle t s e :
  Forall (fun t' => t' < nextTimer s)%nat (armed s) ->
  leaked t s -> leaked t (handle s e).
Proof.
  intros Harmed [Hin Hne]. unfold leaked. destruct e as [| | | t' |]; cbn [handle].
  - unfold start. destruct (checkInterval s) eqn:Hc; [rewrite Hc; auto|].
    unfold beginCheck. destruct (isRunning s); cbn; rewrite Hc; auto.
  - unfold startResumes. destruct (resuming s); [auto|]. cbn.
    split; [right; exact Hin|]. intros [= Heq].
    rewrite Forall_forall in Harmed. apply list_elem_of_In in Hin.
    specialize (Harmed t Hin). cbn in Harmed. lia.
  - unfold stop. destruct (checkInterval s) as [t0|] eqn:Hc; [|rewrite Hc; auto]. cbn.
    split; [|discriminate]. apply filter_In. split; [exact Hin|].
    apply negb_true_iff. apply Nat.eqb_neq. congruence.
  - unfold tick. destruct (existsb _ _); [|auto].
    unfold beginCheck. destruct (isRunning s); cbn; auto.
  - unfold passSettles. destruct (passesInProgress s); [auto|]. cbn. auto.
Qed.
End MonitorFacts.

(** Passes of the monitor never overlap: in every state the monitor reaches,
    at most one pass is in progress, [isRunning] is set exactly while one is,
    and a timer that fires meanwhile begins nothing. *)
Theorem monitor_passes_never_overlap (events : list PartialTakeProfitMonitor.MonitorEvent) :
  let s := PartialTakeProfitMonitor.after events in
  (PartialTakeProfitMonitor.passesInProgress s <= 1)%nat /\
  (PartialTakeProfitMonitor.isRunning s = true <->
   PartialTakeProfitMonitor.passesInProgress s = 1%nat) /\
  (forall t, PartialTakeProfitMonitor.isRunning s = true ->
     PartialTakeProfitMonitor.tick t s = s).
Proof.
  cbv zeta. destruct (monitor_after_inv events) as (Hpass & _ & _).
  set (s := PartialTakeProfitMonitor.after events) in *.
  split; [|split].
  - rewrite Hpass. destruct (PartialTakeProfitMonitor.isRunning s); lia.
  - rewrite Hpass. destruct (PartialTakeProfitMonitor.isRunning s); split; auto; discriminate.
  - intros t Hr. unfold PartialTakeProfitMonitor.tick.
    destruct (existsb _ _); [|reflexivity].
    unfold PartialTakeProfitMonitor.beginCheck. rewrite Hr.
    destruct s. cbn in *. subst. reflexivity.
Qed.

(** [stop] while the pass that [start] began is in progress does not stop the
    monitor: [checkInterval] is not set yet, so [stop] does nothing, and when
    the pass settles the continuation of [start] arms the timer. *)
Theorem stop_during_the_first_pass_is_lost (events : list PartialTakeProfitMonitor.MonitorEvent) :
  let s := PartialTakeProfitMonitor.after events in
  PartialTakeProfitMonitor.awaited s = true ->
  let s' := fold_left PartialTakeProfitMonitor.handle
              [PartialTakeProfitMonitor.CallStop; PartialTakeProfitMonitor.PassSettles;
               PartialTakeProfitMonitor.StartResumes] s in
  PartialTakeProfitMonitor.checkInterval s' = Some (PartialTakeProfitMonitor.nextTimer s) /\
  In (PartialTakeProfitMonitor.nextTimer s) (PartialTakeProfitMonitor.armed s') /\
  PartialTakeProfitMonitor.tick (PartialTakeProfitMonitor.nextTimer s) s' <> s'.
Proof.
  cbv zeta. destruct (monitor_after_inv events) as (Hpass & Hawait & _).
  set (s := PartialTakeProfitMonitor.after events) in *.
  intros Ha. specialize (Hawait Ha). rewrite Hawait in Hpass.
  destruct s as [ci r ar nt pp ps aw rs]. cbn in *. subst.
  unfold PartialTakeProfitMonitor.stop. cbn.
  destruct ci as [t|]; cbn; (split; [reflexivity|]); (split; [left; reflexivity|]);
    unfold PartialTakeProfitMonitor.tick; cbn; rewrite Nat.eqb_refl; cbn;
    intros H; apply (f_equal PartialTakeProfitMonitor.passesInProgress) in H;
    cbn in H; discriminate.
Qed.

(** The monitor is started and stopped at once; its first pass settles. *)
Lemma stop_during_the_first_pass_witness :
  let s' := PartialTakeProfitMonitor.after
              [PartialTakeProfitMonitor.CallStart; PartialTakeProfitMonitor.CallStop;
               PartialTakeProfitMonitor.PassSettles; PartialTakeProfitMonitor.StartResumes] in
  PartialTakeProfitMonitor.checkInterval s' = Some 0%nat /\
  In 0%nat (PartialTakeProfitMonitor.armed s').
Proof.
  cbv zeta.
  destruct (stop_during_the_first_pass_is_lost [PartialTakeProfitMonitor.CallStart] eq_refl)
    as (Hc & Hin & _).
  split; [exact Hc | exact Hin].
Defined.

(** A timer [stop] cannot reach is never disarmed: once a timer is armed and
    [checkInterval] holds another handle or none, it stays so whatever
    happens next. *)
Theorem leaked_timer_is_never_cleared
    (events more : list PartialTakeProfitMonitor.MonitorEvent) (t : nat) :
  PartialTakeProfitMonitor.leaked t (PartialTakeProfitMonitor.after events) ->
  PartialTakeProfitMonitor.leaked t
    (fold_left PartialTakeProfitMonitor.handle more (PartialTakeProfitMonitor.after events)).
Proof.
  destruct (monitor_after_inv events) as (Hpass & Hawait & Harmed).
  revert Hpass Hawait Harmed.
  generalize (PartialTakeProfitMonitor.after events) as s.
  induction more as [|e more IH]; intros s Hpass Hawait Harmed Hleak; cbn [fold_left];
    [exact Hleak|].
  destruct (monitor_handle_inv s e Hpass Hawait Harmed) as (A1 & A2 & A3).
  apply IH; auto. apply leaked_handle; assumption.
Qed.

(** [start] is called twice before the first pass settles: both continuations
    arm a timer, [checkInterval] holds the second, and [stop] leaves the
    first armed. *)
Lemma leaked_timer_witness :
  let events := [PartialTakeProfitMonitor.CallStart; PartialTakeProfitMonitor.CallStart;
                 PartialTakeProfitMonitor.StartResumes; PartialTakeProfitMonitor.PassSettles;
                 PartialTakeProfitMonitor.StartResumes] in
  PartialTakeProfitMonitor.leaked 0%nat (PartialTakeProfitMonitor.after events) /\
  PartialTakeProfitMonitor.armed
    (PartialTakeProfitMonitor.after (events ++ [PartialTakeProfitMonitor.CallStop])) = [0%nat].
Proof.
  cbv zeta.
  assert (Hleak : PartialTakeProfitMonitor.leaked 0%nat
            (PartialTakeProfitMonitor.after
               [PartialTakeProfitMonitor.CallStart; PartialTakeProfitMonitor.CallStart;
                PartialTakeProfitMonitor.StartResumes; PartialTakeProfitMonitor.PassSettles;
                PartialTakeProfitMonitor.StartResumes])).
  { split; [right; left; reflexivity | discriminate]. }
  split; [exact Hleak|].
  pose proof (leaked_timer_is_never_cleared _ [PartialTakeProfitMonitor.CallStop] 0%nat Hleak)
    as [Hin _].
  reflexivity.
Defined.

(** One call of [checkAndExecute] never throws and leaves [isRunning]
    cleared, whatever the store, the exchange and the executor do.  Entered
    while [isRunning] is set it does nothing.  Otherwise it counts the open
    positions, and calls [executeCheck('tp-monitor')] exactly when the store
    answered and there is one; when the count is rejected or is zero it
    leaves the store as it is. *)
Theorem checkAndExecute_settles (E : Env) (w : World) :
  PartialTakeProfitMonitor.checkAndExecute E (true, w) = (Ok tt, (true, w)) /\
  exists w',
    PartialTakeProfitMonitor.checkAndExecute E (false, w) = (Ok tt, (false, w')) /\
    (dbFault E (calls w) = true -> same_store w w') /\
    (open_positions (positions (db w)) = [] -> same_store w w') /\
    (dbFault E (calls w) = false -> open_positions (positions (db w)) <> [] ->
     w' = snd (PartialTakeProfitExecutor.executeCheck E "tp-monitor" (count_call w))).
Proof.
  split; [reflexivity|].
  destruct w as [d nw c fx].
  unfold PartialTakeProfitMonitor.checkAndExecute, PartialTakeProfitMonitor.checkBody,
    PartialTakeProfitMonitor.set_isRunning, PartialTakeProfitMonitor.lift,
    try_finally, try_catch, bind, get, modify, ret, dbQuery, dbExecute, with_db, count_call.
  cbn [fst snd db now calls effects].
  destruct (dbFault E c) eqn:F; cbn [fst snd].
  { eexists. split; [reflexivity|]. unfold same_store. cbn.
    split; [auto|]. split; [auto|]. discriminate. }
  destruct (open_positions (positions d)) as [|p ps] eqn:Hopen; cbn [length Nat.ltb Nat.leb negb].
  { eexists. split; [reflexivity|]. unfold same_store. cbn.
    split; [discriminate|]. split; [auto|]. intros _ H. contradiction. }
  destruct (PartialTakeProfitExecutor.executeCheck E "tp-monitor" _) as [r w1] eqn:Hrun.
  cbn [fst snd]. exists w1. split; [destruct r; reflexivity|].
  split; [discriminate|]. split; [discriminate|]. intros _ _. reflexivity.
Qed.

(** ** [cancelRelatedPriceOrders] *)

Lemma try_catch_ok {S A} (m : M S A) (h : string -> M S A) s a s' :
  m s = (Ok a, s') -> try_catch m h s = (Ok a, s').
Proof. unfold try_catch. intros ->. reflexivity. Qed.

Section CancelRelated.
Import DataConsistencyChecker.
Context (E : Env).

Lemma cancel_one_effects orderId w :
  exists w',
    (try_catch (remoteCancel E orderId) (fun _ => ret tt) ;;
     updatePriceOrderStatus E orderId "cancelled") w = (Ok tt, w') /\
    effects w' = (effects w ++ [CancelOrderCall orderId])%list.
Proof.
  unfold updatePriceOrderStatus, remoteCancel, bind, try_catch, ret, date_now, dbUpdate,
    dbExecute.
  destruct (cancelOrder E _ orderId) as [[]|e]; cbn;
    destruct (dbFault E (calls w)); cbn; eexists; split; reflexivity.
Qed.

Lemma cancel_loop_effects ids : forall w,
  exists w',
    for_of ids (fun orderId =>
      try_catch (remoteCancel E orderId) (fun _ => ret tt) ;;
      updatePriceOrderStatus E orderId "cancelled") w = (Ok tt, w') /\
    effects w' = (effects w ++ map CancelOrderCall ids)%list.
Proof.
  induction ids as [|id ids IH]; intros w; cbn [for_of map].
  - exists w. rewrite app_nil_r. split; reflexivity.
  - destruct (cancel_one_effects id w) as (w1 & H1 & F1).
    destruct (IH w1) as (w2 & H2 & F2).
    exists w2. unfold bind at 1. rewrite H1. split; [exact H2|].
    rewrite F2, F1, <- app_assoc. reflexivity.
Qed.

Lemma cancel_all_keeps ids t o : forall os,
  In o os -> ~ In (o_order_id o) ids -> In o (cancel_all ids t os).
Proof.
  unfold cancel_all. induction ids as [|id ids IH]; intros os Ho Hid; cbn [fold_left];
    [exact Ho|].
  apply IH; [|intros H; apply Hid; right; exact H].
  unfold update_order_status. apply in_map_iff. exists o. split; [|exact Ho].
  destruct (String.eqb_spec (o_order_id o) id) as [Heq|]; [|reflexivity].
  exfalso. apply Hid. left. auto.
Qed.
End CancelRelated.

(** With a store that answers, and whatever the exchange answers to the
    cancellations, [cancelRelatedPriceOrders] leaves no conditional order of
    the symbol and side active.  It asks the exchange once for every order id
    it selected, in the order of the rows, and marks those ids cancelled;
    orders with other ids and the positions stay as they are. *)
Theorem cancelRelatedPriceOrders_cancels_the_pair (E : Env) (symbol side : string)
    (w : World) :
  no_db_faults E ->
  exists w',
    DataConsistencyChecker.cancelRelatedPriceOrders E symbol side w = (Ok tt, w') /\
    let ids := active_orders_of symbol side (price_orders (db w)) in
    (forall o, In o (price_orders (db w')) -> o_status o = "active" ->
       ~ (o_symbol o = symbol /\ o_side o = side)) /\
    (forall o, In o (price_orders (db w)) -> ~ In (o_order_id o) ids ->
       In o (price_orders (db w'))) /\
    Forall2 DataConsistencyChecker.fades (price_orders (db w)) (price_orders (db w')) /\
    positions (db w') = positions (db w) /\
    effects w' = (effects w ++ map CancelOrderCall ids)%list.
Proof.
  intros HE. cbv zeta.
  destruct (cancelRelatedPriceOrders_acts E HE symbol side w) as (w' & Hrun & _ & Hl).
  exists w'. split; [exact Hrun|].
  unfold DataConsistencyChecker.ledger in Hl. cbn [fst snd] in Hl.
  injection Hl as Hps Hos. rewrite Hos, Hps.
  split; [|split; [|split; [|split]]].
  - intros o Ho Hactive [Hs Hd].
    pose proof (quiet_purge (now w) symbol side (positions (db w), price_orders (db w)) o Ho)
      as Hquiet.
    unfold is_active in Hquiet. rewrite Hactive in Hquiet. specialize (Hquiet eq_refl).
    unfold DataConsistencyChecker.targeted in Hquiet. cbn in Hquiet.
    rewrite Hs, Hd, !String.eqb_refl in Hquiet. discriminate.
  - intros o Ho Hid. apply cancel_all_keeps; assumption.
  - apply fades_cancel_all.
  - reflexivity.
  - destruct (cancel_loop_effects E (active_orders_of symbol side (price_orders (db w)))
                (count_call (with_db (fun _ => db w) w))) as (w2 & H2 & F2).
    unfold DataConsistencyChecker.cancelRelatedPriceOrders in Hrun.
    rewrite (try_catch_ok _ _ w tt w2) in Hrun.
    + injection Hrun as <-. exact F2.
    + rewrite (bind_ok _ _ _ _ _ (dbQuery_ok E HE _ w)). exact H2.
Qed.

(** On the drifted ledger the stop-loss order of BTC is cancelled, also when
    the exchange no longer knows it. *)
Lemma cancelRelatedPriceOrders_witness :
  let E := Scenario.env_with (fun _ => false)
             (fun contract => Ok (Scenario.quotes 115 2050 contract))
             (Scenario.quotes 115 2050) (Scenario.all Scenario.Succeeds)
             Scenario.drifted_remote (fun _ => true) in
  let w := Scenario.world Scenario.drifted Scenario.t0 in
  no_db_faults E /\
  exists w',
    DataConsistencyChecker.cancelRelatedPriceOrders E "BTC" "long" w = (Ok tt, w') /\
    effects w' = [CancelOrderCall "sl-1"] /\
    active_orders_of "BTC" "long" (price_orders (db w')) = [].
Proof.
  intros E w.
  assert (HE : no_db_faults E) by (intros k; reflexivity).
  split; [exact HE|].
  destruct (cancelRelatedPriceOrders_cancels_the_pair E "BTC" "long" w HE)
    as (w' & Hrun & Hquiet & _ & _ & _ & Hfx).
  exists w'. split; [exact Hrun|]. split; [exact Hfx|].
  unfold active_orders_of.
  rewrite filter_none; [reflexivity|].
  intros o Ho. destruct (is_active o) eqn:Hactive; [|apply andb_false_r].
  apply String.eqb_eq in Hactive. rewrite andb_true_r.
  apply not_true_iff_false. intros Hsd. apply andb_prop in Hsd as [Hs Hd].
  apply String.eqb_eq in Hs. apply String.eqb_eq in Hd.
  exact (Hquiet o Ho Hactive (conj Hs Hd)).
Defined.

(** ** Test rows *)

Section Substrings.
Local Open Scope string_scope.

Lemma append_assoc_string (a b c : string) : (a ++ b) ++ c = a ++ (b ++ c).
Proof.
  induction a as [|x a IH]; [reflexivity|].
  change (String x ((a ++ b) ++ c) = String x (a ++ (b ++ c))). rewrite IH. reflexivity.
Qed.

Lemma substring_prefix (p : string) : forall s : string,
  String.substring 0 (String.length p) s = p -> exists post, s = p ++ post.
Proof.
  induction p as [|c p IH]; intros s Hs.
  - exists s. reflexivity.
  - destruct s as [|c' s']; cbn in Hs; [discriminate|].
    injection Hs as -> Hs. destruct (IH s' Hs) as [post ->]. exists post. reflexivity.
Qed.

Lemma substring_occurs (m : nat) (p : string) : forall s : string,
  String.substring m (String.length p) s = p -> exists pre post, s = pre ++ p ++ post.
Proof.
  induction m as [|m IH]; intros s Hs.
  - destruct (substring_prefix p s Hs) as [post ->]. exists "", post. reflexivity.
  - destruct s as [|c s']; cbn in Hs.
    + exists "", "". rewrite <- Hs. reflexivity.
    + destruct (IH s' Hs) as (pre & post & ->). exists (String c pre), post. reflexivity.
Qed.

Lemma prefix_substring (p post : string) :
  String.substring 0 (String.length p) (p ++ post) = p.
Proof.
  induction p as [|c p IH].
  - destruct post; reflexivity.
  - change (String c (String.substring 0 (String.length p) (p ++ post)) = String c p).
    rewrite IH. reflexivity.
Qed.

Lemma occurs_substring (pre p post : string) :
  String.substring (String.length pre) (String.length p) (pre ++ p ++ post) = p.
Proof.
  induction pre as [|c pre IH]; [exact (prefix_substring p post) | exact IH].
Qed.

(** [s.includes(p)], for a pattern that is not empty. *)
Lemma includes_iff (p s : string) :
  p <> "" ->
  (includes p s = true <-> exists pre post, s = pre ++ p ++ post).
Proof.
  intros Hp. unfold includes. split.
  - destruct (String.index 0 p s) as [m|] eqn:Hi; [|discriminate]. intros _.
    apply (substring_occurs m). apply (String.index_correct1 0). exact Hi.
  - intros (pre & post & ->).
    destruct (String.index 0 p (pre ++ p ++ post)) as [m|] eqn:Hi; [reflexivity|].
    exfalso.
    apply (String.index_correct3 0 (String.length pre) _ _ Hi Hp); [lia|].
    apply occurs_substring.
Qed.
End Substrings.

(** A symbol counts as test data exactly when [test] or [TEST] occurs in it
    somewhere: the check for [_TEST] adds nothing, and other spellings, such
    as [Test], do not count. *)
Theorem isTestData_iff_contains_test (symbol : string) :
  DataConsistencyChecker.isTestData symbol = true <->
  exists pre post : string,
    symbol = (pre ++ "test" ++ post)%string \/ symbol = (pre ++ "TEST" ++ post)%string.
Proof.
  unfold DataConsistencyChecker.isTestData. rewrite !orb_true_iff.
  rewrite !includes_iff by discriminate. split.
  - intros [[(pre & post & ->) | (pre & post & ->)] | (pre & post & ->)].
    + exists (pre ++ "_")%string, post. right.
      rewrite append_assoc_string. reflexivity.
    + exists pre, post. left. reflexivity.
    + exists pre, post. right. reflexivity.
  - intros (pre & post & [-> | ->]).
    + left. right. eauto.
    + right. eauto.
Qed.

(** ** What one pass deletes, and what it keeps *)

Section PassOutcome.
Import DataConsistencyChecker.
Context (E : Env) (HE : no_db_faults E).

(** With a store that answers, a pass whose exchange fetch succeeds leaves
    the ledger the repair function makes of the findings. *)
Lemma runCheck_ledger w remote :
  getPositions E w = Ok remote ->
  exists data w1 w',
    checkConsistency E w = (Ok data, w1) /\
    runCheck E w = (Ok tt, w') /\
    ledger w' = fix_ledger data (now w) (ledger w).
Proof.
  intros Hex.
  destruct (checkConsistency_answers E w remote (HE _) (HE _) Hex) as (data & w1 & Hcheck).
  destruct (checkConsistency_reads E w _ w1 Hcheck) as (Hd & Hn & _).
  exists data, w1.
  unfold runCheck, try_catch, bind, ret. rewrite Hcheck.
  destruct (hasInconsistencies data) eqn:Hany.
  - destruct (fixInconsistencies_acts E HE data w1) as (w2 & Hfix & _ & Hl2).
    rewrite Hfix. exists w2. split; [reflexivity|]. split; [reflexivity|].
    rewrite Hl2. unfold ledger. rewrite Hd, Hn. reflexivity.
  - exists w1. split; [reflexivity|]. split; [reflexivity|].
    apply hasInconsistencies_false in Hany as (H1 & H2 & H3 & _).
    unfold fix_ledger, ledger. rewrite H1, H2, H3, Hd. reflexivity.
Qed.

Lemma targeted_iff ts symbol0 side0 :
  targeted ts symbol0 side0 = true <-> In (symbol0, side0) ts.
Proof.
  unfold targeted. rewrite existsb_exists. split.
  - intros ([s d] & Hin & Hm). cbn in Hm. apply andb_prop in Hm as [Hs Hd].
    apply String.eqb_eq in Hs. apply String.eqb_eq in Hd. subst. exact Hin.
  - intros Hin. exists (symbol0, side0). split; [exact Hin|]. cbn.
    rewrite !String.eqb_refl. reflexivity.
Qed.
End PassOutcome.



(** With a store that answers, a pass of [runCheck] never deletes a position
    the exchange still holds: a local position that is no test row and whose
    contract the exchange reports with a size other than zero is in the
    ledger after the pass, also when the sizes differ. *)
Theorem held_positions_survive_the_pass (E : Env) (w : World)
    (remote : list ExchangePosition) (p : PositionRow) :
  no_db_faults E ->
  getPositions E w = Ok remote ->
  In p (positions (db w)) ->
  DataConsistencyChecker.isTestData (symbol p) = false ->
  ~ (DataConsistencyChecker.exchangeSizeOf E remote (symbol p) == 0)%Q ->
  exists w',
    DataConsistencyChecker.runCheck E w = (Ok tt, w') /\
    In p (positions (db w')).
Proof.
  intros HE Hex Hp Htest Hheld.
  destruct (runCheck_ledger E HE w remote Hex) as (data & w1 & w' & Hcheck & Hrun & Hl).
  destruct (checkConsistency_returns E w data w1 Hcheck)
    as (ex & Hex' & _ & _ & Htd & Hop & _).
  rewrite Hex in Hex'. injection Hex' as <-. cbv zeta in Htd, Hop.
  destruct (fix_ledger_spec data (now w) (DataConsistencyChecker.ledger w)) as (Hps & _).
  rewrite <- Hl in Hps. unfold DataConsistencyChecker.ledger in Hps. cbn [fst snd] in Hps.
  exists w'. split; [exact Hrun|].
  rewrite Hps. apply filter_In. split; [exact Hp|].
  apply negb_true_iff. apply not_true_iff_false. rewrite targeted_iff.
  unfold DataConsistencyChecker.targets. intros Hin. apply in_app_or in Hin as [Hin | Hin].
  - apply in_map_iff in Hin as (o & Ho & Hin). apply filter_In in Hin as [Hin Hzero].
    rewrite Hop in Hin. apply in_map_iff in Hin as (q & <- & _).
    cbn in Ho, Hzero. injection Ho as Hs _. rewrite Hs in Hzero.
    apply Hheld. apply Qeq_bool_iff. exact Hzero.
  - rewrite Htd in Hin. apply in_map_iff in Hin as (t & Ht & Hin).
    apply in_map_iff in Hin as (q & <- & Hq). apply filter_In in Hq as [_ Hq].
    cbn in Ht. injection Ht as Hs _. rewrite Hs, Htest in Hq. discriminate.
Qed.

(** On the drifted ledger ETH short 2.0 stands at 1.5 remotely: the pass
    lists it, and leaves it in the ledger. *)
Lemma held_positions_survive_witness :
  let E := Scenario.checker_env Scenario.drifted_remote in
  let w := Scenario.world Scenario.drifted Scenario.t0 in
  no_db_faults E /\
  exists w',
    DataConsistencyChecker.runCheck E w = (Ok tt, w') /\
    In Scenario.eth_short (positions (db w')).
Proof.
  intros E w.
  assert (HE : no_db_faults E) by (intros k; reflexivity).
  split; [exact HE|].
  apply (held_positions_survive_the_pass E w Scenario.drifted_remote Scenario.eth_short HE
           eq_refl).
  - right. left. reflexivity.
  - reflexivity.
  - vm_compute. discriminate.
Defined.

(* ===================================================================== *)
(** * The alert mailer                                                    *)
(* ===================================================================== *)

Section MailerFacts.
Import EmailAlertService.
Context (T : Smtp).

Lemma sendAlert_cases alert s :
  sendAlert T alert s = (Ok false, s) \/
  (enabled s = true /\ transporter s = true /\
   alertCooldown <= clock s - default 0 (lastAlertTime s !! alertKey alert) /\
   sendAlert T alert s =
     (Ok true, mkMailer (enabled s) (transporter s)
                        (<[alertKey alert := clock s]> (lastAlertTime s)) (clock s)
                        (outbox s ++ [mkMail (alertKey alert) (clock s)]))).
Proof.
  destruct s as [en tr la cl ob].
  unfold sendAlert, bind, get, ret, try_catch, deliver, modify. cbv zeta.
  cbn [enabled transporter lastAlertTime clock outbox].
  destruct en; [|left; reflexivity].
  destruct tr; [|left; reflexivity]. cbn [negb orb].
  destruct (cl - default 0 (la !! alertKey alert) <? alertCooldown) eqn:Hcool;
    [left; reflexivity|].
  apply Z.ltb_ge in Hcool.
  destruct (buildEmailHtml T alert) as [html|e]; [|left; reflexivity].
  destruct (sendMail T _ _ html) as [[]|e]; [|left; reflexivity].
  right. split; [reflexivity|]. split; [reflexivity|]. split; [exact Hcool|].
  reflexivity.
Qed.

Lemma sendAlert_spaced alert s :
  spaced (outbox s) -> on_record s ->
  spaced (outbox (snd (sendAlert T alert s))) /\ on_record (snd (sendAlert T alert s)).
Proof.
  intros Hspaced Hrecord.
  destruct (sendAlert_cases alert s) as [-> | (_ & _ & Hcool & ->)]; [auto|].
  cbn [snd outbox]. split.
  - intros i j m1 m2 Hij H1 H2 Hkey.
    apply lookup_app_Some in H2 as [H2 | [Hlen H2]].
    + apply lookup_app_Some in H1 as [H1 | [Hlen1 _]].
      * exact (Hspaced i j m1 m2 Hij H1 H2 Hkey).
      * apply lookup_lt_Some in H2. lia.
    + apply list_lookup_singleton_Some in H2 as [Hj <-]. cbn in Hkey |- *.
      apply lookup_app_Some in H1 as [H1 | [Hlen1 _]]; [|lia].
      apply list_elem_of_lookup_2 in H1. apply list_elem_of_In in H1.
      destruct (Hrecord m1 H1) as (t & Ht & Hle).
      rewrite <- Hkey, Ht in Hcool. cbn in Hcool. lia.
  - intros m Hm. cbn [lastAlertTime]. apply in_app_or in Hm as [Hm | [<- | []]].
    + destruct (Hrecord m Hm) as (t & Ht & Hle).
      destruct (decide (m_key m = alertKey alert)) as [Heq | Hne].
      * rewrite Heq, lookup_insert_eq. eexists. split; [reflexivity|].
        rewrite <- Heq, Ht in Hcool. cbn in Hcool. unfold alertCooldown in Hcool. lia.
      * rewrite lookup_insert_ne by congruence. eauto.
    + cbn. rewrite lookup_insert_eq. eexists. split; [reflexivity | lia].
Qed.

Lemma sendAll_spaced alerts : forall s,
  spaced (outbox s) -> on_record s ->
  spaced (outbox (sendAll T alerts s)).
Proof.
  induction alerts as [|[ms alert] rest IH]; intros s Hspaced Hrecord; cbn [sendAll];
    [exact Hspaced|].
  destruct (sendAlert_spaced alert (pass ms s)) as [H1 H2]; [exact Hspaced | exact Hrecord|].
  apply IH; assumption.
Qed.
End MailerFacts.

(** Calls of [sendAlert] that are each awaited before the next send at most
    one mail per alert key in any five minutes: whatever alerts arrive, at
    whatever instants, and whichever sends fail, two mails of the same level
    and title lie 300000 ms or more apart.  A send that fails, in
    [buildEmailHtml] or in the transporter, does not start the cooldown:
    [sendAlert] answers [false] and leaves [lastAlertTime] and every other
    field as they were, and the calls that follow run as if the time had
    passed without the alert. *)
Theorem alerts_of_a_key_are_spaced (T : EmailAlertService.Smtp)
    (alerts : list (Z * EmailAlertService.AlertMessage)) (s : EmailAlertService.Mailer) :
  (EmailAlertService.outbox s = [] ->
   EmailAlertService.spaced
     (EmailAlertService.outbox (EmailAlertService.sendAll T alerts s))) /\
  (forall alert s0,
      let subject := "[" ++ EmailAlertService.level_name (EmailAlertService.level alert)
                     ++ "] " ++ EmailAlertService.title alert ++ " - AI自动交易系统" in
      EmailAlertService.enabled s0 = true ->
      EmailAlertService.transporter s0 = true ->
      EmailAlertService.alertCooldown <=
        EmailAlertService.clock s0 -
        default 0 (EmailAlertService.lastAlertTime s0 !! EmailAlertService.alertKey alert) ->
      match EmailAlertService.buildEmailHtml T alert with
      | Throw _ => EmailAlertService.sendAlert T alert s0 = (Ok false, s0)
      | Ok html =>
          match EmailAlertService.sendMail T s0 subject html with
          | Throw _ => EmailAlertService.sendAlert T alert s0 = (Ok false, s0)
          | Ok _ =>
              EmailAlertService.sendAlert T alert s0 =
              (Ok true,
               EmailAlertService.mkMailer
                 (EmailAlertService.enabled s0) (EmailAlertService.transporter s0)
                 (<[EmailAlertService.alertKey alert := EmailAlertService.clock s0]>
                    (EmailAlertService.lastAlertTime s0))
                 (EmailAlertService.clock s0)
                 (EmailAlertService.outbox s0 ++
                  [EmailAlertService.mkMail (EmailAlertService.alertKey alert)
                     (EmailAlertService.clock s0)]))
          end
      end) /\
  (forall alert s0 ms,
      EmailAlertService.sendAlert T alert (EmailAlertService.pass ms s0) =
        (Ok false, EmailAlertService.pass ms s0) ->
      EmailAlertService.sendAll T ((ms, alert) :: alerts) s0 =
      EmailAlertService.sendAll T alerts (EmailAlertService.pass ms s0)).
Proof.
  split; [|split].
  - intros Hempty. apply sendAll_spaced.
    + intros i j m1 m2 _ H1. rewrite Hempty in H1. discriminate.
    + intros m Hm. rewrite Hempty in Hm. destruct Hm.
  - intros alert s0 subject Hen Htr Hcool. apply Z.ltb_ge in Hcool.
    destruct s0 as [en tr la cl ob].
    cbn [EmailAlertService.enabled EmailAlertService.transporter
         EmailAlertService.lastAlertTime EmailAlertService.clock EmailAlertService.outbox] in *.
    subst en tr.
    unfold EmailAlertService.sendAlert, bind, get, ret, try_catch,
      EmailAlertService.deliver, modify. cbv zeta.
    cbn [EmailAlertService.enabled EmailAlertService.transporter
         EmailAlertService.lastAlertTime EmailAlertService.clock EmailAlertService.outbox
         negb orb].
    rewrite Hcool.
    destruct (EmailAlertService.buildEmailHtml T alert) as [html|e]; [|reflexivity].
    fold subject.
    destruct (EmailAlertService.sendMail T _ subject html) as [[]|e]; reflexivity.
  - intros alert s0 ms Hfailed. cbn [EmailAlertService.sendAll].
    rewrite Hfailed. reflexivity.
Qed.

(** [testEmail] tells whether the service is configured, not whether the
    mail went out: it answers [true] whenever the service is enabled, also
    when the transporter rejects the mail and nothing is sent. *)
Theorem testEmail_reports_the_configuration (T : EmailAlertService.Smtp)
    (s : EmailAlertService.Mailer) :
  exists s',
    EmailAlertService.testEmail T s =
      (Ok (EmailAlertService.enabled s && EmailAlertService.transporter s), s') /\
    ((forall subject html, exists e, EmailAlertService.sendMail T s subject html = Throw e) ->
     s' = s).
Proof.
  unfold EmailAlertService.testEmail, bind, get, ret, try_catch.
  destruct (EmailAlertService.enabled s) eqn:He; [|exists s; split; [reflexivity | auto]].
  destruct (EmailAlertService.transporter s) eqn:Ht; [|exists s; split; [reflexivity | auto]].
  cbn [negb orb andb].
  set (alert := EmailAlertService.mkAlertMessage _ _ _).
  destruct (sendAlert_cases T alert s) as [-> | (_ & _ & _ & Hsent)].
  - exists s. split; [reflexivity | auto].
  - rewrite Hsent. eexists. split; [reflexivity|]. intros Hfail. exfalso.
    revert Hsent. unfold EmailAlertService.sendAlert, bind, get, ret, try_catch,
      EmailAlertService.deliver, modify. cbv zeta. rewrite He, Ht. cbn [negb orb].
    destruct (_ <? _); [discriminate|].
    destruct (EmailAlertService.buildEmailHtml T alert) as [html|e]; [|discriminate].
    match goal with |- context [EmailAlertService.sendMail T s ?subject html] =>
      destruct (Hfail subject html) as [e ->] end.
    discriminate.
Qed.

(** The transporter refuses the connection at [t0] and accepts every mail
    afterwards.  The same warning arrives at [t0], where the send fails, a
    second later, a second after that, and five minutes after that: the
    second and the fourth are sent.  The failed send left no time on record,
    so the second was not held back by the cooldown. *)
Lemma alerts_of_a_key_are_spaced_witness :
  let T := EmailAlertService.mkSmtp (fun _ => Ok "")
             (fun s _ _ => if EmailAlertService.clock s =? Scenario.t0
                           then Throw "ECONNREFUSED" else Ok tt) in
  let s := EmailAlertService.mkMailer true true ∅ Scenario.t0 [] in
  let alert := EmailAlertService.mkAlertMessage EmailAlertService.WARNING
                 "lease held for too long" "partial_tp_BTC_long_stage1" in
  let sent := EmailAlertService.outbox
                (EmailAlertService.sendAll T
                   [(0, alert); (1000, alert); (1000, alert); (300000, alert)] s) in
  EmailAlertService.spaced sent /\
  EmailAlertService.sendAlert T alert s = (Ok false, s) /\
  map EmailAlertService.m_time sent = [Scenario.t0 + 1000; Scenario.t0 + 302000].
Proof.
  intros T s alert sent. split; [|split].
  - apply (proj1 (alerts_of_a_key_are_spaced T _ s)). reflexivity.
  - apply (proj1 (proj2 (alerts_of_a_key_are_spaced T [] s)) alert s);
      [reflexivity | reflexivity | vm_compute; discriminate].
  - vm_compute. reflexivity.
Defined.

(* ===================================================================== *)
(** * The scoring functions of the strategies                             *)
(* ===================================================================== *)

Section ScoringFacts.
Import StrategyUtils.

Lemma Qlt_bool_iff a b : Qlt_bool a b = true <-> (a < b)%Q.
Proof.
  unfold Qlt_bool. rewrite negb_true_iff, <- not_true_iff_false, Qle_bool_iff.
  split; [apply Qnot_le_lt | apply Qlt_not_le].
Qed.

Lemma Qlt_bool_false a b : Qlt_bool a b = false <-> (b <= a)%Q.
Proof. unfold Qlt_bool. rewrite negb_false_iff. apply Qle_bool_iff. Qed.

Lemma ratio_monotone atr1 atr2 atrMa :
  (0 < atrMa)%Q -> (atr1 <= atr2)%Q -> (atr1 / atrMa <= atr2 / atrMa)%Q.
Proof.
  intros Hpos Hle. unfold Qdiv. apply Qmult_le_compat_r; [exact Hle|].
  apply Qlt_le_weak. apply Qinv_lt_0_compat. exact Hpos.
Qed.
End ScoringFacts.

(** The signal strength never exceeds 1, and it is not negative when the
    consistency across time frames is not: the score lies in the documented
    range from 0 to 1. *)
Theorem signal_strength_within_unit (indicators : StrategyUtils.Indicators) :
  (StrategyUtils.calculateSignalStrength indicators <= 1)%Q /\
  ((0 <= StrategyUtils.trendConsistency indicators)%Q ->
   (0 <= StrategyUtils.calculateSignalStrength indicators)%Q).
Proof.
  unfold StrategyUtils.calculateSignalStrength. cbv zeta. split; [apply Q.le_min_r|].
  intros Htrend. apply Q.min_glb; [|discriminate].
  set (rsi := StrategyUtils.i_rsi7 indicators).
  set (d := Qabs (StrategyUtils.i_macd indicators - StrategyUtils.i_macdSignal indicators)).
  set (a := Qabs (StrategyUtils.pricePosition indicators)).
  set (t := StrategyUtils.trendConsistency indicators) in *.
  assert (Hrsi : (0 <= (if StrategyUtils.Qlt_bool rsi 25 then 0 + 25 * (25 - rsi) / 25
                        else if StrategyUtils.Qlt_bool 75 rsi then 0 + 25 * (rsi - 75) / 25
                        else if Qle_bool 30 rsi && Qle_bool rsi 70 then 0 + 15 else 0))%Q).
  { unfold Qdiv. change (/ 25)%Q with (1 # 25)%Q.
    destruct (StrategyUtils.Qlt_bool rsi 25) eqn:H1; [apply Qlt_bool_iff in H1; lra|].
    destruct (StrategyUtils.Qlt_bool 75 rsi) eqn:H2; [apply Qlt_bool_iff in H2; lra|].
    destruct (Qle_bool 30 rsi && Qle_bool rsi 70); lra. }
  set (s1 := (if StrategyUtils.Qlt_bool rsi 25 then _ else _)) in *.
  assert (Hmacd : (s1 <= (if StrategyUtils.Qlt_bool 0 d then s1 + 20 * Qmin (d / 100) 1
                          else s1))%Q).
  { destruct (StrategyUtils.Qlt_bool 0 d) eqn:H1; [|lra].
    apply Qlt_bool_iff in H1.
    assert (0 <= Qmin (d / 100) 1)%Q.
    { apply Q.min_glb; [|discriminate].
      unfold Qdiv. change (/ 100)%Q with (1 # 100)%Q. lra. }
    lra. }
  set (s2 := (if StrategyUtils.Qlt_bool 0 d then _ else _)) in *.
  assert (Hema : (s2 <= (if StrategyUtils.emaAlignment indicators then s2 + 25 else s2))%Q)
    by (destruct (StrategyUtils.emaAlignment indicators); lra).
  set (s3 := (if StrategyUtils.emaAlignment indicators then _ else _)) in *.
  assert (Hprice : (s3 <= (if StrategyUtils.Qlt_bool a 3 then s3 + 15 * (1 - a / 3)
                           else s3))%Q).
  { unfold Qdiv. change (/ 3)%Q with (1 # 3)%Q.
    destruct (StrategyUtils.Qlt_bool a 3) eqn:H1; [|lra]. apply Qlt_bool_iff in H1. lra. }
  set (s4 := (if StrategyUtils.Qlt_bool a 3 then _ else _)) in *.
  assert (Hsum : (0 <= s4 + 15 * t)%Q) by lra.
  unfold Qdiv. change (/ (0 + 25 + 20 + 25 + 15 + 15))%Q with (1 # 100)%Q. lra.
Qed.

(** The RSI7 stands at 20, MACD and its signal coincide, the averages are
    aligned, the price is on its average and the time frames agree by half:
    the strength is 0.525. *)
Lemma signal_strength_within_unit_witness :
  let indicators := StrategyUtils.mkIndicators 20 35 12 12 true 0 (1 # 2) in
  (0 <= StrategyUtils.calculateSignalStrength indicators)%Q /\
  (StrategyUtils.calculateSignalStrength indicators == 21 # 40)%Q.
Proof.
  intros indicators. split.
  - apply (signal_strength_within_unit indicators). vm_compute. discriminate.
  - reflexivity.
Defined.

(** The alignment score lies between 0 and 1, and a setup is reported as
    aligned exactly from 0.6 on.  A setup is never reported as aligned when
    both the one-hour averages and the one-hour MACD speak against the
    direction. *)
Theorem alignment_needs_the_hour (timeframe15m timeframe1h : StrategyUtils.TimeframeAnalysis)
    (direction : StrategyUtils.Direction) :
  let result := StrategyUtils.checkMultiTimeframeAlignment timeframe15m timeframe1h direction in
  (0 <= StrategyUtils.score result <= 1)%Q /\
  (StrategyUtils.aligned result = true <-> (6 # 10 <= StrategyUtils.score result)%Q) /\
  (StrategyUtils.aligned result = true ->
   match direction with
   | StrategyUtils.long =>
       (StrategyUtils.ema50 timeframe1h < StrategyUtils.ema20 timeframe1h)%Q \/
       (0 < StrategyUtils.macd timeframe1h)%Q
   | StrategyUtils.short =>
       (StrategyUtils.ema20 timeframe1h <= StrategyUtils.ema50 timeframe1h)%Q \/
       (StrategyUtils.macd timeframe1h <= 0)%Q
   end).
Proof.
  cbv zeta. unfold StrategyUtils.checkMultiTimeframeAlignment. cbv zeta.
  cbn [StrategyUtils.aligned StrategyUtils.score].
  rewrite Qle_bool_iff.
  destruct (StrategyUtils.Qlt_bool (StrategyUtils.ema50 timeframe1h)
              (StrategyUtils.ema20 timeframe1h)) eqn:Hema;
    destruct (StrategyUtils.Qlt_bool 0 (StrategyUtils.macd timeframe1h)) eqn:Hmacd;
    try apply Qlt_bool_iff in Hema; try apply Qlt_bool_false in Hema;
    try apply Qlt_bool_iff in Hmacd; try apply Qlt_bool_false in Hmacd;
    destruct direction; cbn [StrategyUtils.is_long StrategyUtils.is_short andb negb];
    repeat match goal with
           | |- context [StrategyUtils.Qlt_bool ?x ?y] => destruct (StrategyUtils.Qlt_bool x y)
           end;
    cbn [andb negb];
    (split; [split; vm_compute; discriminate|]); (split; [tauto|]);
    first [ intros _; tauto | intros H; vm_compute in H; exfalso; apply H; reflexivity ].
Qed.

(** Against a positive average, a higher ATR never raises the leverage
    multiplier nor the adjustment; the multiplier stays between 0.6 and 1,
    the adjustment between 0.6 and 1.2, and [baseVolatility] has no
    influence. *)
Theorem higher_volatility_never_raises_leverage (atr1 atr2 atrMa base1 base2 : Q) :
  (0 < atrMa)%Q -> (atr1 <= atr2)%Q ->
  let lower := StrategyUtils.calculateVolatilityAdjustment atr1 atrMa base1 in
  let higher := StrategyUtils.calculateVolatilityAdjustment atr2 atrMa base2 in
  (StrategyUtils.leverageMultiplier higher <= StrategyUtils.leverageMultiplier lower)%Q /\
  (StrategyUtils.adjustment higher <= StrategyUtils.adjustment lower)%Q /\
  (6 # 10 <= StrategyUtils.leverageMultiplier lower <= 1)%Q /\
  (6 # 10 <= StrategyUtils.adjustment lower <= 12 # 10)%Q.
Proof.
  intros Hpos Hle. pose proof (ratio_monotone atr1 atr2 atrMa Hpos Hle) as Hratio.
  cbv zeta. unfold StrategyUtils.calculateVolatilityAdjustment. cbv zeta.
  set (r1 := (atr1 / atrMa)%Q) in *. set (r2 := (atr2 / atrMa)%Q) in *.
  destruct (StrategyUtils.Qlt_bool r1 (8 # 10)) eqn:A1;
    destruct (StrategyUtils.Qlt_bool r1 (12 # 10)) eqn:A2;
    destruct (StrategyUtils.Qlt_bool r1 (18 # 10)) eqn:A3;
    destruct (StrategyUtils.Qlt_bool r2 (8 # 10)) eqn:B1;
    destruct (StrategyUtils.Qlt_bool r2 (12 # 10)) eqn:B2;
    destruct (StrategyUtils.Qlt_bool r2 (18 # 10)) eqn:B3;
    cbn [StrategyUtils.leverageMultiplier StrategyUtils.adjustment];
    try (repeat split; vm_compute; discriminate);
    exfalso;
    repeat match goal with
           | H : StrategyUtils.Qlt_bool _ _ = true |- _ => apply Qlt_bool_iff in H
           | H : StrategyUtils.Qlt_bool _ _ = false |- _ => apply Qlt_bool_false in H
           end;
    lra.
Qed.

(** The ATR rises from 0.9 to 1.9 times its average: the multiplier falls
    from 1 to 0.6. *)
Lemma higher_volatility_witness :
  let lower := StrategyUtils.calculateVolatilityAdjustment (9 # 10) 1 1 in
  let higher := StrategyUtils.calculateVolatilityAdjustment (19 # 10) 1 1 in
  (StrategyUtils.leverageMultiplier higher <= StrategyUtils.leverageMultiplier lower)%Q /\
  StrategyUtils.status lower = StrategyUtils.normal /\
  StrategyUtils.status higher = StrategyUtils.extreme.
Proof.
  cbv zeta. split; [|split; reflexivity].
  apply (higher_volatility_never_raises_leverage (9 # 10) (19 # 10) 1 1 1).
  - reflexivity.
  - vm_compute. discriminate.
Defined.
